(** * The pure-TypeScript offset engine of the offsetPath plugin

    A shallow embedding of the geometry core of the plugin (the file that
    defines [offsetSvgPath]): path parser, Bezier flattener, polygon
    builder, vertex-bisector offset engine, anchor translation and
    serializer, and the properties the specification states about them.
    The plugin object itself ([init], [render], [kill]) is in [Plugin].

    Numbers are JavaScript numbers, that is IEEE 754 binary64 values: they
    are embedded as Rocq's primitive [float], whose [+ - * /], [sqrt],
    [abs] and comparisons are the same operations.  The other built-ins the
    code calls ([Math.round], [Math.ceil], [Math.max], [parseFloat],
    [toFixed], [trim]) are written out below from ECMA-262.  The four
    transcendental functions ([Math.atan2], [Math.cos], [Math.sin],
    [Math.acos]) are implementation-approximated in ECMA-262, so the engine
    takes them as a parameter ([Libm]); [refLibm] is one implementation,
    used to run examples.

    Loops whose termination depends on the data (the parser's main loop,
    the recursive subdivision, the angle normalisation) take a [fuel] bound
    and return [None] when it runs out. *)

From Stdlib Require Import ZArith QArith Qabs Qpower Floats List String Ascii Bool
  Lia Lqa.
Import ListNotations.
Set Warnings "-inexact-float".

Local Open Scope Z_scope.

(* ------------------------------------------------------------------ *)
(** * JavaScript built-ins                                              *)
(* ------------------------------------------------------------------ *)

Module JS.

(** ** Numbers *)

(** Nearest binary64 value of the integer [n] taken with sign [s]
    ([n] is the magnitude); zero keeps the sign. *)
Definition Z2float (s : bool) (n : Z) : float :=
  SF2Prim (binary_normalize prec emax (if s then - n else n) 0 s).

(** Nearest binary64 value of the quotient [n / d] of two positive
    integers, with sign [s]. *)
Definition Q2float (s : bool) (n d : positive) : float :=
  SF2Prim (SFdiv prec emax (S754_finite s n 0) (S754_finite false d 0)).

Definition isFinite (x : float) : bool := is_finite x.

Definition Math_PI : float := 0x1.921fb54442d18p+1%float.

Definition Math_abs (x : float) : float := abs x.

Definition Math_sqrt (x : float) : float := sqrt x.

(** [Math.round]: nearest integer, ties towards +infinity; NaN, the
    infinities and both zeros are returned as they are, and a negative
    argument that rounds to zero gives -0. *)
Definition Math_round (x : float) : float :=
  match Prim2SF x with
  | S754_finite s m e =>
      if 0 <=? e then x
      else
        let k := 2 ^ (- e) in
        let n := if s then - ((k - 2 * Zpos m) / (2 * k))
                 else (2 * Zpos m + k) / (2 * k) in
        Z2float s n
  | _ => x
  end.

(** [Math.ceil]. *)
Definition Math_ceil (x : float) : float :=
  match Prim2SF x with
  | S754_finite s m e =>
      if 0 <=? e then x
      else
        let k := 2 ^ (- e) in
        let n := if s then Zpos m / k else - ((- Zpos m) / k) in
        Z2float s n
  | _ => x
  end.

(** [Math.max] of two arguments: NaN if either is NaN, and +0 is larger
    than -0. *)
Definition Math_max (a b : float) : float :=
  if is_nan a || is_nan b then nan
  else if (a <? b)%float then b
  else if (b <? a)%float then a
  else if get_sign a then b else a.

(** The value of a number as an integer, for a number that is one:
    [Some n] when [x] is finite and integral. *)
Definition toIntegerSF (sf : spec_float) : option Z :=
  match sf with
  | S754_zero _ => Some 0
  | S754_finite s m e =>
      if 0 <=? e then Some ((if s then -1 else 1) * (Zpos m * 2 ^ e))
      else if Zpos m mod 2 ^ (- e) =? 0
           then Some ((if s then -1 else 1) * (Zpos m / 2 ^ (- e)))
           else None
  | _ => None
  end.

Definition toInteger (x : float) : option Z := toIntegerSF (Prim2SF x).

(** ** Characters and strings (code units below 256) *)

Definition code (c : ascii) : N := N_of_ascii c.

Definition isDigit (c : ascii) : bool :=
  (48 <=? code c)%N && (code c <=? 57)%N.

(** The test the parser writes as
    [(ch >= 'A' && ch <= 'Z') || (ch >= 'a' && ch <= 'z')]. *)
Definition isLetter (c : ascii) : bool :=
  ((65 <=? code c)%N && (code c <=? 90)%N)
  || ((97 <=? code c)%N && (code c <=? 122)%N).

(** White space and line terminators of ECMA-262 in this range. *)
Definition isWhiteSpace (c : ascii) : bool :=
  ((9 <=? code c)%N && (code c <=? 13)%N)
  || (code c =? 32)%N || (code c =? 160)%N.

Fixpoint trimStart (s : string) : string :=
  match s with
  | String c r => if isWhiteSpace c then trimStart r else s
  | EmptyString => EmptyString
  end.

Fixpoint rev_string (s acc : string) : string :=
  match s with
  | String c r => rev_string r (String c acc)
  | EmptyString => acc
  end.

Definition trim (s : string) : string :=
  rev_string (trimStart (rev_string (trimStart s) EmptyString)) EmptyString.

(** [s.slice(a, b)] for [0 <= a], [b <= s.length]. *)
Definition slice (s : string) (a b : nat) : string :=
  substring a (b - a) s.

(** Decimal digits of a non-negative integer, most significant first. *)
Fixpoint digitsOf (fuel : nat) (n : Z) (acc : string) : string :=
  match fuel with
  | O => acc
  | S f =>
      let acc' := String (ascii_of_N (48 + Z.to_N (n mod 10))) acc in
      if n <? 10 then acc' else digitsOf f (n / 10) acc'
  end.

Definition decimal (n : Z) : string :=
  digitsOf (S (Z.to_nat (Z.log2 n))) n EmptyString.

(** ** parseFloat *)

(** Reads a run of decimal digits: value so far, number of digits read,
    rest of the string. *)
Fixpoint readDigits (s : string) (acc : Z) (cnt : nat) : Z * nat * string :=
  match s with
  | String c r =>
      if isDigit c then readDigits r (10 * acc + (Z.of_N (code c) - 48)) (S cnt)
      else (acc, cnt, s)
  | EmptyString => (acc, cnt, s)
  end.

(** Nearest binary64 value of [m * 10^e], [m >= 0], with sign [s].  The two
    guards only skip the big-number arithmetic where the result is already
    decided: fewer than [nd] digits and [nd + e < -330] is below half the
    least subnormal, [m >= 1] and [e > 310] is above the largest number. *)
Definition decToFloat (s : bool) (m : Z) (nd : nat) (e : Z) : float :=
  match m with
  | Zpos p =>
      if Z.of_nat nd + e <? -330 then Z2float s 0
      else if 310 <? e then (if s then neg_infinity else infinity)
      else if 0 <=? e then Z2float s (m * 10 ^ e)
      else Q2float s p (Z.to_pos (10 ^ (- e)))
  | _ => Z2float s 0
  end.

Definition readSign (s : string) : bool * string :=
  match s with
  | String "-" r => (true, r)
  | String "+" r => (false, r)
  | _ => (false, s)
  end.

(** The exponent part [e[+-]digits], when it is there with at least one
    digit. *)
Definition readExponent (s : string) : Z :=
  match s with
  | String c r =>
      if (code c =? 101)%N || (code c =? 69)%N then
        let '(neg, r1) := readSign r in
        let '(v, cnt, _) := readDigits r1 0 O in
        match cnt with
        | O => 0
        | _ => if neg then - v else v
        end
      else 0
  | EmptyString => 0
  end.

(** [parseFloat]: the longest prefix of the trimmed string that is a
    decimal literal, NaN when there is none. *)
Definition parseFloat (str : string) : float :=
  let '(neg, s1) := readSign (trimStart str) in
  if prefix "Infinity" s1 then (if neg then neg_infinity else infinity)
  else
    let '(i, ni, s2) := readDigits s1 0 O in
    let '(m, nf, s3) :=
      match s2 with
      | String "." r =>
          let '(m, nf, r') := readDigits r i O in
          match ni, nf with
          | O, O => (i, O, s2)
          | _, _ => (m, nf, r')
          end
      | _ => (i, O, s2)
      end in
    match ni, nf with
    | O, O => nan
    | _, _ => decToFloat neg m (ni + nf) (readExponent s3 - Z.of_nat nf)
    end.

(** ** Number.prototype.toString (radix 10) and toFixed(2) *)

(** The shortest decimal [s * 10^p] that reads back as [x], for an integral
    [x] of value [n > 0]: tries [k] = 1, 2, ... significant digits and, for
    each, the two [k]-digit neighbours of [n], nearest first. *)
Fixpoint shortest (fuel k : nat) (x : float) (n : Z) (nd : nat) : Z * Z :=
  match fuel with
  | O => (n, 0)
  | S f =>
      let p := Z.of_nat (nd - k) in
      let lo := n / 10 ^ p in
      let hi := lo + 1 in
      let okLo := Leibniz.eqb (Z2float false (lo * 10 ^ p)) x in
      let okHi := Leibniz.eqb (Z2float false (hi * 10 ^ p)) x in
      let loFirst := (2 * n <? (lo + hi) * 10 ^ p)
                     || ((2 * n =? (lo + hi) * 10 ^ p) && Z.even lo) in
      if okLo && (loFirst || negb okHi) then (lo, p)
      else if okHi then (hi, p)
      else shortest f (S k) x n nd
  end.

Fixpoint stripZeros (fuel : nat) (s p : Z) : Z * Z :=
  match fuel with
  | O => (s, p)
  | S f => if (s mod 10 =? 0) && (0 <? s) then stripZeros f (s / 10) (p + 1)
           else (s, p)
  end.

(** Radix-10 string of a number that is not finite or is at least 1e21 in
    magnitude (the only case [toFixed] hands over). *)
Definition Number_toString (x : float) : string :=
  match Prim2SF x with
  | S754_nan => "NaN"
  | S754_infinity s => if s then "-Infinity" else "Infinity"
  | S754_zero _ => "0"
  | S754_finite sg m e =>
      let n := Zpos m * 2 ^ e in
      let nd := String.length (decimal n) in
      let '(s0, p0) := shortest 17 1 (Math_abs x) n nd in
      let '(s, p) := stripZeros 400 s0 p0 in
      let ds := decimal s in
      let ex := Z.of_nat (String.length ds) + p - 1 in
      let mant :=
        match ds with
        | String d EmptyString => ds
        | String d r => String d (String "." r)
        | EmptyString => ds
        end in
      ((if sg then "-" else "") ++ mant ++ "e+" ++ decimal ex)%string
  end.

(** [x.toFixed(2)]. *)
Definition toFixed2 (x : float) : string :=
  match Prim2SF x with
  | S754_nan => "NaN"
  | S754_zero _ => "0.00"
  | S754_infinity _ => Number_toString x
  | S754_finite sg m e =>
      if (1e21 <=? Math_abs x)%float then Number_toString x
      else
        let n := if 0 <=? e then 100 * Zpos m * 2 ^ e
                 else (200 * Zpos m + 2 ^ (- e)) / (2 * 2 ^ (- e)) in
        let ds := decimal n in
        let ds := match String.length ds with
                  | 1%nat => ("00" ++ ds)%string
                  | 2%nat => ("0" ++ ds)%string
                  | _ => ds
                  end in
        let k := (String.length ds - 2)%nat in
        ((if sg then "-" else "") ++ substring 0 k ds ++ "."
           ++ substring k 2 ds)%string
  end.

End JS.

(* ------------------------------------------------------------------ *)
(** * The transcendental functions                                      *)
(* ------------------------------------------------------------------ *)

(** What the engine calls from [Math] and ECMA-262 leaves to the
    implementation. *)
Record Libm := {
  Math_atan2 : float -> float -> float;
  Math_cos : float -> float;
  Math_sin : float -> float;
  Math_acos : float -> float
}.

(** One implementation, by argument reduction and power series, with the
    boundary cases ECMA-262 fixes. *)
Module RefLibm.
Import JS.
Local Open Scope float_scope.

Fixpoint horner (cs : list float) (y : float) : float :=
  match cs with
  | [] => 0
  | c :: r => c + y * horner r y
  end.

(** [c; -c/(k(k+1)); c/(k(k+1)(k+2)(k+3)); ...], [n] terms. *)
Fixpoint factorialSeries (n : nat) (c k : float) : list float :=
  match n with
  | O => []
  | S n' => c :: factorialSeries n' (- c / (k * (k + 1))) (k + 2)
  end.

(** [1; -1/3; 1/5; ...], [n] terms. *)
Fixpoint oddSeries (n : nat) (sg k : float) : list float :=
  match n with
  | O => []
  | S n' => sg / k :: oddSeries n' (- sg) (k + 2)
  end.

(** Brings an angle into [-pi, pi]. *)
Definition reduce (x : float) : float :=
  if abs x <=? Math_PI then x
  else x - Math_round (x / (2 * Math_PI)) * (2 * Math_PI).

Definition sinSeries (r : float) : float :=
  r * horner (factorialSeries 14 1 2) (r * r).

Definition cosSeries (r : float) : float :=
  horner (factorialSeries 14 1 1) (r * r).

Definition sin (x : float) : float :=
  if is_nan x || is_infinity x then nan
  else
    let r := reduce x in
    if Math_PI / 2 <? r then sinSeries (Math_PI - r)
    else if r <? - (Math_PI / 2) then sinSeries (- Math_PI - r)
    else sinSeries r.

Definition cos (x : float) : float :=
  if is_nan x || is_infinity x then nan
  else
    let r := reduce x in
    if Math_PI / 2 <? r then - cosSeries (Math_PI - r)
    else if r <? - (Math_PI / 2) then - cosSeries (- Math_PI - r)
    else cosSeries r.

Definition halve (y : float) : float := y / (1 + sqrt (1 + y * y)).

Definition atanUnit (y : float) : float :=
  let z := halve (halve (halve y)) in
  8 * (z * horner (oddSeries 14 1 1) (z * z)).

Definition atan (y : float) : float :=
  if is_nan y then nan
  else if abs y <=? 1 then atanUnit y
  else if 0 <? y then Math_PI / 2 - atanUnit (1 / y)
  else - (Math_PI / 2) - atanUnit (1 / y).

Definition signed (negative : bool) (v : float) : float :=
  if negative then - v else v.

Definition atan2 (y x : float) : float :=
  if is_nan y || is_nan x then nan
  else if is_zero y then
    (if get_sign x then signed (get_sign y) Math_PI else y)
  else if is_zero x then signed (get_sign y) (Math_PI / 2)
  else if is_infinity x then
    (if is_infinity y then
       signed (get_sign y)
         (if get_sign x then 3 * Math_PI / 4 else Math_PI / 4)
     else signed (get_sign y) (if get_sign x then Math_PI else 0))
  else if is_infinity y then signed (get_sign y) (Math_PI / 2)
  else
    let a := atan (y / x) in
    if 0 <? x then a
    else if get_sign y then a - Math_PI else a + Math_PI.

Definition acos (x : float) : float :=
  if is_nan x || (1 <? abs x) then nan
  else if x =? 1 then 0
  else atan2 (sqrt ((1 - x) * (1 + x))) x.

End RefLibm.

Definition refLibm : Libm :=
  {| Math_atan2 := RefLibm.atan2;
     Math_cos := RefLibm.cos;
     Math_sin := RefLibm.sin;
     Math_acos := RefLibm.acos |}.

(* ------------------------------------------------------------------ *)
(** * Constants, enums and 2D point helpers                             *)
(* ------------------------------------------------------------------ *)

Import JS.

Definition SCALE : float := 1000%float.
Definition FLATTEN_TOLERANCE : float := 0.1%float.

Inductive JoinType := JoinSquare | JoinBevel | JoinRound | JoinMiter.
Inductive EndType := EndPolygon | EndJoined | EndButt | EndSquare | EndRound.

(** The numeric codes of [types.ts]. *)
Definition JoinType_code (j : JoinType) : Z :=
  match j with
  | JoinSquare => 0 | JoinBevel => 1 | JoinRound => 2 | JoinMiter => 3
  end.

Definition EndType_code (e : EndType) : Z :=
  match e with
  | EndPolygon => 0 | EndJoined => 1 | EndButt => 2 | EndSquare => 3
  | EndRound => 4
  end.

Definition Pt : Type := float * float.

Section PointHelpers.
Local Open Scope float_scope.

Definition sub (a b : Pt) : Pt := (fst a - fst b, snd a - snd b).
Definition add (a b : Pt) : Pt := (fst a + fst b, snd a + snd b).
Definition scale2 (a : Pt) (s : float) : Pt := (fst a * s, snd a * s).
Definition dot (a b : Pt) : float := fst a * fst b + snd a * snd b.
Definition cross (a b : Pt) : float := fst a * snd b - snd a * fst b.
Definition len (a : Pt) : float := Math_sqrt (fst a * fst a + snd a * snd a).
Definition norm (a : Pt) : Pt :=
  let l := len a in
  if 1e-10 <? l then (fst a / l, snd a / l) else (0, 0).
Definition leftNormal (e : Pt) : Pt := (- snd e, fst e).

End PointHelpers.

(* ------------------------------------------------------------------ *)
(** * SVG path parser                                                   *)
(* ------------------------------------------------------------------ *)

Record ParseState := { src : string; pos : nat }.

Definition atEnd (s : ParseState) : bool :=
  negb (pos s <? String.length (src s))%nat.

(** [s.src[s.pos]]; [None] stands for [undefined] past the end. *)
Definition charAt (s : ParseState) : option ascii := String.get (pos s) (src s).

Definition charIs (p : ascii -> bool) (s : ParseState) : bool :=
  match charAt s with
  | Some c => p c
  | None => false
  end.

Definition bump (s : ParseState) : ParseState :=
  {| src := src s; pos := S (pos s) |}.

Fixpoint dropStr (n : nat) (s : string) : string :=
  match n, s with
  | S n', String _ r => dropStr n' r
  | _, _ => s
  end.

Fixpoint scanWhile (p : ascii -> bool) (rest : string) (i : nat) : nat :=
  match rest with
  | String c r => if p c then scanWhile p r (S i) else i
  | EmptyString => i
  end.

(** [while (s.pos < s.src.length && p(s.src[s.pos])) s.pos++]. *)
Definition advanceWhile (p : ascii -> bool) (s : ParseState) : ParseState :=
  {| src := src s; pos := scanWhile p (dropStr (pos s) (src s)) (pos s) |}.

Definition isSep (c : ascii) : bool :=
  (code c =? 32)%N || (code c =? 9)%N || (code c =? 10)%N
  || (code c =? 13)%N || (code c =? 44)%N.

Definition isSign (c : ascii) : bool := (code c =? 45)%N || (code c =? 43)%N.
Definition isDot (c : ascii) : bool := (code c =? 46)%N.
Definition isExp (c : ascii) : bool := (code c =? 101)%N || (code c =? 69)%N.

Definition skipSep (s : ParseState) : ParseState := advanceWhile isSep s.

Definition parseNumber (s0 : ParseState) : float * ParseState :=
  let s := skipSep s0 in
  let start := pos s in
  let s := if charIs isSign s then bump s else s in
  let s := advanceWhile isDigit s in
  let s := if charIs isDot s then advanceWhile isDigit (bump s) else s in
  let s :=
    if charIs isExp s then
      let s := bump s in
      let s := if charIs isSign s then bump s else s in
      advanceWhile isDigit s
    else s in
  (parseFloat (slice (src s) start (pos s)), s).

Inductive Segment :=
| SegM (to : Pt)
| SegL (to : Pt)
| SegC (c1 c2 to : Pt)
| SegQ (ctrl to : Pt).

Record Subpath := { segs : list Segment; closed : bool }.

(** The variables of [parseSvgPath].  The array [subpaths] always ends with
    the object [current] points to, so it is kept as the finished subpaths
    ([earlier]) and the one still written to ([current]); [cmd = None] is
    the empty string. *)
Record Parser := {
  st : ParseState;
  earlier : list Subpath;
  current : option Subpath;
  cx : float;
  cy : float;
  cmd : option ascii
}.

Definition subpathsOf (p : Parser) : list Subpath :=
  earlier p ++ match current p with Some c => [c] | None => [] end.

Definition withSt (p : Parser) (s : ParseState) : Parser :=
  {| st := s; earlier := earlier p; current := current p;
     cx := cx p; cy := cy p; cmd := cmd p |}.

Definition cmdIs (p : Parser) (c : ascii) : bool :=
  match cmd p with
  | Some k => Ascii.eqb k c
  | None => false
  end.

(** [current = { segs: [M start], closed: false }; subpaths.push(current)]. *)
Definition newSubpath (p : Parser) (start : Pt) : list Subpath * Subpath :=
  (subpathsOf p, {| segs := [SegM start]; closed := false |}).

(** [if (!current) { current = ...; subpaths.push(current) }
    current.segs.push(seg)]. *)
Definition pushSeg (p : Parser) (start : Pt) (seg : Segment)
  : list Subpath * Subpath :=
  match current p with
  | Some c => (earlier p, {| segs := segs c ++ [seg]; closed := closed c |})
  | None => (earlier p, {| segs := [SegM start; seg]; closed := false |})
  end.

Definition rel (p : Parser) (absolute : ascii) (base v : float) : float :=
  if cmdIs p absolute then v else (base + v)%float.

(** The command dispatch at the end of the loop body, followed by the
    closing [skipSep]. *)
Definition dispatch (p : Parser) : Parser :=
  let s := st p in
  let q :=
    if cmdIs p "M" || cmdIs p "m" then
      let '(x, s) := parseNumber s in
      let '(y, s) := parseNumber (skipSep s) in
      let ax := rel p "M" (cx p) x in
      let ay := rel p "M" (cy p) y in
      let '(e, c) := newSubpath p (ax, ay) in
      {| st := s; earlier := e; current := Some c; cx := ax; cy := ay;
         cmd := Some (if cmdIs p "M" then "L" else "l")%char |}
    else if cmdIs p "L" || cmdIs p "l" then
      let '(x, s) := parseNumber s in
      let '(y, s) := parseNumber (skipSep s) in
      let ax := rel p "L" (cx p) x in
      let ay := rel p "L" (cy p) y in
      let '(e, c) := pushSeg p (ax, ay) (SegL (ax, ay)) in
      {| st := s; earlier := e; current := Some c; cx := ax; cy := ay;
         cmd := cmd p |}
    else if cmdIs p "H" || cmdIs p "h" then
      let '(x, s) := parseNumber s in
      let ax := rel p "H" (cx p) x in
      let '(e, c) := pushSeg p (ax, cy p) (SegL (ax, cy p)) in
      {| st := s; earlier := e; current := Some c; cx := ax; cy := cy p;
         cmd := cmd p |}
    else if cmdIs p "V" || cmdIs p "v" then
      let '(y, s) := parseNumber s in
      let ay := rel p "V" (cy p) y in
      let '(e, c) := pushSeg p (cx p, ay) (SegL (cx p, ay)) in
      {| st := s; earlier := e; current := Some c; cx := cx p; cy := ay;
         cmd := cmd p |}
    else if cmdIs p "C" || cmdIs p "c" then
      let '(x1, s) := parseNumber s in
      let '(y1, s) := parseNumber (skipSep s) in
      let '(x2, s) := parseNumber (skipSep s) in
      let '(y2, s) := parseNumber (skipSep s) in
      let '(x, s) := parseNumber (skipSep s) in
      let '(y, s) := parseNumber (skipSep s) in
      let c1 := (rel p "C" (cx p) x1, rel p "C" (cy p) y1) in
      let c2 := (rel p "C" (cx p) x2, rel p "C" (cy p) y2) in
      let to := (rel p "C" (cx p) x, rel p "C" (cy p) y) in
      let '(e, c) := pushSeg p (cx p, cy p) (SegC c1 c2 to) in
      {| st := s; earlier := e; current := Some c; cx := fst to;
         cy := snd to; cmd := cmd p |}
    else if cmdIs p "Q" || cmdIs p "q" then
      let '(x1, s) := parseNumber s in
      let '(y1, s) := parseNumber (skipSep s) in
      let '(x, s) := parseNumber (skipSep s) in
      let '(y, s) := parseNumber (skipSep s) in
      let ctrl := (rel p "Q" (cx p) x1, rel p "Q" (cy p) y1) in
      let to := (rel p "Q" (cx p) x, rel p "Q" (cy p) y) in
      let '(e, c) := pushSeg p (cx p, cy p) (SegQ ctrl to) in
      {| st := s; earlier := e; current := Some c; cx := fst to;
         cy := snd to; cmd := cmd p |}
    else withSt p (bump s) in
  withSt q (skipSep (st q)).

Inductive Flow := Continue | Break.

(** One pass through the body of the [while] loop, entered with
    [s.pos < s.src.length]. *)
Definition parseStep (p0 : Parser) : Flow * Parser :=
  let ch := charAt (st p0) in
  let chIs (f : ascii -> bool) :=
    match ch with Some c => f c | None => false end in
  let p1 :=
    if chIs isLetter then
      {| st := skipSep (bump (st p0)); earlier := earlier p0;
         current := current p0; cx := cx p0; cy := cy p0; cmd := ch |}
    else p0 in
  if cmdIs p1 "Z" || cmdIs p1 "z" then
    (Continue,
     {| st := skipSep (st p1); earlier := earlier p1;
        current :=
          match current p1 with
          | Some c => Some {| segs := segs c; closed := true |}
          | None => None
          end;
        cx := cx p1; cy := cy p1; cmd := None |})
  else
    let body (q : Parser) : Flow * Parser :=
      if negb (atEnd (st q)) && charIs isLetter (st q) then (Continue, q)
      else (Continue, dispatch q) in
    if match cmd p1 with None => true | Some _ => false end
       || chIs (fun c => (code c =? 32)%N || (code c =? 9)%N
                         || (code c =? 10)%N || (code c =? 13)%N
                         || (code c =? 44)%N)
    then
      let p2 := withSt p1 (skipSep (st p1)) in
      if atEnd (st p2) then (Break, p2)
      else if charIs isLetter (st p2) then (Continue, p2)
      else match cmd p2 with
           | None => (Break, p2)
           | Some _ => body p2
           end
    else body p1.

Fixpoint parseLoop (fuel : nat) (p : Parser) : option Parser :=
  if atEnd (st p) then Some p
  else
    match fuel with
    | O => None
    | S f =>
        match parseStep p with
        | (Continue, q) => parseLoop f q
        | (Break, q) => Some q
        end
    end.

Definition parseSvgPath (fuel : nat) (pathData : string)
  : option (list Subpath) :=
  option_map subpathsOf
    (parseLoop fuel
       {| st := {| src := trim pathData; pos := 0 |}; earlier := [];
          current := None; cx := 0%float; cy := 0%float; cmd := None |}).

(* ------------------------------------------------------------------ *)
(** * Control                                                           *)
(* ------------------------------------------------------------------ *)

(** A computation that may not return: [None] is a run the fuel did not
    cover (or one that never ends). *)
Definition bind {A B : Type} (m : option A) (k : A -> option B) : option B :=
  match m with
  | Some a => k a
  | None => None
  end.

Notation "x <- m ;; k" := (bind m (fun x => k))
  (at level 61, m at next level, right associativity).

(** [while (cond(s)) s = body(s)]. *)
Fixpoint while {S : Type} (fuel : nat) (cond : S -> bool) (body : S -> S)
  (s : S) : option S :=
  if cond s then
    match fuel with
    | O => None
    | S f => while f cond body (body s)
    end
  else Some s.

(** [for (const x of xs) acc = body(acc, x)], with a body that may not
    return. *)
Fixpoint forEach {A S : Type} (xs : list A) (body : S -> A -> option S)
  (acc : S) : option S :=
  match xs with
  | [] => Some acc
  | x :: r => acc' <- body acc x ;; forEach r body acc'
  end.

(* ------------------------------------------------------------------ *)
(** * Bezier flattening                                                 *)
(* ------------------------------------------------------------------ *)

Section Pipeline.
Local Open Scope float_scope.

(** The flatness test of [flattenCubic]. *)
Definition isFlat (p0 p1 p2 p3 : Pt) (tol : float) : bool :=
  let ux := 3 * fst p1 - 2 * fst p0 - fst p3 in
  let uy := 3 * snd p1 - 2 * snd p0 - snd p3 in
  let vx := 3 * fst p2 - 2 * fst p3 - fst p0 in
  let vy := 3 * snd p2 - 2 * snd p3 - snd p0 in
  Math_max (ux * ux + uy * uy) (vx * vx + vy * vy) <=? 16 * tol * tol.

Definition midpoint (a b : Pt) : Pt :=
  ((fst a + fst b) / 2, (snd a + snd b) / 2).

(** [out] is the array the function pushes to; the result is the array
    after the call.  [fuel] bounds the depth of the recursion. *)
Fixpoint flattenCubic (fuel : nat) (p0 p1 p2 p3 : Pt) (tol : float)
  (out : list Pt) : option (list Pt) :=
  if isFlat p0 p1 p2 p3 tol then Some (out ++ [p3])
  else
    match fuel with
    | O => None
    | S f =>
        let m01 := midpoint p0 p1 in
        let m12 := midpoint p1 p2 in
        let m23 := midpoint p2 p3 in
        let m012 := midpoint m01 m12 in
        let m123 := midpoint m12 m23 in
        let mid := midpoint m012 m123 in
        out1 <- flattenCubic f p0 m01 m012 mid tol out ;;
        flattenCubic f mid m123 m23 p3 tol out1
    end.

Definition flattenQuadratic (fuel : nat) (p0 p1 p2 : Pt) (tol : float)
  (out : list Pt) : option (list Pt) :=
  let c1 := (fst p0 + (2 / 3) * (fst p1 - fst p0),
             snd p0 + (2 / 3) * (snd p1 - snd p0)) in
  let c2 := (fst p2 + (2 / 3) * (fst p1 - fst p2),
             snd p2 + (2 / 3) * (snd p1 - snd p2)) in
  flattenCubic fuel p0 c1 c2 p2 tol out.

(* ------------------------------------------------------------------ *)
(** * SVG path to integer points                                        *)
(* ------------------------------------------------------------------ *)

(** The loop of [svgToPoints] over the segments of the first subpath. *)
Fixpoint flattenSegs (fuel : nat) (tol : float) (sgs : list Segment)
  (cur : Pt) (floatPts : list Pt) : option (list Pt) :=
  match sgs with
  | [] => Some floatPts
  | SegM to :: r => flattenSegs fuel tol r to (floatPts ++ [to])
  | SegL to :: r => flattenSegs fuel tol r to (floatPts ++ [to])
  | SegC c1 c2 to :: r =>
      out <- flattenCubic fuel cur c1 c2 to tol floatPts ;;
      flattenSegs fuel tol r to out
  | SegQ ctrl to :: r =>
      out <- flattenQuadratic fuel cur ctrl to tol floatPts ;;
      flattenSegs fuel tol r to out
  end.

(** [floatPts.map(([x, y]) => [Math.round(x * sc), Math.round(y * sc)])]. *)
Definition scalePts (sc : float) (floatPts : list Pt) : list Pt :=
  map (fun p => (Math_round (fst p * sc), Math_round (snd p * sc))) floatPts.

(** [pts[i]] for [i] in range. *)
Definition nthPt (pts : list Pt) (i : nat) : Pt := nth i pts (nan, nan).

(** The shoelace sum of [svgToPoints], accumulated from 0 in index
    order. *)
Definition shoelace (pts : list Pt) : float :=
  fold_left
    (fun area i =>
       let j := ((i + 1) mod List.length pts)%nat in
       area + (fst (nthPt pts j) - fst (nthPt pts i))
              * (snd (nthPt pts j) + snd (nthPt pts i)))
    (seq 0 (List.length pts)) 0.

(** [if (area > 0) pts.reverse()]. *)
Definition windingFix (pts : list Pt) : list Pt :=
  if 0 <? shoelace pts then rev pts else pts.

(** The float points of the first subpath, [Some None] for the [null]
    results. *)
Definition flattenPath (fuel : nat) (pathData : string) (tol : float)
  : option (option (list Pt)) :=
  subpaths <- parseSvgPath fuel pathData ;;
  match subpaths with
  | [] => Some None
  | sp :: _ =>
      floatPts <- flattenSegs fuel tol (segs sp) (0, 0) [] ;;
      Some (if (List.length floatPts <? 3)%nat then None else Some floatPts)
  end.

Definition svgToPoints (fuel : nat) (pathData : string) (sc tol : float)
  : option (option (list Pt)) :=
  r <- flattenPath fuel pathData tol ;;
  Some (option_map (fun floatPts => windingFix (scalePts sc floatPts)) r).

(* ------------------------------------------------------------------ *)
(** * Bounding box and serializer                                       *)
(* ------------------------------------------------------------------ *)

Record BBox := { minX : float; minY : float; maxX : float; maxY : float }.

Definition bbox (pts : list Pt) : BBox :=
  fold_left
    (fun b p =>
       {| minX := if fst p <? minX b then fst p else minX b;
          minY := if snd p <? minY b then snd p else minY b;
          maxX := if maxX b <? fst p then fst p else maxX b;
          maxY := if maxY b <? snd p then snd p else maxY b |})
    pts
    {| minX := infinity; minY := infinity;
       maxX := neg_infinity; maxY := neg_infinity |}.

Definition coords (p : Pt) (sc : float) : string :=
  (toFixed2 (fst p / sc) ++ " " ++ toFixed2 (snd p / sc))%string.

Definition pointsToSvg (pts : list Pt) (sc : float) : string :=
  match pts with
  | [] => EmptyString
  | p0 :: r =>
      (fold_left (fun d p => d ++ " L " ++ coords p sc) r
         ("M " ++ coords p0 sc) ++ " Z")%string
  end.

End Pipeline.

(* ------------------------------------------------------------------ *)
(** * Polygon offset (vertex-bisector method)                           *)
(* ------------------------------------------------------------------ *)

Section Engine.
Local Open Scope float_scope.

Variable L : Libm.

(** [[Math.round(x), Math.round(y)]], the shape of every point the engine
    pushes. *)
Definition roundPt (x y : float) : Pt := (Math_round x, Math_round y).

(** The number a loop counter holds after [i] increments from 0. *)
Definition counter (i : nat) : float := Z2float false (Z.of_nat i).

(** The angle sweep of [addRoundJoin], brought back by whole turns. *)
Definition normalizeDa (fuel : nat) (da : float) : option float :=
  da1 <- while fuel (fun d => Math_PI <? d) (fun d => d - 2 * Math_PI) da ;;
  while fuel (fun d => d <? - Math_PI) (fun d => d + 2 * Math_PI) da1.

(** [steps] of [addRoundJoin], from the normalised sweep. *)
Definition arcSteps (da offsetAmt arcTolerance : float) : float :=
  let r := Math_abs offsetAmt in
  Math_max 2
    (Math_ceil (Math_abs da / (2 * Math_acos L (1 - arcTolerance / r)))).

(** The point pushed at counter value [i]. *)
Definition arcPoint (cx cy a1 stepAngle offsetAmt : float) (i : nat) : Pt :=
  let a := a1 + stepAngle * counter i in
  roundPt (cx + Math_cos L a * offsetAmt) (cy + Math_sin L a * offsetAmt).

(** How many times the body of [for (let i = 0; i <= steps; i++)] runs:
    never for NaN (the test fails at once), without end for +Infinity,
    otherwise for [i = 0 .. floor steps].  The counter is exact below 2^53,
    more iterations than any run that returns can make. *)
Definition iterations (steps : float) : option nat :=
  match Prim2SF steps with
  | S754_nan => Some O
  | S754_infinity s => if s then Some O else None
  | S754_zero _ => Some 1%nat
  | S754_finite s m e =>
      if s then Some O
      else Some (S (Z.to_nat (if (0 <=? e)%Z then Zpos m * 2 ^ e
                              else Zpos m / 2 ^ (- e))))
  end.

Definition addRoundJoin (fuel : nat) (cx cy : float) (n1 n2 : Pt)
  (offsetAmt arcTolerance : float) (result : list Pt) : option (list Pt) :=
  let a1 := Math_atan2 L (snd n1) (fst n1) in
  let a2 := Math_atan2 L (snd n2) (fst n2) in
  da <- normalizeDa fuel (a2 - a1) ;;
  let steps := arcSteps da offsetAmt arcTolerance in
  let stepAngle := da / steps in
  k <- iterations steps ;;
  Some (result ++ map (arcPoint cx cy a1 stepAngle offsetAmt) (seq 0 k)).

(** The two edge directions at vertex [i] of an [n]-point polygon. *)
Definition edgeIn (pts : list Pt) (i : nat) : Pt :=
  let n := List.length pts in
  norm (sub (nthPt pts i) (nthPt pts ((i + n - 1) mod n))).

Definition edgeOut (pts : list Pt) (i : nat) : Pt :=
  let n := List.length pts in
  norm (sub (nthPt pts ((i + 1) mod n)) (nthPt pts i)).

(** The test that sends a corner to the single-point branch:
    [!isConvex || Math.abs(cr) < 1e-6]. *)
Definition notConvex (e1 e2 : Pt) (offsetAmt : float) : bool :=
  let cr := cross e1 e2 in
  let offsetDir := if 0 <? offsetAmt then 1 else -1 in
  negb (0 <? cr * offsetDir) || (Math_abs cr <? 1e-6).

Definition bisector (e1 e2 : Pt) : Pt :=
  norm (add (leftNormal e1) (leftNormal e2)).

(** [curr + n * offsetAmt], rounded. *)
Definition alongNormal (curr n : Pt) (offsetAmt : float) : Pt :=
  roundPt (fst curr + fst n * offsetAmt) (snd curr + snd n * offsetAmt).

(** [curr + bisect * dist], rounded, with [dist = offsetAmt / sinHalf]. *)
Definition bisectorPoint (curr e1 e2 : Pt) (offsetAmt : float) : Pt :=
  let bisect := bisector e1 e2 in
  let dist := offsetAmt / cross e1 bisect in
  roundPt (fst curr + fst bisect * dist) (snd curr + snd bisect * dist).

Definition bevelPoints (curr e1 e2 : Pt) (offsetAmt : float) : list Pt :=
  [alongNormal curr (leftNormal e1) offsetAmt;
   alongNormal curr (leftNormal e2) offsetAmt].

(** The test of the Miter case: the bisector point is taken. *)
Definition miterAccepted (e1 e2 : Pt) (offsetAmt miterLimit : float) : bool :=
  let sinHalf := cross e1 (bisector e1 e2) in
  (1e-6 <? Math_abs sinHalf)
  && (Math_abs (offsetAmt / sinHalf) <=? miterLimit * Math_abs offsetAmt).

(** The body of the per-vertex loop of [offsetPolygon] at vertex [i]. *)
Definition joinAt (fuel : nat) (pts : list Pt) (offsetAmt : float)
  (joinType : JoinType) (miterLimit arcTolerance : float)
  (result : list Pt) (i : nat) : option (list Pt) :=
  let curr := nthPt pts i in
  let e1 := edgeIn pts i in
  let e2 := edgeOut pts i in
  if notConvex e1 e2 offsetAmt then
    if Math_abs (cross e1 (bisector e1 e2)) <? 1e-6
    then Some (result ++ [alongNormal curr (leftNormal e1) offsetAmt])
    else Some (result ++ [bisectorPoint curr e1 e2 offsetAmt])
  else
    match joinType with
    | JoinMiter =>
        if miterAccepted e1 e2 offsetAmt miterLimit
        then Some (result ++ [bisectorPoint curr e1 e2 offsetAmt])
        else Some (result ++ bevelPoints curr e1 e2 offsetAmt)
    | JoinBevel | JoinSquare =>
        Some (result ++ bevelPoints curr e1 e2 offsetAmt)
    | JoinRound =>
        addRoundJoin fuel (fst curr) (snd curr) (leftNormal e1)
          (leftNormal e2) offsetAmt arcTolerance result
    end.

Definition isOpen (endType : EndType) : bool :=
  match endType with
  | EndButt | EndSquare | EndRound => true
  | EndPolygon | EndJoined => false
  end.

Definition loopCount (n : nat) (endType : EndType) : nat :=
  if isOpen endType then (n - 1)%nat else n.

Definition neg (p : Pt) : Pt := (- fst p, - snd p).

(** [startPt -/+ startNorm * offsetAmt + dir * offsetAmt], rounded. *)
Definition squareCorner (pt nrm dir : Pt) (plus : bool) (offsetAmt : float)
  : Pt :=
  if plus
  then roundPt (fst pt + fst nrm * offsetAmt + fst dir * offsetAmt)
               (snd pt + snd nrm * offsetAmt + snd dir * offsetAmt)
  else roundPt (fst pt - fst nrm * offsetAmt + fst dir * offsetAmt)
               (snd pt - snd nrm * offsetAmt + snd dir * offsetAmt).

Definition startCap (fuel : nat) (pts : list Pt) (offsetAmt : float)
  (endType : EndType) (arcTolerance : float) (result : list Pt)
  : option (list Pt) :=
  let startPt := nthPt pts 0 in
  let startEdge := norm (sub (nthPt pts 1) (nthPt pts 0)) in
  let startNorm := leftNormal startEdge in
  let backDir := neg startEdge in
  match endType with
  | EndRound =>
      addRoundJoin fuel (fst startPt) (snd startPt) (neg startNorm) startNorm
        offsetAmt arcTolerance result
  | EndSquare =>
      Some (squareCorner startPt startNorm backDir false offsetAmt
            :: squareCorner startPt startNorm backDir true offsetAmt
            :: result)
  | _ => Some result
  end.

Definition endCap (fuel : nat) (pts : list Pt) (offsetAmt : float)
  (endType : EndType) (arcTolerance : float) (result : list Pt)
  : option (list Pt) :=
  let n := List.length pts in
  let endPt := nthPt pts (n - 1) in
  let endEdge := norm (sub (nthPt pts (n - 1)) (nthPt pts (n - 2))) in
  let endNorm := leftNormal endEdge in
  match endType with
  | EndRound =>
      addRoundJoin fuel (fst endPt) (snd endPt) endNorm (neg endNorm)
        offsetAmt arcTolerance result
  | EndSquare =>
      Some (result
            ++ [squareCorner endPt endNorm endEdge true offsetAmt;
                squareCorner endPt endNorm endEdge false offsetAmt])
  | _ => Some result
  end.

Definition offsetPolygon (fuel : nat) (pts : list Pt) (offsetAmt : float)
  (joinType : JoinType) (endType : EndType) (miterLimit arcTolerance : float)
  : option (list Pt) :=
  let n := List.length pts in
  if (n <? 3)%nat then Some []
  else
    result <- forEach (seq 0 (loopCount n endType))
                (joinAt fuel pts offsetAmt joinType miterLimit arcTolerance)
                [] ;;
    if isOpen endType && (2 <=? n)%nat then
      result <- startCap fuel pts offsetAmt endType arcTolerance result ;;
      endCap fuel pts offsetAmt endType arcTolerance result
    else Some result.

(* ------------------------------------------------------------------ *)
(** * Main offset orchestrator                                          *)
(* ------------------------------------------------------------------ *)

(** The guard at the top of [offsetSvgPath]. *)
Definition tooSmall (offsetAmt : float) : bool :=
  negb (isFinite offsetAmt) || (Math_abs offsetAmt <? 0.001).

(** [Math.round(origin-space anchor - offset-space anchor)] on one axis,
    0 when the axis has no anchor. *)
Definition anchorShift (origMin origMax offMin offMax : float)
  (origin : option float) : float :=
  match origin with
  | Some o =>
      Math_round ((origMin + (origMax - origMin) * o)
                  - (offMin + (offMax - offMin) * o))
  | None => 0
  end.

(** The anchor translation of [offsetSvgPath]: the points as the
    serializer gets them. *)
Definition anchor (pts offsetPts : list Pt) (originX originY : option float)
  : list Pt :=
  match originX, originY with
  | None, None => offsetPts
  | _, _ =>
      let origBox := bbox pts in
      let offBox := bbox offsetPts in
      let dx := anchorShift (minX origBox) (maxX origBox)
                  (minX offBox) (maxX offBox) originX in
      let dy := anchorShift (minY origBox) (maxY origBox)
                  (minY offBox) (maxY offBox) originY in
      if negb (dx =? 0) || negb (dy =? 0)
      then map (fun p => (fst p + dx, snd p + dy)) offsetPts
      else offsetPts
  end.

Definition offsetSvgPath (fuel : nat) (pathData : string) (offsetAmt : float)
  (joinType : option JoinType) (endType : option EndType)
  (miterLimit arcTolerance : float) (originX originY : option float)
  : option string :=
  if tooSmall offsetAmt then Some pathData
  else
    r <- svgToPoints fuel pathData SCALE FLATTEN_TOLERANCE ;;
    match r with
    | None => Some EmptyString
    | Some pts =>
        if (List.length pts <? 3)%nat then Some EmptyString
        else
          let jt := match joinType with Some j => j | None => JoinRound end in
          let et := match endType with Some e => e | None => EndPolygon end in
          offsetPts <- offsetPolygon fuel pts (offsetAmt * SCALE) jt et
                         miterLimit arcTolerance ;;
          if (List.length offsetPts <? 3)%nat then Some EmptyString
          else Some (pointsToSvg (anchor pts offsetPts originX originY) SCALE)
    end.

End Engine.

(* ------------------------------------------------------------------ *)
(** * What the specification says, in its own words                     *)
(* ------------------------------------------------------------------ *)

Section SpecSide.
Local Open Scope float_scope.

(** The points one call of the flattener appends, as the specification
    describes them: the endpoint alone for a flat cubic, otherwise the
    points of the left half followed by those of the right half of the
    midpoint subdivision. *)
Fixpoint cubicLeaves (fuel : nat) (p0 p1 p2 p3 : Pt) (tol : float)
  : option (list Pt) :=
  let u := sub (sub (3 * fst p1, 3 * snd p1) (2 * fst p0, 2 * snd p0)) p3 in
  let v := sub (sub (3 * fst p2, 3 * snd p2) (2 * fst p3, 2 * snd p3)) p0 in
  if Math_max (dot u u) (dot v v) <=? 16 * tol * tol then Some [p3]
  else
    match fuel with
    | O => None
    | S f =>
        let q1 := midpoint p0 p1 in
        let h := midpoint p1 p2 in
        let r2 := midpoint p2 p3 in
        let q2 := midpoint q1 h in
        let r1 := midpoint h r2 in
        let m := midpoint q2 r1 in
        left <- cubicLeaves f p0 q1 q2 m tol ;;
        right <- cubicLeaves f m r1 r2 p3 tol ;;
        Some (left ++ right)
    end.

(** Degree elevation of a quadratic. *)
Definition elevate (p0 p1 p2 : Pt) : Pt * Pt :=
  (add p0 ((2 / 3) * fst (sub p1 p0), (2 / 3) * snd (sub p1 p0)),
   add p2 ((2 / 3) * fst (sub p1 p2), (2 / 3) * snd (sub p1 p2))).

(** A path string without a Move command. *)
Fixpoint noMoveCommand (s : string) : bool :=
  match s with
  | String c r =>
      negb ((code c =? 77)%N || (code c =? 109)%N) && noMoveCommand r
  | EmptyString => true
  end.

(** The vertices of an open [n]-point path that are not its two ends. *)
Definition interiorVertices (n : nat) : list nat := seq 1 (n - 2).

(** The shoelace sum over the integers,
    sum of [(x[i+1] - x[i]) * (y[i+1] + y[i])] with indices mod [n]. *)
Definition shoelaceZ (zs : list (Z * Z)) : Z :=
  fold_left
    (fun area i =>
       let a := nth i zs (0, 0)%Z in
       let b := nth ((i + 1) mod List.length zs) zs (0, 0)%Z in
       (area + (fst b - fst a) * (snd b + snd a))%Z)
    (seq 0 (List.length zs)) 0%Z.

(** The integer points a list of numbers stands for, when every coordinate
    is a finite integral number. *)
Fixpoint exactPts (pts : list Pt) : option (list (Z * Z)) :=
  match pts with
  | [] => Some []
  | p :: r =>
      x <- toInteger (fst p) ;;
      y <- toInteger (snd p) ;;
      zs <- exactPts r ;;
      Some ((x, y) :: zs)
  end.

End SpecSide.

(* ------------------------------------------------------------------ *)
(** * Exact values                                                      *)
(* ------------------------------------------------------------------ *)

(** The canonical mantissa and exponent of a positive integer below 2^53. *)
Definition canonInt (n : positive) : positive * Z :=
  match 53 - Zpos (digits2_pos n) with
  | Zpos k => (Pos.iter xO n k, - Zpos k)
  | _ => (n, 0)
  end.

(** A number that is not finite, is a zero, or has an integer value. *)
Definition integralSF (sf : spec_float) : bool :=
  match sf with
  | S754_finite _ m e => (0 <=? e) || (Zpos m mod 2 ^ (- e) =? 0)
  | _ => true
  end.

(** The magnitude [Math_round] gives a finite number with a fraction. *)
Definition roundedMag (s : bool) (m : positive) (e : Z) : Z :=
  let k := 2 ^ (- e) in
  if s then - ((k - 2 * Zpos m) / (2 * k)) else (2 * Zpos m + k) / (2 * k).

(** A point whose coordinates equal their own rounding. *)
Definition ownRounding (p : Pt) : Prop :=
  Math_round (fst p) = fst p /\ Math_round (snd p) = snd p.

(** The value of a finite number, as a rational. *)
Definition valueQ (x : float) : option Q :=
  match Prim2SF x with
  | S754_zero _ => Some 0%Q
  | S754_finite s m e =>
      let sm := (if s then -1 else 1) * Zpos m in
      Some (if 0 <=? e then inject_Z (sm * 2 ^ e)
            else Qmake sm (Z.to_pos (2 ^ (- e))))
  | _ => None
  end.

(** The number [m * 2^e], as a rational. *)
Definition valQ (m e : Z) : Q := (inject_Z m * 2 ^ e)%Q.

(** [y] is the number [x], up to the sign of a zero. *)
Definition sameNumber (x y : float) : Prop :=
  y = x \/ (x = (-0)%float /\ y = 0%float).

(** The anchor coordinate [min + (max - min) * fraction] of a box, on
    each axis, as [offsetSvgPath] computes it. *)
Definition anchorX (b : BBox) (o : float) : float :=
  (minX b + (maxX b - minX b) * o)%float.

Definition anchorY (b : BBox) (o : float) : float :=
  (minY b + (maxY b - minY b) * o)%float.

(** One term of the shoelace sum, and the sum of the terms along a chain
    of points. *)
Definition term (a b : Z * Z) : Z := (fst b - fst a) * (snd b + snd a).

Fixpoint chain (l : list (Z * Z)) : Z :=
  match l with
  | a :: (b :: _) as r => term a b + chain r
  | _ => 0
  end.

(** The parser stopped in front of a character that is no letter, no
    separator and starts no number, with a drawing command pending. *)
Definition stuck (p : Parser) : Prop :=
  st p = {| src := "M 0 0 #"%string; pos := 6 |} /\ cmd p = Some "L"%char.

(** [v] is the value [m * 2^e] of a mantissa and an exponent, when that is
    an integer. *)
Definition isValue (m e v : Z) : Prop :=
  (0 <= e /\ v = m * 2 ^ e) \/ (e < 0 /\ m = v * 2 ^ (- e)).

(** Every coordinate of the points is at most [B] in magnitude. *)
Definition within (B : Z) (zs : list (Z * Z)) : bool :=
  forallb (fun p => (Z.abs (fst p) <=? B) && (Z.abs (snd p) <=? B)) zs.

(** The number with its exponent raised by [k], that is [x * 2^k]. *)
Definition shiftSF (k : Z) (sf : spec_float) : spec_float :=
  match sf with
  | S754_finite s m e => S754_finite s m (e + k)
  | _ => sf
  end.

(** The integer [v] with [x = v / 2^k], when there is one. *)
Definition toScaledSF (k : Z) (sf : spec_float) : option Z :=
  toIntegerSF (shiftSF k sf).

Definition toScaled (k : Z) (x : float) : option Z :=
  toScaledSF k (Prim2SF x).

(** The smallest and the largest of a list of numbers, found as [bbox]
    finds them. *)
Definition lowest (l : list float) : float :=
  fold_left (fun m x => if (x <? m)%float then x else m) l infinity.

Definition highest (l : list float) : float :=
  fold_left (fun m x => if (m <? x)%float then x else m) l neg_infinity.

(** The same over the integers, for a list that is not empty. *)
Definition lowestZ (l : list Z) : Z :=
  match l with
  | [] => 0
  | x :: r => fold_left (fun m x => if x <? m then x else m) r x
  end%Z.

Definition highestZ (l : list Z) : Z :=
  match l with
  | [] => 0
  | x :: r => fold_left (fun m x => if m <? x then x else m) r x
  end%Z.

(** The integers a list of numbers stands for. *)
Fixpoint exactNums (l : list float) : option (list Z) :=
  match l with
  | [] => Some []
  | x :: r =>
      match toInteger x, exactNums r with
      | Some z, Some zs => Some (z :: zs)
      | _, _ => None
      end
  end.

(* ------------------------------------------------------------------ *)
(** * GSAP plugin                                                  *)
(* ------------------------------------------------------------------ *)

Module Plugin.

(** What the plugin reads and writes on its target: the [d] attribute
    ([None] when the element has none), [style.visibility] and the property
    [__gsapOffsetPath] ([None] until a frame has set it). *)
Record Element := {
  d : option string;
  visibility : string;
  __gsapOffsetPath : option float
}.

(** [target instanceof SVGPathElement] or not. *)
Inductive Target := PathElement (e : Element) | OtherTarget.

Record OffsetPathOptions := {
  offset : float;
  joinType : option JoinType;
  endType : option EndType;
  miterLimit : option float;
  arcTolerance : option float;
  originX : option float;
  originY : option float
}.

(** The tween value: a number or an options object. *)
Inductive Value := Number (x : float) | Options (o : OffsetPathOptions).

(** [data._options]. *)
Record Settings := {
  joinType' : JoinType;
  endType' : EndType;
  miterLimit' : float;
  arcTolerance' : float;
  originX' : option float;
  originY' : option float
}.

(** The plugin instance after [init].  [data._target] is the element
    itself: the functions below take its state and return the new one. *)
Record Data := {
  _originalPath : string;
  _options : Settings;
  _startOffset : float;
  _endOffset : float
}.

Definition orElse {A : Type} (x : option A) (dflt : A) : A :=
  match x with
  | Some v => v
  | None => dflt
  end.

(** [init]; [None] is [return false], which leaves the instance as it
    was. *)
Definition init (target : Target) (value : Value) : option Data :=
  match target with
  | OtherTarget => None
  | PathElement e =>
      match d e with
      | None | Some EmptyString => None
      | Some originalPath =>
          let options :=
            match value with
            | Number x =>
                {| offset := x; joinType := None; endType := None;
                   miterLimit := None; arcTolerance := None;
                   originX := None; originY := None |}
            | Options o => o
            end in
          Some {| _originalPath := originalPath;
                  _options :=
                    {| joinType' := orElse (joinType options) JoinRound;
                       endType' := orElse (endType options) EndPolygon;
                       miterLimit' := orElse (miterLimit options) 2%float;
                       arcTolerance' :=
                         orElse (arcTolerance options) 0.25%float;
                       originX' := originX options;
                       originY' := originY options |};
                  _startOffset := orElse (__gsapOffsetPath e) 0%float;
                  _endOffset := offset options |}
      end
  end.

Definition offsetAmount (data : Data) (progress : float) : float :=
  (_startOffset data + (_endOffset data - _startOffset data) * progress)%float.

Definition shown (e : Element) (offsetAmt : float) (path : string) : Element :=
  {| d := Some path; visibility := "visible";
     __gsapOffsetPath := Some offsetAmt |}.

Definition hidden (e : Element) (offsetAmt : float) : Element :=
  {| d := d e; visibility := "hidden"; __gsapOffsetPath := Some offsetAmt |}.

Definition blank (s : string) : bool :=
  match s with
  | EmptyString => true
  | _ => match trim s with EmptyString => true | _ => false end
  end.

(** How a call made inside the [try] block of [render] ends: with a
    result, with an exception, or not at all. *)
Inductive Completion :=
  | Normal (result : string)
  | Throw
  | NoReturn.

(** The recursion of [flattenCubic] goes deeper than the call stack, whose
    depth is [fuel]: the engine raises RangeError there.  It is reached
    once the parser has returned a subpath. *)
Definition overflows (fuel : nat) (pathData : string) : bool :=
  match parseSvgPath fuel pathData with
  | Some (sp :: _) =>
      match flattenSegs fuel FLATTEN_TOLERANCE (segs sp) (0, 0)%float [] with
      | None => true
      | Some _ => false
      end
  | _ => false
  end.

(** The call of [offsetSvgPath] in [render].  A call that gives no result
    has either overflowed the stack while flattening, which throws, or is
    in a loop (of the parser or of a round join) that the fuel does not
    cover, which does not come back. *)
Definition callOffsetSvgPath (L : Libm) (fuel : nat) (data : Data)
  (offsetAmt : float) : Completion :=
  match offsetSvgPath L fuel (_originalPath data) offsetAmt
          (Some (joinType' (_options data)))
          (Some (endType' (_options data)))
          (miterLimit' (_options data))
          (arcTolerance' (_options data))
          (originX' (_options data))
          (originY' (_options data)) with
  | Some result => Normal result
  | None => if overflows fuel (_originalPath data) then Throw else NoReturn
  end.

(** [render]: the state of the target after the frame; [None] is a frame
    that does not return.  The offset is stored before the [try] block;
    the [catch] handler hides the target. *)
Definition render (L : Libm) (fuel : nat) (progress : float) (data : Data)
  (e : Element) : option Element :=
  let offsetAmt := offsetAmount data progress in
  if (Math_abs offsetAmt <? 0.001)%float
  then Some (shown e offsetAmt (_originalPath data))
  else
    match callOffsetSvgPath L fuel data offsetAmt with
    | Normal result =>
        Some (if blank result then hidden e offsetAmt
              else shown e offsetAmt result)
    | Throw => Some (hidden e offsetAmt)
    | NoReturn => None
    end.

(** [kill], for an instance whose [init] returned true. *)
Definition kill (data : Data) (e : Element) : Element :=
  match _originalPath data with
  | EmptyString => e
  | originalPath =>
      {| d := Some originalPath; visibility := visibility e;
         __gsapOffsetPath := __gsapOffsetPath e |}
  end.

End Plugin.

(* ------------------------------------------------------------------ *)
(** * Parser and pipeline invariants                               *)
(* ------------------------------------------------------------------ *)

(** [s'] is [s] moved forward in the same string. *)
Definition le_st (s s' : ParseState) : Prop :=
  src s' = src s /\ (pos s <= pos s')%nat.

(** A character a number can start with, taken after the separators. *)
Definition numStart (c : ascii) : bool := isSign c || isDigit c || isDot c.

(** The characters of path data the parser knows what to do with. *)
Definition goodChar (c : ascii) : bool := isLetter c || isSep c || numStart c.

Fixpoint allChars (p : ascii -> bool) (s : string) : bool :=
  match s with
  | String c r => p c && allChars p r
  | EmptyString => true
  end.

(** The command letters [parseSvgPath] reads numbers for. *)
Definition drawing (k : ascii) : bool :=
  existsb (Ascii.eqb k)
    ["M"; "m"; "L"; "l"; "H"; "h"; "V"; "v"; "C"; "c"; "Q"; "q"]%char.

(** A position the scanners keep: inside the string or where it was. *)
Definition inside (s0 s : ParseState) : Prop :=
  (pos s <= Nat.max (pos s0) (String.length (src s0)))%nat.

(** A subpath as the parser builds it: one Move, at the head. *)
Definition headMove (sp : Subpath) : bool :=
  match segs sp with
  | SegM _ :: r =>
      forallb (fun g => match g with SegM _ => false | _ => true end) r
  | _ => false
  end.

Definition wellFormed (p : Parser) : Prop :=
  Forall (fun sp => headMove sp = true) (earlier p)
  /\ (forall c, current p = Some c -> headMove c = true).

(** The variables of [parseSvgPath] before the first pass. *)
Definition start (pathData : string) : Parser :=
  {| st := {| src := trim pathData; pos := 0 |}; earlier := [];
     current := None; cx := 0%float; cy := 0%float; cmd := None |}.

(** No Z is pending: the loop handles it in the pass that reads it. *)
Definition noZ (p : Parser) : Prop :=
  cmdIs p "Z" || cmdIs p "z" = false.

(** The parser stands, with a drawing command pending, in front of a
    character that is no letter, no separator and starts no number. *)
Definition stuckAt (p : Parser) : Prop :=
  exists c k,
    charAt (st p) = Some c /\ goodChar c = false
    /\ cmd p = Some k /\ drawing k = true.

(** A point with a NaN coordinate. *)
Definition nanPt (p : Pt) : bool := is_nan (fst p) || is_nan (snd p).

(** The letters of the curve commands. *)
Definition curveLetter (c : ascii) : bool :=
  existsb (Ascii.eqb c) ["C"; "c"; "Q"; "q"]%char.

Definition straightSeg (g : Segment) : bool :=
  match g with
  | SegM _ | SegL _ => true
  | SegC _ _ _ | SegQ _ _ => false
  end.

(** No curve so far: none among the segments, none pending. *)
Definition straight (p : Parser) : Prop :=
  Forall (fun sp => forallb straightSeg (segs sp) = true) (earlier p)
  /\ (forall c, current p = Some c -> forallb straightSeg (segs c) = true)
  /\ (forall k, cmd p = Some k -> curveLetter k = false).

(** A zero of either sign. *)
Definition isZero (x : float) : bool :=
  match Prim2SF x with
  | S754_zero _ => true
  | _ => false
  end.

(** Closed goals about the program are settled by running it. *)
Ltac conjuncts := repeat match goal with |- _ /\ _ => split end.
Ltac run := vm_compute; reflexivity.

(* ------------------------------------------------------------------ *)
(** * Facts about numbers                                               *)
(* ------------------------------------------------------------------ *)

Section NumberFacts.
Local Open Scope float_scope.

Lemma Prim2SF_zero : Prim2SF 0 = S754_zero false.
Proof. reflexivity. Qed.

(** [x <= 0] rules out [0 < x]. *)
Lemma leb_zero_not_pos (x : float) : (x <=? 0) = true -> (0 <? x) = false.
Proof.
  rewrite leb_spec, ltb_spec, Prim2SF_zero.
  unfold SFleb, SFltb.
  destruct (Prim2SF x) as [s | s | | s m e]; simpl; try discriminate;
    try reflexivity; destruct s; simpl; congruence.
Qed.

Local Open Scope Z_scope.

Lemma digits2_pos_iter_xO (n k : positive) :
  digits2_pos (Pos.iter xO n k) = (digits2_pos n + k)%positive.
Proof.
  induction k as [| k IH] using Pos.peano_ind.
  - simpl. lia.
  - rewrite Pos.iter_succ. simpl. rewrite IH. lia.
Qed.

Lemma Zpos_iter_xO (n k : positive) :
  Zpos (Pos.iter xO n k) = Zpos n * 2 ^ Zpos k.
Proof.
  induction k as [| k IH] using Pos.peano_ind.
  - simpl. lia.
  - rewrite Pos.iter_succ, Pos2Z.inj_succ, Z.pow_succ_r by lia.
    rewrite Pos2Z.inj_xO, IH. lia.
Qed.

Lemma shr_fexp_canonical (m : positive) (e : Z) :
  Zpos (digits2_pos m) = 53 -> -1074 <= e ->
  shr_fexp prec emax (Zpos m) e loc_Exact =
  ({| shr_m := Zpos m; shr_r := false; shr_s := false |}, e).
Proof.
  intros Hd He. unfold shr_fexp, fexp, SpecFloat.emin, Zdigits2, prec, emax.
  rewrite Hd.
  replace (Z.max (53 + e - 53) (3 - 1024 - 53) - e) with 0 by lia.
  reflexivity.
Qed.

(** A 53-bit mantissa with an exponent in range is kept as it is. *)
Lemma binary_round_aux_canonical (s : bool) (m : positive) (e : Z) :
  Zpos (digits2_pos m) = 53 -> -1074 <= e <= 971 ->
  binary_round_aux prec emax s (Zpos m) e loc_Exact = S754_finite s m e.
Proof.
  intros Hd He. unfold binary_round_aux.
  rewrite (shr_fexp_canonical m e Hd) by lia.
  cbn [shr_m loc_of_shr_record round_nearest_even].
  rewrite (shr_fexp_canonical m e Hd) by lia.
  cbn [shr_m]. unfold prec, emax.
  now replace (e <=? 1024 - 53) with true by (symmetry; apply Z.leb_le; lia).
Qed.

Lemma canonInt_digits (n : positive) :
  Zpos (digits2_pos n) <= 53 ->
  Zpos (digits2_pos (fst (canonInt n))) = 53
  /\ snd (canonInt n) = Zpos (digits2_pos n) - 53.
Proof.
  intros Hd. unfold canonInt.
  destruct (53 - Zpos (digits2_pos n)) as [| k | k] eqn:E; cbn [fst snd];
    try lia.
  rewrite digits2_pos_iter_xO. lia.
Qed.

Lemma binary_round_small (s : bool) (n : positive) :
  Zpos (digits2_pos n) <= 53 ->
  binary_round prec emax s n 0 =
  S754_finite s (fst (canonInt n)) (snd (canonInt n)).
Proof.
  intros Hd. destruct (canonInt_digits n Hd) as [H53 He].
  unfold binary_round, shl_align, fexp, SpecFloat.emin, prec, emax.
  rewrite Z.add_0_r, Z.sub_0_r.
  replace (Z.max (Zpos (digits2_pos n) - 53) (3 - 1024 - 53))
    with (Zpos (digits2_pos n) - 53) by lia.
  unfold canonInt in *.
  destruct (53 - Zpos (digits2_pos n)) as [| k | k] eqn:E; try lia.
  - replace (Zpos (digits2_pos n) - 53) with 0 by lia.
    cbn [fst snd] in *. apply binary_round_aux_canonical; lia.
  - replace (Zpos (digits2_pos n) - 53) with (Zneg k) by lia.
    cbn [fst snd] in *.
    apply binary_round_aux_canonical; [exact H53 |].
    pose proof (Pos2Z.is_pos (digits2_pos n)). lia.
Qed.

Lemma valid_canonInt (s : bool) (n : positive) :
  Zpos (digits2_pos n) <= 53 ->
  valid_binary (S754_finite s (fst (canonInt n)) (snd (canonInt n))) = true.
Proof.
  intros Hd. destruct (canonInt_digits n Hd) as [H53 He].
  unfold SpecFloat.valid_binary, bounded, canonical_mantissa, fexp, SpecFloat.emin, prec, emax.
  rewrite H53. pose proof (Pos2Z.is_pos (digits2_pos n)).
  apply andb_true_intro. split; [apply Z.eqb_eq | apply Z.leb_le]; lia.
Qed.

(** The number [Z2float] makes of a positive integer below 2^53. *)
Lemma Prim2SF_Z2float (s : bool) (n : positive) :
  Zpos (digits2_pos n) <= 53 ->
  Prim2SF (Z2float s (Zpos n)) =
  S754_finite s (fst (canonInt n)) (snd (canonInt n)).
Proof.
  intros Hd. unfold Z2float.
  assert (E : binary_normalize prec emax (if s then - Zpos n else Zpos n) 0 s
              = S754_finite s (fst (canonInt n)) (snd (canonInt n))).
  { destruct s; cbn [Z.opp binary_normalize]; apply binary_round_small; exact Hd. }
  rewrite E. apply Prim2SF_SF2Prim. apply valid_canonInt. exact Hd.
Qed.

Lemma Prim2SF_Z2float_zero (s : bool) : Prim2SF (Z2float s 0) = S754_zero s.
Proof. destruct s; reflexivity. Qed.

Lemma digits2_pos_size (p : positive) : digits2_pos p = Pos.size p.
Proof. induction p; simpl; congruence. Qed.

Lemma digits2_pos_upper (p : positive) : Zpos p < 2 ^ Zpos (digits2_pos p).
Proof.
  rewrite digits2_pos_size. pose proof (Pos.size_gt p) as H.
  rewrite <- Pos2Z.inj_pow. lia.
Qed.

Lemma digits2_pos_lower (p : positive) : 2 ^ Zpos (digits2_pos p) <= 2 * Zpos p.
Proof.
  rewrite digits2_pos_size. pose proof (Pos.size_le p) as H.
  rewrite <- Pos2Z.inj_pow. lia.
Qed.

Lemma digits2_pos_le (p : positive) (b : Z) :
  0 <= b -> Zpos p < 2 ^ b -> Zpos (digits2_pos p) <= b.
Proof.
  intros Hb Hp. destruct (Z_le_gt_dec (Zpos (digits2_pos p)) b) as [H | H]; [exact H |].
  exfalso. pose proof (digits2_pos_lower p).
  assert (2 ^ (b + 1) <= 2 ^ Zpos (digits2_pos p)) by (apply Z.pow_le_mono_r; lia).
  rewrite Z.pow_add_r in H1 by lia. lia.
Qed.

(** What validity says about a finite number. *)
Lemma valid_finite (x : float) (s : bool) (m : positive) (e : Z) :
  Prim2SF x = S754_finite s m e ->
  (Zpos (digits2_pos m) = 53 /\ -1074 <= e <= 971)
  \/ (Zpos (digits2_pos m) < 53 /\ e = -1074).
Proof.
  intros E. pose proof (Prim2SF_valid x) as V. rewrite E in V.
  unfold SpecFloat.valid_binary, bounded, canonical_mantissa, fexp,
    SpecFloat.emin, prec, emax in V.
  apply andb_prop in V. destruct V as [V V']. apply Z.eqb_eq in V.
  apply Z.leb_le in V'. lia.
Qed.

Lemma integral_canonInt (s : bool) (p : positive) :
  integralSF (S754_finite s (fst (canonInt p)) (snd (canonInt p))) = true.
Proof.
  unfold canonInt, integralSF.
  destruct (53 - Zpos (digits2_pos p)) as [| k | k]; cbn [fst snd]; try reflexivity.
  rewrite Zpos_iter_xO. cbn [Z.opp Z.leb Z.compare orb].
  now rewrite Z.mod_mul by (apply Z.pow_nonzero; lia).
Qed.

Lemma roundedMag_bounds (s : bool) (m : positive) (e : Z) :
  e < 0 -> 0 <= roundedMag s m e <= Zpos m.
Proof.
  intros He. unfold roundedMag.
  assert (Hk : 2 <= 2 ^ (- e)).
  { change 2 with (2 ^ 1) at 1. apply Z.pow_le_mono_r; lia. }
  set (k := 2 ^ (- e)) in *. pose proof (Pos2Z.is_pos m) as Hm.
  destruct s.
  - assert (H1 : (k - 2 * Zpos m) / (2 * k) <= 0).
    { apply Z.lt_succ_r. apply Z.div_lt_upper_bound; lia. }
    assert (H2 : - Zpos m <= (k - 2 * Zpos m) / (2 * k)).
    { apply Z.div_le_lower_bound; nia. }
    lia.
  - split; [apply Z.div_pos; lia |].
    apply Z.lt_succ_r. apply Z.div_lt_upper_bound; nia.
Qed.

Lemma Math_round_finite (x : float) (s : bool) (m : positive) (e : Z) :
  Prim2SF x = S754_finite s m e ->
  Math_round x = if 0 <=? e then x else Z2float s (roundedMag s m e).
Proof. intros E. unfold Math_round. rewrite E. reflexivity. Qed.

Lemma Math_round_special (x : float) :
  (forall s m e, Prim2SF x <> S754_finite s m e) -> Math_round x = x.
Proof.
  intros H. unfold Math_round.
  destruct (Prim2SF x) as [s | s | | s m e] eqn:E; try reflexivity.
  now destruct (H s m e).
Qed.

(** R1: what [Math_round] returns is integral (or not finite). *)
Lemma Math_round_integral (x : float) :
  integralSF (Prim2SF (Math_round x)) = true.
Proof.
  destruct (Prim2SF x) as [s | s | | s m e] eqn:E.
  1-3: rewrite Math_round_special by (intros; rewrite E; discriminate);
       now rewrite E.
  rewrite (Math_round_finite x s m e E).
  destruct (0 <=? e) eqn:He.
  - rewrite E. cbn [integralSF]. now rewrite He.
  - apply Z.leb_gt in He.
    pose proof (roundedMag_bounds s m e He) as Hb.
    destruct (roundedMag s m e) as [| p | p] eqn:En; try lia.
    + now rewrite Prim2SF_Z2float_zero.
    + rewrite Prim2SF_Z2float; [apply integral_canonInt |].
      destruct (valid_finite x s m e E) as [[Hd _] | [Hd _]];
        (apply digits2_pos_le; [lia |]);
        pose proof (digits2_pos_upper m);
        assert (2 ^ Zpos (digits2_pos m) <= 2 ^ 53)
          by (apply Z.pow_le_mono_r; lia);
        lia.
Qed.

Lemma half_floor (q k : Z) : 0 < k -> (2 * (q * k) + k) / (2 * k) = q.
Proof.
  intros Hk. replace (2 * (q * k) + k) with ((2 * q + 1) * k) by ring.
  rewrite Z.div_mul_cancel_r by lia.
  symmetry. apply (Z.div_unique _ 2 q 1); lia.
Qed.

Lemma half_ceil (q k : Z) : 0 < k -> - ((k - 2 * (q * k)) / (2 * k)) = q.
Proof.
  intros Hk. replace (k - 2 * (q * k)) with ((1 - 2 * q) * k) by ring.
  rewrite Z.div_mul_cancel_r by lia.
  rewrite <- (Z.div_unique (1 - 2 * q) 2 (- q) 1); lia.
Qed.

(** R2: an integral number is its own rounding. *)
Lemma Math_round_fixed (x : float) :
  integralSF (Prim2SF x) = true -> Math_round x = x.
Proof.
  intros Hi.
  destruct (Prim2SF x) as [s | s | | s m e] eqn:E.
  1-3: apply Math_round_special; intros; rewrite E; discriminate.
  rewrite (Math_round_finite x s m e E).
  cbn [integralSF] in Hi.
  destruct (0 <=? e) eqn:He; [reflexivity |].
  apply Z.leb_gt in He. cbn [orb] in Hi. apply Z.eqb_eq in Hi.
  assert (Hk : 0 < 2 ^ (- e)) by (apply Z.pow_pos_nonneg; lia).
  apply Z.mod_divide in Hi; [| lia]. destruct Hi as [q Hq].
  assert (Hq0 : 0 < q) by nia.
  assert (En : roundedMag s m e = q).
  { unfold roundedMag. rewrite Hq.
    destruct s; [apply half_ceil | apply half_floor]; exact Hk. }
  rewrite En. destruct q as [| q | q]; try lia.
  (* the mantissa is [q] shifted, so [x] is not subnormal *)
  destruct (- e) as [| j | j] eqn:Ej; try lia.
  assert (Em : m = Pos.iter xO q j).
  { apply Pos2Z.inj. rewrite Zpos_iter_xO. exact Hq. }
  assert (Hdm : Zpos (digits2_pos m) = Zpos (digits2_pos q) + Zpos j).
  { rewrite Em, digits2_pos_iter_xO. lia. }
  destruct (valid_finite x s m e E) as [[Hd Hr] | [Hd Hr]].
  2:{ exfalso. pose proof (digits2_pos_upper m) as Hu.
      assert (2 ^ Zpos (digits2_pos m) <= 2 ^ 53)
        by (apply Z.pow_le_mono_r; lia).
      assert (2 ^ 53 <= 2 ^ Zpos j) by (apply Z.pow_le_mono_r; lia).
      nia. }
  apply Prim2SF_inj. rewrite E, Prim2SF_Z2float by lia.
  unfold canonInt.
  replace (53 - Zpos (digits2_pos q)) with (Zpos j) by lia.
  cbn [fst snd]. rewrite <- Em. f_equal. lia.
Qed.

Lemma Math_round_idempotent (x : float) :
  Math_round (Math_round x) = Math_round x.
Proof. apply Math_round_fixed, Math_round_integral. Qed.

(** ** Sums of integral numbers *)

Lemma shr_fexp_exponent (m e : Z) (l : location) :
  snd (shr_fexp prec emax m e l) = Z.max e (fexp prec emax (Zdigits2 m + e)).
Proof.
  unfold shr_fexp, shr.
  destruct (fexp prec emax (Zdigits2 m + e) - e) as [| p | p] eqn:E;
    cbn [snd]; lia.
Qed.

(** A result whose exponent is not negative is integral. *)
Lemma binary_round_aux_nonneg (s : bool) (m e : Z) (l : location) :
  0 <= Z.max e (fexp prec emax (Zdigits2 m + e)) ->
  integralSF (binary_round_aux prec emax s m e l) = true.
Proof.
  intros H. unfold binary_round_aux.
  pose proof (shr_fexp_exponent m e l) as H1.
  destruct (shr_fexp prec emax m e l) as [mrs' e'].
  cbn [snd] in H1.
  pose proof (shr_fexp_exponent
                (round_nearest_even (shr_m mrs') (loc_of_shr_record mrs'))
                e' loc_Exact) as H2.
  destruct (shr_fexp prec emax _ e' loc_Exact) as [mrs'' e''].
  cbn [snd] in H2.
  destruct (shr_m mrs'') as [| p | p]; try reflexivity.
  destruct (e'' <=? emax - prec); [| reflexivity].
  cbn [integralSF].
  now replace (0 <=? e'') with true by (symmetry; apply Z.leb_le; lia).
Qed.

Lemma iter_pos_Pos_iter {A : Type} (f : A -> A) (n : positive) :
  forall x, iter_pos f n x = Pos.iter f x n.
Proof.
  induction n as [n IH | n IH |]; intros x; cbn [iter_pos Pos.iter].
  - rewrite !IH. now rewrite <- !Pos.iter_swap.
  - now rewrite !IH.
  - reflexivity.
Qed.

(** Shifting out [n] zero bits loses nothing. *)
Lemma shr_exact (w n : positive) :
  iter_pos shr_1 n
    {| shr_m := Zpos (Pos.iter xO w n); shr_r := false; shr_s := false |}
  = {| shr_m := Zpos w; shr_r := false; shr_s := false |}.
Proof.
  rewrite iter_pos_Pos_iter.
  induction n as [| n IH] using Pos.peano_ind.
  - reflexivity.
  - rewrite (Pos.iter_succ n positive), (Pos.iter_succ_r n shr_record).
    cbn [shr_1 orb]. exact IH.
Qed.

(** An integer [w * 2^(-e0)] at the exponent [e0 = digits w - 53 < 0],
    reached from any exponent [e] with the bits below [e0] zero, is
    represented exactly. *)
Lemma binary_round_aux_integer (s : bool) (w : positive) (e0 : Z) (n : positive) :
  e0 = Zpos (digits2_pos w) - 53 -> e0 < 0 ->
  forall k : positive, Zpos k = - e0 ->
  binary_round_aux prec emax s (Zpos (Pos.iter xO (Pos.iter xO w k) n))
    (e0 - Zpos n) loc_Exact
  = S754_finite s (Pos.iter xO w k) e0.
Proof.
  intros He0 Hneg k Hk.
  assert (Hd : Zpos (digits2_pos (Pos.iter xO w k)) = 53).
  { rewrite digits2_pos_iter_xO. lia. }
  pose proof (Pos2Z.is_pos (digits2_pos w)) as Hw.
  unfold binary_round_aux.
  assert (E1 : shr_fexp prec emax (Zpos (Pos.iter xO (Pos.iter xO w k) n))
                 (e0 - Zpos n) loc_Exact
               = ({| shr_m := Zpos (Pos.iter xO w k); shr_r := false;
                     shr_s := false |}, e0)).
  { unfold shr_fexp, fexp, SpecFloat.emin, Zdigits2, prec, emax.
    rewrite digits2_pos_iter_xO, Pos2Z.inj_add, Hd.
    replace (Z.max (53 + Zpos n + (e0 - Zpos n) - 53) (3 - 1024 - 53)
             - (e0 - Zpos n)) with (Zpos n) by lia.
    cbn [shr shr_record_of_loc]. rewrite shr_exact. f_equal. lia. }
  rewrite E1. cbn [shr_m loc_of_shr_record round_nearest_even].
  rewrite (shr_fexp_canonical _ e0 Hd) by lia.
  cbn [shr_m]. unfold prec, emax.
  now replace (e0 <=? 1024 - 53) with true by (symmetry; apply Z.leb_le; lia).
Qed.

Lemma integral_multiple (s : bool) (m : positive) (e q : Z) :
  Zpos m = q * 2 ^ (- e) -> integralSF (S754_finite s m e) = true.
Proof.
  intros H. cbn [integralSF]. destruct (0 <=? e) eqn:He; [reflexivity |].
  apply Z.leb_gt in He. cbn [orb]. apply Z.eqb_eq. rewrite H.
  apply Z.mod_mul. apply Z.pow_nonzero; lia.
Qed.

Lemma shl_align_digits (P : positive) (ez e0 : Z) :
  let '(mz, ez') := shl_align P ez e0 in
  Zpos (digits2_pos mz) + ez' = Zpos (digits2_pos P) + ez
  /\ ez' = Z.min ez e0
  /\ Zpos mz = Zpos P * 2 ^ (ez - ez').
Proof.
  unfold shl_align. destruct (e0 - ez) as [| k | k] eqn:E.
  - repeat split; try lia. rewrite Z.sub_diag. simpl. lia.
  - repeat split; try lia. rewrite Z.sub_diag. simpl. lia.
  - rewrite digits2_pos_iter_xO, Zpos_iter_xO.
    repeat split; try lia. f_equal. f_equal. lia.
Qed.

(** Rounding an integer gives an integral number. *)
Lemma binary_round_integral (s : bool) (P : positive) (ez : Z) :
  0 <= ez \/ (exists W : positive, Zpos P = Zpos W * 2 ^ (- ez)) ->
  integralSF (binary_round prec emax s P ez) = true.
Proof.
  intros Hint. unfold binary_round.
  set (d := Zpos (digits2_pos P) + ez).
  set (e0 := fexp prec emax d).
  pose proof (shl_align_digits P ez e0) as Hal.
  destruct (shl_align P ez e0) as [mz ez'].
  destruct Hal as (Hdig & Hez' & Hmz).
  fold d in Hdig.
  destruct (Z_le_gt_dec 0 e0) as [Hpos | Hneg].
  { apply binary_round_aux_nonneg. cbn [Zdigits2]. rewrite Hdig. fold e0. lia. }
  (* the sum is below 2^53: it is represented exactly at exponent [e0] *)
  assert (Hd1 : 1 <= d /\ exists V : positive,
                  (e0 <= ez -> Zpos P * 2 ^ (ez - e0) = Zpos V * 2 ^ (- e0))
                  /\ (ez < 0 -> Zpos P = Zpos V * 2 ^ (- ez)
                                /\ d = Zpos (digits2_pos V))).
  { destruct (Z_le_gt_dec 0 ez) as [Hz | Hz].
    - split; [unfold d; lia |].
      assert (Hp : 0 < Zpos P * 2 ^ ez)
        by (apply Z.mul_pos_pos; [lia | apply Z.pow_pos_nonneg; lia]).
      destruct (Zpos P * 2 ^ ez) as [| V | V] eqn:EV; try lia.
      exists V. split; [intros _ | lia].
      rewrite <- EV. replace (ez - e0) with (ez + - e0) by lia.
      rewrite Z.pow_add_r by lia. ring.
    - destruct Hint as [Hint | [W HW]]; [lia |].
      assert (HdP : Zpos (digits2_pos P) = Zpos (digits2_pos W) + - ez).
      { destruct (- ez) as [| j | j] eqn:Ej; try lia.
        assert (P = Pos.iter xO W j)
          by (apply Pos2Z.inj; rewrite Zpos_iter_xO; exact HW).
        subst P. rewrite digits2_pos_iter_xO. lia. }
      split; [unfold d; lia |].
      exists W. split; [intros Hle | intros _; split; [exact HW | unfold d; lia]].
      rewrite HW, <- Z.mul_assoc, <- Z.pow_add_r by lia.
      f_equal. f_equal. lia. }
  destruct Hd1 as (Hd1 & V & HV & HVneg).
  assert (He0 : e0 = d - 53).
  { unfold e0, fexp, SpecFloat.emin, prec, emax in *. lia. }
  destruct (Z_le_gt_dec e0 ez) as [Hle | Hgt].
  - (* aligned to [e0]: the mantissa has 53 bits *)
    assert (Hx : ez' = e0) by lia. clear Hez'. subst ez'.
    rewrite binary_round_aux_canonical by lia.
    apply (integral_multiple s mz e0 (Zpos V)). rewrite Hmz. exact (HV Hle).
  - (* [ez < e0 < 0]: the low [e0 - ez] bits are zero *)
    assert (Hx : ez' = ez) by lia. clear Hez'. subst ez'.
    rewrite Z.sub_diag, Z.pow_0_r, Z.mul_1_r in Hmz.
    apply Pos2Z.inj in Hmz. subst mz.
    destruct (HVneg ltac:(lia)) as [HPV HdV].
    destruct (- e0) as [| k | k] eqn:Ek; try lia.
    destruct (e0 - ez) as [| n | n] eqn:En; try lia.
    assert (HP : P = Pos.iter xO (Pos.iter xO V k) n).
    { apply Pos2Z.inj. rewrite !Zpos_iter_xO, HPV, <- Z.mul_assoc.
      rewrite <- Z.pow_add_r by lia. f_equal. f_equal. lia. }
    rewrite HP. replace ez with (e0 - Zpos n) by lia.
    rewrite (binary_round_aux_integer s V e0 n) by lia.
    apply (integral_multiple s _ e0 (Zpos V)).
    rewrite Zpos_iter_xO. f_equal. f_equal. lia.
Qed.

Lemma integralSF_finite (s : bool) (m : positive) (e : Z) :
  integralSF (S754_finite s m e) = true ->
  0 <= e \/ exists q : Z, Zpos m = q * 2 ^ (- e).
Proof.
  cbn [integralSF]. destruct (0 <=? e) eqn:He.
  - left. now apply Z.leb_le.
  - right. cbn [orb] in H. apply Z.eqb_eq in H. apply Z.leb_gt in He.
    apply Z.mod_divide in H; [| apply Z.pow_nonzero; lia].
    destruct H as [q Hq]. now exists q.
Qed.

Lemma binary_normalize_integral (M ez : Z) (szero : bool) :
  0 <= ez \/ (exists W : Z, M = W * 2 ^ (- ez)) ->
  integralSF (binary_normalize prec emax M ez szero) = true.
Proof.
  intros H. destruct M as [| P | P]; cbn [binary_normalize];
    [reflexivity | |]; apply binary_round_integral;
    (destruct H as [H | [W HW]]; [now left | right]).
  - destruct W as [| W | W].
    + simpl in HW. lia.
    + now exists W.
    + pose proof (Z.pow_nonneg 2 (- ez) ltac:(lia)). nia.
  - destruct W as [| W | W].
    + simpl in HW. lia.
    + pose proof (Z.pow_nonneg 2 (- ez) ltac:(lia)). nia.
    + exists W. lia.
Qed.

(** An aligned mantissa of an integral number is a multiple of
    [2^(-ez)]. *)
Lemma aligned_multiple (s : bool) (m : positive) (e ez : Z) :
  integralSF (S754_finite s m e) = true -> ez <= e -> ez < 0 ->
  exists W : Z, Zpos (fst (shl_align m e ez)) = W * 2 ^ (- ez).
Proof.
  intros Hi Hle Hneg.
  pose proof (shl_align_digits m e ez) as Hal.
  destruct (shl_align m e ez) as [mz ez']. cbn [fst].
  destruct Hal as (_ & Hez' & Hmz).
  replace ez' with ez in Hmz by lia.
  destruct (integralSF_finite s m e Hi) as [He | [q Hq]].
  - exists (Zpos m * 2 ^ e). rewrite Hmz, <- Z.mul_assoc, <- Z.pow_add_r by lia.
    repeat f_equal; lia.
  - destruct (Z_le_gt_dec 0 e) as [He | He].
    + exists (Zpos m * 2 ^ e).
      rewrite Hmz, <- Z.mul_assoc, <- Z.pow_add_r by lia.
      repeat f_equal; lia.
    + exists q. rewrite Hmz, Hq, <- Z.mul_assoc, <- Z.pow_add_r by lia.
      repeat f_equal; lia.
Qed.

Lemma cond_Zopp_multiple (b : bool) (x W k : Z) :
  x = W * k -> cond_Zopp b x = (if b then - W else W) * k.
Proof. intros ->. destruct b; cbn [cond_Zopp]; ring. Qed.

(** R3: the sum of two integral numbers is integral (or not finite). *)
Lemma SFadd_integral (a b : spec_float) :
  integralSF a = true -> integralSF b = true ->
  integralSF (SFadd prec emax a b) = true.
Proof.
  intros Ha Hb.
  destruct a as [sa | sa | | sa ma ea], b as [sb | sb | | sb mb eb];
    try reflexivity; try exact Ha; try exact Hb;
    try (cbn [SFadd]; destruct sa, sb; reflexivity).
  cbn [SFadd]. apply binary_normalize_integral.
  destruct (Z_le_gt_dec 0 (Z.min ea eb)) as [Hz | Hz]; [now left | right].
  destruct (aligned_multiple sa ma ea (Z.min ea eb) Ha) as [Wa HWa]; try lia.
  destruct (aligned_multiple sb mb eb (Z.min ea eb) Hb) as [Wb HWb]; try lia.
  exists ((if sa then - Wa else Wa) + (if sb then - Wb else Wb)).
  rewrite (cond_Zopp_multiple sa _ _ _ HWa), (cond_Zopp_multiple sb _ _ _ HWb).
  ring.
Qed.

Lemma add_integral (a b : float) :
  integralSF (Prim2SF a) = true -> integralSF (Prim2SF b) = true ->
  integralSF (Prim2SF (a + b)) = true.
Proof. intros Ha Hb. rewrite add_spec. now apply SFadd_integral. Qed.

(** A sum of two numbers that are their own rounding is its own
    rounding. *)
Lemma Math_round_add (a b : float) :
  Math_round a = a -> Math_round b = b ->
  Math_round (a + b)%float = (a + b)%float.
Proof.
  intros Ha Hb. apply Math_round_fixed, add_integral.
  - rewrite <- Ha. apply Math_round_integral.
  - rewrite <- Hb. apply Math_round_integral.
Qed.

End NumberFacts.

(* ------------------------------------------------------------------ *)
(** * The flattener                                                     *)
(* ------------------------------------------------------------------ *)

Section FlattenFacts.
Local Open Scope float_scope.

Lemma isFlat_spec (p0 p1 p2 p3 : Pt) (tol : float) :
  isFlat p0 p1 p2 p3 tol =
  (let u := sub (sub (3 * fst p1, 3 * snd p1) (2 * fst p0, 2 * snd p0)) p3 in
   let v := sub (sub (3 * fst p2, 3 * snd p2) (2 * fst p3, 2 * snd p3)) p0 in
   Math_max (dot u u) (dot v v) <=? 16 * tol * tol).
Proof. reflexivity. Qed.

(** The accumulator-passing code appends exactly the leaves. *)
Lemma flattenCubic_leaves (fuel : nat) :
  forall (p0 p1 p2 p3 : Pt) (tol : float) (out : list Pt),
    flattenCubic fuel p0 p1 p2 p3 tol out =
    (ps <- cubicLeaves fuel p0 p1 p2 p3 tol ;; Some (out ++ ps)).
Proof.
  induction fuel as [| f IH]; intros p0 p1 p2 p3 tol out; simpl;
    rewrite <- isFlat_spec; destruct (isFlat p0 p1 p2 p3 tol); try reflexivity.
  rewrite IH.
  destruct (cubicLeaves f p0 _ _ _ tol) as [l |]; simpl; [| reflexivity].
  rewrite IH.
  destruct (cubicLeaves f _ _ _ p3 tol) as [r |]; simpl; [| reflexivity].
  now rewrite app_assoc.
Qed.

(** The recursive case, unfolded once. *)
Lemma cubicLeaves_step (f : nat) (p0 p1 p2 p3 : Pt) (tol : float) :
  cubicLeaves (S f) p0 p1 p2 p3 tol =
  if isFlat p0 p1 p2 p3 tol then Some [p3]
  else
    let m := midpoint (midpoint (midpoint p0 p1) (midpoint p1 p2))
               (midpoint (midpoint p1 p2) (midpoint p2 p3)) in
    left <- cubicLeaves f p0 (midpoint p0 p1)
              (midpoint (midpoint p0 p1) (midpoint p1 p2)) m tol ;;
    right <- cubicLeaves f m (midpoint (midpoint p1 p2) (midpoint p2 p3))
               (midpoint p2 p3) p3 tol ;;
    Some (left ++ right).
Proof. reflexivity. Qed.

Lemma cubicLeaves_zero (p0 p1 p2 p3 : Pt) (tol : float) :
  cubicLeaves 0 p0 p1 p2 p3 tol =
  if isFlat p0 p1 p2 p3 tol then Some [p3] else None.
Proof. reflexivity. Qed.

(** More fuel does not change a result. *)
Lemma cubicLeaves_more_fuel (fuel : nat) :
  forall (p0 p1 p2 p3 : Pt) (tol : float) (ps : list Pt),
    cubicLeaves fuel p0 p1 p2 p3 tol = Some ps ->
    cubicLeaves (S fuel) p0 p1 p2 p3 tol = Some ps.
Proof.
  induction fuel as [| f IH]; intros p0 p1 p2 p3 tol ps.
  - rewrite cubicLeaves_zero, cubicLeaves_step.
    destruct (isFlat p0 p1 p2 p3 tol); [trivial | discriminate].
  - rewrite (cubicLeaves_step (S f)), (cubicLeaves_step f).
    destruct (isFlat p0 p1 p2 p3 tol); [trivial |]. cbv zeta.
    destruct (cubicLeaves f p0 _ _ _ tol) as [l |] eqn:El; [| discriminate].
    rewrite (IH _ _ _ _ _ _ El). unfold bind at 1 3.
    destruct (cubicLeaves f _ _ _ p3 tol) as [r |] eqn:Er; [| discriminate].
    now rewrite (IH _ _ _ _ _ _ Er).
Qed.

(** The leaves of a run that returns end with the endpoint of the cubic. *)
Lemma cubicLeaves_last (fuel : nat) :
  forall (p0 p1 p2 p3 : Pt) (tol : float) (ps : list Pt),
    cubicLeaves fuel p0 p1 p2 p3 tol = Some ps ->
    exists front, ps = front ++ [p3].
Proof.
  induction fuel as [| f IH]; intros p0 p1 p2 p3 tol ps; simpl.
  - destruct (_ <=? _); [| discriminate].
    intros [= <-]. now exists [].
  - destruct (_ <=? _).
    + intros [= <-]. now exists [].
    + destruct (cubicLeaves f p0 _ _ _ tol) as [l |]; [| discriminate].
      simpl.
      destruct (cubicLeaves f _ _ _ p3 tol) as [r |] eqn:Er; [| discriminate].
      intros [= <-]. destruct (IH _ _ _ _ _ _ Er) as [front ->].
      exists (l ++ front). now rewrite app_assoc.
Qed.

(** C6: [flattenCubic] appends to its output array exactly the points the
    specification describes ([cubicLeaves]): the endpoint [p3] alone when
    max(|3 p1 - 2 p0 - p3|^2, |3 p2 - 2 p3 - p0|^2) <= 16 tol^2 (whatever
    the depth allowed), otherwise the points of the left half followed by
    those of the right half of the midpoint de Casteljau subdivision;
    nothing is appended for the start point (the appended points end with
    [p3], and a flat cubic gives [p3] alone); a result obtained within some
    depth is the result at every larger depth; [flattenQuadratic] is the
    same routine on the degree-elevated cubic with control points
    p0 + 2/3 (p1 - p0) and p2 + 2/3 (p1 - p2). *)
Theorem flattenCubic_refines_spec (fuel : nat) (p0 p1 p2 p3 : Pt) (tol : float)
  (out : list Pt) :
  flattenCubic fuel p0 p1 p2 p3 tol out =
    (ps <- cubicLeaves fuel p0 p1 p2 p3 tol ;; Some (out ++ ps))
  /\ (isFlat p0 p1 p2 p3 tol = true ->
      flattenCubic fuel p0 p1 p2 p3 tol out = Some (out ++ [p3]))
  /\ (forall ps, cubicLeaves fuel p0 p1 p2 p3 tol = Some ps ->
        exists front, ps = front ++ [p3])
  /\ (forall r, flattenCubic fuel p0 p1 p2 p3 tol out = Some r ->
        flattenCubic (S fuel) p0 p1 p2 p3 tol out = Some r)
  /\ (forall q1 : Pt,
        flattenQuadratic fuel p0 q1 p3 tol out =
        (ps <- cubicLeaves fuel p0 (fst (elevate p0 q1 p3))
                 (snd (elevate p0 q1 p3)) p3 tol ;;
         Some (out ++ ps))).
Proof.
  split; [apply flattenCubic_leaves |].
  split.
  { intros Hflat. destruct fuel; cbn [flattenCubic]; now rewrite Hflat. }
  split; [apply cubicLeaves_last |].
  split.
  { intros r. rewrite !flattenCubic_leaves.
    destruct (cubicLeaves fuel p0 p1 p2 p3 tol) as [ps |] eqn:E;
      [| discriminate].
    now rewrite (cubicLeaves_more_fuel fuel _ _ _ _ _ _ E). }
  intros q1. unfold flattenQuadratic. now rewrite flattenCubic_leaves.
Qed.

(** The cubic of the specification's scenario, [M 0 0 C 0 50 50 50 50 0]
    at tolerance 0.1: five levels of subdivision, 32 points, the last one
    the endpoint. *)
Example flattenCubic_scenario :
  exists ps,
    flattenCubic 5 (0, 0) (0, 50) (50, 50) (50, 0) FLATTEN_TOLERANCE [(0, 0)]
    = Some ((0, 0) :: ps)
    /\ List.length ps = 32%nat /\ last ps (0, 0) = (50, 0)
    /\ flattenCubic 4 (0, 0) (0, 50) (50, 50) (50, 0) FLATTEN_TOLERANCE [(0, 0)]
       = None.
Proof.
  eexists. split; [run |]. conjuncts; run.
Qed.

End FlattenFacts.

(* ------------------------------------------------------------------ *)
(** * The per-vertex join procedure                                     *)
(* ------------------------------------------------------------------ *)

Section JoinFacts.
Local Open Scope float_scope.

Variable L : Libm.

(** C4: at a convex corner (cross(e1,e2) * sign(offset) > 0 and
    |cross(e1,e2)| not below 1e-6) with join kind Miter, the engine pushes
    the single bisector point v + bisect * dist, dist = offset /
    cross(e1, bisect), exactly when |cross(e1, bisect)| > 1e-6 and the
    distance |dist| of that point from v along the unit bisector is at most
    miterLimit * |offset|; otherwise it pushes the two bevel points
    v + outN1 * offset and v + outN2 * offset.  Every point is rounded as
    it is pushed. *)
Theorem miter_join_bisector_iff_within_limit
  (fuel : nat) (pts : list Pt) (offsetAmt miterLimit arcTolerance : float)
  (result : list Pt) (i : nat) :
  let v := nthPt pts i in
  let e1 := edgeIn pts i in
  let e2 := edgeOut pts i in
  let outN1 := leftNormal e1 in
  let outN2 := leftNormal e2 in
  let bisect := norm (add outN1 outN2) in
  let dist := offsetAmt / cross e1 bisect in
  (0 <? cross e1 e2 * (if 0 <? offsetAmt then 1 else -1)) = true ->
  (Math_abs (cross e1 e2) <? 1e-6) = false ->
  joinAt L fuel pts offsetAmt JoinMiter miterLimit arcTolerance result i =
  Some (result ++
        if (1e-6 <? Math_abs (cross e1 bisect))
           && (Math_abs dist <=? miterLimit * Math_abs offsetAmt)
        then [roundPt (fst v + fst bisect * dist) (snd v + snd bisect * dist)]
        else [roundPt (fst v + fst outN1 * offsetAmt)
                      (snd v + snd outN1 * offsetAmt);
              roundPt (fst v + fst outN2 * offsetAmt)
                      (snd v + snd outN2 * offsetAmt)]).
Proof.
  intros v e1 e2 outN1 outN2 bisect dist Hconvex Hcr.
  unfold joinAt, notConvex.
  fold v e1 e2. rewrite Hconvex, Hcr. cbn [negb orb].
  unfold miterAccepted, bisector. fold outN1 outN2 bisect dist.
  destruct ((1e-6 <? Math_abs (cross e1 bisect))
            && (Math_abs dist <=? miterLimit * Math_abs offsetAmt));
    reflexivity.
Qed.

(** C5: at a concave or degenerate corner (cross(e1,e2) * sign(offset) <= 0,
    or |cross(e1,e2)| < 1e-6) the engine pushes exactly one point, whatever
    the join kind: v + outN1 * offset when |cross(e1, bisect)| < 1e-6, and
    the bisector point v + bisect * (offset / cross(e1, bisect)) otherwise,
    with bisect = normalize(outN1 + outN2). *)
Theorem concave_corner_single_point
  (fuel : nat) (pts : list Pt) (offsetAmt : float) (joinType : JoinType)
  (miterLimit arcTolerance : float) (result : list Pt) (i : nat) :
  let v := nthPt pts i in
  let e1 := edgeIn pts i in
  let e2 := edgeOut pts i in
  let outN1 := leftNormal e1 in
  let outN2 := leftNormal e2 in
  let bisect := norm (add outN1 outN2) in
  let dist := offsetAmt / cross e1 bisect in
  (cross e1 e2 * (if 0 <? offsetAmt then 1 else -1) <=? 0) = true
  \/ (Math_abs (cross e1 e2) <? 1e-6) = true ->
  joinAt L fuel pts offsetAmt joinType miterLimit arcTolerance result i =
  Some (result ++
        [if Math_abs (cross e1 bisect) <? 1e-6
         then roundPt (fst v + fst outN1 * offsetAmt)
                      (snd v + snd outN1 * offsetAmt)
         else roundPt (fst v + fst bisect * dist)
                      (snd v + snd bisect * dist)]).
Proof.
  intros v e1 e2 outN1 outN2 bisect dist H.
  assert (Hn : notConvex e1 e2 offsetAmt = true).
  { unfold notConvex. destruct H as [H | H].
    - now rewrite (leb_zero_not_pos _ H).
    - rewrite H. apply orb_true_r. }
  unfold joinAt. fold v e1 e2. rewrite Hn.
  unfold bisector. fold outN1 outN2 bisect.
  destruct (Math_abs (cross e1 bisect) <? 1e-6); reflexivity.
Qed.

(** The corners a join kind other than the single-point rule decides are
    the convex ones: there, Bevel and Square push the two bevel points. *)
Lemma bevel_join_two_points
  (fuel : nat) (pts : list Pt) (offsetAmt : float) (joinType : JoinType)
  (miterLimit arcTolerance : float) (result : list Pt) (i : nat) :
  joinType = JoinBevel \/ joinType = JoinSquare ->
  notConvex (edgeIn pts i) (edgeOut pts i) offsetAmt = false ->
  joinAt L fuel pts offsetAmt joinType miterLimit arcTolerance result i =
  Some (result
        ++ bevelPoints (nthPt pts i) (edgeIn pts i) (edgeOut pts i) offsetAmt).
Proof.
  intros Hj Hc. unfold joinAt. rewrite Hc. now destruct Hj as [-> | ->].
Qed.

End JoinFacts.

(** A right-angle corner of the square of the specification's scenario is
    within the default miter limit 2: one point. *)
Lemma miter_join_bisector_iff_within_limit_witness :
  joinAt refLibm 0
    [(0, 0); (100000, 0); (100000, 100000); (0, 100000)]%float
    10000 JoinMiter 2 0.25 [] 0
  = Some [(10000, 10000)%float].
Proof.
  exact (miter_join_bisector_iff_within_limit refLibm 0
           [(0, 0); (100000, 0); (100000, 100000); (0, 100000)]%float
           10000 2 0.25 [] 0 eq_refl eq_refl).
Defined.

(** With offset -10000 the same corner is not on the convex side: one
    bisector point under every join kind, here Round. *)
Lemma concave_corner_single_point_witness :
  joinAt refLibm 0
    [(0, 0); (100000, 0); (100000, 100000); (0, 100000)]%float
    (-10000) JoinRound 2 0.25 [] 0
  = Some [(-10000, -10000)%float].
Proof.
  exact (concave_corner_single_point refLibm 0
           [(0, 0); (100000, 0); (100000, 100000); (0, 100000)]%float
           (-10000) JoinRound 2 0.25 [] 0 (or_introl eq_refl)).
Defined.

(** The sharp corner of a thin triangle: the bisector point would lie
    about 20 offsets away, beyond the default limit of 2, and the two bevel
    points are pushed; the blunt corner opposite is not on the convex
    side and gets one point. *)
Example miter_join_sharp_corner :
  joinAt refLibm 0 [(0, 0); (100000, 0); (50000, 5000)]%float
    10000 JoinMiter 2 0.25 [] 0
  = Some [(995, -9950); (0, 10000)]%float
  /\ joinAt refLibm 0 [(0, 0); (100000, 0); (50000, 5000)]%float
       10000 JoinMiter 2 0.25 [] 2
     = Some [(50000, -5050)%float].
Proof. conjuncts; run. Qed.

(* ------------------------------------------------------------------ *)
(** * The vertex loop and the public boundary                           *)
(* ------------------------------------------------------------------ *)

Section BoundaryFacts.
Local Open Scope float_scope.

Variable L : Libm.

(** C8 (as the code has it): on an [n]-point polygon, [n >= 3], the
    per-vertex join procedure runs at the vertices 0 .. n-2 ([n - 1] of
    them, the last point left out) for the open end kinds Butt, Square and
    Round, and at all [n] vertices 0 .. n-1 for Polygon and Joined, in index
    order, the caps following for the open kinds.  Vertex 0 is one of them
    in both cases, and its incoming edge is the wrap-around edge from the
    last point to the first, which is also the outgoing edge of the last
    vertex where that one is visited. *)
Theorem vertex_loop_range
  (fuel : nat) (pts : list Pt) (offsetAmt : float) (joinType : JoinType)
  (endType : EndType) (miterLimit arcTolerance : float) :
  let n := List.length pts in
  (3 <= n)%nat ->
  let visited :=
    match endType with
    | EndButt | EndSquare | EndRound => seq 0 (n - 1)
    | EndPolygon | EndJoined => seq 0 n
    end in
  offsetPolygon L fuel pts offsetAmt joinType endType miterLimit arcTolerance
  = (result <- forEach visited
                 (joinAt L fuel pts offsetAmt joinType miterLimit arcTolerance)
                 [] ;;
     match endType with
     | EndButt | EndSquare | EndRound =>
         result <- startCap L fuel pts offsetAmt endType arcTolerance result ;;
         endCap L fuel pts offsetAmt endType arcTolerance result
     | EndPolygon | EndJoined => Some result
     end)
  /\ List.length visited
     = match endType with
       | EndButt | EndSquare | EndRound => (n - 1)%nat
       | EndPolygon | EndJoined => n
       end
  /\ In 0%nat visited
  /\ (In (n - 1)%nat visited <-> isOpen endType = false)
  /\ edgeIn pts 0 = norm (sub (nthPt pts 0) (nthPt pts (n - 1)))
  /\ edgeOut pts (n - 1) = norm (sub (nthPt pts 0) (nthPt pts (n - 1))).
Proof.
  intros n Hn visited.
  assert (Hlt : (n <? 3)%nat = false) by (apply Nat.ltb_ge; exact Hn).
  assert (H2 : (2 <=? n)%nat = true) by (apply Nat.leb_le; lia).
  split.
  { unfold offsetPolygon. fold n. rewrite Hlt. unfold loopCount, visited.
    destruct endType; cbn [isOpen andb]; rewrite ?H2; reflexivity. }
  split.
  { unfold visited. destruct endType; apply length_seq. }
  split.
  { unfold visited. destruct endType; apply in_seq; lia. }
  split.
  { unfold visited. destruct endType; cbn [isOpen]; rewrite in_seq;
      split; intros H; try discriminate; try lia; reflexivity. }
  split.
  { unfold edgeIn. fold n. cbn [Nat.add]. now rewrite Nat.mod_small by lia. }
  unfold edgeOut. fold n.
  replace (n - 1 + 1)%nat with n by lia. now rewrite Nat.Div0.mod_same.
Qed.

(** C1: when the offset amount is not finite or its absolute value is
    below 0.001, [offsetSvgPath] returns the input string itself, for every
    path string and every configuration (and without looking at either). *)
Theorem offsetSvgPath_identity
  (fuel : nat) (pathData : string) (offsetAmt : float)
  (joinType : option JoinType) (endType : option EndType)
  (miterLimit arcTolerance : float) (originX originY : option float) :
  isFinite offsetAmt = false \/ (Math_abs offsetAmt <? 0.001) = true ->
  offsetSvgPath L fuel pathData offsetAmt joinType endType miterLimit
    arcTolerance originX originY = Some pathData.
Proof.
  intros H. unfold offsetSvgPath, tooSmall.
  destruct H as [-> | ->]; [reflexivity |].
  now rewrite orb_true_r.
Qed.

End BoundaryFacts.

Section ParserLoop.
Local Open Scope string_scope.

Lemma stuck_step (p : Parser) :
  stuck p -> exists q, parseStep p = (Continue, q) /\ stuck q.
Proof.
  destruct p as [s0 e0 c0 x0 y0 k0]. unfold stuck. cbn [st cmd].
  intros [-> ->]. destruct c0 as [c |]; eexists; split;
    try (vm_compute; reflexivity); split; reflexivity.
Qed.

Lemma stuck_loop (fuel : nat) : forall p, stuck p -> parseLoop fuel p = None.
Proof.
  induction fuel as [| f IH]; intros p Hp.
  - destruct Hp as [Hs _]. unfold parseLoop. now rewrite Hs.
  - destruct (stuck_step p Hp) as (q & Hq & Hstuck).
    destruct Hp as [Hs _]. cbn [parseLoop].
    replace (atEnd (st p)) with false by (rewrite Hs; reflexivity).
    rewrite Hq. now apply IH.
Qed.

(** The parser does not always return: on this input the loop pushes
    segments forever. *)
Lemma parseSvgPath_may_not_return (fuel : nat) :
  parseSvgPath fuel "M 0 0 #" = None.
Proof.
  unfold parseSvgPath. destruct fuel as [| f]; [reflexivity |].
  cbn [parseLoop].
  change (atEnd (st {| st := {| src := trim "M 0 0 #"; pos := 0 |};
                       earlier := []; current := None; cx := 0%float;
                       cy := 0%float; cmd := None |})) with false.
  cbv iota.
  replace (parseStep _) with
    (Continue,
     {| st := {| src := "M 0 0 #"; pos := 6 |}; earlier := [];
        current := Some {| segs := [SegM (0, 0)%float]; closed := false |};
        cx := 0%float; cy := 0%float; cmd := Some "L"%char |})
    by (vm_compute; reflexivity).
  rewrite stuck_loop; [reflexivity |]. split; reflexivity.
Qed.

End ParserLoop.

Section BoundaryExamples.
Local Open Scope string_scope.

Lemma vertex_loop_range_witness :
  offsetPolygon refLibm 0
    [(0, 0); (100000, 0); (100000, 100000); (0, 100000)]%float
    10000 JoinMiter EndButt 2 0.25
  = Some [(10000, 10000); (90000, 10000); (90000, 90000)]%float.
Proof.
  destruct (vertex_loop_range refLibm 0
              [(0, 0); (100000, 0); (100000, 100000); (0, 100000)]%float
              10000 JoinMiter EndButt 2 0.25 ltac:(simpl; lia)) as [H _].
  rewrite H. run.
Defined.

(** At offset 0, at an offset below the threshold, at NaN and at
    +Infinity. *)
Lemma offsetSvgPath_identity_witness :
  let p := "M 0 0 L 100 0 L 100 100 L 0 100 Z" in
  offsetSvgPath refLibm 0 p 0 None None 2 0.25 None None = Some p
  /\ offsetSvgPath refLibm 0 p (-0.0009) (Some JoinMiter) (Some EndRound)
       2 0.25 (Some 0.5%float) None = Some p
  /\ offsetSvgPath refLibm 0 p nan None None 2 0.25 None None = Some p
  /\ offsetSvgPath refLibm 0 "not a path" infinity None None 2 0.25 None None
     = Some "not a path".
Proof.
  cbv zeta. conjuncts; apply offsetSvgPath_identity;
    solve [left; reflexivity | right; reflexivity].
Defined.

(** C8, the cases it gets wrong: for an open end kind the loop is not over
    the interior vertices, and the wrap-around edge is not left out.  On a
    4-point path the vertices visited are 0, 1, 2, and moving the last
    point alone, which changes no edge but the last one and the wrap-around
    one, moves the first point of the result. *)
Lemma open_path_visits_first_vertex :
  let a := [(0, 0); (100000, 0); (100000, 100000); (0, 100000)]%float in
  let b := [(0, 0); (100000, 0); (100000, 100000); (200000, 100000)]%float in
  seq 0 (loopCount 4 EndButt) = [0; 1; 2]%nat
  /\ interiorVertices 4 = [1; 2]%nat
  /\ firstn 3 a = firstn 3 b
  /\ option_map (firstn 1)
       (offsetPolygon refLibm 0 a 10000 JoinMiter EndButt 2 0.25)
     = Some [(10000, 10000)%float]
  /\ option_map (firstn 1)
       (offsetPolygon refLibm 0 b 10000 JoinMiter EndButt 2 0.25)
     = Some [(4472, -8944)%float].
Proof. cbv zeta. conjuncts; run. Qed.

(** The scenario cubic again, through the theorem: what [flattenCubic]
    adds to [[(0, 0)]] are the 32 leaves, the last one the endpoint, at
    depth 5 and at depth 6; and a cubic along a straight line is flat, its
    endpoint added at depth 0. *)
Lemma flattenCubic_refines_spec_witness :
  (exists ps front,
     cubicLeaves 5 (0, 0)%float (0, 50)%float (50, 50)%float (50, 0)%float
       FLATTEN_TOLERANCE = Some ps
     /\ flattenCubic 5 (0, 0)%float (0, 50)%float (50, 50)%float (50, 0)%float
          FLATTEN_TOLERANCE [(0, 0)%float] = Some ((0, 0)%float :: ps)
     /\ flattenCubic 6 (0, 0)%float (0, 50)%float (50, 50)%float (50, 0)%float
          FLATTEN_TOLERANCE [(0, 0)%float] = Some ((0, 0)%float :: ps)
     /\ ps = (front ++ [(50, 0)%float])%list)
  /\ flattenCubic 0 (0, 0)%float (10, 0)%float (20, 0)%float (30, 0)%float
       FLATTEN_TOLERANCE [(0, 0)%float]
     = Some [(0, 0)%float; (30, 0)%float].
Proof.
  split.
  - destruct (flattenCubic_refines_spec 5 (0, 0)%float (0, 50)%float
                (50, 50)%float (50, 0)%float FLATTEN_TOLERANCE [(0, 0)%float])
      as (Hrun & _ & Hlast & Hmore & _).
    assert (E : exists ps,
               cubicLeaves 5 (0, 0)%float (0, 50)%float (50, 50)%float
                 (50, 0)%float FLATTEN_TOLERANCE = Some ps)
      by (eexists; run).
    destruct E as [ps E]. destruct (Hlast ps E) as [front Hfront].
    assert (H5 : flattenCubic 5 (0, 0)%float (0, 50)%float (50, 50)%float
                   (50, 0)%float FLATTEN_TOLERANCE [(0, 0)%float]
                 = Some ((0, 0)%float :: ps))
      by (rewrite Hrun, E; reflexivity).
    exists ps, front. split; [exact E |]. split; [exact H5 |].
    split; [exact (Hmore _ H5) | exact Hfront].
  - destruct (flattenCubic_refines_spec 0 (0, 0)%float (10, 0)%float
                (20, 0)%float (30, 0)%float FLATTEN_TOLERANCE [(0, 0)%float])
      as (_ & Hflat & _).
    exact (Hflat ltac:(run)).
Defined.

End BoundaryExamples.

Section FiniteIntegers.
Local Open Scope float_scope.

(** A finite number is a zero or has a mantissa and an exponent. *)
Lemma is_finite_cases (x : float) :
  is_finite x = true ->
  (exists s, Prim2SF x = S754_zero s)
  \/ (exists s m e, Prim2SF x = S754_finite s m e).
Proof.
  unfold is_finite, is_nan, is_infinity.
  rewrite !FloatAxioms.eqb_spec, abs_spec.
  destruct (Prim2SF x) as [s | s | | s m e]; eauto.
  - unfold SFeqb. cbn [SFabs]. change (Prim2SF infinity) with (S754_infinity false).
    cbn [SFcompare]. destruct s; discriminate.
  - discriminate.
Qed.

(** A finite number that is its own rounding is an integer. *)
Lemma ownRounding_integer (c : float) :
  Math_round c = c -> is_finite c = true -> exists z, toInteger c = Some z.
Proof.
  intros Hr Hf. pose proof (Math_round_integral c) as Hi. rewrite Hr in Hi.
  unfold toInteger, toIntegerSF.
  destruct (is_finite_cases c Hf) as [[s E] | (s & m & e & E)]; rewrite E in *.
  - eauto.
  - cbn [integralSF] in Hi. destruct (0 <=? e)%Z; [eauto |].
    cbn [orb] in Hi. rewrite Hi. eauto.
Qed.

End FiniteIntegers.

(* ------------------------------------------------------------------ *)
(** * Rounded points                                                    *)
(* ------------------------------------------------------------------ *)

Section RoundedPoints.
Local Open Scope float_scope.

Variable L : Libm.

Lemma roundPt_ownRounding (x y : float) : ownRounding (roundPt x y).
Proof. split; apply Math_round_idempotent. Qed.

Lemma forEach_invariant {A S : Type} (P : S -> Prop)
  (body : S -> A -> option S) :
  (forall acc x acc', P acc -> body acc x = Some acc' -> P acc') ->
  forall xs acc r, P acc -> forEach xs body acc = Some r -> P r.
Proof.
  intros Hbody xs. induction xs as [| x xs IH]; intros acc r Hacc; simpl.
  - now intros [= <-].
  - destruct (body acc x) as [acc' |] eqn:E; [| discriminate].
    simpl. apply IH. exact (Hbody _ _ _ Hacc E).
Qed.

Lemma addRoundJoin_ownRounding (fuel : nat) (cx cy : float) (n1 n2 : Pt)
  (offsetAmt arcTolerance : float) (result r : list Pt) :
  Forall ownRounding result ->
  addRoundJoin L fuel cx cy n1 n2 offsetAmt arcTolerance result = Some r ->
  Forall ownRounding r.
Proof.
  intros Hres. unfold addRoundJoin.
  destruct (normalizeDa fuel _) as [da |]; [| discriminate]. cbn [bind].
  destruct (iterations _) as [k |]; [| discriminate]. cbn [bind].
  intros [= <-]. apply Forall_app. split; [exact Hres |].
  apply Forall_map, Forall_forall. intros i _. apply roundPt_ownRounding.
Qed.

Lemma joinAt_ownRounding (fuel : nat) (pts : list Pt) (offsetAmt : float)
  (joinType : JoinType) (miterLimit arcTolerance : float)
  (result : list Pt) (i : nat) (r : list Pt) :
  Forall ownRounding result ->
  joinAt L fuel pts offsetAmt joinType miterLimit arcTolerance result i
  = Some r ->
  Forall ownRounding r.
Proof.
  intros Hres. unfold joinAt.
  assert (Hone : forall p, ownRounding p -> Forall ownRounding (result ++ [p]))
    by (intros p Hp; apply Forall_app; split; [exact Hres | now constructor]).
  assert (Hbev : forall c e1 e2,
             Forall ownRounding (result ++ bevelPoints c e1 e2 offsetAmt)).
  { intros c e1 e2. apply Forall_app. split; [exact Hres |].
    repeat constructor; apply Math_round_idempotent. }
  destruct (notConvex _ _ _).
  - destruct (_ <? _); intros [= <-]; apply Hone; apply roundPt_ownRounding.
  - destruct joinType.
    + intros [= <-]. apply Hbev.
    + intros [= <-]. apply Hbev.
    + apply addRoundJoin_ownRounding. exact Hres.
    + destruct (miterAccepted _ _ _ _); intros [= <-];
        [apply Hone, roundPt_ownRounding | apply Hbev].
Qed.

Lemma squareCorner_ownRounding (pt nrm dir : Pt) (plus : bool) (o : float) :
  ownRounding (squareCorner pt nrm dir plus o).
Proof. unfold squareCorner. destruct plus; apply roundPt_ownRounding. Qed.

Lemma offsetPolygon_ownRounding (fuel : nat) (pts : list Pt)
  (offsetAmt : float) (joinType : JoinType) (endType : EndType)
  (miterLimit arcTolerance : float) (r : list Pt) :
  offsetPolygon L fuel pts offsetAmt joinType endType miterLimit arcTolerance
  = Some r ->
  Forall ownRounding r.
Proof.
  unfold offsetPolygon. destruct (_ <? 3)%nat; [now intros [= <-] |].
  destruct (forEach _ _ []) as [res |] eqn:E; [| discriminate]. cbn [bind].
  assert (Hres : Forall ownRounding res).
  { refine (forEach_invariant (Forall ownRounding) _ _ _ [] res _ E);
      [| constructor].
    intros acc i acc' Hacc. now apply joinAt_ownRounding. }
  destruct (isOpen endType && _); [| now intros [= <-]].
  unfold startCap, endCap.
  destruct endType; cbn [bind]; try (now intros [= <-]).
  - (* Square *)
    intros [= <-].
    repeat first [ exact Hres
                 | apply roundPt_ownRounding
                 | apply squareCorner_ownRounding
                 | apply Forall_cons
                 | apply Forall_nil
                 | apply Forall_app; split ].
  - (* Round *)
    destruct (addRoundJoin L fuel _ _ _ _ offsetAmt arcTolerance res)
      as [res1 |] eqn:E1; [| discriminate]. cbn [bind].
    apply addRoundJoin_ownRounding.
    exact (addRoundJoin_ownRounding _ _ _ _ _ _ _ _ _ Hres E1).
Qed.

Lemma anchorShift_ownRounding (a b c d : float) (o : option float) :
  Math_round (anchorShift a b c d o) = anchorShift a b c d o.
Proof.
  unfold anchorShift. destruct o; [apply Math_round_idempotent | reflexivity].
Qed.

Lemma anchor_ownRounding (pts offsetPts : list Pt) (ox oy : option float) :
  Forall ownRounding offsetPts ->
  Forall ownRounding (anchor pts offsetPts ox oy).
Proof.
  intros H. unfold anchor.
  assert (Hmap : forall dx dy,
             Math_round dx = dx -> Math_round dy = dy ->
             Forall ownRounding
               (map (fun p => (fst p + dx, snd p + dy)) offsetPts)).
  { intros dx dy Hdx Hdy. apply Forall_map.
    eapply Forall_impl; [| exact H].
    intros p [Hx Hy]. split; cbn [fst snd]; now apply Math_round_add. }
  destruct ox, oy; try exact H;
    (destruct (negb _ || negb _);
     [apply Hmap; apply anchorShift_ownRounding | exact H]).
Qed.

End RoundedPoints.

(* ------------------------------------------------------------------ *)
(** * The anchor translation                                            *)
(* ------------------------------------------------------------------ *)

Section Nearest.
Local Open Scope Z_scope.

Lemma toInteger_Z2float (s : bool) (n : Z) :
  0 <= n < 2 ^ 53 ->
  toInteger (Z2float s n) = Some (if s then - n else n).
Proof.
  intros Hn. destruct n as [| p | p]; try lia.
  - unfold toInteger, toIntegerSF. rewrite Prim2SF_Z2float_zero. now destruct s.
  - assert (Hd : Zpos (digits2_pos p) <= 53) by (apply digits2_pos_le; lia).
    unfold toInteger, toIntegerSF. rewrite Prim2SF_Z2float by exact Hd.
    unfold canonInt.
    destruct (53 - Zpos (digits2_pos p)) as [| k | k]; cbn [fst snd].
    + cbn [Z.leb Z.compare]. rewrite Z.pow_0_r. f_equal. destruct s; lia.
    + cbn [Z.leb Z.compare Z.opp]. rewrite Zpos_iter_xO.
      rewrite Z.mod_mul, Z.eqb_refl, Z.div_mul
        by (apply Z.pow_nonzero; lia).
      f_equal. destruct s; lia.
    + cbn [Z.leb Z.compare]. rewrite Z.pow_0_r. f_equal. destruct s; lia.
Qed.

Lemma valueQ_finite (x : float) :
  (exists d, valueQ x = Some d) <->
  (exists s, Prim2SF x = S754_zero s)
  \/ (exists s m e, Prim2SF x = S754_finite s m e).
Proof.
  unfold valueQ. destruct (Prim2SF x) as [s | s | | s m e]; split;
    try (intros [d H]; discriminate);
    try (intros [[s' H] | (s' & m' & e' & H)]; discriminate); eauto.
Qed.

(** [Math_round] gives the nearest integer: at most 1/2 away. *)
Lemma Math_round_nearest (x : float) (d : Q) :
  valueQ x = Some d ->
  exists z, toInteger (Math_round x) = Some z
            /\ (Qabs (inject_Z z - d) <= 1 # 2)%Q.
Proof.
  unfold valueQ. destruct (Prim2SF x) as [s | s | | s m e] eqn:E;
    try discriminate.
  - intros [= <-]. exists 0.
    rewrite Math_round_special by (intros; rewrite E; discriminate).
    unfold toInteger, toIntegerSF. rewrite E. split; [reflexivity |]. now compute.
  - intros [= <-]. rewrite (Math_round_finite x s m e E).
    destruct (0 <=? e) eqn:He.
    + exists ((if s then -1 else 1) * (Zpos m * 2 ^ e)).
      unfold toInteger, toIntegerSF. rewrite E, He. split; [reflexivity |].
      rewrite Z.mul_assoc. setoid_replace
        (inject_Z ((if s then -1 else 1) * Zpos m * 2 ^ e)
         - inject_Z ((if s then -1 else 1) * Zpos m * 2 ^ e))%Q with 0%Q
        by ring.
      now compute.
    + apply Z.leb_gt in He.
      pose proof (roundedMag_bounds s m e He) as Hb.
      pose proof (valid_finite x s m e E) as Hv.
      assert (Hm : Zpos m < 2 ^ 53).
      { pose proof (digits2_pos_upper m).
        assert (2 ^ Zpos (digits2_pos m) <= 2 ^ 53)
          by (apply Z.pow_le_mono_r; lia).
        lia. }
      exists (if s then - roundedMag s m e else roundedMag s m e).
      split; [apply toInteger_Z2float; lia |].
      assert (Hk : 0 < 2 ^ (- e)) by (apply Z.pow_pos_nonneg; lia).
      apply Qabs_Qle_condition.
      unfold roundedMag in *. set (k := 2 ^ (- e)) in *.
      unfold Qle, Qminus, Qplus, Qopp, inject_Z. cbn [Qnum Qden].
      rewrite !Z2Pos.id by lia.
      destruct s.
      * pose proof (Z.div_mod (k - 2 * Zpos m) (2 * k) ltac:(lia)).
        pose proof (Z.mod_pos_bound (k - 2 * Zpos m) (2 * k) ltac:(lia)).
        split; nia.
      * pose proof (Z.div_mod (2 * Zpos m + k) (2 * k) ltac:(lia)).
        pose proof (Z.mod_pos_bound (2 * Zpos m + k) (2 * k) ltac:(lia)).
        split; nia.
Qed.

End Nearest.

Section Zero.
Local Open Scope float_scope.

Lemma add_zero_sameNumber (x : float) : sameNumber x (x + 0).
Proof.
  unfold sameNumber.
  destruct (Prim2SF x) as [s | s | | s m e] eqn:E.
  - destruct s.
    + right. split; apply Prim2SF_inj; [now rewrite E |].
      now rewrite add_spec, E.
    + left. apply Prim2SF_inj. now rewrite add_spec, E.
  - left. apply Prim2SF_inj. now rewrite add_spec, E.
  - left. apply Prim2SF_inj. now rewrite add_spec, E.
  - left. apply Prim2SF_inj. now rewrite add_spec, E.
Qed.

End Zero.

Section AnchorFacts.
Local Open Scope float_scope.

Lemma sameNumber_refl (x : float) : sameNumber x x.
Proof. now left. Qed.

Lemma Forall2_same {A : Type} (R : A -> A -> Prop) (l : list A) :
  (forall a, R a a) -> Forall2 R l l.
Proof. intros H. induction l; constructor; auto. Qed.

Lemma Forall2_map_r {A B : Type} (R : A -> B -> Prop) (f : A -> B)
  (l : list A) :
  (forall a, R a (f a)) -> Forall2 R l (map f l).
Proof. intros H. induction l; simpl; constructor; auto. Qed.

(** What [anchor] returns, with the two shifts named. *)
Lemma anchor_cases (pts offsetPts : list Pt) (ox oy : option float) :
  let dx := anchorShift (minX (bbox pts)) (maxX (bbox pts))
              (minX (bbox offsetPts)) (maxX (bbox offsetPts)) ox in
  let dy := anchorShift (minY (bbox pts)) (maxY (bbox pts))
              (minY (bbox offsetPts)) (maxY (bbox offsetPts)) oy in
  anchor pts offsetPts ox oy
    = map (fun p => (fst p + dx, snd p + dy)) offsetPts
  \/ ((dx =? 0) = true /\ (dy =? 0) = true
      /\ anchor pts offsetPts ox oy = offsetPts).
Proof.
  intros dx dy. unfold anchor. fold dx dy.
  assert (H : (if negb (dx =? 0) || negb (dy =? 0)
               then map (fun p => (fst p + dx, snd p + dy)) offsetPts
               else offsetPts)
              = map (fun p => (fst p + dx, snd p + dy)) offsetPts
              \/ ((dx =? 0) = true /\ (dy =? 0) = true
                  /\ (if negb (dx =? 0) || negb (dy =? 0)
                      then map (fun p => (fst p + dx, snd p + dy)) offsetPts
                      else offsetPts) = offsetPts)).
  { destruct (dx =? 0), (dy =? 0); cbn [negb orb]; auto. }
  destruct ox, oy; exact H.
Qed.

End AnchorFacts.

Section SerializerInput.
Local Open Scope float_scope.

Variable L : Libm.

(** C10 (as the code has it): every point [offsetPolygon] returns has
    coordinates that equal their own rounding, each having been rounded as
    it was pushed (bisector points, bevel points, arc points and cap points
    alike); such a coordinate is an integer whenever it is finite, and NaN
    or an infinity otherwise.  The anchor translation adds to every
    coordinate of an axis one number, which is itself a rounding (an
    integer when it is finite, 0 on an axis without anchor), or leaves the
    points alone when both numbers are 0.  So the points the serializer
    receives have coordinates equal to their own rounding, and every
    coordinate that is finite is an integer. *)
Theorem serializer_points_are_rounded
  (fuel : nat) (pts : list Pt) (offsetAmt : float) (joinType : JoinType)
  (endType : EndType) (miterLimit arcTolerance : float)
  (originX originY : option float) (offsetPts : list Pt) :
  offsetPolygon L fuel pts offsetAmt joinType endType miterLimit arcTolerance
  = Some offsetPts ->
  let dx := anchorShift (minX (bbox pts)) (maxX (bbox pts))
              (minX (bbox offsetPts)) (maxX (bbox offsetPts)) originX in
  let dy := anchorShift (minY (bbox pts)) (maxY (bbox pts))
              (minY (bbox offsetPts)) (maxY (bbox offsetPts)) originY in
  let out := anchor pts offsetPts originX originY in
  let integerIfFinite (p : Pt) :=
    forall c, c = fst p \/ c = snd p ->
              is_finite c = true -> exists z, toInteger c = Some z in
  Forall ownRounding offsetPts
  /\ Forall ownRounding out
  /\ Forall integerIfFinite out
  /\ Forall integerIfFinite offsetPts
  /\ (out = map (fun p => (fst p + dx, snd p + dy)) offsetPts
      \/ ((dx =? 0) = true /\ (dy =? 0) = true /\ out = offsetPts))
  /\ (Math_round dx = dx /\ Math_round dy = dy)
  /\ (is_finite dx = true -> exists z, toInteger dx = Some z)
  /\ (is_finite dy = true -> exists z, toInteger dy = Some z)
  /\ (originX = None -> dx = 0)
  /\ (originY = None -> dy = 0).
Proof.
  intros H dx dy out integerIfFinite.
  pose proof (offsetPolygon_ownRounding _ _ _ _ _ _ _ _ _ H) as Ho.
  pose proof (anchor_ownRounding pts offsetPts originX originY Ho) as Ha.
  assert (Hint : forall l, Forall ownRounding l -> Forall integerIfFinite l).
  { intros l Hl. eapply Forall_impl; [| exact Hl].
    intros p [Hx Hy] c [-> | ->]; now apply ownRounding_integer. }
  split; [exact Ho |]. split; [exact Ha |].
  split; [exact (Hint _ Ha) |]. split; [exact (Hint _ Ho) |].
  split; [apply anchor_cases |].
  split; [split; apply anchorShift_ownRounding |].
  split; [apply ownRounding_integer, anchorShift_ownRounding |].
  split; [apply ownRounding_integer, anchorShift_ownRounding |].
  split; now intros ->.
Qed.

End SerializerInput.

Section ExactIntegers.
Local Open Scope Z_scope.

Lemma pow2_pos (k : Z) : 0 <= k -> 0 < 2 ^ k.
Proof. intros H. apply Z.pow_pos_nonneg; lia. Qed.

(** The same, with both sides scaled by any large enough power of 2. *)
Lemma isValue_scaled (m e v k : Z) :
  0 <= k -> 0 <= e + k ->
  isValue m e v <-> m * 2 ^ (e + k) = v * 2 ^ k.
Proof.
  intros Hk Hek. pose proof (pow2_pos k Hk) as Hp. split.
  - intros [[He ->] | [He ->]].
    + rewrite Z.pow_add_r by lia. ring.
    + rewrite <- Z.mul_assoc, <- Z.pow_add_r by lia.
      now replace (- e + (e + k)) with k by lia.
  - intros H. destruct (Z_le_gt_dec 0 e) as [He | He]; [left | right];
      (split; [lia |]).
    + rewrite (Z.pow_add_r 2 e k He Hk), Z.mul_assoc in H.
      apply Z.mul_cancel_r in H; lia.
    + pose proof (pow2_pos (e + k) Hek).
      assert (E : 2 ^ k = 2 ^ (- e) * 2 ^ (e + k)).
      { rewrite <- Z.pow_add_r by lia. f_equal. lia. }
      rewrite E, Z.mul_assoc in H.
      apply Z.mul_cancel_r in H; lia.
Qed.

Lemma isValue_add (m1 m2 e v1 v2 : Z) :
  isValue m1 e v1 -> isValue m2 e v2 -> isValue (m1 + m2) e (v1 + v2).
Proof.
  set (k := Z.max (- e) 0).
  rewrite !(isValue_scaled _ e _ k) by lia. intros H1 H2.
  rewrite !Z.mul_add_distr_r. congruence.
Qed.

Lemma isValue_opp (m e v : Z) : isValue m e v -> isValue (- m) e (- v).
Proof.
  set (k := Z.max (- e) 0).
  rewrite !(isValue_scaled _ e _ k) by lia. intros H.
  rewrite !Z.mul_opp_l. congruence.
Qed.

Lemma isValue_mul (m1 m2 e1 e2 v1 v2 : Z) :
  isValue m1 e1 v1 -> isValue m2 e2 v2 ->
  isValue (m1 * m2) (e1 + e2) (v1 * v2).
Proof.
  set (k1 := Z.max (- e1) 0). set (k2 := Z.max (- e2) 0).
  rewrite (isValue_scaled m1 e1 v1 k1), (isValue_scaled m2 e2 v2 k2),
    (isValue_scaled _ (e1 + e2) _ (k1 + k2)) by lia.
  intros H1 H2.
  replace (e1 + e2 + (k1 + k2)) with ((e1 + k1) + (e2 + k2)) by lia.
  rewrite (Z.pow_add_r 2 (e1 + k1) (e2 + k2)), (Z.pow_add_r 2 k1 k2) by lia.
  transitivity ((m1 * 2 ^ (e1 + k1)) * (m2 * 2 ^ (e2 + k2))); [ring |].
  rewrite H1, H2. ring.
Qed.

Lemma isValue_zero (e v : Z) : isValue 0 e v -> v = 0.
Proof.
  intros [[He ->] | [He H]]; [lia |].
  pose proof (pow2_pos (- e)). nia.
Qed.

Lemma isValue_sign (m e v : Z) : isValue m e v -> 0 < m -> 0 < v.
Proof.
  intros [[He ->] | [He H]] Hm.
  - pose proof (pow2_pos e He). nia.
  - pose proof (pow2_pos (- e)). nia.
Qed.

(** Aligning a mantissa on a smaller exponent keeps the value. *)
Lemma isValue_shl_align (mx : positive) (ex ex' k v : Z) :
  isValue (Zpos mx) (ex + k) v ->
  isValue (Zpos (fst (shl_align mx ex ex')))
    (snd (shl_align mx ex ex') + k) v.
Proof.
  intros H. unfold shl_align.
  destruct (ex' - ex) as [| d | d] eqn:Ed; cbn [fst snd]; try exact H.
  change (PosDef.Pos.iter xO mx d) with (Pos.iter xO mx d).
  rewrite Zpos_iter_xO.
  set (i := Z.max (- (ex + k)) 0).
  apply (isValue_scaled _ (ex' + k) _ (i + Zpos d)); [lia | lia |].
  apply (isValue_scaled _ (ex + k) _ i) in H; try lia.
  replace (ex' + k + (i + Zpos d)) with (ex + k + i) by lia.
  rewrite (Z.pow_add_r 2 i (Zpos d)) by lia.
  transitivity (Zpos mx * 2 ^ (ex + k + i) * 2 ^ Zpos d); [ring |].
  rewrite H. ring.
Qed.
(** A mantissa of 53 bits followed by [n] zero bits is cut back to the 53
    bits. *)
Lemma binary_round_aux_shift (s : bool) (w : positive) (e0 : Z) (n : positive) :
  Zpos (digits2_pos w) = 53 -> -1074 <= e0 <= 971 ->
  binary_round_aux prec emax s (Zpos (Pos.iter xO w n)) (e0 - Zpos n) loc_Exact
  = S754_finite s w e0.
Proof.
  intros Hd He0. unfold binary_round_aux.
  assert (E1 : shr_fexp prec emax (Zpos (Pos.iter xO w n)) (e0 - Zpos n)
                 loc_Exact
               = ({| shr_m := Zpos w; shr_r := false; shr_s := false |}, e0)).
  { unfold shr_fexp, fexp, SpecFloat.emin, Zdigits2, prec, emax.
    rewrite digits2_pos_iter_xO, Pos2Z.inj_add, Hd.
    replace (Z.max (53 + Zpos n + (e0 - Zpos n) - 53) (3 - 1024 - 53)
             - (e0 - Zpos n)) with (Zpos n) by lia.
    cbn [shr shr_record_of_loc]. rewrite shr_exact. f_equal. lia. }
  rewrite E1. cbn [shr_m loc_of_shr_record round_nearest_even].
  rewrite (shr_fexp_canonical _ e0 Hd) by lia.
  cbn [shr_m]. unfold prec, emax.
  now replace (e0 <=? 1024 - 53) with true by (symmetry; apply Z.leb_le; lia).
Qed.

Lemma isValue_digits (P V : positive) (e : Z) :
  isValue (Zpos P) e (Zpos V) ->
  Zpos (digits2_pos P) + e = Zpos (digits2_pos V).
Proof.
  intros [[He HV] | [He HP]].
  - destruct e as [| k | k]; try lia.
    + rewrite Z.pow_0_r, Z.mul_1_r in HV. injection HV as ->. lia.
    + rewrite <- Zpos_iter_xO in HV. injection HV as ->.
      rewrite digits2_pos_iter_xO. lia.
  - destruct (- e) as [| k | k] eqn:Ek; try lia.
    rewrite <- Zpos_iter_xO in HP. injection HP as ->.
    rewrite digits2_pos_iter_xO. lia.
Qed.

Lemma toIntegerSF_value (s : bool) (P : positive) (e v : Z) :
  isValue (Zpos P) e v ->
  toIntegerSF (S754_finite s P e) = Some ((if s then -1 else 1) * v).
Proof.
  intros [[He HV] | [He HP]]; cbn [toIntegerSF].
  - replace (0 <=? e) with true by (symmetry; apply Z.leb_le; lia).
    now rewrite HV.
  - replace (0 <=? e) with false by (symmetry; apply Z.leb_gt; lia).
    assert (Hk : 2 ^ (- e) <> 0) by (apply Z.pow_nonzero; lia).
    rewrite HP, Z.mod_mul, Z.eqb_refl, Z.div_mul by exact Hk. reflexivity.
Qed.

Lemma toIntegerSF_finite (s : bool) (m : positive) (e v : Z) :
  toIntegerSF (S754_finite s m e) = Some v ->
  isValue (cond_Zopp s (Zpos m)) e v.
Proof.
  cbn [toIntegerSF]. destruct (0 <=? e) eqn:He.
  - apply Z.leb_le in He. intros E.
    assert (Ev : v = (if s then -1 else 1) * (Zpos m * 2 ^ e)) by congruence.
    clear E. left. split; [exact He |].
    destruct s; cbn [cond_Zopp]; lia.
  - apply Z.leb_gt in He.
    destruct (Zpos m mod 2 ^ (- e) =? 0) eqn:Hm; [| discriminate].
    apply Z.eqb_eq in Hm. intros E.
    assert (Ev : v = (if s then -1 else 1) * (Zpos m / 2 ^ (- e)))
      by congruence.
    clear E. right. split; [exact He |].
    pose proof (pow2_pos (- e)) as Hp.
    assert (Hdm : Zpos m = 2 ^ (- e) * (Zpos m / 2 ^ (- e)))
      by (apply Z.div_exact; lia).
    set (q := Zpos m / 2 ^ (- e)) in *.
    destruct s; cbn [cond_Zopp]; lia.
Qed.

Lemma toIntegerSF_zero_or_finite (a : spec_float) (x : Z) :
  toIntegerSF a = Some x ->
  (exists s, a = S754_zero s /\ x = 0)
  \/ (exists s m e, a = S754_finite s m e).
Proof.
  destruct a as [s | s | | s m e]; cbn [toIntegerSF]; try discriminate.
  - intros [= <-]. left. now exists s.
  - intros _. right. now exists s, m, e.
Qed.

(** Rounding [V / 2^k] for an integer [V] below 2^53, however it is
    written as a mantissa and an exponent, gives that number. *)
Lemma binary_round_aux_exact (s : bool) (P V : positive) (e k : Z) :
  0 <= k <= 1022 ->
  isValue (Zpos P) (e + k) (Zpos V) -> Zpos V < 2 ^ 53 ->
  toScaledSF k (binary_round_aux prec emax s (Zpos P) e loc_Exact)
  = Some ((if s then -1 else 1) * Zpos V).
Proof.
  intros Hk Hval Hlt.
  pose proof (isValue_digits P V (e + k) Hval) as Hd.
  assert (HdV : Zpos (digits2_pos V) <= 53) by (apply digits2_pos_le; lia).
  pose proof (Pos2Z.is_pos (digits2_pos V)) as HdV1.
  pose proof (Pos2Z.is_pos (digits2_pos P)) as HdP1.
  set (e0 := Zpos (digits2_pos V) - 53 - k).
  assert (Hf : fexp prec emax (Zdigits2 (Zpos P) + e) = e0).
  { unfold fexp, SpecFloat.emin, prec, emax, Zdigits2, e0. lia. }
  destruct (Z_le_gt_dec e0 e) as [Hge | Hlt0].
  - (* no bit is shifted out *)
    assert (E1 : shr_fexp prec emax (Zpos P) e loc_Exact
                 = ({| shr_m := Zpos P; shr_r := false; shr_s := false |}, e)).
    { unfold shr_fexp. rewrite Hf. unfold shr.
      destruct (e0 - e) as [| j | j] eqn:Ej; try lia; reflexivity. }
    assert (He : e <= 971).
    { destruct Hval as [[He HV] | [He _]]; [| lia].
      destruct (Z_le_gt_dec 53 (e + k)) as [Hbig | Hsmall]; [| lia].
      exfalso.
      assert (2 ^ 53 <= 2 ^ (e + k)) by (apply Z.pow_le_mono_r; lia).
      nia. }
    unfold binary_round_aux. rewrite E1.
    cbn [shr_m loc_of_shr_record round_nearest_even]. rewrite E1.
    cbn [shr_m]. unfold prec, emax.
    replace (e <=? 1024 - 53) with true by (symmetry; apply Z.leb_le; lia).
    unfold toScaledSF. cbn [shiftSF]. now apply toIntegerSF_value.
  - (* the bits below [e0] are zero *)
    destruct Hval as [[He _] | [He HP]]; [unfold e0 in *; lia |].
    destruct (e0 - e) as [| n | n] eqn:En; try lia.
    assert (Hw : exists w : positive,
               Zpos w = Zpos V * 2 ^ (- (e0 + k))
               /\ Zpos (digits2_pos w) = 53).
    { destruct (- (e0 + k)) as [| j | j] eqn:Ej; try (unfold e0 in *; lia).
      - exists V. rewrite Z.pow_0_r. split; [lia | unfold e0 in *; lia].
      - exists (Pos.iter xO V j). rewrite Zpos_iter_xO, digits2_pos_iter_xO.
        split; [reflexivity | unfold e0 in *; lia]. }
    destruct Hw as (w & Hw & Hdw).
    assert (EP : P = Pos.iter xO w n).
    { apply Pos2Z.inj. rewrite Zpos_iter_xO, Hw, HP, <- Z.mul_assoc.
      rewrite <- Z.pow_add_r by (unfold e0 in *; lia). repeat f_equal; lia. }
    rewrite EP. replace e with (e0 - Zpos n) by lia.
    rewrite binary_round_aux_shift by (unfold e0 in *; lia).
    unfold toScaledSF. cbn [shiftSF]. apply toIntegerSF_value.
    destruct (Z.eq_dec (e0 + k) 0) as [E0 | E0].
    + left. split; [lia |]. rewrite Hw, E0. simpl. lia.
    + right. split; [unfold e0 in *; lia | exact Hw].
Qed.

Lemma toScaledSF_finite (k : Z) (s : bool) (m : positive) (e v : Z) :
  toScaledSF k (S754_finite s m e) = Some v ->
  isValue (cond_Zopp s (Zpos m)) (e + k) v.
Proof. apply toIntegerSF_finite. Qed.

Lemma toScaledSF_zero_or_finite (k : Z) (a : spec_float) (x : Z) :
  toScaledSF k a = Some x ->
  (exists s, a = S754_zero s /\ x = 0)
  \/ (exists s m e, a = S754_finite s m e).
Proof.
  destruct a as [s | s | | s m e]; unfold toScaledSF;
    cbn [shiftSF toIntegerSF]; try discriminate.
  - intros [= <-]. left. now exists s.
  - intros _. right. now exists s, m, e.
Qed.

(** Normalising [v / 2^k], [v] below 2^53 in magnitude, gives that number. *)
Lemma binary_normalize_exact (M ez v k : Z) (szero : bool) :
  0 <= k <= 1022 ->
  isValue M (ez + k) v -> Z.abs v < 2 ^ 53 ->
  toScaledSF k (binary_normalize prec emax M ez szero) = Some v.
Proof.
  intros Hk Hval Hlt. destruct M as [| m | m]; cbn [binary_normalize].
  - now rewrite (isValue_zero _ _ Hval).
  - pose proof (isValue_sign _ _ _ Hval eq_refl) as Hv.
    destruct v as [| V | V]; try lia.
    unfold binary_round.
    pose proof (isValue_shl_align m ez
                  (fexp prec emax (Zpos (digits2_pos m) + ez)) k _ Hval) as Ha.
    destruct (shl_align m ez _) as [mz ez']. cbn [fst snd] in Ha.
    rewrite (binary_round_aux_exact false mz V ez' k Hk Ha) by lia.
    f_equal.
  - apply isValue_opp in Hval. cbn [Z.opp] in Hval.
    pose proof (isValue_sign _ _ _ Hval eq_refl) as Hv.
    destruct v as [| V | V]; try lia. cbn [Z.opp] in Hval.
    unfold binary_round.
    pose proof (isValue_shl_align m ez
                  (fexp prec emax (Zpos (digits2_pos m) + ez)) k _ Hval) as Ha.
    destruct (shl_align m ez _) as [mz ez']. cbn [fst snd] in Ha.
    rewrite (binary_round_aux_exact true mz V ez' k Hk Ha) by lia.
    f_equal.
Qed.

Lemma isValue_aligned (k : Z) (s : bool) (m : positive) (e ez v : Z) :
  toScaledSF k (S754_finite s m e) = Some v ->
  ez <= e ->
  isValue (cond_Zopp s (Zpos (fst (shl_align m e ez)))) (ez + k) v.
Proof.
  intros H Hez. apply toScaledSF_finite in H.
  assert (Hs : snd (shl_align m e ez) = ez).
  { unfold shl_align. destruct (ez - e) eqn:E; cbn [snd]; lia. }
  destruct s; cbn [cond_Zopp] in *.
  - apply isValue_opp in H. rewrite Z.opp_involutive in H.
    apply (isValue_shl_align _ _ ez k) in H. rewrite Hs in H.
    apply isValue_opp in H. now rewrite Z.opp_involutive in H.
  - apply (isValue_shl_align _ _ ez k) in H. now rewrite Hs in H.
Qed.

(** The magnitude and the sign of a number [v / 2^k]. *)
Lemma toScaledSF_abs (k : Z) (s : bool) (m : positive) (e v : Z) :
  toScaledSF k (S754_finite s m e) = Some v ->
  isValue (Zpos m) (e + k) (Z.abs v)
  /\ v = (if s then -1 else 1) * Z.abs v /\ 0 < Z.abs v.
Proof.
  intros H. apply toScaledSF_finite in H.
  destruct s; cbn [cond_Zopp] in H.
  - apply isValue_opp in H. cbn [Z.opp] in H.
    pose proof (isValue_sign _ _ _ H eq_refl).
    replace (Z.abs v) with (- v) by lia. repeat split; [exact H | lia | lia].
  - pose proof (isValue_sign _ _ _ H eq_refl).
    replace (Z.abs v) with v by lia. repeat split; [exact H | lia | lia].
Qed.

(** Sums, differences and products of numbers [x / 2^k] are exact while
    the integers stay below 2^53. *)
Lemma SFadd_exact (k : Z) (a b : spec_float) (x y : Z) :
  0 <= k <= 1022 ->
  toScaledSF k a = Some x -> toScaledSF k b = Some y ->
  Z.abs (x + y) < 2 ^ 53 ->
  toScaledSF k (SFadd prec emax a b) = Some (x + y).
Proof.
  intros Hk Ha Hb Hlt.
  destruct (toScaledSF_zero_or_finite k a x Ha)
    as [(sa & -> & ->) | (sa & ma & ea & ->)];
    destruct (toScaledSF_zero_or_finite k b y Hb)
      as [(sb & -> & ->) | (sb & mb & eb & ->)].
  - destruct sa, sb; reflexivity.
  - cbn [SFadd]. now rewrite Z.add_0_l.
  - cbn [SFadd]. now rewrite Z.add_0_r.
  - cbn [SFadd]. apply binary_normalize_exact; [exact Hk | | exact Hlt].
    apply isValue_add; apply isValue_aligned; trivial; lia.
Qed.

Lemma SFsub_exact (k : Z) (a b : spec_float) (x y : Z) :
  0 <= k <= 1022 ->
  toScaledSF k a = Some x -> toScaledSF k b = Some y ->
  Z.abs (x - y) < 2 ^ 53 ->
  toScaledSF k (SFsub prec emax a b) = Some (x - y).
Proof.
  intros Hk Ha Hb Hlt.
  destruct (toScaledSF_zero_or_finite k a x Ha)
    as [(sa & -> & ->) | (sa & ma & ea & ->)];
    destruct (toScaledSF_zero_or_finite k b y Hb)
      as [(sb & -> & ->) | (sb & mb & eb & ->)].
  - destruct sa, sb; reflexivity.
  - cbn [SFsub]. destruct (toScaledSF_abs _ _ _ _ _ Hb) as (Hv & Hy & _).
    unfold toScaledSF. cbn [shiftSF].
    rewrite (toIntegerSF_value (negb sb) mb (eb + k) (Z.abs y) Hv).
    f_equal. destruct sb; cbn [negb]; lia.
  - cbn [SFsub]. now rewrite Z.sub_0_r.
  - cbn [SFsub]. apply binary_normalize_exact; [exact Hk | | exact Hlt].
    unfold Z.sub. apply isValue_add; [| apply isValue_opp];
      apply isValue_aligned; trivial; lia.
Qed.

Lemma SFmul_exact (k1 k2 : Z) (a b : spec_float) (x y : Z) :
  0 <= k1 -> 0 <= k2 -> k1 + k2 <= 1022 ->
  toScaledSF k1 a = Some x -> toScaledSF k2 b = Some y ->
  Z.abs (x * y) < 2 ^ 53 ->
  toScaledSF (k1 + k2) (SFmul prec emax a b) = Some (x * y).
Proof.
  intros Hk1 Hk2 Hk Ha Hb Hlt.
  destruct (toScaledSF_zero_or_finite k1 a x Ha)
    as [(sa & -> & ->) | (sa & ma & ea & ->)];
    destruct (toScaledSF_zero_or_finite k2 b y Hb)
      as [(sb & -> & ->) | (sb & mb & eb & ->)];
    cbn [SFmul]; try (unfold toScaledSF; cbn [shiftSF toIntegerSF];
                      f_equal; lia).
  destruct (toScaledSF_abs _ _ _ _ _ Ha) as (Hx & Ex & _).
  destruct (toScaledSF_abs _ _ _ _ _ Hb) as (Hy & Ey & _).
  pose proof (isValue_mul _ _ _ _ _ _ Hx Hy) as Hxy.
  rewrite <- Pos2Z.inj_mul in Hxy.
  replace (ea + k1 + (eb + k2)) with (ea + eb + (k1 + k2)) in Hxy by lia.
  pose proof (isValue_sign _ _ _ Hxy eq_refl) as Hpos.
  destruct (Z.abs x * Z.abs y) as [| V | V] eqn:EV; try lia.
  rewrite (binary_round_aux_exact (xorb sa sb) (ma * mb) V (ea + eb)
             (k1 + k2) ltac:(lia) Hxy).
  - f_equal. rewrite <- EV.
    transitivity (((if sa then -1 else 1) * Z.abs x)
                  * ((if sb then -1 else 1) * Z.abs y));
      [| now rewrite <- Ex, <- Ey].
    destruct sa, sb; cbn [xorb]; ring.
  - rewrite <- EV, <- Z.abs_mul. exact Hlt.
Qed.

(** The same number on a finer scale. *)
Lemma toScaledSF_rescale (k j : Z) (a : spec_float) (x : Z) :
  0 <= j -> toScaledSF k a = Some x ->
  toScaledSF (k + j) a = Some (x * 2 ^ j).
Proof.
  intros Hj Ha.
  destruct (toScaledSF_zero_or_finite k a x Ha)
    as [(sa & -> & ->) | (sa & ma & ea & ->)]; [reflexivity |].
  destruct (toScaledSF_abs _ _ _ _ _ Ha) as (Hv & Hx & Hpos).
  unfold toScaledSF. cbn [shiftSF].
  assert (Hv' : isValue (Zpos ma) (ea + (k + j)) (Z.abs x * 2 ^ j)).
  { set (i := Z.max (- (ea + k)) 0).
    apply (isValue_scaled _ _ _ i); [lia | lia |].
    apply (isValue_scaled _ _ _ i) in Hv; [| lia | lia].
    replace (ea + (k + j) + i) with (ea + k + i + j) by lia.
    rewrite Z.pow_add_r by lia.
    transitivity (Zpos ma * 2 ^ (ea + k + i) * 2 ^ j); [ring |].
    rewrite Hv. ring. }
  rewrite (toIntegerSF_value sa ma _ _ Hv'). f_equal.
  rewrite Hx at 2. ring.
Qed.

Lemma toScaledSF_0 (a : spec_float) : toScaledSF 0 a = toIntegerSF a.
Proof.
  destruct a as [s | s | | s m e]; try reflexivity.
  unfold toScaledSF. cbn [shiftSF]. now rewrite Z.add_0_r.
Qed.

(** The same on numbers. *)
Lemma add_scaled (k : Z) (a b : float) (x y : Z) :
  0 <= k <= 1022 ->
  toScaled k a = Some x -> toScaled k b = Some y ->
  Z.abs (x + y) < 2 ^ 53 -> toScaled k (a + b) = Some (x + y).
Proof. unfold toScaled. rewrite add_spec. apply SFadd_exact. Qed.

Lemma sub_scaled (k : Z) (a b : float) (x y : Z) :
  0 <= k <= 1022 ->
  toScaled k a = Some x -> toScaled k b = Some y ->
  Z.abs (x - y) < 2 ^ 53 -> toScaled k (a - b) = Some (x - y).
Proof. unfold toScaled. rewrite sub_spec. apply SFsub_exact. Qed.

Lemma mul_scaled (k1 k2 : Z) (a b : float) (x y : Z) :
  0 <= k1 -> 0 <= k2 -> k1 + k2 <= 1022 ->
  toScaled k1 a = Some x -> toScaled k2 b = Some y ->
  Z.abs (x * y) < 2 ^ 53 -> toScaled (k1 + k2) (a * b) = Some (x * y).
Proof. unfold toScaled. rewrite mul_spec. apply SFmul_exact. Qed.

Lemma toScaled_rescale (k j : Z) (a : float) (x : Z) :
  0 <= j -> toScaled k a = Some x -> toScaled (k + j) a = Some (x * 2 ^ j).
Proof. apply toScaledSF_rescale. Qed.

Lemma toScaled_0 (a : float) : toScaled 0 a = toInteger a.
Proof. apply toScaledSF_0. Qed.

Lemma add_exact (a b : float) (x y : Z) :
  toInteger a = Some x -> toInteger b = Some y ->
  Z.abs (x + y) < 2 ^ 53 -> toInteger (a + b) = Some (x + y).
Proof. rewrite <- !toScaled_0. apply add_scaled. lia. Qed.

Lemma sub_exact (a b : float) (x y : Z) :
  toInteger a = Some x -> toInteger b = Some y ->
  Z.abs (x - y) < 2 ^ 53 -> toInteger (a - b) = Some (x - y).
Proof. rewrite <- !toScaled_0. apply sub_scaled. lia. Qed.

Lemma mul_exact (a b : float) (x y : Z) :
  toInteger a = Some x -> toInteger b = Some y ->
  Z.abs (x * y) < 2 ^ 53 -> toInteger (a * b) = Some (x * y).
Proof.
  rewrite <- !toScaled_0. change 0 with (0 + 0) at 3.
  apply mul_scaled; lia.
Qed.

(** A number is above 0 exactly when its integer value is. *)
Lemma ltb_zero_exact (a : float) (z : Z) :
  toInteger a = Some z -> (0 <? a)%float = (0 <? z).
Proof.
  unfold toInteger. rewrite ltb_spec, Prim2SF_zero. intros H.
  destruct (toIntegerSF_zero_or_finite _ _ H)
    as [(s & E & ->) | (s & m & e & E)]; rewrite E in *.
  - reflexivity.
  - apply toIntegerSF_finite in H. unfold SFltb, SFcompare.
    destruct s; cbn [cond_Zopp] in H.
    + apply isValue_opp in H. cbn [Z.opp] in H.
      pose proof (isValue_sign _ _ _ H eq_refl). symmetry. apply Z.ltb_ge. lia.
    + pose proof (isValue_sign _ _ _ H eq_refl). symmetry. now apply Z.ltb_lt.
Qed.

End ExactIntegers.

Section Comparison.
Local Open Scope Z_scope.

(** Canonical mantissas and exponents compare as the values do. *)
Lemma compare_magnitude (m1 m2 : positive) (e1 e2 k X Y : Z) :
  isValue (Zpos m1) (e1 + k) X -> isValue (Zpos m2) (e2 + k) Y ->
  Zpos (digits2_pos m1) <= 53 -> Zpos (digits2_pos m2) <= 53 ->
  (e1 < e2 -> Zpos (digits2_pos m2) = 53) ->
  (e2 < e1 -> Zpos (digits2_pos m1) = 53) ->
  match e1 ?= e2 with
  | Lt => Lt
  | Gt => Gt
  | Eq => Pos.compare_cont Eq m1 m2
  end = (X ?= Y).
Proof.
  intros H1 H2 D1 D2 C2 C1.
  set (i := Z.max (Z.max (- (e1 + k)) (- (e2 + k))) 0).
  apply (isValue_scaled _ _ _ i) in H1; [| lia | lia].
  apply (isValue_scaled _ _ _ i) in H2; [| lia | lia].
  pose proof (pow2_pos i ltac:(lia)) as Hi.
  pose proof (digits2_pos_upper m1) as U1.
  pose proof (digits2_pos_upper m2) as U2.
  pose proof (digits2_pos_lower m1) as L1.
  pose proof (digits2_pos_lower m2) as L2.
  assert (B1 : Zpos m1 < 2 ^ 53).
  { eapply Z.lt_le_trans; [exact U1 |]. apply Z.pow_le_mono_r; lia. }
  assert (B2 : Zpos m2 < 2 ^ 53).
  { eapply Z.lt_le_trans; [exact U2 |]. apply Z.pow_le_mono_r; lia. }
  pose proof (pow2_pos (e1 + k + i) ltac:(lia)) as Hp1.
  pose proof (pow2_pos (e2 + k + i) ltac:(lia)) as Hp2.
  destruct (Z.compare_spec e1 e2) as [E | E | E].
  - subst e2.
    rewrite (Zmult_compare_compat_r X Y (2 ^ i)) by lia.
    rewrite <- H1, <- H2.
    rewrite <- (Zmult_compare_compat_r (Zpos m1) (Zpos m2)) by lia.
    reflexivity.
  - symmetry. apply Z.compare_lt_iff.
    specialize (C2 E). rewrite C2 in L2.
    assert (EG : 2 ^ (e2 + k + i) = 2 ^ (e1 + k + i) * 2 ^ (e2 - e1)).
    { rewrite <- Z.pow_add_r by lia. f_equal. lia. }
    assert (2 ^ 1 <= 2 ^ (e2 - e1)) by (apply Z.pow_le_mono_r; lia).
    rewrite EG in H2.
    set (P := 2 ^ (e1 + k + i)) in *. set (G := 2 ^ (e2 - e1)) in *.
    set (I := 2 ^ i) in *.
    change (2 ^ 1) with 2 in *.
    assert (Zpos m1 * P < Zpos m2 * (P * G)) by nia.
    nia.
  - symmetry. apply Z.compare_gt_iff.
    specialize (C1 E). rewrite C1 in L1.
    assert (EG : 2 ^ (e1 + k + i) = 2 ^ (e2 + k + i) * 2 ^ (e1 - e2)).
    { rewrite <- Z.pow_add_r by lia. f_equal. lia. }
    assert (2 ^ 1 <= 2 ^ (e1 - e2)) by (apply Z.pow_le_mono_r; lia).
    rewrite EG in H1.
    set (P := 2 ^ (e2 + k + i)) in *. set (G := 2 ^ (e1 - e2)) in *.
    set (I := 2 ^ i) in *.
    change (2 ^ 1) with 2 in *.
    assert (Zpos m2 * P < Zpos m1 * (P * G)) by nia.
    nia.
Qed.

(** [<] on numbers [x / 2^k], [y / 2^k] is [<] on the integers. *)
Lemma ltb_scaled (k : Z) (a b : float) (x y : Z) :
  toScaled k a = Some x -> toScaled k b = Some y ->
  (a <? b)%float = (x <? y).
Proof.
  unfold toScaled. rewrite ltb_spec. intros Ha Hb.
  destruct (toScaledSF_zero_or_finite k _ x Ha)
    as [(sa & Ea & ->) | (sa & ma & ea & Ea)];
    destruct (toScaledSF_zero_or_finite k _ y Hb)
      as [(sb & Eb & ->) | (sb & mb & eb & Eb)]; rewrite Ea, Eb in *.
  - reflexivity.
  - destruct (toScaledSF_abs _ _ _ _ _ Hb) as (_ & Ey & Py).
    unfold SFltb, SFcompare. destruct sb; symmetry.
    + apply Z.ltb_ge. lia.
    + apply Z.ltb_lt. lia.
  - destruct (toScaledSF_abs _ _ _ _ _ Ha) as (_ & Ex & Px).
    unfold SFltb, SFcompare. destruct sa; symmetry.
    + apply Z.ltb_lt. lia.
    + apply Z.ltb_ge. lia.
  - destruct (toScaledSF_abs _ _ _ _ _ Ha) as (Vx & Ex & Px).
    destruct (toScaledSF_abs _ _ _ _ _ Hb) as (Vy & Ey & Py).
    assert (Hc : match ea ?= eb with
                 | Lt => Lt
                 | Gt => Gt
                 | Eq => Pos.compare_cont Eq ma mb
                 end = (Z.abs x ?= Z.abs y)).
    { destruct (valid_finite _ _ _ _ Ea) as [[Da Ra] | [Da Ra]];
        destruct (valid_finite _ _ _ _ Eb) as [[Db Rb] | [Db Rb]];
        apply (compare_magnitude ma mb ea eb k); trivial; lia. }
    unfold SFltb, SFcompare.
    destruct (ea ?= eb);
      [ rewrite Hc; clear Hc;
        destruct (Z.compare_spec (Z.abs x) (Z.abs y))
      | symmetry in Hc; change (Z.abs x < Z.abs y) in Hc;
        assert (Hlt : Z.abs x + 1 <= Z.abs y) by lia; clear Hc
      | symmetry in Hc; change (Z.abs x > Z.abs y) in Hc;
        assert (Hgt : Z.abs y + 1 <= Z.abs x) by lia; clear Hc ];
      destruct sa, sb; cbn [CompOpp]; symmetry;
      solve [apply Z.ltb_lt; lia | apply Z.ltb_ge; lia].
Qed.

End Comparison.

Section Boxes.
Local Open Scope Z_scope.

Lemma bbox_fold (pts : list Pt) (b : BBox) :
  let b' :=
    fold_left
      (fun b p =>
         {| minX := if (fst p <? minX b)%float then fst p else minX b;
            minY := if (snd p <? minY b)%float then snd p else minY b;
            maxX := if (maxX b <? fst p)%float then fst p else maxX b;
            maxY := if (maxY b <? snd p)%float then snd p else maxY b |})
      pts b in
  minX b' = fold_left (fun m x => if (x <? m)%float then x else m)
              (map fst pts) (minX b)
  /\ minY b' = fold_left (fun m x => if (x <? m)%float then x else m)
                 (map snd pts) (minY b)
  /\ maxX b' = fold_left (fun m x => if (m <? x)%float then x else m)
                 (map fst pts) (maxX b)
  /\ maxY b' = fold_left (fun m x => if (m <? x)%float then x else m)
                 (map snd pts) (maxY b).
Proof.
  revert b. induction pts as [| p pts IH]; intros b; cbn [fold_left map].
  - repeat split.
  - apply IH.
Qed.

(** The sides of the bounding box, one list of coordinates at a time. *)
Lemma bbox_sides (pts : list Pt) :
  minX (bbox pts) = lowest (map fst pts)
  /\ minY (bbox pts) = lowest (map snd pts)
  /\ maxX (bbox pts) = highest (map fst pts)
  /\ maxY (bbox pts) = highest (map snd pts).
Proof. apply (bbox_fold pts). Qed.

Lemma exactPts_nums (pts : list Pt) (zs : list (Z * Z)) :
  exactPts pts = Some zs ->
  exactNums (map fst pts) = Some (map fst zs)
  /\ exactNums (map snd pts) = Some (map snd zs).
Proof.
  revert zs. induction pts as [| p pts IH]; intros zs; simpl.
  - intros [= <-]. now split.
  - destruct (toInteger (fst p)) as [x |]; [| discriminate]. simpl.
    destruct (toInteger (snd p)) as [y |]; [| discriminate]. simpl.
    destruct (exactPts pts) as [zl |]; [| discriminate]. simpl.
    intros [= <-]. destruct (IH zl eq_refl) as [-> ->]. now split.
Qed.

Lemma ltb_exact (a b : float) (x y : Z) :
  toInteger a = Some x -> toInteger b = Some y -> (a <? b)%float = (x <? y).
Proof. rewrite <- !toScaled_0. apply ltb_scaled. Qed.

(** Every integer is between the two infinities. *)
Lemma between_infinities (a : float) (x : Z) :
  toInteger a = Some x ->
  (a <? infinity)%float = true /\ (neg_infinity <? a)%float = true.
Proof.
  unfold toInteger. rewrite !ltb_spec.
  change (Prim2SF infinity) with (S754_infinity false).
  change (Prim2SF neg_infinity) with (S754_infinity true).
  destruct (Prim2SF a) as [s | s | | s m e]; cbn [toIntegerSF];
    try discriminate; intros _; now split.
Qed.

Lemma fold_lowest_exact (l : list float) (zs : list Z) (m : float) (zm : Z) :
  exactNums l = Some zs -> toInteger m = Some zm ->
  toInteger (fold_left (fun m x => if (x <? m)%float then x else m) l m)
  = Some (fold_left (fun m x => if x <? m then x else m) zs zm).
Proof.
  revert zs m zm. induction l as [| x l IH]; intros zs m zm; simpl.
  - now intros [= <-].
  - destruct (toInteger x) as [z |] eqn:Ex; [| discriminate].
    destruct (exactNums l) as [zl |]; [| discriminate].
    intros [= <-] Hm. cbn [fold_left]. apply IH; [reflexivity |].
    rewrite (ltb_exact x m z zm Ex Hm). now destruct (z <? zm).
Qed.

Lemma fold_highest_exact (l : list float) (zs : list Z) (m : float) (zm : Z) :
  exactNums l = Some zs -> toInteger m = Some zm ->
  toInteger (fold_left (fun m x => if (m <? x)%float then x else m) l m)
  = Some (fold_left (fun m x => if m <? x then x else m) zs zm).
Proof.
  revert zs m zm. induction l as [| x l IH]; intros zs m zm; simpl.
  - now intros [= <-].
  - destruct (toInteger x) as [z |] eqn:Ex; [| discriminate].
    destruct (exactNums l) as [zl |]; [| discriminate].
    intros [= <-] Hm. cbn [fold_left]. apply IH; [reflexivity |].
    rewrite (ltb_exact m x zm z Hm Ex). now destruct (zm <? z).
Qed.

(** The sides of the box of integer points are the integer minimum and
    maximum. *)
Lemma lowest_exact (l : list float) (zs : list Z) :
  l <> [] -> exactNums l = Some zs ->
  toInteger (lowest l) = Some (lowestZ zs).
Proof.
  destruct l as [| x l]; [congruence |]. intros _. simpl.
  destruct (toInteger x) as [z |] eqn:Ex; [| discriminate].
  destruct (exactNums l) as [zl |] eqn:El; [| discriminate].
  intros [= <-]. unfold lowest. cbn [fold_left lowestZ].
  destruct (between_infinities x z Ex) as [-> _].
  now apply fold_lowest_exact.
Qed.

Lemma highest_exact (l : list float) (zs : list Z) :
  l <> [] -> exactNums l = Some zs ->
  toInteger (highest l) = Some (highestZ zs).
Proof.
  destruct l as [| x l]; [congruence |]. intros _. simpl.
  destruct (toInteger x) as [z |] eqn:Ex; [| discriminate].
  destruct (exactNums l) as [zl |] eqn:El; [| discriminate].
  intros [= <-]. unfold highest. cbn [fold_left highestZ].
  destruct (between_infinities x z Ex) as [_ ->].
  now apply fold_highest_exact.
Qed.

(** Moving every integer by [d] moves the minimum and the maximum by
    [d]. *)
Lemma lowestZ_shift (d : Z) (zs : list Z) :
  zs <> [] -> lowestZ (map (fun x => x + d) zs) = lowestZ zs + d.
Proof.
  destruct zs as [| x r]; [congruence |]. intros _. cbn [map lowestZ].
  revert x. induction r as [| y r IH]; intros x; cbn [map fold_left];
    [reflexivity |].
  replace (y + d <? x + d) with (y <? x)
    by (destruct (Z.ltb_spec y x), (Z.ltb_spec (y + d) (x + d)); trivial; lia).
  destruct (y <? x); apply IH.
Qed.

Lemma highestZ_shift (d : Z) (zs : list Z) :
  zs <> [] -> highestZ (map (fun x => x + d) zs) = highestZ zs + d.
Proof.
  destruct zs as [| x r]; [congruence |]. intros _. cbn [map highestZ].
  revert x. induction r as [| y r IH]; intros x; cbn [map fold_left];
    [reflexivity |].
  replace (x + d <? y + d) with (x <? y)
    by (destruct (Z.ltb_spec x y), (Z.ltb_spec (x + d) (y + d)); trivial; lia).
  destruct (x <? y); apply IH.
Qed.

(** The minimum and the maximum are as small as the integers are. *)
Lemma lowestZ_bound (B : Z) (zs : list Z) :
  0 <= B -> Forall (fun z => Z.abs z <= B) zs -> Z.abs (lowestZ zs) <= B.
Proof.
  intros HB H. destruct H as [| x r Hx Hr]; cbn [lowestZ]; [lia |].
  revert x Hx. induction Hr as [| y r Hy Hr IH]; intros x Hx;
    cbn [fold_left]; [exact Hx |].
  destruct (y <? x); now apply IH.
Qed.

Lemma highestZ_bound (B : Z) (zs : list Z) :
  0 <= B -> Forall (fun z => Z.abs z <= B) zs -> Z.abs (highestZ zs) <= B.
Proof.
  intros HB H. destruct H as [| x r Hx Hr]; cbn [highestZ]; [lia |].
  revert x Hx. induction Hr as [| y r Hy Hr IH]; intros x Hx;
    cbn [fold_left]; [exact Hx |].
  destruct (x <? y); now apply IH.
Qed.

End Boxes.

Section ScaledRounding.
Local Open Scope Z_scope.

(** The value of a number [v / 2^k], as a rational. *)
Lemma valueQ_scaled (k : Z) (x : float) (v : Z) :
  0 <= k -> toScaled k x = Some v ->
  exists q, valueQ x = Some q /\ (q * inject_Z (2 ^ k) == inject_Z v)%Q.
Proof.
  intros Hk. unfold toScaled, valueQ.
  destruct (Prim2SF x) as [s | s | | s m e]; try discriminate.
  - intros [= <-]. exists 0%Q. split; [reflexivity |]. ring.
  - intros H. apply toScaledSF_finite in H. cbv zeta.
    set (sm := (if s then -1 else 1) * Zpos m).
    assert (Es : cond_Zopp s (Zpos m) = sm) by (unfold sm; now destruct s).
    rewrite Es in H.
    destruct (0 <=? e) eqn:He.
    + apply Z.leb_le in He. eexists. split; [reflexivity |].
      rewrite <- inject_Z_mult.
      apply (isValue_scaled _ _ _ 0) in H; [| lia | lia].
      rewrite Z.add_0_r, Z.pow_0_r, Z.mul_1_r, Z.pow_add_r in H by lia.
      now rewrite <- H, Z.mul_assoc.
    + apply Z.leb_gt in He. eexists. split; [reflexivity |].
      apply (isValue_scaled _ _ _ (- e)) in H; [| lia | lia].
      replace (e + k + - e) with k in H by lia.
      pose proof (pow2_pos (- e) ltac:(lia)) as Hp.
      unfold Qeq, Qmult, inject_Z. cbn [Qnum Qden].
      rewrite Pos.mul_1_r, Z2Pos.id, !Z.mul_1_r by exact Hp.
      exact H.
Qed.

(** [Math_round] of [d / 2^k] is an integer at most 1/2 away. *)
Lemma Math_round_scaled (k : Z) (D : float) (d : Z) :
  0 <= k -> toScaled k D = Some d ->
  exists z, toInteger (Math_round D) = Some z
            /\ 2 * Z.abs (z * 2 ^ k - d) <= 2 ^ k.
Proof.
  intros Hk HD. destruct (valueQ_scaled k D d Hk HD) as (q & Hq & Eq).
  destruct (Math_round_nearest D q Hq) as (z & Hz & Hb).
  exists z. split; [exact Hz |].
  apply Qabs_Qle_condition in Hb. destruct Hb as [Hlo Hhi].
  pose proof (pow2_pos k Hk) as Hp.
  assert (HK : (0 < inject_Z (2 ^ k))%Q) by (now rewrite <- (Zlt_Qlt 0)).
  assert (E : ((inject_Z z - q) * inject_Z (2 ^ k)
               == inject_Z (z * 2 ^ k - d))%Q).
  { unfold Z.sub. rewrite inject_Z_plus, inject_Z_opp, inject_Z_mult, <- Eq.
    ring. }
  assert (H1 : (inject_Z (z * 2 ^ k - d) <= (1 # 2) * inject_Z (2 ^ k))%Q).
  { rewrite <- E. apply Qmult_le_compat_r; [exact Hhi |].
    now apply Qlt_le_weak. }
  assert (H2 : (- (1 # 2) * inject_Z (2 ^ k) <= inject_Z (z * 2 ^ k - d))%Q).
  { rewrite <- E. apply Qmult_le_compat_r; [exact Hlo |].
    now apply Qlt_le_weak. }
  set (n := z * 2 ^ k - d) in *. set (K := 2 ^ k) in *.
  assert (G1 : 2 * n <= K).
  { rewrite Zle_Qle, inject_Z_mult.
    change (inject_Z 2) with 2%Q. lra. }
  assert (G2 : - K <= 2 * n).
  { rewrite Zle_Qle, inject_Z_opp, inject_Z_mult.
    change (inject_Z 2) with 2%Q. lra. }
  lia.
Qed.

(** The anchor [mn + (mx - mn) * o] of integers [a0 <= .. <= a1] within
    [B] and a fraction [o = j / 2^k] of [0, 1] is computed exactly. *)
Lemma anchor_scaled (k j B a0 a1 : Z) (mn mx o : float) :
  0 <= k <= 1022 -> toScaled k o = Some j -> 0 <= j <= 2 ^ k ->
  toInteger mn = Some a0 -> toInteger mx = Some a1 ->
  Z.abs a0 <= B -> Z.abs a1 <= B -> 2 * B * 2 ^ k < 2 ^ 53 ->
  toScaled k (mn + (mx - mn) * o)%float = Some (a0 * 2 ^ k + (a1 - a0) * j)
  /\ Z.abs (a0 * 2 ^ k + (a1 - a0) * j) <= B * 2 ^ k.
Proof.
  intros Hk Ho Hj Hmn Hmx B0 B1 Hroom.
  pose proof (pow2_pos k ltac:(lia)) as Hp. set (K := 2 ^ k) in *.
  assert (HB : 0 <= B) by lia.
  assert (Hd : Z.abs (a1 - a0) <= 2 * B) by lia.
  assert (Hprod : Z.abs ((a1 - a0) * j) <= 2 * B * K).
  { rewrite Z.abs_mul, (Z.abs_eq j) by lia.
    apply Z.mul_le_mono_nonneg; lia. }
  assert (Hlow : Z.abs (a0 * K) <= B * K).
  { rewrite Z.abs_mul, (Z.abs_eq K) by lia.
    apply Z.mul_le_mono_nonneg_r; lia. }
  assert (Htight : Z.abs (a0 * K + (a1 - a0) * j) <= B * K).
  { replace (a0 * K + (a1 - a0) * j) with (a0 * (K - j) + a1 * j) by ring.
    assert (Z.abs (a0 * (K - j)) <= B * (K - j)).
    { rewrite Z.abs_mul, (Z.abs_eq (K - j)) by lia.
      apply Z.mul_le_mono_nonneg_r; lia. }
    assert (Z.abs (a1 * j) <= B * j).
    { rewrite Z.abs_mul, (Z.abs_eq j) by lia.
      apply Z.mul_le_mono_nonneg_r; lia. }
    lia. }
  split; [| exact Htight].
  assert (2 * B <= 2 * B * K) by nia.
  pose proof (sub_exact _ _ _ _ Hmx Hmn ltac:(lia)) as Es.
  rewrite <- toScaled_0 in Es.
  pose proof (mul_scaled 0 k _ _ _ _ ltac:(lia) ltac:(lia) ltac:(lia) Es Ho
                ltac:(lia)) as Em.
  rewrite <- toScaled_0 in Hmn.
  pose proof (toScaled_rescale 0 k mn a0 ltac:(lia) Hmn) as El.
  rewrite Z.add_0_l in Em, El. fold K in El.
  exact (add_scaled k _ _ _ _ Hk El Em ltac:(lia)).
Qed.

End ScaledRounding.

Section AnchorExact.
Local Open Scope Z_scope.

Lemma exactNums_nonempty (l : list float) (zs : list Z) :
  exactNums l = Some zs -> zs <> [] -> l <> [].
Proof. destruct l; simpl; [intros [= <-] | ]; congruence. Qed.

(** Adding an integer to integers, exactly. *)
Lemma exactNums_map_add (B z : Z) (dx : float) (ys : list float)
  (zy : list Z) :
  exactNums ys = Some zy -> toInteger dx = Some z ->
  Forall (fun y => Z.abs y <= B) zy -> B + Z.abs z < 2 ^ 53 ->
  exactNums (map (fun y => (y + dx)%float) ys)
  = Some (map (fun y => y + z) zy).
Proof.
  intros Hys Hdx Hin Hroom. revert zy Hys Hin.
  induction ys as [| y ys IH]; intros zy; simpl.
  - now intros [= <-].
  - destruct (toInteger y) as [v |] eqn:Ey; [| discriminate].
    destruct (exactNums ys) as [zl |]; [| discriminate].
    intros [= <-] Hin. inversion Hin as [| ? ? Hv Hl]; subst.
    rewrite (add_exact y dx v z Ey Hdx) by lia.
    now rewrite (IH zl eq_refl Hl).
Qed.

(** A number equal to 0 is the integer 0. *)
Lemma eqb_zero_exact (x : float) (z : Z) :
  (x =? 0)%float = true -> toInteger x = Some z -> z = 0.
Proof.
  rewrite FloatAxioms.eqb_spec. unfold toInteger.
  change (Prim2SF 0) with (S754_zero false).
  destruct (Prim2SF x) as [s | s | | s m e]; cbn [toIntegerSF];
    try discriminate.
  - intros _ [= <-]. reflexivity.
  - unfold SFeqb, SFcompare. destruct s; discriminate.
Qed.

Lemma within_sides (B : Z) (zs : list (Z * Z)) :
  within B zs = true ->
  Forall (fun z => Z.abs z <= B) (map fst zs)
  /\ Forall (fun z => Z.abs z <= B) (map snd zs).
Proof.
  unfold within. induction zs as [| p zs IH]; simpl.
  - intros _. split; constructor.
  - intros H. apply andb_true_iff in H. destruct H as [Hp Hr].
    apply andb_true_iff in Hp. destruct Hp as [H1 H2].
    apply Z.leb_le in H1, H2. destruct (IH Hr) as [I1 I2].
    split; constructor; trivial.
Qed.

(** One axis: the anchor of the translated coordinates is within half a
    unit of the original one. *)
Lemma anchor_axis (k j B : Z) (o : float) (xs ys ys' : list float)
  (zx zy : list Z) :
  0 <= k <= 1022 -> toScaled k o = Some j -> 0 <= j <= 2 ^ k ->
  zx <> [] -> zy <> [] ->
  exactNums xs = Some zx -> exactNums ys = Some zy ->
  Forall (fun z => Z.abs z <= B) zx -> Forall (fun z => Z.abs z <= B) zy ->
  (B + 1) * 2 ^ k < 2 ^ 50 ->
  (forall z,
     toInteger
       (Math_round ((lowest xs + (highest xs - lowest xs) * o)
                    - (lowest ys + (highest ys - lowest ys) * o))%float)
     = Some z ->
     Z.abs z <= 2 * B + 1 ->
     exactNums ys' = Some (map (fun y => y + z) zy)) ->
  exists a a',
    toScaled k (lowest xs + (highest xs - lowest xs) * o)%float = Some a
    /\ toScaled k (lowest ys' + (highest ys' - lowest ys') * o)%float
       = Some a'
    /\ 2 * Z.abs (a' - a) <= 2 ^ k.
Proof.
  intros Hk Ho Hj Nx Ny Hxs Hys Bx By Hroom Hys'.
  pose proof (pow2_pos k ltac:(lia)) as Hp.
  assert (HB : 0 <= B).
  { destruct Bx as [| x r Hx _]; [congruence | lia]. }
  pose proof (lowest_exact xs zx (exactNums_nonempty _ _ Hxs Nx) Hxs) as Lx.
  pose proof (highest_exact xs zx (exactNums_nonempty _ _ Hxs Nx) Hxs) as Ux.
  pose proof (lowest_exact ys zy (exactNums_nonempty _ _ Hys Ny) Hys) as Ly.
  pose proof (highest_exact ys zy (exactNums_nonempty _ _ Hys Ny) Hys) as Uy.
  pose proof (lowestZ_bound B zx HB Bx) as BLx.
  pose proof (highestZ_bound B zx HB Bx) as BUx.
  pose proof (lowestZ_bound B zy HB By) as BLy.
  pose proof (highestZ_bound B zy HB By) as BUy.
  set (K := 2 ^ k) in *.
  assert (R1 : 2 * B * K < 2 ^ 53) by lia.
  destruct (anchor_scaled k j B _ _ _ _ o Hk Ho Hj Lx Ux BLx BUx R1)
    as [HA BA].
  destruct (anchor_scaled k j B _ _ _ _ o Hk Ho Hj Ly Uy BLy BUy R1)
    as [HB' BB].
  fold K in HA, BA, HB', BB.
  set (a := lowestZ zx * K + (highestZ zx - lowestZ zx) * j) in *.
  set (b := lowestZ zy * K + (highestZ zy - lowestZ zy) * j) in *.
  pose proof (sub_scaled k _ _ a b Hk HA HB' ltac:(lia)) as HD.
  destruct (Math_round_scaled k _ (a - b) ltac:(lia) HD) as (z & Hz & Hnear).
  fold K in Hnear.
  assert (Bz : Z.abs z <= 2 * B + 1).
  { assert (H : Z.abs (z * K) <= (2 * B + 1) * K) by lia.
    rewrite Z.abs_mul, (Z.abs_eq K) in H by lia.
    apply (Z.mul_le_mono_pos_r _ _ K); lia. }
  specialize (Hys' z Hz Bz).
  assert (Ny' : map (fun y => y + z) zy <> []).
  { destruct zy; [congruence | discriminate]. }
  pose proof (lowest_exact ys' _ (exactNums_nonempty _ _ Hys' Ny') Hys') as Ly'.
  pose proof (highest_exact ys' _ (exactNums_nonempty _ _ Hys' Ny') Hys')
    as Uy'.
  rewrite lowestZ_shift in Ly' by exact Ny.
  rewrite highestZ_shift in Uy' by exact Ny.
  assert (R2 : 2 * (3 * B + 1) * K < 2 ^ 53) by lia.
  destruct (anchor_scaled k j (3 * B + 1) _ _ _ _ o Hk Ho Hj Ly' Uy'
              ltac:(lia) ltac:(lia) R2) as [HA' _].
  fold K in HA'.
  exists a, ((lowestZ zy + z) * K
             + (highestZ zy + z - (lowestZ zy + z)) * j).
  split; [exact HA |]. split; [exact HA' |].
  replace ((lowestZ zy + z) * K
           + (highestZ zy + z - (lowestZ zy + z)) * j - a)
    with (z * K - (a - b)) by (unfold b; ring).
  exact Hnear.
Qed.

End AnchorExact.

Section AnchorKept.
Local Open Scope Z_scope.

(** The x coordinates [anchor] returns are the integers of the offset
    result moved by the integer the shift stands for. *)
Lemma anchor_xs (pts offsetPts : list Pt) (ox oy : option float)
  (B z : Z) (zo : list (Z * Z)) :
  exactPts offsetPts = Some zo -> within B zo = true ->
  toInteger (anchorShift (minX (bbox pts)) (maxX (bbox pts))
               (minX (bbox offsetPts)) (maxX (bbox offsetPts)) ox) = Some z ->
  B + Z.abs z < 2 ^ 53 ->
  exactNums (map fst (anchor pts offsetPts ox oy))
  = Some (map (fun x => x + z) (map fst zo)).
Proof.
  intros Hzo Hin Hz Hroom.
  destruct (exactPts_nums _ _ Hzo) as [Hx _].
  destruct (within_sides _ _ Hin) as [Bx _].
  destruct (anchor_cases pts offsetPts ox oy) as [-> | (H0 & _ & ->)].
  - rewrite map_map. cbn [fst].
    rewrite <- (map_map fst (fun x => (x + _)%float)).
    exact (exactNums_map_add B z _ _ _ Hx Hz Bx Hroom).
  - rewrite (eqb_zero_exact _ _ H0 Hz), Hx. f_equal.
    rewrite <- (map_id (map fst zo)) at 1. apply map_ext. intros; lia.
Qed.

Lemma anchor_ys (pts offsetPts : list Pt) (ox oy : option float)
  (B z : Z) (zo : list (Z * Z)) :
  exactPts offsetPts = Some zo -> within B zo = true ->
  toInteger (anchorShift (minY (bbox pts)) (maxY (bbox pts))
               (minY (bbox offsetPts)) (maxY (bbox offsetPts)) oy) = Some z ->
  B + Z.abs z < 2 ^ 53 ->
  exactNums (map snd (anchor pts offsetPts ox oy))
  = Some (map (fun y => y + z) (map snd zo)).
Proof.
  intros Hzo Hin Hz Hroom.
  destruct (exactPts_nums _ _ Hzo) as [_ Hy].
  destruct (within_sides _ _ Hin) as [_ By].
  destruct (anchor_cases pts offsetPts ox oy) as [-> | (_ & H0 & ->)].
  - rewrite map_map. cbn [snd].
    rewrite <- (map_map snd (fun y => (y + _)%float)).
    exact (exactNums_map_add B z _ _ _ Hy Hz By Hroom).
  - rewrite (eqb_zero_exact _ _ H0 Hz), Hy. f_equal.
    rewrite <- (map_id (map snd zo)) at 1. apply map_ext. intros; lia.
Qed.

Lemma map_nonempty {A B : Type} (f : A -> B) (l : list A) :
  l <> [] -> map f l <> [].
Proof. destruct l; [congruence | discriminate]. Qed.

(** For integer points within [B] and a fraction [o = j / 2^k] of [0, 1]
    with [(B + 1) * 2^k < 2^50], the anchors of the original box and of the
    translated box are computed exactly and are at most half a unit
    apart. *)
Lemma anchorX_kept (pts offsetPts : list Pt) (oy : option float)
  (o : float) (k j B : Z) (zs zo : list (Z * Z)) :
  0 <= k <= 1022 -> toScaled k o = Some j -> 0 <= j <= 2 ^ k ->
  exactPts pts = Some zs -> exactPts offsetPts = Some zo ->
  zs <> [] -> zo <> [] ->
  within B zs = true -> within B zo = true ->
  (B + 1) * 2 ^ k < 2 ^ 50 ->
  exists a a',
    toScaled k (anchorX (bbox pts) o) = Some a
    /\ toScaled k (anchorX (bbox (anchor pts offsetPts (Some o) oy)) o)
       = Some a'
    /\ 2 * Z.abs (a' - a) <= 2 ^ k.
Proof.
  intros Hk Ho Hj Hzs Hzo Ns No Bs Bo Hroom.
  destruct (exactPts_nums _ _ Hzs) as [Hx _].
  destruct (exactPts_nums _ _ Hzo) as [Hxo _].
  destruct (within_sides _ _ Bs) as [Bx _].
  destruct (within_sides _ _ Bo) as [Bxo _].
  pose proof (pow2_pos k ltac:(lia)) as Hp.
  unfold anchorX.
  destruct (bbox_sides pts) as (-> & _ & -> & _).
  destruct (bbox_sides (anchor pts offsetPts (Some o) oy))
    as (-> & _ & -> & _).
  apply (anchor_axis k j B o _ (map fst offsetPts) _ (map fst zs)
           (map fst zo)); trivial; try (now apply map_nonempty).
  intros z Hz Bz.
  apply (anchor_xs pts offsetPts (Some o) oy B z zo Hzo Bo).
  - unfold anchorShift.
    destruct (bbox_sides pts) as (-> & _ & -> & _).
    destruct (bbox_sides offsetPts) as (-> & _ & -> & _).
    exact Hz.
  - assert (B + 1 <= (B + 1) * 2 ^ k) by nia. lia.
Qed.

Lemma anchorY_kept (pts offsetPts : list Pt) (ox : option float)
  (o : float) (k j B : Z) (zs zo : list (Z * Z)) :
  0 <= k <= 1022 -> toScaled k o = Some j -> 0 <= j <= 2 ^ k ->
  exactPts pts = Some zs -> exactPts offsetPts = Some zo ->
  zs <> [] -> zo <> [] ->
  within B zs = true -> within B zo = true ->
  (B + 1) * 2 ^ k < 2 ^ 50 ->
  exists a a',
    toScaled k (anchorY (bbox pts) o) = Some a
    /\ toScaled k (anchorY (bbox (anchor pts offsetPts ox (Some o))) o)
       = Some a'
    /\ 2 * Z.abs (a' - a) <= 2 ^ k.
Proof.
  intros Hk Ho Hj Hzs Hzo Ns No Bs Bo Hroom.
  destruct (exactPts_nums _ _ Hzs) as [_ Hy].
  destruct (exactPts_nums _ _ Hzo) as [_ Hyo].
  destruct (within_sides _ _ Bs) as [_ By].
  destruct (within_sides _ _ Bo) as [_ Byo].
  pose proof (pow2_pos k ltac:(lia)) as Hp.
  unfold anchorY.
  destruct (bbox_sides pts) as (_ & -> & _ & ->).
  destruct (bbox_sides (anchor pts offsetPts ox (Some o)))
    as (_ & -> & _ & ->).
  apply (anchor_axis k j B o _ (map snd offsetPts) _ (map snd zs)
           (map snd zo)); trivial; try (now apply map_nonempty).
  intros z Hz Bz.
  apply (anchor_ys pts offsetPts ox (Some o) B z zo Hzo Bo).
  - unfold anchorShift.
    destruct (bbox_sides pts) as (_ & -> & _ & ->).
    destruct (bbox_sides offsetPts) as (_ & -> & _ & ->).
    exact Hz.
  - assert (B + 1 <= (B + 1) * 2 ^ k) by nia. lia.
Qed.

End AnchorKept.

(* ------------------------------------------------------------------ *)
(** * Rounding error of the arithmetic                                  *)
(* ------------------------------------------------------------------ *)

Section Shifts.
Local Open Scope Z_scope.

(** One step of the right shift: the mantissa is halved, the bit shifted
    out becomes the round bit and the old round bit joins the sticky
    bit. *)
Lemma shr_1_spec (mrs : shr_record) :
  0 <= shr_m mrs ->
  0 <= shr_m (shr_1 mrs)
  /\ shr_m mrs = 2 * shr_m (shr_1 mrs) + (if shr_r (shr_1 mrs) then 1 else 0)
  /\ shr_s (shr_1 mrs) = shr_r mrs || shr_s mrs.
Proof.
  destruct mrs as [m r s]. cbn [shr_m]. intros Hm.
  destruct m as [| [p | p |] | p]; cbn [shr_1 shr_m shr_r shr_s];
    (split; [| split]); try reflexivity; lia.
Qed.

(** After [n] steps from [M]: the mantissa [m], the round bit and the
    sticky bit say where [M] lies between [m * 2^n] and [(m + 1) * 2^n]. *)
Lemma shr_iter (M : Z) (n : positive) :
  0 <= M ->
  let mrs :=
    iter_pos shr_1 n {| shr_m := M; shr_r := false; shr_s := false |} in
  exists sigma,
    0 <= shr_m mrs
    /\ 0 <= sigma < 2 ^ Zpos n
    /\ 2 * (M - shr_m mrs * 2 ^ Zpos n)
       = (if shr_r mrs then 2 ^ Zpos n else 0) + sigma
    /\ (shr_s mrs = true <-> 0 < sigma).
Proof.
  intros HM. cbv zeta. rewrite iter_pos_Pos_iter.
  induction n as [| n IH] using Pos.peano_ind.
  - cbn [Pos.iter].
    destruct (shr_1_spec {| shr_m := M; shr_r := false; shr_s := false |} HM)
      as (H0 & H1 & H2).
    cbn [shr_m shr_r shr_s orb] in H1, H2.
    exists 0. rewrite H2. change (2 ^ 1) with 2.
    split; [exact H0 |]. split; [lia |]. split; [| split; [discriminate | lia]].
    destruct (shr_r _); lia.
  - rewrite Pos.iter_succ. destruct IH as (sigma & Hm & Hs & Heq & Hst).
    set (mrs := Pos.iter shr_1 _ n) in *.
    destruct (shr_1_spec mrs Hm) as (H0 & H1 & H2).
    rewrite Pos2Z.inj_succ, Z.pow_succ_r by lia.
    set (P := 2 ^ Zpos n) in *.
    assert (HP : 0 < P) by (apply Z.pow_pos_nonneg; lia).
    exists ((if shr_r mrs then P else 0) + sigma).
    split; [exact H0 |].
    assert (Hprod : shr_m mrs * P
                    = 2 * (shr_m (shr_1 mrs) * P)
                      + (if shr_r (shr_1 mrs) then P else 0)).
    { rewrite H1 at 1. destruct (shr_r (shr_1 mrs)); ring. }
    split; [destruct (shr_r mrs); lia |].
    split.
    + replace (shr_m (shr_1 mrs) * (2 * P))
        with (2 * (shr_m (shr_1 mrs) * P)) by ring.
      destruct (shr_r (shr_1 mrs)), (shr_r mrs); lia.
    + rewrite H2. split.
      * intros H. destruct (shr_r mrs); [lia |]. cbn [orb] in H.
        apply Hst in H. lia.
      * intros H. destruct (shr_r mrs); [reflexivity |]. cbn [orb].
        apply Hst. lia.
Qed.

(** Rounding to nearest after the shift: at most half a unit away. *)
Lemma round_near (M P sigma : Z) (mrs : shr_record) :
  0 < P -> 0 <= sigma < P ->
  2 * (M - shr_m mrs * P) = (if shr_r mrs then P else 0) + sigma ->
  (shr_s mrs = true <-> 0 < sigma) ->
  let mr := round_nearest_even (shr_m mrs) (loc_of_shr_record mrs) in
  shr_m mrs <= mr <= shr_m mrs + 1
  /\ 2 * Z.abs (M - mr * P) <= P.
Proof.
  intros HP Hs Heq Hst. destruct mrs as [m r s].
  cbn [shr_m shr_r shr_s loc_of_shr_record] in *.
  destruct r, s; cbn [round_nearest_even].
  - assert (0 < sigma) by now apply Hst.
    split; [lia |]. replace ((m + 1) * P) with (m * P + P) by ring. lia.
  - assert (sigma = 0).
    { destruct (Z.eq_dec sigma 0) as [E | E]; [exact E |].
      assert (H : 0 < sigma) by lia. apply Hst in H. discriminate. }
    destruct (Z.even m); (split; [lia |]);
      [| replace ((m + 1) * P) with (m * P + P) by ring]; lia.
  - split; lia.
  - assert (sigma = 0).
    { destruct (Z.eq_dec sigma 0) as [E | E]; [exact E |].
      assert (H : 0 < sigma) by lia. apply Hst in H. discriminate. }
    split; lia.
Qed.

End Shifts.

Section RoundingError.
Local Open Scope Z_scope.

(** A mantissa of at most 53 bits at an exponent in range is not
    shifted. *)
Lemma shr_fexp_small (m e : Z) :
  0 <= m < 2 ^ 53 -> -1074 <= e ->
  shr_fexp prec emax m e loc_Exact
  = ({| shr_m := m; shr_r := false; shr_s := false |}, e).
Proof.
  intros Hm He. unfold shr_fexp, fexp, SpecFloat.emin, prec, emax.
  assert (Hd : Zdigits2 m <= 53).
  { destruct m as [| q | q]; cbn [Zdigits2]; try lia.
    apply digits2_pos_le; lia. }
  cbn [shr_record_of_loc]. unfold shr.
  destruct (Z.max (Zdigits2 m + e - 53) (3 - 1024 - 53) - e) eqn:E;
    try reflexivity. lia.
Qed.

(** The mantissa [2^53], which rounding up can give, is shifted once. *)
Lemma shr_fexp_carry (e : Z) :
  -1074 <= e ->
  shr_fexp prec emax (2 ^ 53) e loc_Exact
  = ({| shr_m := 2 ^ 52; shr_r := false; shr_s := false |}, e + 1).
Proof.
  intros He. unfold shr_fexp, fexp, SpecFloat.emin, prec, emax.
  change (Zdigits2 (2 ^ 53)) with 54.
  replace (Z.max (54 + e - 53) (3 - 1024 - 53) - e) with 1 by lia.
  reflexivity.
Qed.

(** Rounding a mantissa and an exponent to a number: the result is a zero
    or a finite number, the same [M * 2^e] when no bit is lost and at most
    [2^(p - 54)] away otherwise, where [2^p] is above [M * 2^e]. *)
Lemma binary_round_aux_near (s : bool) (M : positive) (e p : Z) :
  Zpos (digits2_pos M) + e <= p -> -1021 <= p <= 972 ->
  exists v e2,
    binary_round_aux prec emax s (Zpos M) e loc_Exact
    = match v with
      | Z0 => S754_zero s
      | Zpos m => S754_finite s m e2
      | Zneg _ => S754_nan
      end
    /\ 0 <= v /\ e <= e2
    /\ (Zpos M = v * 2 ^ (e2 - e)
        \/ (0 < p - 53 - e
            /\ 2 * Z.abs (Zpos M - v * 2 ^ (e2 - e)) <= 2 ^ (p - 53 - e))).
Proof.
  intros Hd Hp.
  pose proof (digits2_pos_upper M) as HU.
  pose proof (Pos2Z.is_pos (digits2_pos M)) as Hdp.
  set (d := Zpos (digits2_pos M)) in *.
  unfold binary_round_aux.
  assert (E1 : shr_fexp prec emax (Zpos M) e loc_Exact
               = shr {| shr_m := Zpos M; shr_r := false; shr_s := false |} e
                   (Z.max (d + e - 53) (-1074) - e)) by reflexivity.
  rewrite E1. clear E1.
  destruct (Z.max (d + e - 53) (-1074) - e) as [| np | np] eqn:En;
    cbn [shr].
  - (* nothing to shift *)
    cbn [shr_m loc_of_shr_record round_nearest_even].
    rewrite shr_fexp_small; [| split; [lia |] | lia].
    2: { assert (2 ^ d <= 2 ^ 53) by (apply Z.pow_le_mono_r; lia). lia. }
    cbn [shr_m]. unfold prec, emax.
    replace (e <=? 1024 - 53) with true by (symmetry; apply Z.leb_le; lia).
    exists (Zpos M), e. split; [reflexivity |]. split; [lia |].
    split; [lia |]. left. rewrite Z.sub_diag. lia.
  - (* a right shift by [np] bits *)
    destruct (shr_iter (Zpos M) np ltac:(lia)) as (sigma & Hm & Hs & Heq & Hst).
    set (mrs := iter_pos shr_1 np _) in *.
    set (P := 2 ^ Zpos np) in *.
    assert (HP : 0 < P) by (apply Z.pow_pos_nonneg; lia).
    destruct (round_near (Zpos M) P sigma mrs HP Hs Heq Hst) as [Hmr Herr].
    set (mr := round_nearest_even (shr_m mrs) (loc_of_shr_record mrs)) in *.
    assert (Hlt : shr_m mrs < 2 ^ 53).
    { destruct (Z_lt_le_dec (shr_m mrs) (2 ^ 53)) as [H | H]; [exact H |].
      exfalso.
      assert (H1 : 2 ^ 53 * P <= shr_m mrs * P)
        by (apply Z.mul_le_mono_nonneg_r; lia).
      assert (H2 : 2 ^ d <= 2 ^ (53 + Zpos np))
        by (apply Z.pow_le_mono_r; lia).
      rewrite Z.pow_add_r in H2 by lia. fold P in H2.
      destruct (shr_r mrs); lia. }
    assert (He1 : e + Zpos np <= p - 53) by lia.
    assert (Hbound : P <= 2 ^ (p - 53 - e)).
    { unfold P. apply Z.pow_le_mono_r; lia. }
    destruct (Z_lt_le_dec mr (2 ^ 53)) as [Hs53 | Hs53].
    + rewrite shr_fexp_small; [| lia | lia].
      cbn [shr_m]. exists mr, (e + Zpos np).
      split.
      { destruct mr as [| q | q]; [reflexivity | | lia].
        unfold prec, emax.
        now replace (e + Zpos np <=? 1024 - 53) with true
          by (symmetry; apply Z.leb_le; lia). }
      split; [lia |]. split; [lia |]. right. split; [lia |].
      replace (e + Zpos np - e) with (Zpos np) by lia. fold P. lia.
    + assert (Emr : mr = 2 ^ 53) by lia.
      rewrite Emr, shr_fexp_carry by lia. cbn [shr_m].
      exists (2 ^ 52), (e + Zpos np + 1).
      split.
      { change (2 ^ 52) with (Zpos 4503599627370496).
        cbv beta iota. unfold prec, emax.
        now replace (e + Zpos np + 1 <=? 1024 - 53) with true
          by (symmetry; apply Z.leb_le; lia). }
      split; [lia |]. split; [lia |]. right. split; [lia |].
      replace (e + Zpos np + 1 - e) with (Zpos np + 1) by lia.
      rewrite Z.pow_add_r by lia. fold P.
      replace (2 ^ 52 * (P * 2 ^ 1)) with (2 ^ 53 * P)
        by (change (2 ^ 53) with (2 ^ 52 * 2); change (2 ^ 1) with 2; ring).
      rewrite <- Emr. lia.
  - (* nothing to shift *)
    cbn [shr_m loc_of_shr_record round_nearest_even].
    rewrite shr_fexp_small; [| split; [lia |] | lia].
    2: { assert (2 ^ d <= 2 ^ 53) by (apply Z.pow_le_mono_r; lia). lia. }
    cbn [shr_m]. unfold prec, emax.
    replace (e <=? 1024 - 53) with true by (symmetry; apply Z.leb_le; lia).
    exists (Zpos M), e. split; [reflexivity |]. split; [lia |].
    split; [lia |]. left. rewrite Z.sub_diag. lia.
Qed.

End RoundingError.

Section Values.
Local Open Scope Q_scope.

Lemma two_nonzero : ~ 2 == 0.
Proof. discriminate. Qed.

Lemma pow2Q_pos (e : Z) : 0 < 2 ^ e.
Proof. apply Qpower_0_lt. reflexivity. Qed.

Lemma pow2Q_Z (k : Z) : (0 <= k)%Z -> inject_Z (2 ^ k) == 2 ^ k.
Proof. intros H. now rewrite Zpower_Qpower. Qed.

Lemma valQ_mul (m1 m2 e1 e2 : Z) :
  valQ m1 e1 * valQ m2 e2 == valQ (m1 * m2) (e1 + e2).
Proof.
  unfold valQ. rewrite inject_Z_mult, (Qpower_plus 2 e1 e2 two_nonzero). ring.
Qed.

Lemma valQ_add (m1 m2 e : Z) : valQ m1 e + valQ m2 e == valQ (m1 + m2) e.
Proof. unfold valQ. rewrite inject_Z_plus. ring. Qed.

Lemma valQ_sub (m1 m2 e : Z) : valQ m1 e - valQ m2 e == valQ (m1 - m2) e.
Proof.
  unfold valQ, Z.sub. rewrite inject_Z_plus, inject_Z_opp. ring.
Qed.

Lemma valQ_opp (m e : Z) : - valQ m e == valQ (- m) e.
Proof. unfold valQ. rewrite inject_Z_opp. ring. Qed.

(** The same number at a lower exponent. *)
Lemma valQ_shift (m e k : Z) :
  (0 <= k)%Z -> valQ (m * 2 ^ k) e == valQ m (e + k).
Proof.
  intros Hk. unfold valQ.
  rewrite inject_Z_mult, pow2Q_Z, (Qpower_plus 2 e k two_nonzero) by exact Hk.
  ring.
Qed.

Lemma valQ_abs (m e : Z) : Qabs (valQ m e) == valQ (Z.abs m) e.
Proof.
  unfold valQ. rewrite Qabs_Qmult, (Qabs_pos (2 ^ e)).
  - apply Qmult_comp; [| reflexivity].
    unfold inject_Z. symmetry. apply Zabs_Qabs.
  - apply Qlt_le_weak, pow2Q_pos.
Qed.

Lemma valQ_le (m1 m2 e : Z) : (m1 <= m2)%Z -> valQ m1 e <= valQ m2 e.
Proof.
  intros H. unfold valQ. apply Qmult_le_compat_r.
  - now rewrite <- Zle_Qle.
  - apply Qlt_le_weak, pow2Q_pos.
Qed.

Lemma valQ_zero (e : Z) : valQ 0 e == 0.
Proof. unfold valQ. ring. Qed.

(** The value of a finite number. *)
Lemma valueQ_finite_valQ (x : float) (s : bool) (m : positive) (e : Z) :
  Prim2SF x = S754_finite s m e ->
  exists q, valueQ x = Some q /\ q == valQ (cond_Zopp s (Zpos m)) e.
Proof.
  intros E. unfold valueQ. rewrite E. cbv zeta.
  assert (Es : ((if s then -1 else 1) * Zpos m)%Z = cond_Zopp s (Zpos m))
    by (destruct s; reflexivity).
  rewrite Es. set (sm := cond_Zopp s (Zpos m)).
  destruct (0 <=? e)%Z eqn:He.
  - apply Z.leb_le in He. eexists. split; [reflexivity |].
    unfold valQ. now rewrite inject_Z_mult, pow2Q_Z.
  - apply Z.leb_gt in He. eexists. split; [reflexivity |].
    unfold valQ. rewrite Qmake_Qdiv.
    rewrite Z2Pos.id by (apply Z.pow_pos_nonneg; lia).
    rewrite pow2Q_Z by lia.
    assert (Hinv : 2 ^ e == / 2 ^ (- e)).
    { rewrite <- Qpower_opp. now replace (- - e)%Z with e by lia. }
    rewrite Hinv. reflexivity.
Qed.

Lemma valueQ_zero (x : float) (s : bool) :
  Prim2SF x = S754_zero s -> valueQ x = Some 0.
Proof. intros E. unfold valueQ. now rewrite E. Qed.

(** What a number with a value is. *)
Lemma valueQ_cases (x : float) (q : Q) :
  valueQ x = Some q ->
  (exists s, Prim2SF x = S754_zero s /\ q = 0)
  \/ (exists s m e, Prim2SF x = S754_finite s m e
                    /\ q == valQ (cond_Zopp s (Zpos m)) e).
Proof.
  intros H. destruct (Prim2SF x) as [s | s | | s m e] eqn:E.
  - left. exists s. split; [reflexivity |].
    rewrite (valueQ_zero x s E) in H. congruence.
  - unfold valueQ in H. rewrite E in H. discriminate.
  - unfold valueQ in H. rewrite E in H. discriminate.
  - right. exists s, m, e. split; [reflexivity |].
    destruct (valueQ_finite_valQ x s m e E) as (q' & H' & Hq).
    rewrite H in H'. injection H' as <-. exact Hq.
Qed.

(** A number below [2^p] has at most [p - e] bits at exponent [e]. *)
Lemma digits_below (M : positive) (e p : Z) :
  valQ (Zpos M) e < 2 ^ p -> (Zpos (digits2_pos M) + e <= p)%Z.
Proof.
  unfold valQ. intros H.
  assert (H1 : inject_Z (Zpos M) < 2 ^ (p - e)).
  { apply (Qmult_lt_r _ _ (2 ^ e) (pow2Q_pos e)).
    rewrite <- (Qpower_plus 2 (p - e) e two_nonzero).
    now replace (p - e + e)%Z with p by lia. }
  assert (Hpe : (0 < p - e)%Z).
  { apply (Qpower_lt_compat_l_inv 2); [| reflexivity].
    apply Qle_lt_trans with (inject_Z (Zpos M)); [| exact H1].
    change (2 ^ 0) with (inject_Z 1). rewrite <- Zle_Qle. lia. }
  rewrite <- pow2Q_Z, <- Zlt_Qlt in H1 by lia.
  pose proof (digits2_pos_le M (p - e) ltac:(lia) H1). lia.
Qed.

End Values.

Section Near.
Local Open Scope Q_scope.

(** An error of at most half a unit in the last place, [2^(p - 53)] being
    above the unit. *)
Lemma half_unit (D e p : Z) :
  D = 0%Z
  \/ ((0 < p - 53 - e)%Z /\ (2 * Z.abs D <= 2 ^ (p - 53 - e))%Z) ->
  valQ (Z.abs D) e <= 2 ^ (p - 54).
Proof.
  intros [-> | [Hk H]].
  - rewrite valQ_zero. apply Qlt_le_weak, pow2Q_pos.
  - assert (Hpow : (2 ^ (p - 53 - e) = 2 * 2 ^ (p - 54 - e))%Z).
    { replace (p - 53 - e)%Z with (Z.succ (p - 54 - e)) by lia.
      rewrite Z.pow_succ_r by lia. reflexivity. }
    assert (HD : (Z.abs D <= 2 ^ (p - 54 - e))%Z) by lia.
    apply Qle_trans with (valQ (2 ^ (p - 54 - e)) e);
      [now apply valQ_le |].
    unfold valQ. rewrite pow2Q_Z by lia.
    rewrite <- (Qpower_plus 2 _ _ two_nonzero).
    replace (p - 54 - e + e)%Z with (p - 54)%Z by lia. apply Qle_refl.
Qed.

Lemma cond_Zopp_abs (s : bool) (a b : Z) :
  Z.abs (cond_Zopp s a - cond_Zopp s b) = Z.abs (a - b).
Proof. destruct s; cbn [cond_Zopp]; lia. Qed.

(** A number that is the rounding of [M * 2^e]. *)
Lemma near_of_round (z : float) (s : bool) (M : positive) (e p : Z) :
  Prim2SF z = binary_round_aux prec emax s (Zpos M) e loc_Exact ->
  valQ (Zpos M) e < 2 ^ p -> (-1021 <= p <= 972)%Z ->
  exists q,
    valueQ z = Some q
    /\ Qabs (q - valQ (cond_Zopp s (Zpos M)) e) <= 2 ^ (p - 54).
Proof.
  intros Hz Hmag Hp. pose proof (digits_below M e p Hmag) as Hd.
  destruct (binary_round_aux_near s M e p Hd Hp)
    as (v & e2 & Hr & Hv & He & Herr).
  rewrite Hr in Hz. destruct v as [| m | m]; [| | lia].
  - exists 0. split; [exact (valueQ_zero z s Hz) |].
    setoid_replace (0 - valQ (cond_Zopp s (Zpos M)) e)
      with (valQ (cond_Zopp s 0 - cond_Zopp s (Zpos M)) e)
      by (rewrite <- valQ_sub; destruct s; cbn [cond_Zopp];
          rewrite valQ_zero; reflexivity).
    rewrite valQ_abs, cond_Zopp_abs. apply half_unit.
    destruct Herr as [H | [H1 H2]]; [lia |]. right. split; [exact H1 |].
    rewrite Z.mul_0_l in H2. lia.
  - destruct (valueQ_finite_valQ z s m e2 Hz) as (q & Hq & Eq).
    exists q. split; [exact Hq |].
    assert (Es : (cond_Zopp s (Zpos m) * 2 ^ (e2 - e)
                  = cond_Zopp s (Zpos m * 2 ^ (e2 - e)))%Z)
      by (destruct s; cbn [cond_Zopp]; ring).
    setoid_replace (q - valQ (cond_Zopp s (Zpos M)) e)
      with (valQ (cond_Zopp s (Zpos m * 2 ^ (e2 - e))
                  - cond_Zopp s (Zpos M)) e).
    2: { rewrite Eq, <- valQ_sub, <- Es, valQ_shift by lia.
         now replace (e + (e2 - e))%Z with e2 by lia. }
    rewrite valQ_abs, cond_Zopp_abs. apply half_unit.
    destruct Herr as [H | [H1 H2]]; [left; lia |]. right.
    split; [exact H1 |].
    lia.
Qed.

(** Aligning a mantissa to a lower exponent keeps the number. *)
Lemma shl_align_value (m : positive) (ex ex' : Z) :
  valQ (Zpos (fst (shl_align m ex ex'))) (snd (shl_align m ex ex'))
  == valQ (Zpos m) ex.
Proof.
  unfold shl_align. destruct (ex' - ex)%Z as [| d | d] eqn:E;
    cbn [fst snd]; try reflexivity.
  change (PosDef.Pos.iter xO m d) with (Pos.iter xO m d).
  rewrite Zpos_iter_xO, valQ_shift by lia.
  now replace (ex' + Zpos d)%Z with ex by lia.
Qed.

Lemma shl_align_exponent (m : positive) (ex ex' : Z) :
  (ex' <= ex)%Z -> snd (shl_align m ex ex') = ex'.
Proof.
  intros H. unfold shl_align. destruct (ex' - ex)%Z as [| d | d] eqn:E;
    cbn [snd]; lia.
Qed.

(** The number [binary_normalize] makes of an integer and an exponent. *)
Lemma binary_normalize_near (z : float) (S e p : Z) :
  Prim2SF z = binary_normalize prec emax S e false ->
  Qabs (valQ S e) < 2 ^ p -> (-1021 <= p <= 972)%Z ->
  exists q, valueQ z = Some q /\ Qabs (q - valQ S e) <= 2 ^ (p - 54).
Proof.
  intros Hz Hmag Hp. rewrite valQ_abs in Hmag.
  destruct S as [| m | m]; cbn [binary_normalize] in Hz.
  - exists 0. split; [exact (valueQ_zero z false Hz) |].
    rewrite valQ_zero. setoid_replace (0 - 0) with 0 by ring.
    apply Qlt_le_weak, pow2Q_pos.
  - unfold binary_round in Hz.
    pose proof (shl_align_value m e
                  (fexp prec emax (Zpos (digits2_pos m) + e))) as Hv.
    destruct (shl_align m e _) as [mz ez]. cbn [fst snd] in Hv.
    cbn [Z.abs] in Hmag. rewrite <- Hv in Hmag.
    destruct (near_of_round z false mz ez p Hz Hmag Hp) as (q & Hq & Hn).
    exists q. split; [exact Hq |]. cbn [cond_Zopp] in Hn.
    now rewrite <- Hv.
  - unfold binary_round in Hz.
    pose proof (shl_align_value m e
                  (fexp prec emax (Zpos (digits2_pos m) + e))) as Hv.
    destruct (shl_align m e _) as [mz ez]. cbn [fst snd] in Hv.
    cbn [Z.abs] in Hmag. rewrite <- Hv in Hmag.
    destruct (near_of_round z true mz ez p Hz Hmag Hp) as (q & Hq & Hn).
    exists q. split; [exact Hq |]. cbn [cond_Zopp] in Hn.
    change (Zneg m) with (- Zpos m)%Z. rewrite <- valQ_opp, <- Hv, valQ_opp.
    exact Hn.
Qed.

Lemma zero_error (p : Z) (a b : Q) : a == b -> Qabs (a - b) <= 2 ^ (p - 54).
Proof.
  intros ->. setoid_replace (b - b) with 0 by ring.
  apply Qlt_le_weak, pow2Q_pos.
Qed.

(** A product is at most [2^(p - 54)] away from the product of the
    values, [2^p] being above it. *)
Lemma mul_near (x y : float) (qx qy : Q) (p : Z) :
  valueQ x = Some qx -> valueQ y = Some qy ->
  Qabs (qx * qy) < 2 ^ p -> (-1021 <= p <= 972)%Z ->
  exists q, valueQ (x * y) = Some q /\ Qabs (q - qx * qy) <= 2 ^ (p - 54).
Proof.
  intros Hx Hy Hmag Hp.
  assert (Hz : Prim2SF (x * y) = SFmul prec emax (Prim2SF x) (Prim2SF y))
    by apply mul_spec.
  destruct (valueQ_cases x qx Hx) as [(sx & Ex & ->) | (sx & mx & ex & Ex & Qx)];
    destruct (valueQ_cases y qy Hy)
      as [(sy & Ey & ->) | (sy & my & ey & Ey & Qy)];
    rewrite Ex, Ey in Hz; cbn [SFmul] in Hz.
  - exists 0. split; [exact (valueQ_zero _ _ Hz) |]. apply zero_error. ring.
  - exists 0. split; [exact (valueQ_zero _ _ Hz) |]. apply zero_error. ring.
  - exists 0. split; [exact (valueQ_zero _ _ Hz) |]. apply zero_error. ring.
  - assert (Ev : qx * qy
                 == valQ (cond_Zopp (xorb sx sy) (Zpos (mx * my))) (ex + ey)).
    { rewrite Qx, Qy, valQ_mul.
      now destruct sx, sy. }
    rewrite Ev in Hmag. rewrite valQ_abs in Hmag.
    replace (Z.abs (cond_Zopp (xorb sx sy) (Zpos (mx * my))))
      with (Zpos (mx * my)) in Hmag by (destruct (xorb sx sy); reflexivity).
    destruct (near_of_round _ _ _ _ p Hz Hmag Hp) as (q & Hq & Hn).
    exists q. split; [exact Hq |]. now rewrite Ev.
Qed.

(** The mantissas aligned by [SFadd] and [SFsub]. *)
Lemma aligned_value (s : bool) (m : positive) (e ez : Z) :
  (ez <= e)%Z ->
  valQ (cond_Zopp s (Zpos (fst (shl_align m e ez)))) ez
  == valQ (cond_Zopp s (Zpos m)) e.
Proof.
  intros H. pose proof (shl_align_value m e ez) as Hv.
  rewrite (shl_align_exponent m e ez H) in Hv.
  destruct s; cbn [cond_Zopp]; [| exact Hv].
  now rewrite <- !valQ_opp, Hv.
Qed.

Lemma add_near (x y : float) (qx qy : Q) (p : Z) :
  valueQ x = Some qx -> valueQ y = Some qy ->
  Qabs (qx + qy) < 2 ^ p -> (-1021 <= p <= 972)%Z ->
  exists q, valueQ (x + y) = Some q /\ Qabs (q - (qx + qy)) <= 2 ^ (p - 54).
Proof.
  intros Hx Hy Hmag Hp.
  assert (Hz : Prim2SF (x + y) = SFadd prec emax (Prim2SF x) (Prim2SF y))
    by apply add_spec.
  destruct (valueQ_cases x qx Hx) as [(sx & Ex & ->) | (sx & mx & ex & Ex & Qx)];
    destruct (valueQ_cases y qy Hy)
      as [(sy & Ey & ->) | (sy & my & ey & Ey & Qy)];
    rewrite Ex, Ey in Hz; cbn [SFadd] in Hz.
  - exists 0. split; [| apply zero_error; ring].
    destruct sx, sy; exact (valueQ_zero _ _ Hz).
  - rewrite <- Ey in Hz. apply Prim2SF_inj in Hz. rewrite Hz.
    exists qy. split; [exact Hy |]. apply zero_error. ring.
  - rewrite <- Ex in Hz. apply Prim2SF_inj in Hz. rewrite Hz.
    exists qx. split; [exact Hx |]. apply zero_error. ring.
  - cbv zeta in Hz.
    assert (Ev : qx + qy
                 == valQ (cond_Zopp sx (Zpos (fst (shl_align mx ex
                                                     (Z.min ex ey))))
                          + cond_Zopp sy (Zpos (fst (shl_align my ey
                                                       (Z.min ex ey)))))
                      (Z.min ex ey)).
    { rewrite <- valQ_add, !aligned_value by lia. now rewrite Qx, Qy. }
    rewrite Ev in Hmag.
    destruct (binary_normalize_near _ _ _ p Hz Hmag Hp) as (q & Hq & Hn).
    exists q. split; [exact Hq |]. now rewrite Ev.
Qed.

Lemma sub_near (x y : float) (qx qy : Q) (p : Z) :
  valueQ x = Some qx -> valueQ y = Some qy ->
  Qabs (qx - qy) < 2 ^ p -> (-1021 <= p <= 972)%Z ->
  exists q, valueQ (x - y) = Some q /\ Qabs (q - (qx - qy)) <= 2 ^ (p - 54).
Proof.
  intros Hx Hy Hmag Hp.
  assert (Hz : Prim2SF (x - y) = SFsub prec emax (Prim2SF x) (Prim2SF y))
    by apply sub_spec.
  destruct (valueQ_cases x qx Hx) as [(sx & Ex & ->) | (sx & mx & ex & Ex & Qx)];
    destruct (valueQ_cases y qy Hy)
      as [(sy & Ey & ->) | (sy & my & ey & Ey & Qy)];
    rewrite Ex, Ey in Hz; cbn [SFsub] in Hz.
  - exists 0. split; [| apply zero_error; ring].
    destruct sx, sy; exact (valueQ_zero _ _ Hz).
  - destruct (valueQ_finite_valQ _ _ _ _ Hz) as (q & Hq & Eq).
    exists q. split; [exact Hq |]. apply zero_error.
    rewrite Eq, Qy. destruct sy; cbn [cond_Zopp negb];
      rewrite <- ?valQ_opp; ring.
  - rewrite <- Ex in Hz. apply Prim2SF_inj in Hz. rewrite Hz.
    exists qx. split; [exact Hx |]. apply zero_error. ring.
  - cbv zeta in Hz.
    assert (Ev : qx - qy
                 == valQ (cond_Zopp sx (Zpos (fst (shl_align mx ex
                                                     (Z.min ex ey))))
                          - cond_Zopp sy (Zpos (fst (shl_align my ey
                                                       (Z.min ex ey)))))
                      (Z.min ex ey)).
    { rewrite <- valQ_sub, !aligned_value by lia. now rewrite Qx, Qy. }
    rewrite Ev in Hmag.
    destruct (binary_normalize_near _ _ _ p Hz Hmag Hp) as (q & Hq & Hn).
    exists q. split; [exact Hq |]. now rewrite Ev.
Qed.

End Near.

(* ------------------------------------------------------------------ *)
(** * The anchor under rounding                                         *)
(* ------------------------------------------------------------------ *)

Section AnchorNear.
Local Open Scope Z_scope.

Lemma valueQ_integer (x : float) (z : Z) :
  toInteger x = Some z ->
  exists q, valueQ x = Some q /\ (q == inject_Z z)%Q.
Proof.
  intros H. rewrite <- toScaled_0 in H.
  destruct (valueQ_scaled 0 x z ltac:(lia) H) as (q & Hq & E).
  exists q. split; [exact Hq |].
  change (inject_Z (2 ^ 0)) with 1%Q in E. now rewrite Qmult_1_r in E.
Qed.

Lemma fold_lowest_le (l : list Z) (m : Z) :
  fold_left (fun m x => if x <? m then x else m) l m <= m.
Proof.
  revert m. induction l as [| x l IH]; intros m; cbn [fold_left]; [lia |].
  destruct (x <? m) eqn:E.
  - apply Z.ltb_lt in E. specialize (IH x). lia.
  - apply IH.
Qed.

Lemma fold_highest_ge (l : list Z) (m : Z) :
  m <= fold_left (fun m x => if m <? x then x else m) l m.
Proof.
  revert m. induction l as [| x l IH]; intros m; cbn [fold_left]; [lia |].
  destruct (m <? x) eqn:E.
  - apply Z.ltb_lt in E. specialize (IH x). lia.
  - apply IH.
Qed.

Lemma lowestZ_le_highestZ (l : list Z) : lowestZ l <= highestZ l.
Proof.
  destruct l as [| x l]; cbn [lowestZ highestZ]; [lia |].
  pose proof (fold_lowest_le l x). pose proof (fold_highest_ge l x). lia.
Qed.

(** The anchor [mn + (mx - mn) * o] of a side from [a0] to [a1], for a
    fraction between 0 and 1: the number computed is at most 3/16 away
    from the exact one when the side is shorter than [2^51] and the exact
    anchor is below [2^50 - 1/8] in magnitude. *)
Lemma anchor_value (a0 a1 : Z) (mn mx o : float) (qo : Q) :
  valueQ o = Some qo -> (0 <= qo <= 1)%Q ->
  toInteger mn = Some a0 -> toInteger mx = Some a1 ->
  Z.abs a0 < 2 ^ 52 -> Z.abs a1 < 2 ^ 52 ->
  0 <= a1 - a0 < 2 ^ 51 ->
  (- (1125899906842623 # 1) <= inject_Z a0 + inject_Z (a1 - a0) * qo
   <= 1125899906842623 # 1)%Q ->
  exists q,
    valueQ (mn + (mx - mn) * o)%float = Some q
    /\ (Qabs (q - (inject_Z a0 + inject_Z (a1 - a0) * qo)) <= 3 # 16)%Q.
Proof.
  intros Ho Hq Hmn Hmx B0 B1 HW Hex.
  pose proof (sub_exact mx mn a1 a0 Hmx Hmn ltac:(lia)) as HWi.
  destruct (valueQ_integer _ _ HWi) as (qw & Hw & Ew).
  destruct (valueQ_integer _ _ Hmn) as (q0 & H0 & E0).
  assert (HWq : (0 <= inject_Z (a1 - a0) < 2251799813685248 # 1)%Q).
  { split.
    - change 0%Q with (inject_Z 0). rewrite <- Zle_Qle. lia.
    - change (2251799813685248 # 1)%Q with (inject_Z (2 ^ 51)).
      rewrite <- Zlt_Qlt. lia. }
  set (W := inject_Z (a1 - a0)) in *.
  assert (HP : (0 <= W * qo <= W)%Q).
  { split.
    - apply Qmult_le_0_compat; [apply HWq | apply Hq].
    - rewrite <- (Qmult_1_r W) at 2.
      apply Qmult_le_compat_nonneg; split;
        try apply Qle_refl; try apply HWq; apply Hq. }
  destruct (mul_near (mx - mn) o qw qo 51 Hw Ho) as (qt & Ht & Et).
  { rewrite Ew. fold W. apply Qabs_Qlt_condition.
    change (2 ^ 51)%Q with (2251799813685248 # 1)%Q. lra. }
  { lia. }
  change (2 ^ (51 - 54))%Q with (1 # 8)%Q in Et.
  rewrite Ew in Et. fold W in Et. apply Qabs_Qle_condition in Et.
  destruct (add_near mn ((mx - mn) * o) q0 qt 50 H0 Ht) as (q & Hqv & Eq).
  { rewrite E0. apply Qabs_Qlt_condition.
    change (2 ^ 50)%Q with (1125899906842624 # 1)%Q.
    set (A := inject_Z a0) in *. set (T := (W * qo)%Q) in *. lra. }
  { lia. }
  change (2 ^ (50 - 54))%Q with (1 # 16)%Q in Eq.
  rewrite E0 in Eq. apply Qabs_Qle_condition in Eq.
  exists q. split; [exact Hqv |]. apply Qabs_Qle_condition.
  set (A := inject_Z a0) in *. set (T := (W * qo)%Q) in *. lra.
Qed.

(** One axis of the anchor translation, for any fraction between 0 and 1
    and integer points of magnitude at most [B], [B + 2 <= 2^50]: with the
    shift added to the offset points, the anchor computed from the new
    sides is at most 1 away from the one computed from the original
    sides. *)
Lemma anchor_axis_near (B : Z) (o : float) (qo : Q)
  (xs ys ys' : list float) (zx zy : list Z) :
  valueQ o = Some qo -> (0 <= qo <= 1)%Q ->
  zx <> [] -> zy <> [] ->
  exactNums xs = Some zx -> exactNums ys = Some zy ->
  Forall (fun z => Z.abs z <= B) zx -> Forall (fun z => Z.abs z <= B) zy ->
  B + 2 <= 2 ^ 50 ->
  (forall z,
     toInteger
       (Math_round ((lowest xs + (highest xs - lowest xs) * o)
                    - (lowest ys + (highest ys - lowest ys) * o))%float)
     = Some z ->
     Z.abs z <= 2 * B + 1 ->
     exactNums ys' = Some (map (fun y => y + z) zy)) ->
  (exists q q',
     valueQ (lowest xs + (highest xs - lowest xs) * o)%float = Some q
     /\ valueQ (lowest ys' + (highest ys' - lowest ys') * o)%float = Some q'
     /\ (Qabs (q' - q) <= 1)%Q)
  /\ (exists a0 a1 b0 b1,
        toInteger (lowest xs) = Some a0 /\ toInteger (highest xs) = Some a1
        /\ toInteger (lowest ys') = Some b0
        /\ toInteger (highest ys') = Some b1
        /\ (Qabs ((inject_Z b0 + (inject_Z b1 - inject_Z b0) * qo)
                  - (inject_Z a0 + (inject_Z a1 - inject_Z a0) * qo))
            <= 1)%Q).
Proof.
  intros Ho Hq Nx Ny Hxs Hys Bx By Hroom Hys'.
  assert (HB : 0 <= B).
  { destruct Bx as [| x r Hx _]; [congruence | lia]. }
  pose proof (lowest_exact xs zx (exactNums_nonempty _ _ Hxs Nx) Hxs) as Lx.
  pose proof (highest_exact xs zx (exactNums_nonempty _ _ Hxs Nx) Hxs) as Ux.
  pose proof (lowest_exact ys zy (exactNums_nonempty _ _ Hys Ny) Hys) as Ly.
  pose proof (highest_exact ys zy (exactNums_nonempty _ _ Hys Ny) Hys) as Uy.
  pose proof (lowestZ_bound B zx HB Bx) as BLx.
  pose proof (highestZ_bound B zx HB Bx) as BUx.
  pose proof (lowestZ_bound B zy HB By) as BLy.
  pose proof (highestZ_bound B zy HB By) as BUy.
  pose proof (lowestZ_le_highestZ zx) as Ox.
  pose proof (lowestZ_le_highestZ zy) as Oy.
  set (lx := lowestZ zx) in *. set (hx := highestZ zx) in *.
  set (ly := lowestZ zy) in *. set (hy := highestZ zy) in *.
  assert (HBq : (inject_Z B <= 1125899906842622 # 1)%Q).
  { change (1125899906842622 # 1)%Q with (inject_Z (2 ^ 50 - 2)).
    rewrite <- Zle_Qle. lia. }
  assert (Hside : forall l h : Z,
             l <= h -> Z.abs l <= B -> Z.abs h <= B ->
             (0 <= inject_Z (h - l) * qo <= inject_Z (h - l))%Q
             /\ (- inject_Z B <= inject_Z l)%Q
             /\ (inject_Z l + inject_Z (h - l) <= inject_Z B)%Q).
  { intros l h Hlh Hl Hh.
    assert (H0 : (0 <= inject_Z (h - l))%Q).
    { change 0%Q with (inject_Z 0). rewrite <- Zle_Qle. lia. }
    split; [split |].
    - apply Qmult_le_0_compat; [exact H0 | apply Hq].
    - rewrite <- (Qmult_1_r (inject_Z (h - l))) at 2.
      apply Qmult_le_compat_nonneg; split;
        try apply Qle_refl; try exact H0; apply Hq.
    - split.
      + rewrite <- inject_Z_opp, <- Zle_Qle. lia.
      + rewrite <- inject_Z_plus, <- Zle_Qle. lia. }
  destruct (Hside lx hx Ox BLx BUx) as (Px & Px1 & Px2).
  destruct (Hside ly hy Oy BLy BUy) as (Py & Py1 & Py2).
  destruct (anchor_value lx hx _ _ o qo Ho Hq Lx Ux ltac:(lia) ltac:(lia)
              ltac:(lia)) as (qa & Ha & Ea).
  { set (T := (inject_Z (hx - lx) * qo)%Q) in *. lra. }
  destruct (anchor_value ly hy _ _ o qo Ho Hq Ly Uy ltac:(lia) ltac:(lia)
              ltac:(lia)) as (qb & Hb & Eb).
  { set (T := (inject_Z (hy - ly) * qo)%Q) in *. lra. }
  apply Qabs_Qle_condition in Ea. apply Qabs_Qle_condition in Eb.
  destruct (sub_near _ _ qa qb 51 Ha Hb) as (qc & Hc & Ec).
  { apply Qabs_Qlt_condition.
    change (2 ^ 51)%Q with (2251799813685248 # 1)%Q.
    set (Tx := (inject_Z (hx - lx) * qo)%Q) in *.
    set (Ty := (inject_Z (hy - ly) * qo)%Q) in *. lra. }
  { lia. }
  change (2 ^ (51 - 54))%Q with (1 # 8)%Q in Ec.
  apply Qabs_Qle_condition in Ec.
  destruct (Math_round_nearest _ qc Hc) as (z & Hz & Enear).
  apply Qabs_Qle_condition in Enear.
  assert (Bz : Z.abs z <= 2 * B + 1).
  { assert (H : (- inject_Z (2 * B + 1) <= inject_Z z
                 <= inject_Z (2 * B + 1))%Q).
    { rewrite inject_Z_plus, inject_Z_mult.
      change (inject_Z 2) with 2%Q. change (inject_Z 1) with 1%Q.
      set (Tx := (inject_Z (hx - lx) * qo)%Q) in *.
      set (Ty := (inject_Z (hy - ly) * qo)%Q) in *. lra. }
    rewrite <- inject_Z_opp, <- !Zle_Qle in H. lia. }
  specialize (Hys' z Hz Bz).
  assert (Ny' : map (fun y => y + z) zy <> []).
  { destruct zy; [congruence | discriminate]. }
  pose proof (lowest_exact ys' _ (exactNums_nonempty _ _ Hys' Ny') Hys') as Ly'.
  pose proof (highest_exact ys' _ (exactNums_nonempty _ _ Hys' Ny') Hys')
    as Uy'.
  rewrite lowestZ_shift in Ly' by exact Ny.
  rewrite highestZ_shift in Uy' by exact Ny.
  fold ly in Ly'. fold hy in Uy'.
  assert (Esame : hy + z - (ly + z) = hy - ly) by lia.
  assert (El : (inject_Z (ly + z) == inject_Z ly + inject_Z z)%Q)
    by now rewrite inject_Z_plus.
  destruct (anchor_value (ly + z) (hy + z) _ _ o qo Ho Hq Ly' Uy'
              ltac:(lia) ltac:(lia) ltac:(lia)) as (qd & Hd & Ed).
  { rewrite Esame, El.
    set (Tx := (inject_Z (hx - lx) * qo)%Q) in *.
    set (Ty := (inject_Z (hy - ly) * qo)%Q) in *. lra. }
  rewrite Esame, El in Ed. apply Qabs_Qle_condition in Ed.
  split.
  - exists qa, qd. split; [exact Ha |]. split; [exact Hd |].
    apply Qabs_Qle_condition.
    set (Tx := (inject_Z (hx - lx) * qo)%Q) in *.
    set (Ty := (inject_Z (hy - ly) * qo)%Q) in *. lra.
  - exists lx, hx, (ly + z), (hy + z).
    split; [exact Lx |]. split; [exact Ux |].
    split; [exact Ly' |]. split; [exact Uy' |].
    assert (Ex : (inject_Z hx - inject_Z lx == inject_Z (hx - lx))%Q).
    { unfold Qminus. rewrite <- inject_Z_opp, <- inject_Z_plus.
      reflexivity. }
    assert (Ey : (inject_Z (hy + z) - inject_Z (ly + z)
                  == inject_Z (hy - ly))%Q).
    { rewrite <- Esame. unfold Qminus.
      rewrite <- inject_Z_opp, <- inject_Z_plus. reflexivity. }
    rewrite Ex, Ey, El.
    apply Qabs_Qle_condition.
    set (Tx := (inject_Z (hx - lx) * qo)%Q) in *.
    set (Ty := (inject_Z (hy - ly) * qo)%Q) in *. lra.
Qed.

(** The same for the anchor translation of [offsetSvgPath]. *)
Lemma anchorX_near (pts offsetPts : list Pt) (oy : option float)
  (o : float) (qo : Q) (B : Z) (zs zo : list (Z * Z)) :
  valueQ o = Some qo -> (0 <= qo <= 1)%Q ->
  exactPts pts = Some zs -> exactPts offsetPts = Some zo ->
  zs <> [] -> zo <> [] ->
  within B zs = true -> within B zo = true ->
  B <= 10 ^ 15 ->
  let out := anchor pts offsetPts (Some o) oy in
  (exists q q',
     valueQ (anchorX (bbox pts) o) = Some q
     /\ valueQ (anchorX (bbox out) o) = Some q'
     /\ (Qabs (q' - q) <= 1)%Q)
  /\ (exists a0 a1 b0 b1,
        toInteger (minX (bbox pts)) = Some a0
        /\ toInteger (maxX (bbox pts)) = Some a1
        /\ toInteger (minX (bbox out)) = Some b0
        /\ toInteger (maxX (bbox out)) = Some b1
        /\ (Qabs ((inject_Z b0 + (inject_Z b1 - inject_Z b0) * qo)
                  - (inject_Z a0 + (inject_Z a1 - inject_Z a0) * qo))
            <= 1)%Q).
Proof.
  cbv zeta.
  intros Ho Hq Hzs Hzo Ns No Bs Bo Hroom.
  destruct (exactPts_nums _ _ Hzs) as [Hx _].
  destruct (exactPts_nums _ _ Hzo) as [Hxo _].
  destruct (within_sides _ _ Bs) as [Bx _].
  destruct (within_sides _ _ Bo) as [Bxo _].
  unfold anchorX.
  destruct (bbox_sides pts) as (-> & _ & -> & _).
  destruct (bbox_sides (anchor pts offsetPts (Some o) oy))
    as (-> & _ & -> & _).
  apply (anchor_axis_near B o qo _ (map fst offsetPts) _ (map fst zs)
           (map fst zo)); trivial; try (now apply map_nonempty); [lia |].
  intros z Hz Bz.
  apply (anchor_xs pts offsetPts (Some o) oy B z zo Hzo Bo).
  - unfold anchorShift.
    destruct (bbox_sides pts) as (-> & _ & -> & _).
    destruct (bbox_sides offsetPts) as (-> & _ & -> & _).
    exact Hz.
  - lia.
Qed.

Lemma anchorY_near (pts offsetPts : list Pt) (ox : option float)
  (o : float) (qo : Q) (B : Z) (zs zo : list (Z * Z)) :
  valueQ o = Some qo -> (0 <= qo <= 1)%Q ->
  exactPts pts = Some zs -> exactPts offsetPts = Some zo ->
  zs <> [] -> zo <> [] ->
  within B zs = true -> within B zo = true ->
  B <= 10 ^ 15 ->
  let out := anchor pts offsetPts ox (Some o) in
  (exists q q',
     valueQ (anchorY (bbox pts) o) = Some q
     /\ valueQ (anchorY (bbox out) o) = Some q'
     /\ (Qabs (q' - q) <= 1)%Q)
  /\ (exists a0 a1 b0 b1,
        toInteger (minY (bbox pts)) = Some a0
        /\ toInteger (maxY (bbox pts)) = Some a1
        /\ toInteger (minY (bbox out)) = Some b0
        /\ toInteger (maxY (bbox out)) = Some b1
        /\ (Qabs ((inject_Z b0 + (inject_Z b1 - inject_Z b0) * qo)
                  - (inject_Z a0 + (inject_Z a1 - inject_Z a0) * qo))
            <= 1)%Q).
Proof.
  cbv zeta.
  intros Ho Hq Hzs Hzo Ns No Bs Bo Hroom.
  destruct (exactPts_nums _ _ Hzs) as [_ Hy].
  destruct (exactPts_nums _ _ Hzo) as [_ Hyo].
  destruct (within_sides _ _ Bs) as [_ By].
  destruct (within_sides _ _ Bo) as [_ Byo].
  unfold anchorY.
  destruct (bbox_sides pts) as (_ & -> & _ & ->).
  destruct (bbox_sides (anchor pts offsetPts ox (Some o)))
    as (_ & -> & _ & ->).
  apply (anchor_axis_near B o qo _ (map snd offsetPts) _ (map snd zs)
           (map snd zo)); trivial; try (now apply map_nonempty); [lia |].
  intros z Hz Bz.
  apply (anchor_ys pts offsetPts ox (Some o) B z zo Hzo Bo).
  - unfold anchorShift.
    destruct (bbox_sides pts) as (_ & -> & _ & ->).
    destruct (bbox_sides offsetPts) as (_ & -> & _ & ->).
    exact Hz.
  - lia.
Qed.

End AnchorNear.

Section AnchorTheorem.
Local Open Scope float_scope.

(** C9 (as the code has it): the anchor translation adds to every output
    point, on each axis, the number
    round((origMin + (origMax - origMin) * frac) - (offMin + (offMax -
    offMin) * frac)) taken from the bounding boxes of the polygon before
    the offset and of the offset result, and 0 on an axis without an anchor
    (the points are left as they are when both shifts are 0); a coordinate
    on an axis without an anchor keeps its value.  The shift is an integer
    at most 1/2 away from the anchor displacement it rounds.  When the
    points before and after the offset are integers of magnitude at most
    10^15 and the fraction lies between 0 and 1, the anchor of the
    translated bounding box is within 1 unit of the anchor of the original
    one, both as the code computes them and as exact numbers taken from
    the sides of the two boxes. *)
Theorem anchor_translation
  (pts offsetPts : list Pt) (originX originY : option float) :
  let origBox := bbox pts in
  let offBox := bbox offsetPts in
  let dx := match originX with
            | Some o => Math_round (anchorX origBox o - anchorX offBox o)
            | None => 0
            end in
  let dy := match originY with
            | Some o => Math_round (anchorY origBox o - anchorY offBox o)
            | None => 0
            end in
  let out := anchor pts offsetPts originX originY in
  (out = map (fun p => (fst p + dx, snd p + dy)) offsetPts
   \/ ((dx =? 0) = true /\ (dy =? 0) = true /\ out = offsetPts))
  /\ (Math_round dx = dx /\ Math_round dy = dy)
  /\ (originX = None ->
      Forall2 (fun p q => sameNumber (fst p) (fst q)) offsetPts out)
  /\ (originY = None ->
      Forall2 (fun p q => sameNumber (snd p) (snd q)) offsetPts out)
  /\ (forall o d, originX = Some o ->
        valueQ (anchorX origBox o - anchorX offBox o) = Some d ->
        exists z, toInteger dx = Some z
                  /\ (Qabs (inject_Z z - d) <= 1 # 2)%Q)
  /\ (forall o d, originY = Some o ->
        valueQ (anchorY origBox o - anchorY offBox o) = Some d ->
        exists z, toInteger dy = Some z
                  /\ (Qabs (inject_Z z - d) <= 1 # 2)%Q)
  /\ (forall o qo B zs zo, originX = Some o ->
        valueQ o = Some qo -> (0 <= qo <= 1)%Q ->
        exactPts pts = Some zs -> exactPts offsetPts = Some zo ->
        zs <> [] -> zo <> [] ->
        within B zs = true -> within B zo = true ->
        (B <= 10 ^ 15)%Z ->
        (exists q q',
           valueQ (anchorX origBox o) = Some q
           /\ valueQ (anchorX (bbox out) o) = Some q'
           /\ (Qabs (q' - q) <= 1)%Q)
        /\ (exists a0 a1 b0 b1,
              toInteger (minX origBox) = Some a0
              /\ toInteger (maxX origBox) = Some a1
              /\ toInteger (minX (bbox out)) = Some b0
              /\ toInteger (maxX (bbox out)) = Some b1
              /\ (Qabs ((inject_Z b0 + (inject_Z b1 - inject_Z b0) * qo)
                        - (inject_Z a0 + (inject_Z a1 - inject_Z a0) * qo))
                  <= 1)%Q))
  /\ (forall o qo B zs zo, originY = Some o ->
        valueQ o = Some qo -> (0 <= qo <= 1)%Q ->
        exactPts pts = Some zs -> exactPts offsetPts = Some zo ->
        zs <> [] -> zo <> [] ->
        within B zs = true -> within B zo = true ->
        (B <= 10 ^ 15)%Z ->
        (exists q q',
           valueQ (anchorY origBox o) = Some q
           /\ valueQ (anchorY (bbox out) o) = Some q'
           /\ (Qabs (q' - q) <= 1)%Q)
        /\ (exists a0 a1 b0 b1,
              toInteger (minY origBox) = Some a0
              /\ toInteger (maxY origBox) = Some a1
              /\ toInteger (minY (bbox out)) = Some b0
              /\ toInteger (maxY (bbox out)) = Some b1
              /\ (Qabs ((inject_Z b0 + (inject_Z b1 - inject_Z b0) * qo)
                        - (inject_Z a0 + (inject_Z a1 - inject_Z a0) * qo))
                  <= 1)%Q)).
Proof.
  intros origBox offBox dx dy out.
  assert (Edx : dx = anchorShift (minX origBox) (maxX origBox)
                       (minX offBox) (maxX offBox) originX)
    by (unfold dx; now destruct originX).
  assert (Edy : dy = anchorShift (minY origBox) (maxY origBox)
                       (minY offBox) (maxY offBox) originY)
    by (unfold dy; now destruct originY).
  assert (Hcases : out = map (fun p => (fst p + dx, snd p + dy)) offsetPts
                   \/ ((dx =? 0) = true /\ (dy =? 0) = true
                       /\ out = offsetPts)).
  { rewrite Edx, Edy. apply anchor_cases. }
  split; [exact Hcases |].
  split; [rewrite Edx, Edy; split; apply anchorShift_ownRounding |].
  split.
  { intros ->. destruct Hcases as [-> | (_ & _ & ->)].
    - apply Forall2_map_r. intros p. cbn [fst]. apply add_zero_sameNumber.
    - apply Forall2_same. intros p. apply sameNumber_refl. }
  split.
  { intros ->. destruct Hcases as [-> | (_ & _ & ->)].
    - apply Forall2_map_r. intros p. cbn [snd]. apply add_zero_sameNumber.
    - apply Forall2_same. intros p. apply sameNumber_refl. }
  split.
  { intros o d -> Hd. now apply Math_round_nearest. }
  split.
  { intros o d -> Hd. now apply Math_round_nearest. }
  split.
  - intros o qo B zs zo Ho. unfold out, origBox. rewrite Ho.
    apply anchorX_near.
  - intros o qo B zs zo Ho. unfold out, origBox. rewrite Ho.
    apply anchorY_near.
Qed.

End AnchorTheorem.

Section AnchorExamples.
Local Open Scope float_scope.

(** The inset square anchored at (0.39, 1), a fraction that is no binary
    fraction: the points move by (-2200, 10000) and both anchors are kept
    within 1 unit. *)
Lemma anchor_translation_witness :
  let pts := [(0, 0); (100000, 0); (100000, 100000); (0, 100000)] in
  let offsetPts := [(10000, 10000); (90000, 10000); (90000, 90000);
                    (10000, 90000)] in
  let out := anchor pts offsetPts (Some 0.39) (Some 1) in
  out = [(7800, 20000); (87800, 20000); (87800, 100000); (7800, 100000)]
  /\ (exists q q',
        valueQ (anchorX (bbox pts) 0.39) = Some q
        /\ valueQ (anchorX (bbox out) 0.39) = Some q'
        /\ (Qabs (q' - q) <= 1)%Q)
  /\ (exists q q',
        valueQ (anchorY (bbox pts) 1) = Some q
        /\ valueQ (anchorY (bbox out) 1) = Some q'
        /\ (Qabs (q' - q) <= 1)%Q).
Proof.
  intros pts offsetPts out.
  destruct (anchor_translation pts offsetPts (Some 0.39) (Some 1))
    as (_ & _ & _ & _ & _ & _ & HX & HY).
  split; [run |]. split.
  - exact (proj1
             (HX 0.39 (7025615418697974 # 18014398509481984)%Q 100000%Z
                [(0, 0); (100000, 0); (100000, 100000); (0, 100000)]%Z
                [(10000, 10000); (90000, 10000); (90000, 90000);
                 (10000, 90000)]%Z
                eq_refl ltac:(run)
                ltac:(split; vm_compute; discriminate) ltac:(run)
                ltac:(run) ltac:(discriminate) ltac:(discriminate)
                ltac:(run) ltac:(run) ltac:(vm_compute; discriminate))).
  - exact (proj1
             (HY 1 (4503599627370496 # 4503599627370496)%Q 100000%Z
                [(0, 0); (100000, 0); (100000, 100000); (0, 100000)]%Z
                [(10000, 10000); (90000, 10000); (90000, 90000);
                 (10000, 90000)]%Z
                eq_refl ltac:(run)
                ltac:(split; vm_compute; discriminate) ltac:(run)
                ltac:(run) ltac:(discriminate) ltac:(discriminate)
                ltac:(run) ltac:(run) ltac:(vm_compute; discriminate))).
Defined.

End AnchorExamples.

(* ------------------------------------------------------------------ *)
(** * Round joins and caps                                              *)
(* ------------------------------------------------------------------ *)

Section Steps.
Local Open Scope Z_scope.

Lemma Prim2SF_is_nan (x : float) : Prim2SF x = S754_nan -> is_nan x = true.
Proof.
  intros E. unfold is_nan. rewrite FloatAxioms.eqb_spec, E. reflexivity.
Qed.

(** [Math_ceil] gives NaN, an infinity or an integer. *)
Lemma Math_ceil_cases (y : float) :
  Prim2SF (Math_ceil y) = S754_nan
  \/ (exists s, Prim2SF (Math_ceil y) = S754_infinity s)
  \/ (exists c, toInteger (Math_ceil y) = Some c).
Proof.
  unfold Math_ceil. destruct (Prim2SF y) as [s | s | | s m e] eqn:E.
  - right; right. exists 0. unfold toInteger. now rewrite E.
  - right; left. now exists s.
  - now left.
  - right; right. destruct (0 <=? e) eqn:He.
    + eexists. unfold toInteger, toIntegerSF. rewrite E, He. reflexivity.
    + apply Z.leb_gt in He. eexists. apply toInteger_Z2float.
      pose proof (pow2_pos (- e) ltac:(lia)) as Hk.
      assert (Hm : Zpos m < 2 ^ 53).
      { pose proof (digits2_pos_upper m) as U.
        eapply Z.lt_le_trans; [exact U |]. apply Z.pow_le_mono_r; [lia |].
        destruct (valid_finite y s m e E) as [[H _] | [H _]]; lia. }
      set (k := 2 ^ (- e)) in *.
      destruct s.
      * split; [apply Z.div_pos; lia |].
        assert (Zpos m / k <= Zpos m) by (apply Z.div_le_upper_bound; nia).
        lia.
      * assert (- Zpos m <= - Zpos m / k).
        { apply Z.div_le_lower_bound; nia. }
        assert (- Zpos m / k <= 0).
        { apply Z.div_le_upper_bound; lia. }
        lia.
Qed.

(** The number of steps of an arc is NaN, +Infinity or an integer from 2
    on. *)
Lemma steps_cases (y : float) :
  is_nan (Math_max 2 (Math_ceil y)) = true
  \/ Math_max 2 (Math_ceil y) = infinity
  \/ (exists N, toInteger (Math_max 2 (Math_ceil y)) = Some N /\ 2 <= N).
Proof.
  assert (E2 : toInteger 2 = Some 2) by (vm_compute; reflexivity).
  unfold Math_max. change (is_nan 2) with false. cbn [orb].
  destruct (is_nan (Math_ceil y)) eqn:Hn; [now left |].
  destruct (Math_ceil_cases y) as [E | [[s E] | [c E]]].
  - rewrite (Prim2SF_is_nan _ E) in Hn. discriminate.
  - rewrite !ltb_spec, E.
    change (Prim2SF 2) with (S754_finite false 4503599627370496 (-51)).
    destruct s; cbn [SFltb SFcompare].
    + right; right. exists 2. now split.
    + right; left. apply Prim2SF_inj. now rewrite E.
  - right; right.
    rewrite (ltb_exact _ _ _ _ E2 E), (ltb_exact _ _ _ _ E E2).
    destruct (Z.ltb_spec 2 c); [exists c; split; [exact E | lia] |].
    destruct (Z.ltb_spec c 2); [exists 2; now split |].
    change (get_sign 2) with false. exists 2. now split.
Qed.

End Steps.

Section LoopFacts.

Lemma while_exit {S : Type} (cond : S -> bool) (body : S -> S) (fuel : nat) :
  forall s r, while fuel cond body s = Some r -> cond r = false.
Proof.
  induction fuel as [| f IH]; intros s r; simpl;
    destruct (cond s) eqn:E; try discriminate.
  - now intros [= <-].
  - apply IH.
  - now intros [= <-].
Qed.

Lemma while_skip {S : Type} (cond : S -> bool) (body : S -> S) (fuel : nat)
  (s : S) :
  cond s = false -> while fuel cond body s = Some s.
Proof. intros H. destruct fuel; simpl; now rewrite H. Qed.

Local Open Scope float_scope.

(** A sweep already between -pi and pi, both ends included, is left as it
    is. *)
Lemma normalizeDa_in_range (fuel : nat) (da : float) :
  (Math_PI <? da) = false -> (da <? - Math_PI) = false ->
  normalizeDa fuel da = Some da.
Proof.
  intros H1 H2. unfold normalizeDa.
  rewrite (while_skip _ _ fuel da H1). cbn [bind].
  now apply while_skip.
Qed.

(** A sweep one turn above or one turn below is brought back in one
    pass of the loop. *)
Lemma normalizeDa_down (fuel : nat) (da : float) :
  (Math_PI <? da) = true ->
  (Math_PI <? da - 2 * Math_PI) = false ->
  (da - 2 * Math_PI <? - Math_PI) = false ->
  normalizeDa (S fuel) da = Some (da - 2 * Math_PI).
Proof.
  intros H1 H2 H3. unfold normalizeDa.
  assert (E : while (S fuel) (fun d => Math_PI <? d)
                (fun d => d - 2 * Math_PI) da = Some (da - 2 * Math_PI)).
  { cbn [while]. rewrite H1.
    now apply (while_skip (fun d => Math_PI <? d)). }
  rewrite E. cbn [bind]. now apply (while_skip (fun d => d <? - Math_PI)).
Qed.

Lemma normalizeDa_up (fuel : nat) (da : float) :
  (Math_PI <? da) = false ->
  (da <? - Math_PI) = true ->
  (da + 2 * Math_PI <? - Math_PI) = false ->
  normalizeDa (S fuel) da = Some (da + 2 * Math_PI).
Proof.
  intros H1 H2 H3. unfold normalizeDa.
  rewrite (while_skip (fun d => Math_PI <? d) _ (S fuel) _ H1).
  cbn [bind].
  assert (E : while (S fuel) (fun d => d <? - Math_PI)
                (fun d => d + 2 * Math_PI) da = Some (da + 2 * Math_PI)).
  { cbn [while]. rewrite H2.
    now apply (while_skip (fun d => d <? - Math_PI)). }
  exact E.
Qed.

Lemma normalizeDa_exit (fuel : nat) (da r : float) :
  normalizeDa fuel da = Some r -> (r <? - Math_PI) = false.
Proof.
  unfold normalizeDa.
  destruct (while fuel (fun d => Math_PI <? d) _ da) as [da1 |];
    [| discriminate].
  cbn [bind]. apply (while_exit (fun d => d <? - Math_PI)).
Qed.

Lemma SFcompare_refl (x : spec_float) :
  x <> S754_nan -> SFcompare x x = Some Eq.
Proof.
  destruct x as [s | s | | s m e]; intros H; try (now destruct H);
    cbn [SFcompare]; try (now destruct s).
  rewrite Z.compare_refl, Pos.compare_cont_refl. now destruct s.
Qed.

Lemma is_nan_Prim2SF (x : float) : is_nan x = true -> Prim2SF x = S754_nan.
Proof.
  unfold is_nan. rewrite FloatAxioms.eqb_spec. unfold SFeqb. intros H.
  destruct (Prim2SF x) as [s | s | | s m e] eqn:E; try reflexivity;
    rewrite SFcompare_refl in H by discriminate; discriminate.
Qed.

Lemma iterations_integer (steps : float) (N : Z) :
  toInteger steps = Some N -> (0 <= N)%Z ->
  iterations steps = Some (S (Z.to_nat N)).
Proof.
  unfold toInteger, toIntegerSF, iterations.
  destruct (Prim2SF steps) as [s | s | | s m e]; try discriminate.
  - now intros [= <-] _.
  - destruct (0 <=? e)%Z eqn:He.
    + intros E HN. apply Z.leb_le in He.
      assert (EN : N = ((if s then -1 else 1) * (Zpos m * 2 ^ e))%Z)
        by congruence.
      clear E.
      assert (0 < Zpos m * 2 ^ e)%Z
        by (apply Z.mul_pos_pos; [lia | apply Z.pow_pos_nonneg; lia]).
      destruct s; [lia |]. do 3 f_equal. lia.
    + destruct (_ =? 0)%Z eqn:Hm; [| discriminate].
      intros E HN. apply Z.leb_gt in He. apply Z.eqb_eq in Hm.
      assert (EN : N = ((if s then -1 else 1) * (Zpos m / 2 ^ (- e)))%Z)
        by congruence.
      clear E.
      assert (Hk : (0 < 2 ^ (- e))%Z) by (apply Z.pow_pos_nonneg; lia).
      assert (0 < Zpos m / 2 ^ (- e))%Z.
      { apply Z.div_str_pos. split; [lia |].
        apply Z.mod_divide in Hm; [| lia]. destruct Hm as [q Hq].
        set (K := (2 ^ (- e))%Z) in *. pose proof (Pos2Z.is_pos m).
        assert (0 < q)%Z by nia. nia. }
      destruct s; [lia |]. do 3 f_equal. lia.
Qed.

Variable L : Libm.

(** C7 (as the code has it): with a1, a2 the [atan2] of the two normals and
    da their difference a2 - a1 brought back by whole turns while it is
    above pi and then while it is below -pi: a difference between -pi and
    pi, both ends included, is kept (so da = -pi stays -pi), and one that is
    one turn off is brought back by one turn.  With
    steps = max(2, ceil(|da| / (2 acos(1 - arcTolerance / |offset|)))):
    when steps is a number (finite), [addRoundJoin] pushes exactly
    steps + 1 points, the roundings of
    (cx + cos(a) * offset, cy + sin(a) * offset) at the angles
    a = a1 + (da / steps) * i for i = 0 .. steps; when steps is NaN it
    pushes nothing; when steps is +Infinity it does not return.  These are
    all the cases: steps is NaN, +Infinity or an integer from 2 on. *)
Theorem addRoundJoin_points
  (fuel : nat) (cx cy : float) (n1 n2 : Pt) (offsetAmt arcTolerance : float)
  (result : list Pt) (da : float) :
  let a1 := Math_atan2 L (snd n1) (fst n1) in
  let a2 := Math_atan2 L (snd n2) (fst n2) in
  let d := a2 - a1 in
  let steps :=
    Math_max 2
      (Math_ceil (Math_abs da
                  / (2 * Math_acos L (1 - arcTolerance / Math_abs offsetAmt))))
  in
  let point (i : nat) :=
    let a := a1 + da / steps * counter i in
    roundPt (cx + Math_cos L a * offsetAmt) (cy + Math_sin L a * offsetAmt) in
  let run := addRoundJoin L fuel cx cy n1 n2 offsetAmt arcTolerance result in
  ((Math_PI <? d) = false -> (d <? - Math_PI) = false ->
   normalizeDa fuel d = Some d)
  /\ ((1 <= fuel)%nat -> (Math_PI <? d) = true ->
      (Math_PI <? d - 2 * Math_PI) = false ->
      (d - 2 * Math_PI <? - Math_PI) = false ->
      normalizeDa fuel d = Some (d - 2 * Math_PI))
  /\ ((1 <= fuel)%nat -> (Math_PI <? d) = false -> (d <? - Math_PI) = true ->
      (d + 2 * Math_PI <? - Math_PI) = false ->
      normalizeDa fuel d = Some (d + 2 * Math_PI))
  /\ (normalizeDa fuel d = Some da ->
      (da <? - Math_PI) = false
      /\ (forall N, toInteger steps = Some N -> (0 <= N)%Z ->
            run = Some (result ++ map point (seq 0 (Z.to_nat N + 1))))
      /\ (is_nan steps = true -> run = Some result)
      /\ (steps = infinity -> run = None)
      /\ (is_nan steps = true \/ steps = infinity
          \/ exists N, toInteger steps = Some N /\ (2 <= N)%Z)).
Proof.
  intros a1 a2 d steps point run.
  split; [apply normalizeDa_in_range |].
  split.
  { intros Hf. destruct fuel as [| f]; [lia |]. apply normalizeDa_down. }
  split.
  { intros Hf. destruct fuel as [| f]; [lia |]. apply normalizeDa_up. }
  intros Hda.
  assert (Hrun : run = (k <- iterations steps ;;
                        Some (result ++ map point (seq 0 k)))).
  { unfold run, addRoundJoin. fold a1 a2 d. rewrite Hda. reflexivity. }
  split; [exact (normalizeDa_exit fuel _ _ Hda) |].
  split; [| split; [| split]].
  - intros N HN H0. rewrite Hrun, (iterations_integer steps N HN H0).
    cbn [bind]. now rewrite Nat.add_1_r.
  - intros Hnan. rewrite Hrun. unfold iterations.
    rewrite (is_nan_Prim2SF steps Hnan). cbn [bind seq map].
    now rewrite app_nil_r.
  - intros Hinf. rewrite Hrun, Hinf. reflexivity.
  - apply steps_cases.
Qed.

End LoopFacts.

(* ------------------------------------------------------------------ *)
(** * Winding                                                           *)
(* ------------------------------------------------------------------ *)

Section Shoelace.
Local Open Scope Z_scope.

Lemma term_swap (a b : Z * Z) : term b a = - term a b.
Proof. unfold term. ring. Qed.

Lemma chain_cons (a b : Z * Z) (l : list (Z * Z)) :
  chain (a :: b :: l) = term a b + chain (b :: l).
Proof. reflexivity. Qed.

Lemma chain_snoc (l : list (Z * Z)) (a b : Z * Z) :
  chain ((l ++ [a]) ++ [b]) = chain (l ++ [a]) + term a b.
Proof.
  induction l as [| x l IH].
  - simpl. lia.
  - destruct l as [| y l].
    + simpl. lia.
    + change (((x :: y :: l) ++ [a]) ++ [b])
        with (x :: y :: ((l ++ [a]) ++ [b])).
      change ((x :: y :: l) ++ [a]) with (x :: y :: (l ++ [a])).
      rewrite !chain_cons.
      change (y :: (l ++ [a]) ++ [b]) with (((y :: l) ++ [a]) ++ [b]).
      rewrite IH. simpl. lia.
Qed.

Lemma chain_rev (l : list (Z * Z)) : chain (rev l) = - chain l.
Proof.
  induction l as [| a l IH]; [reflexivity |].
  destruct l as [| b l]; [reflexivity |].
  rewrite chain_cons. cbn [rev] in *.
  rewrite chain_snoc, IH, term_swap. lia.
Qed.

Lemma fold_left_sum {A : Type} (f : A -> Z) (l : list A) (acc : Z) :
  fold_left (fun s i => s + f i) l acc = acc + fold_right Z.add 0 (map f l).
Proof.
  revert acc. induction l as [| x l IH]; intros acc; simpl; [lia |].
  rewrite IH. lia.
Qed.

(** The chain sum, by index. *)
Lemma chain_by_index (l : list (Z * Z)) (d : Z * Z) :
  chain l =
  fold_right Z.add 0
    (map (fun i => term (nth i l d) (nth (S i) l d))
       (seq 0 (List.length l - 1))).
Proof.
  induction l as [| a l IH]; [reflexivity |].
  destruct l as [| b l]; [reflexivity |].
  rewrite chain_cons, IH.
  replace (List.length (a :: b :: l) - 1)%nat
    with (S (List.length (b :: l) - 1)) by (simpl; lia).
  cbn [seq map fold_right nth]. f_equal.
  rewrite <- seq_shift, map_map. reflexivity.
Qed.

(** The cyclic sum of the specification is the chain sum of the list
    closed by its first point. *)
Lemma shoelaceZ_chain (a : Z * Z) (l : list (Z * Z)) :
  shoelaceZ (a :: l) = chain ((a :: l) ++ [a]).
Proof.
  unfold shoelaceZ.
  rewrite (fold_left_sum
             (fun i => (fst (nth ((i + 1) mod List.length (a :: l)) (a :: l) (0, 0))
                        - fst (nth i (a :: l) (0, 0)))
                       * (snd (nth ((i + 1) mod List.length (a :: l)) (a :: l) (0, 0))
                          + snd (nth i (a :: l) (0, 0))))).
  rewrite (chain_by_index _ (0, 0)), Z.add_0_l. f_equal.
  rewrite length_app. cbn [List.length].
  replace (S (List.length l) + 1 - 1)%nat with (S (List.length l)) by lia.
  apply map_ext_in. intros i Hi. apply in_seq in Hi. unfold term.
  assert (Hn : nth i ((a :: l) ++ [a]) (0, 0) = nth i (a :: l) (0, 0))
    by (apply app_nth1; simpl; lia).
  rewrite Hn.
  destruct (Nat.eq_dec (S i) (S (List.length l))) as [E | E].
  - replace ((i + 1) mod S (List.length l))%nat with 0%nat
      by (replace (i + 1)%nat with (S (List.length l)) by lia;
          now rewrite Nat.Div0.mod_same).
    rewrite app_nth2 by (simpl; lia).
    replace (S i - List.length (a :: l))%nat with 0%nat by (simpl; lia).
    reflexivity.
  - rewrite Nat.mod_small by lia.
    replace (i + 1)%nat with (S i) by lia.
    rewrite (app_nth1 (a :: l) [a]) by (simpl; lia). reflexivity.
Qed.

(** Reversing the points negates the sum. *)
Lemma shoelaceZ_rev (zs : list (Z * Z)) : shoelaceZ (rev zs) = - shoelaceZ zs.
Proof.
  destruct zs as [| a l]; [reflexivity |].
  rewrite shoelaceZ_chain.
  destruct (rev (a :: l)) as [| b r] eqn:Er.
  { apply (f_equal (@List.length _)) in Er. rewrite length_rev in Er.
    discriminate. }
  rewrite shoelaceZ_chain.
  (* [rev (a :: l) = b :: r] ends with [a] *)
  assert (Hr : b :: r = rev l ++ [a]) by (rewrite <- Er; reflexivity).
  assert (Hal : (a :: l) ++ [a] = rev (a :: (b :: r))).
  { change (rev (a :: b :: r)) with (rev (b :: r) ++ [a]).
    now rewrite <- Er, rev_involutive. }
  rewrite Hal, chain_rev, Z.opp_involutive.
  rewrite Hr at 1. rewrite chain_snoc, <- Hr.
  rewrite chain_cons. lia.
Qed.

End Shoelace.

Section Winding.

Lemma exactPts_app (l1 l2 : list Pt) (z1 z2 : list (Z * Z)) :
  exactPts l1 = Some z1 -> exactPts l2 = Some z2 ->
  exactPts (l1 ++ l2) = Some (z1 ++ z2).
Proof.
  revert z1. induction l1 as [| p l1 IH]; intros z1; simpl.
  - now intros [= <-].
  - destruct (toInteger (fst p)) as [x |]; [| discriminate]. simpl.
    destruct (toInteger (snd p)) as [y |]; [| discriminate]. simpl.
    destruct (exactPts l1) as [zs |]; [| discriminate]. simpl.
    intros [= <-] H2. now rewrite (IH zs eq_refl H2).
Qed.

Lemma exactPts_rev (l : list Pt) (zs : list (Z * Z)) :
  exactPts l = Some zs -> exactPts (rev l) = Some (rev zs).
Proof.
  revert zs. induction l as [| p l IH]; intros zs; simpl.
  - now intros [= <-].
  - destruct (toInteger (fst p)) as [x |] eqn:Ex; [| discriminate]. simpl.
    destruct (toInteger (snd p)) as [y |] eqn:Ey; [| discriminate]. simpl.
    destruct (exactPts l) as [zl |]; [| discriminate]. simpl.
    intros [= <-]. simpl. apply exactPts_app; [now apply IH |].
    simpl. now rewrite Ex, Ey.
Qed.

Lemma flattenPath_length (fuel : nat) (pathData : string) (tol : float)
  (floatPts : list Pt) :
  flattenPath fuel pathData tol = Some (Some floatPts) ->
  (3 <= List.length floatPts)%nat.
Proof.
  unfold flattenPath.
  destruct (parseSvgPath fuel pathData) as [[| sp rest] |];
    try discriminate. cbn [bind].
  destruct (flattenSegs fuel tol (segs sp) _ []) as [fp |];
    [| discriminate]. cbn [bind].
  destruct (List.length fp <? 3)%nat eqn:E; [discriminate |].
  intros [= <-]. now apply Nat.ltb_ge.
Qed.

Lemma exactPts_length (pts : list Pt) (zs : list (Z * Z)) :
  exactPts pts = Some zs -> List.length zs = List.length pts.
Proof.
  revert zs. induction pts as [| p pts IH]; intros zs; simpl.
  - now intros [= <-].
  - destruct (toInteger (fst p)) as [x |]; [| discriminate]. simpl.
    destruct (toInteger (snd p)) as [y |]; [| discriminate]. simpl.
    destruct (exactPts pts) as [zl |]; [| discriminate]. simpl.
    intros [= <-]. simpl. f_equal. now apply IH.
Qed.

Lemma exactPts_nth (pts : list Pt) (zs : list (Z * Z)) (i : nat) :
  exactPts pts = Some zs -> (i < List.length pts)%nat ->
  toInteger (fst (nthPt pts i)) = Some (fst (nth i zs (0, 0)))
  /\ toInteger (snd (nthPt pts i)) = Some (snd (nth i zs (0, 0))).
Proof.
  unfold nthPt. revert zs i.
  induction pts as [| p pts IH]; intros zs i; simpl; [lia |].
  destruct (toInteger (fst p)) as [x |] eqn:Ex; [| discriminate]. simpl.
  destruct (toInteger (snd p)) as [y |] eqn:Ey; [| discriminate]. simpl.
  destruct (exactPts pts) as [zl |]; [| discriminate]. simpl.
  intros [= <-] Hi. destruct i as [| i]; simpl.
  - now split.
  - apply IH; [reflexivity | lia].
Qed.

Lemma within_nth (B : Z) (zs : list (Z * Z)) (i : nat) :
  within B zs = true -> (i < List.length zs)%nat ->
  Z.abs (fst (nth i zs (0, 0))) <= B /\ Z.abs (snd (nth i zs (0, 0))) <= B.
Proof.
  intros H Hi. unfold within in H. rewrite forallb_forall in H.
  specialize (H _ (nth_In zs (0, 0) Hi)).
  apply andb_true_iff in H. destruct H as [H1 H2].
  split; now apply Z.leb_le.
Qed.

(** Every partial sum of the loop is exact while the terms seen so far
    stay below 2^53 in total. *)
Lemma shoelace_fold_exact (pts : list Pt) (zs : list (Z * Z)) (B : Z)
  (l : list nat) (acc : float) (a K : Z) :
  exactPts pts = Some zs -> within B zs = true ->
  (forall i, In i l -> (i < List.length pts)%nat) ->
  toInteger acc = Some a -> 0 <= K -> Z.abs a <= K * (4 * B * B) ->
  (K + Z.of_nat (List.length l)) * (4 * B * B) < 2 ^ 53 ->
  toInteger
    (fold_left
       (fun area i =>
          let j := ((i + 1) mod List.length pts)%nat in
          (area + (fst (nthPt pts j) - fst (nthPt pts i))
                  * (snd (nthPt pts j) + snd (nthPt pts i)))%float)
       l acc)
  = Some
      (fold_left
         (fun area i =>
            let p := nth i zs (0, 0) in
            let q := nth ((i + 1) mod List.length zs) zs (0, 0) in
            area + (fst q - fst p) * (snd q + snd p))
         l a).
Proof.
  intros Hzs Hin. pose proof (exactPts_length _ _ Hzs) as Hlen.
  revert acc a K. induction l as [| i l IH]; intros acc a K Hl Ha HK Hbound Hroom;
    cbn [fold_left]; [exact Ha |].
  assert (Hi : (i < List.length pts)%nat) by (apply Hl; now left).
  assert (Hj : ((i + 1) mod List.length pts < List.length pts)%nat)
    by (apply Nat.mod_upper_bound; lia).
  set (j := ((i + 1) mod List.length pts)%nat) in *.
  destruct (exactPts_nth pts zs i Hzs Hi) as [Hxi Hyi].
  destruct (exactPts_nth pts zs j Hzs Hj) as [Hxj Hyj].
  destruct (within_nth B zs i Hin ltac:(lia)) as [Bxi Byi].
  destruct (within_nth B zs j Hin ltac:(lia)) as [Bxj Byj].
  set (xi := fst (nth i zs (0, 0))) in *. set (yi := snd (nth i zs (0, 0))) in *.
  set (xj := fst (nth j zs (0, 0))) in *. set (yj := snd (nth j zs (0, 0))) in *.
  cbn [List.length] in Hroom. rewrite Nat2Z.inj_succ in Hroom.
  assert (HB : 0 <= B) by lia.
  assert (HT : 0 <= 4 * B * B) by nia.
  assert (Hone : 4 * B * B < 2 ^ 53) by nia.
  assert (Htwo : 2 * B < 2 ^ 53) by nia.
  assert (Hdx : Z.abs (xj - xi) <= 2 * B) by lia.
  assert (Hsy : Z.abs (yj + yi) <= 2 * B) by lia.
  assert (Hterm : Z.abs ((xj - xi) * (yj + yi)) <= 4 * B * B).
  { rewrite Z.abs_mul.
    replace (4 * B * B) with ((2 * B) * (2 * B)) by ring.
    apply Z.mul_le_mono_nonneg; lia. }
  pose proof (sub_exact _ _ _ _ Hxj Hxi ltac:(lia)) as Edx.
  pose proof (add_exact _ _ _ _ Hyj Hyi ltac:(lia)) as Esy.
  pose proof (mul_exact _ _ _ _ Edx Esy ltac:(lia)) as Et.
  assert (Hsum : Z.abs (a + (xj - xi) * (yj + yi)) <= (K + 1) * (4 * B * B))
    by lia.
  pose proof (add_exact _ _ _ _ Ha Et ltac:(nia)) as Es.
  apply (IH _ _ (K + 1)); try lia.
  - intros k Hk. apply Hl. now right.
  - cbv zeta. rewrite Hlen. exact Es.
  - cbv zeta. rewrite Hlen. exact Hsum.
Qed.

(** For points within [B] of the axes, with [4 * n * B^2 < 2^53], the sum
    computed in double precision is the integer shoelace sum. *)
Lemma shoelace_exact (pts : list Pt) (zs : list (Z * Z)) (B : Z) :
  exactPts pts = Some zs -> within B zs = true ->
  4 * Z.of_nat (List.length zs) * B * B < 2 ^ 53 ->
  toInteger (shoelace pts) = Some (shoelaceZ zs).
Proof.
  intros Hzs Hin Hroom. pose proof (exactPts_length _ _ Hzs) as Hlen.
  unfold shoelace, shoelaceZ.
  replace (seq 0 (List.length zs)) with (seq 0 (List.length pts))
    by now rewrite Hlen.
  apply (shoelace_fold_exact pts zs B _ 0%float 0 0 Hzs Hin).
  - intros i Hi. apply in_seq in Hi. lia.
  - reflexivity.
  - lia.
  - simpl. lia.
  - rewrite length_seq, <- Hlen. lia.
Qed.

(** C3 (as the code has it): for a path whose first subpath flattens to at
    least 3 points, [svgToPoints] returns the scaled points reversed when
    their shoelace sum, as computed in double precision, is positive, and
    unchanged otherwise.  When the scaled points are integers of magnitude
    at most [B] with [4 * n * B^2 < 2^53], the computed sum is the exact
    integer sum, the list is reversed exactly when that sum is positive,
    and the exact shoelace sum of the returned list is <= 0.  More
    generally the returned list has an exact sum <= 0 whenever the computed
    sum has the sign of the exact one. *)
Theorem winding_normalization
  (fuel : nat) (pathData : string) (sc tol : float) (floatPts : list Pt) :
  flattenPath fuel pathData tol = Some (Some floatPts) ->
  let pts := scalePts sc floatPts in
  let returned := if (0 <? shoelace pts)%float then rev pts else pts in
  (3 <= List.length floatPts)%nat
  /\ svgToPoints fuel pathData sc tol = Some (Some returned)
  /\ (forall zs B,
        exactPts pts = Some zs ->
        within B zs = true ->
        (4 * Z.of_nat (List.length zs) * B * B < 2 ^ 53)%Z ->
        toInteger (shoelace pts) = Some (shoelaceZ zs)
        /\ returned = (if (0 <? shoelaceZ zs)%Z then rev pts else pts)
        /\ exists zr, exactPts returned = Some zr /\ (shoelaceZ zr <= 0)%Z)
  /\ (forall zs,
        exactPts pts = Some zs ->
        (0 <? shoelace pts)%float = (0 <? shoelaceZ zs)%Z ->
        exists zr, exactPts returned = Some zr /\ (shoelaceZ zr <= 0)%Z).
Proof.
  intros Hflat pts returned.
  assert (Hsigned : forall zs,
             exactPts pts = Some zs ->
             (0 <? shoelace pts)%float = (0 <? shoelaceZ zs)%Z ->
             exists zr, exactPts returned = Some zr /\ (shoelaceZ zr <= 0)%Z).
  { intros zs Hzs Hsign. unfold returned. rewrite Hsign.
    destruct (0 <? shoelaceZ zs)%Z eqn:E.
    - exists (rev zs). split; [now apply exactPts_rev |].
      rewrite shoelaceZ_rev. apply Z.ltb_lt in E. lia.
    - exists zs. split; [exact Hzs |]. apply Z.ltb_ge in E. exact E. }
  split; [exact (flattenPath_length _ _ _ _ Hflat) |].
  split.
  { unfold svgToPoints. rewrite Hflat. reflexivity. }
  split; [| exact Hsigned].
  intros zs B Hzs Hin Hroom.
  pose proof (shoelace_exact pts zs B Hzs Hin Hroom) as Hexact.
  pose proof (ltb_zero_exact _ _ Hexact) as Hsign.
  split; [exact Hexact |].
  split; [unfold returned; now rewrite Hsign |].
  exact (Hsigned zs Hzs Hsign).
Qed.

End Winding.

(* ------------------------------------------------------------------ *)
(** * Runs                                                              *)
(* ------------------------------------------------------------------ *)

Section Runs.
Local Open Scope float_scope.

(** The inset square of the scenario, then anchored at (0.25, 1): the
    points move by (-5000, 10000). *)
Lemma serializer_points_are_rounded_witness :
  let pts := [(0, 0); (100000, 0); (100000, 100000); (0, 100000)] in
  let offsetPts := [(10000, 10000); (90000, 10000); (90000, 90000);
                    (10000, 90000)] in
  Forall ownRounding offsetPts
  /\ Forall ownRounding (anchor pts offsetPts (Some 0.25) (Some 1))
  /\ anchor pts offsetPts (Some 0.25) (Some 1)
     = map (fun p => (fst p + -5000, snd p + 10000)) offsetPts.
Proof.
  intros pts offsetPts.
  destruct (serializer_points_are_rounded refLibm 0 pts 10000 JoinMiter
              EndPolygon 2 0.25 (Some 0.25) (Some 1) offsetPts ltac:(run))
    as (H1 & H2 & _ & _ & [H3 | (H3 & _)] & _).
  - split; [exact H1 |]. split; [exact H2 |]. rewrite H3. run.
  - vm_compute in H3. discriminate.
Defined.

(** C10, the case it gets wrong: a path that ends in a command letter.
    The parser reads NaN for the missing numbers, the point (NaN, NaN) is
    scaled and rounded to itself, the engine returns it among the offset
    points, and the serializer writes it.  NaN is its own rounding and no
    integer. *)
Lemma nan_point_counterexample :
  let p := "M 0 0 L 100 0 L 100 100 L"%string in
  let pts := [(0, 0); (100000, 0); (100000, 100000); (nan, nan)] in
  let offsetPts := [(0, 0); (90000, 10000); (90000, 100000); (nan, nan)] in
  svgToPoints 40 p SCALE FLATTEN_TOLERANCE = Some (Some pts)
  /\ offsetPolygon refLibm 40 pts (10 * SCALE) JoinMiter EndPolygon 2 0.25
     = Some offsetPts
  /\ In (nan, nan) offsetPts
  /\ toInteger nan = None
  /\ Math_round nan = nan
  /\ offsetSvgPath refLibm 40 p 10 (Some JoinMiter) (Some EndPolygon) 2 0.25
       None None
     = Some "M 0.00 0.00 L 90.00 10.00 L 90.00 100.00 L NaN NaN Z"%string.
Proof.
  cbv zeta. split; [run |]. split; [run |].
  split; [do 3 right; now left |]. split; [run |]. split; run.
Qed.

(** A quarter turn at radius 10000 with tolerance 0.25: the sweep pi/2 is
    kept, there are 112 steps and 113 points from (10000, 0) through
    (7071, 7071) to (0, 10000). *)
Lemma addRoundJoin_points_witness :
  normalizeDa 0 (Math_atan2 refLibm 1 (-0) - Math_atan2 refLibm 0 1)
  = Some (Math_atan2 refLibm 1 (-0) - Math_atan2 refLibm 0 1)
  /\ exists r,
       addRoundJoin refLibm 0 0 0 (1, 0) (-0, 1) 10000 0.25 [] = Some r
       /\ List.length r = 113%nat
       /\ nth 0 r (0, 0) = (10000, 0)
       /\ nth 56 r (0, 0) = (7071, 7071)
       /\ nth 112 r (0, 0) = (0, 10000).
Proof.
  destruct (addRoundJoin_points refLibm 0 0 0 (1, 0) (-0, 1) 10000 0.25 []
              (Math_PI / 2)) as (Hkeep & _ & _ & Hrest).
  split; [exact (Hkeep ltac:(run) ltac:(run)) |].
  destruct (Hrest ltac:(run)) as (_ & Hpts & _).
  eexists. split; [exact (Hpts 112%Z ltac:(run) ltac:(lia)) |].
  conjuncts; run.
Defined.

(** C7, the cases it gets wrong.  With arcTolerance above twice |offset|
    the argument of acos is below -1 and steps is NaN: no point is pushed,
    and the square of the scenario offset by 0.001 with round joins and
    arcTolerance 2.5 comes back empty.  And a sweep of exactly -pi, which a
    round cap at the end of an edge of direction (0, -1) has, is not
    brought into (-pi, pi]: the arc runs from angle 0 through -pi/2 to
    -pi. *)
Lemma round_join_counterexample :
  is_nan (arcSteps refLibm (Math_PI / 2) 1 2.5) = true
  /\ addRoundJoin refLibm 0 0 0 (1, 0) (-0, 1) 1 2.5 [] = Some []
  /\ offsetSvgPath refLibm 10 "M 0 0 L 100 0 L 100 100 L 0 100 Z" 0.001
       (Some JoinRound) (Some EndPolygon) 2 2.5 None None = Some EmptyString
  /\ normalizeDa 0 (Math_atan2 refLibm (-0) (-1) - Math_atan2 refLibm 0 1)
     = Some (- Math_PI)
  /\ (- Math_PI <? - Math_PI) = false
  /\ option_map (fun r => (List.length r, nth 111 r (0, 0), last r (0, 0)))
       (addRoundJoin refLibm 0 0 0 (1, 0) (-1, -0) 10000 0.25 [])
     = Some (224%nat, (70, -10000), (-10000, 0)).
Proof. conjuncts; run. Qed.

(** C9, the case it gets wrong: on a square of side 1e15 (1e18 in scaled
    units) inset by 10 with miter joins and anchored at originX = 0.39, the
    anchor of the translated bounding box, as the code would compute it, is
    64 units away from that of the original box, and computed exactly from
    the translated box it is more than 58 units away.  A fraction far
    outside [0, 1] does the same to a small shape: with originX = 1e15 on
    the square of side 100 inset by 10 the two anchors come out as 1e20
    and 1.0192e20, which is 1.92e18 units apart. *)
Lemma anchor_drift_counterexample :
  let p := "M 0 0 L 1e15 0 L 1e15 1e15 L 0 1e15 Z"%string in
  let sq := [(0, 0); (100000, 0); (100000, 100000); (0, 100000)] in
  let inset := [(10000, 10000); (90000, 10000); (90000, 90000);
                (10000, 90000)] in
  toInteger (anchorX (bbox sq) 1e15) = Some (10 ^ 20)%Z
  /\ toInteger (anchorX (bbox (anchor sq inset (Some 1e15) None)) 1e15)
     = Some (10192 * 10 ^ 16)%Z
  /\
  exists pts offsetPts f mn mx,
    svgToPoints 10 p SCALE FLATTEN_TOLERANCE = Some (Some pts)
    /\ offsetPolygon refLibm 10 pts (10 * SCALE) JoinMiter EndPolygon 2 0.25
       = Some offsetPts
    /\ toInteger (anchorX (bbox pts) 0.39) = Some 390000000000000000%Z
    /\ toInteger (anchorX (bbox (anchor pts offsetPts (Some 0.39) None)) 0.39)
       = Some 389999999999999936%Z
    /\ valueQ 0.39 = Some f
    /\ toInteger (minX (bbox pts)) = Some 0%Z
    /\ toInteger (maxX (bbox pts)) = Some (10 ^ 18)%Z
    /\ toInteger (minX (bbox (anchor pts offsetPts (Some 0.39) None)))
       = Some mn
    /\ toInteger (maxX (bbox (anchor pts offsetPts (Some 0.39) None)))
       = Some mx
    /\ (58 < Qabs ((inject_Z mn + (inject_Z mx - inject_Z mn) * f)
                   - (0 + (inject_Z (10 ^ 18) - 0) * f)))%Q.
Proof.
  cbv zeta. split; [run |]. split; [run |]. do 5 eexists.
  split; [run |]. split; [run |]. split; [run |]. split; [run |].
  split; [run |]. split; [run |]. split; [run |]. split; [run |].
  split; [run |]. run.
Qed.

(** A square given clockwise, coordinates at most 100000 after scaling
    (4 * 4 * 100000^2 < 2^53): the sum is computed exactly (2e10), the
    list is reversed, and the exact sum of what is returned is <= 0. *)
Lemma winding_normalization_witness :
  let p := "M 0 0 L 0 100 L 100 100 L 100 0 Z"%string in
  let pts := [(0, 0); (0, 100000); (100000, 100000); (100000, 0)] in
  let returned := [(100000, 0); (100000, 100000); (0, 100000); (0, 0)] in
  svgToPoints 10 p SCALE FLATTEN_TOLERANCE = Some (Some returned)
  /\ JS.toInteger (shoelace pts) = Some 20000000000%Z
  /\ exists zr, exactPts returned = Some zr /\ (shoelaceZ zr <= 0)%Z.
Proof.
  intros p pts returned.
  destruct (winding_normalization 10 p SCALE FLATTEN_TOLERANCE
              [(0, 0); (0, 100); (100, 100); (100, 0)] ltac:(run))
    as (_ & Hs & Hz & _).
  split; [rewrite Hs; run |].
  destruct (Hz [(0, 0); (0, 100000); (100000, 100000); (100000, 0)]%Z
              100000%Z ltac:(run) ltac:(run) ltac:(run))
    as (Hsum & _ & zr & Hzr & Hle).
  split; [refine (eq_trans _ (eq_trans Hsum _)); run |].
  exists zr. split; [rewrite <- Hzr; run | exact Hle].
Defined.

(** C3, the case it gets wrong: the sign test is made on the sum as
    computed in double precision.  For the five points below (coordinates
    of a few 1e8) the computed sum of the scaled points is positive, the
    list is reversed, and the list returned still has a positive sum, both
    as the code computes it (12582912) and exactly (6000000). *)
Lemma winding_large_coordinates_counterexample :
  let p := "M -129646998 142048251 L 78152248 -80932893 L -233546622 253538820 L 433142631 -461859017 L -25747374 30557676"%string in
  exists floatPts r zr,
    flattenPath 10 p FLATTEN_TOLERANCE = Some (Some floatPts)
    /\ List.length floatPts = 5%nat
    /\ svgToPoints 10 p SCALE FLATTEN_TOLERANCE = Some (Some r)
    /\ r = rev (scalePts SCALE floatPts)
    /\ shoelace r = 12582912
    /\ exactPts r = Some zr
    /\ shoelaceZ zr = 6000000%Z.
Proof.
  cbv zeta. do 3 eexists.
  split; [run |]. split; [run |]. split; [run |]. split; [run |].
  split; [run |]. split; [run |]. run.
Qed.

End Runs.

(* ------------------------------------------------------------------ *)
(** * Size of the engine's result                                  *)
(* ------------------------------------------------------------------ *)

Section EngineSize.
Local Open Scope nat_scope.
Local Open Scope float_scope.
Variable L : Libm.

(** Away from round joins the loop body returns, with one or two more
    points. *)
Lemma joinAt_points (fuel : nat) (pts : list Pt) (offsetAmt : float)
  (joinType : JoinType) (miterLimit arcTolerance : float)
  (result : list Pt) (i : nat) :
  joinType <> JoinRound ->
  exists ps,
    joinAt L fuel pts offsetAmt joinType miterLimit arcTolerance result i
    = Some (result ++ ps)
    /\ (1 <= List.length ps <= 2)%nat.
Proof.
  intros Hj. unfold joinAt.
  destruct (notConvex _ _ offsetAmt).
  - destruct (_ <? 1e-6); eexists; (split; [reflexivity | simpl; lia]).
  - destruct joinType; try congruence.
    + eexists; (split; [reflexivity | simpl; lia]).
    + eexists; (split; [reflexivity | simpl; lia]).
    + destruct (miterAccepted _ _ _ _);
        eexists; (split; [reflexivity | simpl; lia]).
Qed.

Lemma forEach_joinAt_points (fuel : nat) (pts : list Pt) (offsetAmt : float)
  (joinType : JoinType) (miterLimit arcTolerance : float) (l : list nat) :
  joinType <> JoinRound ->
  forall acc, exists ps,
    forEach l (joinAt L fuel pts offsetAmt joinType miterLimit arcTolerance)
      acc = Some (acc ++ ps)
    /\ (List.length l <= List.length ps <= 2 * List.length l)%nat.
Proof.
  intros Hj. induction l as [| i l IH]; intros acc; cbn [forEach].
  - exists []. rewrite app_nil_r. split; [reflexivity | simpl; lia].
  - destruct (joinAt_points fuel pts offsetAmt joinType miterLimit
                arcTolerance acc i Hj) as (ps & -> & Hps).
    cbn [bind]. destruct (IH (acc ++ ps)) as (qs & -> & Hqs).
    exists (ps ++ qs). rewrite app_assoc. split; [reflexivity |].
    rewrite length_app. cbn [List.length]. lia.
Qed.


(** Without round joins and round caps the engine returns, with one or
    two points for each vertex visited and two for each square cap. *)
Lemma offsetPolygon_size (fuel : nat) (pts : list Pt)
  (offsetAmt : float) (joinType : JoinType) (endType : EndType)
  (miterLimit arcTolerance : float) :
  (3 <= List.length pts)%nat ->
  joinType <> JoinRound -> endType <> EndRound ->
  exists r,
    offsetPolygon L fuel pts offsetAmt joinType endType miterLimit
      arcTolerance = Some r
    /\ (loopCount (List.length pts) endType
         + match endType with EndSquare => 4 | _ => 0 end
        <= List.length r
        <= 2 * loopCount (List.length pts) endType
           + match endType with EndSquare => 4 | _ => 0 end)%nat.
Proof.
  intros Hn Hj He. unfold offsetPolygon.
  replace (List.length pts <? 3)%nat with false
    by (symmetry; apply Nat.ltb_ge; exact Hn).
  destruct (forEach_joinAt_points fuel pts offsetAmt joinType miterLimit
              arcTolerance (seq 0 (loopCount (List.length pts) endType))
              Hj []) as (ps & E & Hps).
  rewrite E. cbn [bind app]. rewrite length_seq in Hps.
  replace (2 <=? List.length pts)%nat with true
    by (symmetry; apply Nat.leb_le; lia).
  unfold loopCount in *.
  destruct endType; try congruence; cbn [isOpen andb startCap endCap bind] in *.
  - exists ps. split; [reflexivity | lia].
  - exists ps. split; [reflexivity | lia].
  - exists ps. split; [reflexivity | lia].
  - eexists. split; [reflexivity |].
    rewrite length_app. cbn [List.length]. lia.
Qed.

(** X10: without round joins and round caps the engine always returns, for
    every input of at least 3 points and whatever the fuel: each vertex
    visited gives one or two points and a square cap gives two at each
    end.  So the result has between [k + caps] and [2 k + caps] points,
    [k] the number of vertices visited ([n], or [n - 1] for an open end
    kind) and [caps] 4 for Square ends and 0 otherwise, and it has at least
    3 points unless the end kind is Butt. *)
Theorem offsetPolygon_without_round (fuel : nat) (pts : list Pt)
  (offsetAmt : float) (joinType : JoinType) (endType : EndType)
  (miterLimit arcTolerance : float) :
  (3 <= List.length pts)%nat ->
  joinType <> JoinRound -> endType <> EndRound ->
  let k := loopCount (List.length pts) endType in
  let caps := match endType with EndSquare => 4%nat | _ => 0%nat end in
  exists r,
    offsetPolygon L fuel pts offsetAmt joinType endType miterLimit
      arcTolerance = Some r
    /\ (k + caps <= List.length r <= 2 * k + caps)%nat
    /\ (endType <> EndButt -> (3 <= List.length r)%nat).
Proof.
  intros Hn Hj He k caps.
  destruct (offsetPolygon_size fuel pts offsetAmt joinType endType
              miterLimit arcTolerance Hn Hj He) as (r & E & Hr).
  exists r. split; [exact E |]. split; [exact Hr |].
  intros Hb. unfold loopCount in Hr.
  destruct endType; try congruence; cbn [isOpen] in Hr; lia.
Qed.

Lemma anchor_length (pts offsetPts : list Pt) (ox oy : option float) :
  List.length (anchor pts offsetPts ox oy) = List.length offsetPts.
Proof.
  destruct (anchor_cases pts offsetPts ox oy) as [-> | (_ & _ & ->)];
    [apply length_map | reflexivity].
Qed.

End EngineSize.

(* ------------------------------------------------------------------ *)
(** * Serializer and outcomes of a call                            *)
(* ------------------------------------------------------------------ *)

Section Serializer.
Local Open Scope nat_scope.
Local Open Scope string_scope.

Lemma append_assoc (a b c : string) : (a ++ b) ++ c = a ++ (b ++ c).
Proof. induction a as [| x a IH]; simpl; [reflexivity | now rewrite IH]. Qed.

Lemma append_nil_r (a : string) : a ++ EmptyString = a.
Proof. induction a as [| x a IH]; simpl; [reflexivity | now rewrite IH]. Qed.

Lemma fold_coords (sc : float) (r : list Pt) (d : string) :
  fold_left (fun d p => d ++ " L " ++ coords p sc) r d
  = d ++ String.concat EmptyString (map (fun p => " L " ++ coords p sc) r).
Proof.
  revert d. induction r as [| p r IH]; intros d; cbn [fold_left map].
  - simpl. now rewrite append_nil_r.
  - rewrite IH, append_assoc. f_equal.
    destruct r as [| q r]; [simpl; now rewrite append_nil_r |].
    cbn [map String.concat]. reflexivity.
Qed.

(** The serializer writes one closed subpath: [M], the first point, an
    [L] and a point for each other point, then [Z]. *)
Lemma pointsToSvg_shape (p0 : Pt) (r : list Pt) (sc : float) :
  pointsToSvg (p0 :: r) sc
  = "M " ++ coords p0 sc
      ++ String.concat EmptyString (map (fun p => " L " ++ coords p sc) r) ++ " Z".
Proof.
  unfold pointsToSvg. rewrite fold_coords, !append_assoc. reflexivity.
Qed.

End Serializer.

Section Outcomes.
Local Open Scope nat_scope.
Local Open Scope float_scope.
Variable L : Libm.

Lemma windingFix_length (pts : list Pt) :
  List.length (windingFix pts) = List.length pts.
Proof. unfold windingFix. destruct (_ <? _); [apply length_rev | reflexivity]. Qed.

Lemma svgToPoints_length (fuel : nat) (pathData : string) (sc tol : float)
  (pts : list Pt) :
  svgToPoints fuel pathData sc tol = Some (Some pts) ->
  exists floatPts,
    flattenPath fuel pathData tol = Some (Some floatPts)
    /\ pts = windingFix (scalePts sc floatPts)
    /\ List.length pts = List.length floatPts
    /\ (3 <= List.length pts)%nat.
Proof.
  unfold svgToPoints.
  destruct (flattenPath fuel pathData tol) as [[fp |] |] eqn:E;
    try discriminate.
  cbn [bind option_map]. intros [= <-]. exists fp.
  pose proof (flattenPath_length _ _ _ _ E).
  assert (Hl : List.length (windingFix (scalePts sc fp)) = List.length fp)
    by (rewrite windingFix_length; apply length_map).
  repeat split; trivial. lia.
Qed.

(** X12: an empty result is a faithful signal.  For an offset that is
    finite and not below 0.001 in magnitude, a call of [offsetSvgPath] that
    returns gives the empty string exactly when the path gave no polygon or
    the engine gave fewer than 3 points; otherwise it gives one closed
    subpath, [M x y] followed by an [L x y] for each further point of the
    engine's (translated) result and [Z], whatever the end kind. *)
Theorem offsetSvgPath_result (fuel : nat) (pathData : string)
  (offsetAmt : float) (joinType : option JoinType) (endType : option EndType)
  (miterLimit arcTolerance : float) (originX originY : option float)
  (s : string) :
  tooSmall offsetAmt = false ->
  offsetSvgPath L fuel pathData offsetAmt joinType endType miterLimit
    arcTolerance originX originY = Some s ->
  let jt := match joinType with Some j => j | None => JoinRound end in
  let et := match endType with Some e => e | None => EndPolygon end in
  let engine pts :=
    offsetPolygon L fuel pts (offsetAmt * SCALE) jt et miterLimit
      arcTolerance in
  (s = EmptyString /\
   (svgToPoints fuel pathData SCALE FLATTEN_TOLERANCE = Some None
    \/ exists pts offsetPts,
         svgToPoints fuel pathData SCALE FLATTEN_TOLERANCE = Some (Some pts)
         /\ engine pts = Some offsetPts
         /\ (List.length offsetPts < 3)%nat))
  \/ (exists pts offsetPts p0 r,
        svgToPoints fuel pathData SCALE FLATTEN_TOLERANCE = Some (Some pts)
        /\ engine pts = Some offsetPts
        /\ (3 <= List.length offsetPts)%nat
        /\ anchor pts offsetPts originX originY = p0 :: r
        /\ List.length (p0 :: r) = List.length offsetPts
        /\ s = ("M " ++ coords p0 SCALE
                ++ String.concat EmptyString
                     (map (fun p => " L " ++ coords p SCALE) r)
                ++ " Z")%string
        /\ s <> EmptyString).
Proof.
  intros Hguard H jt et engine. unfold offsetSvgPath in H.
  rewrite Hguard in H. fold jt et in H.
  destruct (svgToPoints fuel pathData SCALE FLATTEN_TOLERANCE)
    as [[pts |] |] eqn:Es; try discriminate; cbn [bind] in H.
  2: { injection H as <-. left. split; [reflexivity | now left]. }
  destruct (svgToPoints_length _ _ _ _ _ Es) as (fp & _ & _ & _ & H3).
  replace (List.length pts <? 3)%nat with false in H
    by (symmetry; apply Nat.ltb_ge; exact H3).
  fold (engine pts) in H.
  destruct (engine pts) as [offsetPts |] eqn:Ee; [| discriminate].
  cbn [bind] in H.
  destruct (List.length offsetPts <? 3)%nat eqn:El.
  - injection H as <-. apply Nat.ltb_lt in El. left.
    split; [reflexivity |]. right. now exists pts, offsetPts.
  - injection H as <-. apply Nat.ltb_ge in El. right.
    pose proof (anchor_length pts offsetPts originX originY) as Hlen.
    destruct (anchor pts offsetPts originX originY) as [| p0 r] eqn:Ea.
    { simpl in Hlen. lia. }
    exists pts, offsetPts, p0, r.
    rewrite pointsToSvg_shape.
    repeat split; trivial. discriminate.
Qed.

(** X13: with Miter, Bevel or Square joins and an end kind other than Butt
    and Round, a path that gives a polygon is never answered by the empty
    string: the call returns, whatever the offset and the fuel, and its
    result is a path. *)
Theorem never_empty_without_round (fuel : nat) (pathData : string)
  (offsetAmt : float) (joinType : JoinType) (endType : EndType)
  (miterLimit arcTolerance : float) (originX originY : option float)
  (pts : list Pt) :
  tooSmall offsetAmt = false ->
  joinType <> JoinRound ->
  endType <> EndRound -> endType <> EndButt ->
  svgToPoints fuel pathData SCALE FLATTEN_TOLERANCE = Some (Some pts) ->
  exists s,
    offsetSvgPath L fuel pathData offsetAmt (Some joinType) (Some endType)
      miterLimit arcTolerance originX originY = Some s
    /\ s <> EmptyString.
Proof.
  intros Hguard Hj Hr Hb Es.
  destruct (svgToPoints_length _ _ _ _ _ Es) as (fp & _ & _ & _ & H3).
  destruct (offsetPolygon_size L fuel pts (offsetAmt * SCALE)
              joinType endType miterLimit arcTolerance H3 Hj Hr)
    as (r & Er & Hlen).
  assert (H3r : (3 <= List.length r)%nat).
  { unfold loopCount in Hlen.
    destruct endType; try congruence; cbn [isOpen] in Hlen; lia. }
  unfold offsetSvgPath. rewrite Hguard, Es. cbn [bind].
  replace (List.length pts <? 3)%nat with false
    by (symmetry; apply Nat.ltb_ge; exact H3).
  rewrite Er. cbn [bind].
  replace (List.length r <? 3)%nat with false
    by (symmetry; apply Nat.ltb_ge; exact H3r).
  eexists. split; [reflexivity |].
  pose proof (anchor_length pts r originX originY) as Ha.
  destruct (anchor pts r originX originY) as [| p0 q]; [simpl in Ha; lia |].
  rewrite pointsToSvg_shape. discriminate.
Qed.

(** X11: the join kind Square is the join kind Bevel and the end kind Joined
    is the end kind Polygon, in the engine and at the public boundary; a
    missing join kind is Round and a missing end kind is Polygon. *)
Theorem kinds_that_coincide (fuel : nat) (pathData : string)
  (pts : list Pt) (offsetAmt : float) (joinType : JoinType)
  (endType : EndType) (miterLimit arcTolerance : float)
  (originX originY : option float) :
  offsetPolygon L fuel pts offsetAmt JoinSquare endType miterLimit
    arcTolerance
  = offsetPolygon L fuel pts offsetAmt JoinBevel endType miterLimit
      arcTolerance
  /\ offsetPolygon L fuel pts offsetAmt joinType EndJoined miterLimit
       arcTolerance
     = offsetPolygon L fuel pts offsetAmt joinType EndPolygon miterLimit
         arcTolerance
  /\ offsetSvgPath L fuel pathData offsetAmt (Some JoinSquare) (Some endType)
       miterLimit arcTolerance originX originY
     = offsetSvgPath L fuel pathData offsetAmt (Some JoinBevel) (Some endType)
         miterLimit arcTolerance originX originY
  /\ offsetSvgPath L fuel pathData offsetAmt (Some joinType) (Some EndJoined)
       miterLimit arcTolerance originX originY
     = offsetSvgPath L fuel pathData offsetAmt (Some joinType)
         (Some EndPolygon) miterLimit arcTolerance originX originY
  /\ offsetSvgPath L fuel pathData offsetAmt None None
       miterLimit arcTolerance originX originY
     = offsetSvgPath L fuel pathData offsetAmt (Some JoinRound)
         (Some EndPolygon) miterLimit arcTolerance originX originY.
Proof. repeat split. Qed.

End Outcomes.

(* ------------------------------------------------------------------ *)
(** * The polygon and its box                                      *)
(* ------------------------------------------------------------------ *)

Section ScaledPolygon.
Local Open Scope nat_scope.
Local Open Scope float_scope.

Lemma scalePts_ownRounding (sc : float) (floatPts : list Pt) :
  Forall ownRounding (scalePts sc floatPts).
Proof.
  unfold scalePts. induction floatPts as [| p l IH]; constructor; trivial.
  split; apply Math_round_idempotent.
Qed.

Lemma windingFix_Forall (P : Pt -> Prop) (pts : list Pt) :
  Forall P pts -> Forall P (windingFix pts).
Proof.
  intros H. unfold windingFix. destruct (_ <? _); [| exact H].
  apply Forall_forall. intros x Hx. apply in_rev in Hx.
  revert x Hx. now apply Forall_forall.
Qed.

(** X8: the polygon [svgToPoints] hands to the engine has as many points as
    the flattened subpath, at least 3, and every coordinate is its own
    [Math.round]: an integer when it is finite.  (A coordinate that is not
    finite comes from a number the parser could not read or from an
    overflow of the scaling.) *)
Theorem svgToPoints_integer_points (fuel : nat) (pathData : string)
  (sc tol : float) (pts : list Pt) :
  svgToPoints fuel pathData sc tol = Some (Some pts) ->
  (exists floatPts,
     flattenPath fuel pathData tol = Some (Some floatPts)
     /\ List.length pts = List.length floatPts)
  /\ (3 <= List.length pts)%nat
  /\ Forall
       (fun p =>
          Math_round (fst p) = fst p /\ Math_round (snd p) = snd p
          /\ (is_finite (fst p) = true -> exists z, toInteger (fst p) = Some z)
          /\ (is_finite (snd p) = true -> exists z, toInteger (snd p) = Some z))
       pts.
Proof.
  intros H. destruct (svgToPoints_length _ _ _ _ _ H)
    as (fp & Hf & -> & Hl & H3).
  split; [now exists fp |]. split; [exact H3 |].
  apply windingFix_Forall.
  eapply Forall_impl; [| apply scalePts_ownRounding].
  intros p [Hx Hy]. repeat split; trivial; intros Hfin;
    now apply ownRounding_integer.
Qed.

End ScaledPolygon.

Section BoxSides.
Local Open Scope nat_scope.
Local Open Scope Z_scope.

(** The integer minimum of [lowestZ] is a lower bound and is attained. *)
Lemma lowestZ_least (zs : list Z) :
  zs <> [] -> In (lowestZ zs) zs /\ Forall (fun z => lowestZ zs <= z) zs.
Proof.
  destruct zs as [| x r]; [congruence |]. intros _. cbn [lowestZ].
  assert (G : forall m,
             (fold_left (fun m x => if x <? m then x else m) r m = m
              \/ In (fold_left (fun m x => if x <? m then x else m) r m) r)
             /\ fold_left (fun m x => if x <? m then x else m) r m <= m
             /\ Forall (fun z => fold_left (fun m x => if x <? m then x else m)
                                   r m <= z) r).
  { induction r as [| y r IH]; intros m; cbn [fold_left].
    - repeat split; [now left | lia | constructor].
    - destruct (IH (if y <? m then y else m)) as (H1 & H2 & H3).
      destruct (Z.ltb_spec y m).
      + repeat split.
        * right. destruct H1 as [-> | H1]; [now left | now right].
        * lia.
        * constructor; trivial.
      + repeat split.
        * destruct H1 as [-> | H1]; [now left | right; now right].
        * exact H2.
        * constructor; [lia | trivial]. }
  destruct (G x) as (H1 & H2 & H3). split.
  - destruct H1 as [-> | H1]; [now left | now right].
  - constructor; trivial.
Qed.

Lemma highestZ_greatest (zs : list Z) :
  zs <> [] -> In (highestZ zs) zs /\ Forall (fun z => z <= highestZ zs) zs.
Proof.
  destruct zs as [| x r]; [congruence |]. intros _. cbn [highestZ].
  assert (G : forall m,
             (fold_left (fun m x => if m <? x then x else m) r m = m
              \/ In (fold_left (fun m x => if m <? x then x else m) r m) r)
             /\ m <= fold_left (fun m x => if m <? x then x else m) r m
             /\ Forall (fun z => z <= fold_left
                                        (fun m x => if m <? x then x else m)
                                        r m) r).
  { induction r as [| y r IH]; intros m; cbn [fold_left].
    - repeat split; [now left | lia | constructor].
    - destruct (IH (if m <? y then y else m)) as (H1 & H2 & H3).
      destruct (Z.ltb_spec m y).
      + repeat split.
        * right. destruct H1 as [-> | H1]; [now left | now right].
        * lia.
        * constructor; trivial.
      + repeat split.
        * destruct H1 as [-> | H1]; [now left | right; now right].
        * exact H2.
        * constructor; [lia | trivial]. }
  destruct (G x) as (H1 & H2 & H3). split.
  - destruct H1 as [-> | H1]; [now left | now right].
  - constructor; trivial.
Qed.

(** X9: for integer points [bbox] is exact: each side is the coordinate of
    one of the points and every point lies between the sides.  For no
    point at all the box is (Infinity, Infinity, -Infinity, -Infinity). *)
Theorem bbox_of_integer_points (pts : list Pt) (zs : list (Z * Z)) :
  exactPts pts = Some zs -> pts <> [] ->
  exists x0 y0 x1 y1,
    toInteger (minX (bbox pts)) = Some x0
    /\ toInteger (minY (bbox pts)) = Some y0
    /\ toInteger (maxX (bbox pts)) = Some x1
    /\ toInteger (maxY (bbox pts)) = Some y1
    /\ In x0 (map fst zs) /\ In x1 (map fst zs)
    /\ In y0 (map snd zs) /\ In y1 (map snd zs)
    /\ Forall (fun z => x0 <= fst z <= x1 /\ y0 <= snd z <= y1) zs
    /\ bbox [] = {| minX := infinity; minY := infinity;
                    maxX := neg_infinity; maxY := neg_infinity |}.
Proof.
  intros Hzs Hne.
  destruct (exactPts_nums _ _ Hzs) as [Hx Hy].
  assert (Nx : map fst pts <> []) by now apply map_nonempty.
  assert (Ny : map snd pts <> []) by now apply map_nonempty.
  assert (Zne : zs <> []).
  { intros ->. destruct pts; [congruence |]. simpl in Hx.
    destruct (toInteger (fst p)); [| discriminate].
    destruct (exactNums (map fst pts)); discriminate. }
  assert (Zx : map fst zs <> []) by now apply map_nonempty.
  assert (Zy : map snd zs <> []) by now apply map_nonempty.
  destruct (bbox_sides pts) as (E1 & E2 & E3 & E4).
  destruct (lowestZ_least _ Zx) as [I1 F1].
  destruct (highestZ_greatest _ Zx) as [I2 F2].
  destruct (lowestZ_least _ Zy) as [I3 F3].
  destruct (highestZ_greatest _ Zy) as [I4 F4].
  exists (lowestZ (map fst zs)), (lowestZ (map snd zs)),
    (highestZ (map fst zs)), (highestZ (map snd zs)).
  rewrite E1, E2, E3, E4.
  split; [now apply lowest_exact |]. split; [now apply lowest_exact |].
  split; [now apply highest_exact |]. split; [now apply highest_exact |].
  repeat split; trivial.
  rewrite Forall_forall in *. intros z Hz.
  pose proof (F1 _ (in_map fst _ _ Hz)). pose proof (F2 _ (in_map fst _ _ Hz)).
  pose proof (F3 _ (in_map snd _ _ Hz)). pose proof (F4 _ (in_map snd _ _ Hz)).
  lia.
Qed.

End BoxSides.

(* ------------------------------------------------------------------ *)
(** * Scanning                                                     *)
(* ------------------------------------------------------------------ *)

Section Scanning.
Local Open Scope nat_scope.

Lemma get_dropStr (n : nat) (s : string) (c : ascii) :
  String.get n s = Some c -> exists r, dropStr n s = String c r.
Proof.
  revert s. induction n as [| n IH]; intros [| a r]; simpl; try discriminate.
  - intros [= ->]. now exists r.
  - apply IH.
Qed.

Lemma get_none_dropStr (n : nat) (s : string) :
  String.get n s = None -> dropStr n s = EmptyString.
Proof.
  revert s. induction n as [| n IH]; intros [| a r]; simpl; try discriminate;
    trivial. apply IH.
Qed.

Lemma get_some_lt (n : nat) (s : string) (c : ascii) :
  String.get n s = Some c -> (n < String.length s)%nat.
Proof.
  revert s. induction n as [| n IH]; intros [| a r]; simpl; try discriminate.
  - lia.
  - intros H. apply IH in H. lia.
Qed.

Lemma get_none_ge (n : nat) (s : string) :
  String.get n s = None -> (String.length s <= n)%nat.
Proof.
  revert s. induction n as [| n IH]; intros [| a r]; simpl; try discriminate;
    try lia. intros H. apply IH in H. lia.
Qed.

Lemma dropStr_length (n : nat) (s : string) :
  String.length (dropStr n s) = (String.length s - n)%nat.
Proof.
  revert s. induction n as [| n IH]; intros [| a r]; simpl; trivial.
Qed.

Lemma get_dropStr_add (n k : nat) (s : string) :
  String.get k (dropStr n s) = String.get (n + k) s.
Proof.
  revert s. induction n as [| n IH]; intros [| a r]; simpl; trivial.
Qed.

Lemma scanWhile_bounds (p : ascii -> bool) (r : string) (i : nat) :
  (i <= scanWhile p r i <= i + String.length r)%nat.
Proof.
  revert i. induction r as [| c r IH]; intros i; simpl; [lia |].
  destruct (p c); [| lia]. specialize (IH (S i)). lia.
Qed.

(** The characters passed satisfy [p] and the one reached does not. *)
Lemma scanWhile_spec (p : ascii -> bool) (r : string) (i : nat) :
  (forall k, (k < scanWhile p r i - i)%nat ->
             exists c, String.get k r = Some c /\ p c = true)
  /\ (forall c, String.get (scanWhile p r i - i) r = Some c -> p c = false).
Proof.
  revert i. induction r as [| c r IH]; intros i; simpl.
  - split; [intros k Hk; lia | intros c; destruct (i - i)%nat; discriminate].
  - destruct (p c) eqn:Hc.
    + destruct (IH (S i)) as [H1 H2].
      pose proof (scanWhile_bounds p r (S i)) as Hb.
      replace (scanWhile p r (S i) - i)%nat
        with (S (scanWhile p r (S i) - S i)) by lia.
      split.
      * intros [| k] Hk; [now exists c |]. apply H1. lia.
      * intros c'. simpl. apply H2.
    + rewrite Nat.sub_diag. split; [intros k Hk; lia |].
      simpl. now intros c' [= <-].
Qed.

Lemma advanceWhile_src (p : ascii -> bool) (s : ParseState) :
  src (advanceWhile p s) = src s.
Proof. reflexivity. Qed.

Lemma advanceWhile_le (p : ascii -> bool) (s : ParseState) :
  le_st s (advanceWhile p s).
Proof.
  split; [reflexivity |]. unfold advanceWhile. cbn [pos].
  apply scanWhile_bounds.
Qed.

Lemma advanceWhile_bound (p : ascii -> bool) (s : ParseState) :
  (pos (advanceWhile p s) <= Nat.max (pos s) (String.length (src s)))%nat.
Proof.
  unfold advanceWhile. cbn [pos].
  pose proof (scanWhile_bounds p (dropStr (pos s) (src s)) (pos s)) as H.
  rewrite dropStr_length in H. lia.
Qed.

Lemma advanceWhile_stops (p : ascii -> bool) (s : ParseState) :
  charIs p (advanceWhile p s) = false.
Proof.
  unfold charIs, charAt, advanceWhile. cbn [pos src].
  destruct (scanWhile_spec p (dropStr (pos s) (src s)) (pos s)) as [_ H].
  pose proof (scanWhile_bounds p (dropStr (pos s) (src s)) (pos s)) as Hb.
  set (j := scanWhile p (dropStr (pos s) (src s)) (pos s)) in *.
  rewrite get_dropStr_add in H.
  replace (pos s + (j - pos s))%nat with j in H by lia.
  destruct (String.get j (src s)) as [c |]; [now apply H | reflexivity].
Qed.

Lemma advanceWhile_passed (p : ascii -> bool) (s : ParseState) (k : nat) :
  (pos s <= k < pos (advanceWhile p s))%nat ->
  exists c, String.get k (src s) = Some c /\ p c = true.
Proof.
  unfold advanceWhile. cbn [pos]. intros Hk.
  destruct (scanWhile_spec p (dropStr (pos s) (src s)) (pos s)) as [H _].
  destruct (H (k - pos s)%nat ltac:(lia)) as (c & Hc & Hp).
  rewrite get_dropStr_add in Hc.
  replace (pos s + (k - pos s))%nat with k in Hc by lia. now exists c.
Qed.

Lemma advanceWhile_id (p : ascii -> bool) (s : ParseState) :
  charIs p s = false -> advanceWhile p s = s.
Proof.
  destruct s as [str i]. unfold charIs, charAt, advanceWhile. cbn [pos src].
  intros H. f_equal.
  destruct (String.get i str) as [c |] eqn:E.
  - destruct (get_dropStr _ _ _ E) as [r ->]. simpl. now rewrite H.
  - now rewrite (get_none_dropStr _ _ E).
Qed.

Lemma advanceWhile_lt (p : ascii -> bool) (s : ParseState) :
  charIs p s = true -> (pos s < pos (advanceWhile p s))%nat.
Proof.
  unfold charIs, charAt, advanceWhile. cbn [pos].
  destruct (String.get (pos s) (src s)) as [c |] eqn:E; [| discriminate].
  intros H. destruct (get_dropStr _ _ _ E) as [r ->]. simpl. rewrite H.
  pose proof (scanWhile_bounds p r (S (pos s))). lia.
Qed.

Lemma le_st_refl (s : ParseState) : le_st s s.
Proof. split; [reflexivity | lia]. Qed.

Lemma le_st_trans (a b c : ParseState) : le_st a b -> le_st b c -> le_st a c.
Proof. intros [H1 H2] [H3 H4]. split; [congruence | lia]. Qed.

Lemma bump_le (s : ParseState) : le_st s (bump s).
Proof. split; [reflexivity | simpl; lia]. Qed.

End Scanning.

(* ------------------------------------------------------------------ *)
(** * Numbers and separators                                       *)
(* ------------------------------------------------------------------ *)

Section Numbers.
Local Open Scope nat_scope.

Lemma charIs_lt (p : ascii -> bool) (s : ParseState) :
  charIs p s = true -> (pos s < String.length (src s))%nat.
Proof.
  unfold charIs, charAt.
  destruct (String.get (pos s) (src s)) eqn:E; [| discriminate].
  intros _. exact (get_some_lt _ _ _ E).
Qed.

Lemma bumpIf_le (p : ascii -> bool) (s : ParseState) :
  le_st s (if charIs p s then bump s else s).
Proof. destruct (charIs p s); [apply bump_le | apply le_st_refl]. Qed.

Lemma bumpIf_inside (p : ascii -> bool) (s0 s : ParseState) :
  src s = src s0 -> inside s0 s ->
  inside s0 (if charIs p s then bump s else s).
Proof.
  intros Hs Hi. destruct (charIs p s) eqn:E; [| exact Hi].
  apply charIs_lt in E. unfold inside in *. rewrite Hs in E.
  change (pos (bump s)) with (S (pos s)). lia.
Qed.

Lemma advanceWhile_inside (p : ascii -> bool) (s0 s : ParseState) :
  src s = src s0 -> inside s0 s -> inside s0 (advanceWhile p s).
Proof.
  intros Hs Hi. pose proof (advanceWhile_bound p s) as H.
  unfold inside in *. rewrite Hs in H. lia.
Qed.

Lemma substring_empty (n : nat) (s : string) : substring n 0 s = EmptyString.
Proof. revert s. induction n; intros [| c r]; simpl; trivial. Qed.

Lemma skipSep_idem (s : ParseState) : skipSep (skipSep s) = skipSep s.
Proof. apply advanceWhile_id, advanceWhile_stops. Qed.

(** The states [parseNumber] goes through. *)
Lemma parseNumber_steps (s0 : ParseState) :
  let s1 := skipSep s0 in
  let s2 := if charIs isSign s1 then bump s1 else s1 in
  let s3 := advanceWhile isDigit s2 in
  let s4 := if charIs isDot s3 then advanceWhile isDigit (bump s3) else s3 in
  let s5 :=
    if charIs isExp s4
    then advanceWhile isDigit
           (if charIs isSign (bump s4) then bump (bump s4) else bump s4)
    else s4 in
  parseNumber s0 = (parseFloat (slice (src s5) (pos s1) (pos s5)), s5).
Proof. reflexivity. Qed.

Lemma parseNumber_le (s0 : ParseState) :
  le_st (skipSep s0) (snd (parseNumber s0))
  /\ inside s0 (snd (parseNumber s0)).
Proof.
  rewrite parseNumber_steps. cbv zeta. cbn [snd].
  set (s1 := skipSep s0).
  set (s2 := if charIs isSign s1 then bump s1 else s1).
  set (s3 := advanceWhile isDigit s2).
  set (s4 := if charIs isDot s3 then advanceWhile isDigit (bump s3) else s3).
  assert (L1 : le_st s0 s1) by apply advanceWhile_le.
  assert (I1 : inside s0 s1)
    by (apply advanceWhile_inside; [reflexivity | unfold inside; lia]).
  assert (L2 : le_st s1 s2) by apply bumpIf_le.
  assert (I2 : inside s0 s2)
    by (apply bumpIf_inside; [apply L1 | exact I1]).
  assert (E2 : src s2 = src s0) by (destruct L1, L2; congruence).
  assert (L3 : le_st s2 s3) by apply advanceWhile_le.
  assert (I3 : inside s0 s3) by (now apply advanceWhile_inside).
  assert (E3 : src s3 = src s0) by (destruct L3; congruence).
  assert (L4 : le_st s3 s4 /\ inside s0 s4).
  { unfold s4. destruct (charIs isDot s3) eqn:Ed.
    - split.
      + eapply le_st_trans; [apply bump_le | apply advanceWhile_le].
      + apply advanceWhile_inside; [exact E3 |].
        apply charIs_lt in Ed. unfold inside in *. rewrite E3 in Ed.
        change (pos (bump s3)) with (S (pos s3)). lia.
    - split; [apply le_st_refl | exact I3]. }
  destruct L4 as [L4 I4].
  assert (E4 : src s4 = src s0) by (destruct L4; congruence).
  assert (L5 : le_st s4
                 (if charIs isExp s4
                  then advanceWhile isDigit
                         (if charIs isSign (bump s4) then bump (bump s4)
                          else bump s4)
                  else s4)
               /\ inside s0
                    (if charIs isExp s4
                     then advanceWhile isDigit
                            (if charIs isSign (bump s4) then bump (bump s4)
                             else bump s4)
                     else s4)).
  { destruct (charIs isExp s4) eqn:Ee.
    - apply charIs_lt in Ee. rewrite E4 in Ee.
      assert (Ib : inside s0 (bump s4)).
      { unfold inside in *. change (pos (bump s4)) with (S (pos s4)). lia. }
      split.
      + eapply le_st_trans; [apply bump_le |].
        eapply le_st_trans; [apply (bumpIf_le isSign) |].
        apply advanceWhile_le.
      + apply advanceWhile_inside.
        * destruct (charIs isSign (bump s4)); exact E4.
        * apply (bumpIf_inside isSign); [exact E4 | exact Ib].
    - split; [apply le_st_refl | exact I4]. }
  destruct L5 as [L5 I5]. split; [| exact I5].
  eapply le_st_trans; [exact L2 |]. eapply le_st_trans; [exact L3 |].
  eapply le_st_trans; [exact L4 | exact L5].
Qed.

Lemma charIs_or (p q : ascii -> bool) (s : ParseState) :
  charIs (fun c => p c || q c) s = charIs p s || charIs q s.
Proof. unfold charIs. now destruct (charAt s). Qed.

(** Where a number can start, at least one character is read. *)
Lemma parseNumber_lt (s0 : ParseState) :
  charIs (fun c => numStart c || isExp c) (skipSep s0) = true ->
  (pos (skipSep s0) < pos (snd (parseNumber s0)))%nat.
Proof.
  rewrite parseNumber_steps. cbv zeta. cbn [snd].
  set (s1 := skipSep s0).
  set (s2 := if charIs isSign s1 then bump s1 else s1).
  set (s3 := advanceWhile isDigit s2).
  set (s4 := if charIs isDot s3 then advanceWhile isDigit (bump s3) else s3).
  set (s5 := if charIs isExp s4
             then advanceWhile isDigit
                    (if charIs isSign (bump s4) then bump (bump s4)
                     else bump s4)
             else s4).
  assert (L2 : (pos s1 <= pos s2)%nat) by apply bumpIf_le.
  assert (L3 : (pos s2 <= pos s3)%nat) by apply advanceWhile_le.
  assert (L4 : (pos s3 <= pos s4)%nat).
  { unfold s4. destruct (charIs isDot s3).
    - pose proof (advanceWhile_le isDigit (bump s3)) as [_ H].
      change (pos (bump s3)) with (S (pos s3)) in H. lia.
    - lia. }
  assert (L5 : (pos s4 <= pos s5)%nat).
  { unfold s5. destruct (charIs isExp s4).
    - pose proof (advanceWhile_le isDigit
                    (if charIs isSign (bump s4) then bump (bump s4)
                     else bump s4)) as [_ H].
      pose proof (bumpIf_le isSign (bump s4)) as [_ H'].
      change (pos (bump s4)) with (S (pos s4)) in H'. lia.
    - lia. }
  assert (F1 : charIs isSign s1 = true -> pos s2 = S (pos s1))
    by (intros E; unfold s2; now rewrite E).
  assert (F1' : charIs isSign s1 = false -> s2 = s1)
    by (intros E; unfold s2; now rewrite E).
  assert (F2 : charIs isDigit s2 = true -> (pos s2 < pos s3)%nat)
    by apply advanceWhile_lt.
  assert (F2' : charIs isDigit s2 = false -> s3 = s2)
    by apply advanceWhile_id.
  assert (F3 : charIs isDot s3 = true -> (S (pos s3) <= pos s4)%nat).
  { intros E. unfold s4. rewrite E.
    apply (advanceWhile_le isDigit (bump s3)). }
  assert (F3' : charIs isDot s3 = false -> s4 = s3)
    by (intros E; unfold s4; now rewrite E).
  assert (F4 : charIs isExp s4 = true -> (S (pos s4) <= pos s5)%nat).
  { intros E. unfold s5. rewrite E.
    pose proof (advanceWhile_le isDigit
                  (if charIs isSign (bump s4) then bump (bump s4)
                   else bump s4)) as [_ H'].
    pose proof (bumpIf_le isSign (bump s4)) as [_ H''].
    change (pos (bump s4)) with (S (pos s4)) in H''. lia. }
  clearbody s2 s3 s4 s5.
  unfold numStart. rewrite !charIs_or. intros H.
  destruct (charIs isSign s1) eqn:E1; [specialize (F1 eq_refl); lia |].
  rewrite (F1' eq_refl) in *.
  destruct (charIs isDigit s1) eqn:E2; [specialize (F2 eq_refl); lia |].
  rewrite (F2' eq_refl) in *.
  destruct (charIs isDot s1) eqn:E3; [specialize (F3 eq_refl); lia |].
  rewrite (F3' eq_refl) in *.
  cbn [orb] in H. specialize (F4 H). lia.
Qed.

(** Where no number can start, nothing is read and the value is NaN. *)
Lemma parseNumber_nothing (s0 : ParseState) :
  charIs (fun c => numStart c || isExp c) (skipSep s0) = false ->
  parseNumber s0 = (nan, skipSep s0).
Proof.
  unfold numStart. rewrite !charIs_or. intros H.
  apply orb_false_iff in H. destruct H as [H He].
  apply orb_false_iff in H. destruct H as [H Hd].
  apply orb_false_iff in H. destruct H as [Hs Hg].
  rewrite parseNumber_steps. cbv zeta.
  rewrite Hs, (advanceWhile_id isDigit _ Hg), Hd, He.
  unfold slice. now rewrite Nat.sub_diag, substring_empty.
Qed.

(** X2: [parseNumber] skips the separators, then reads the longest run of
    characters of the form sign, digits, fraction, exponent and returns
    its [parseFloat].  It never moves backwards and never leaves the
    string (a position at or past the end stays where it is); it reads at
    least one character when the first one after the separators is a sign,
    a digit, a dot or [e]/[E], and otherwise reads nothing and returns
    NaN. *)
Theorem parseNumber_spec (s0 : ParseState) :
  let s1 := skipSep s0 in
  let v := fst (parseNumber s0) in
  let s' := snd (parseNumber s0) in
  src s' = src s0
  /\ (pos s0 <= pos s1 <= pos s')%nat
  /\ (pos s' <= Nat.max (pos s0) (String.length (src s0)))%nat
  /\ v = parseFloat (slice (src s0) (pos s1) (pos s'))
  /\ (if charIs (fun c => numStart c || isExp c) s1
      then (pos s1 < pos s')%nat
      else s' = s1 /\ v = nan).
Proof.
  intros s1 v s'.
  destruct (parseNumber_le s0) as [[Hs Hp] Hi].
  pose proof (advanceWhile_le isSep s0) as [_ H01].
  split; [exact Hs |]. split; [split; [exact H01 | exact Hp] |].
  split; [exact Hi |]. split.
  - unfold v, s'. rewrite parseNumber_steps in *. cbv zeta in *.
    cbn [fst snd] in *. now rewrite Hs.
  - destruct (charIs _ s1) eqn:E.
    + now apply parseNumber_lt.
    + unfold s', v. now rewrite (parseNumber_nothing s0 E).
Qed.

(** X1: [skipSep] moves to the first character at or after the position
    that is not a space, tab, line feed, carriage return or comma, or to
    the end of the string; it changes nothing else and running it again
    changes nothing. *)
Theorem skipSep_spec (s : ParseState) :
  src (skipSep s) = src s
  /\ (pos s <= pos (skipSep s)
      <= Nat.max (pos s) (String.length (src s)))%nat
  /\ (forall k, (pos s <= k < pos (skipSep s))%nat ->
        exists c, String.get k (src s) = Some c /\ isSep c = true)
  /\ charIs isSep (skipSep s) = false
  /\ skipSep (skipSep s) = skipSep s.
Proof.
  split; [reflexivity |].
  split; [split; [apply advanceWhile_le | apply advanceWhile_bound] |].
  split; [apply advanceWhile_passed |].
  split; [apply advanceWhile_stops | apply skipSep_idem].
Qed.

End Numbers.

(* ------------------------------------------------------------------ *)
(** * Characters                                                   *)
(* ------------------------------------------------------------------ *)

Section Characters.
Local Open Scope nat_scope.

Ltac by_cases c :=
  destruct c as [[] [] [] [] [] [] [] []]; vm_compute; intuition congruence.

Lemma letter_not_sep (c : ascii) : isLetter c = true -> isSep c = false.
Proof. by_cases c. Qed.

Lemma numStart_not_sep (c : ascii) : numStart c = true -> isSep c = false.
Proof. by_cases c. Qed.

Lemma numStart_not_letter (c : ascii) :
  numStart c = true -> isLetter c = false.
Proof. by_cases c. Qed.

Lemma exp_letter (c : ascii) : isExp c = true -> isLetter c = true.
Proof. by_cases c. Qed.

Lemma drawing_cases (k : ascii) :
  drawing k = true ->
  In k ["M"; "m"; "L"; "l"; "H"; "h"; "V"; "v"; "C"; "c"; "Q"; "q"]%char.
Proof.
  unfold drawing. rewrite existsb_exists. intros (x & Hx & E).
  apply Ascii.eqb_eq in E. now subst.
Qed.

Lemma drawing_letter (k : ascii) : drawing k = true -> isLetter k = true.
Proof.
  intros H. apply drawing_cases in H. simpl in H.
  repeat (destruct H as [<- | H]; [reflexivity |]). destruct H.
Qed.

End Characters.

(* ------------------------------------------------------------------ *)
(** * The command dispatch                                         *)
(* ------------------------------------------------------------------ *)

Section Dispatch.
Local Open Scope nat_scope.

Lemma skipSep_le (s : ParseState) : le_st s (skipSep s).
Proof. apply advanceWhile_le. Qed.

Lemma parseNumber_mono (s : ParseState) : le_st s (snd (parseNumber s)).
Proof.
  eapply le_st_trans; [apply skipSep_le | apply parseNumber_le].
Qed.

Lemma numStart_skipSep (s : ParseState) :
  charIs numStart s = true -> skipSep s = s.
Proof.
  intros H. apply advanceWhile_id. unfold charIs in *.
  destruct (charAt s) as [c |]; [| discriminate].
  now apply numStart_not_sep.
Qed.

Lemma parseNumber_strict (s : ParseState) :
  charIs numStart s = true -> (pos s < pos (snd (parseNumber s)))%nat.
Proof.
  intros H. pose proof (parseNumber_lt s) as L.
  rewrite (numStart_skipSep s H) in L. apply L.
  rewrite charIs_or, H. reflexivity.
Qed.

Lemma headMove_push (c : Subpath) (seg : Segment) :
  headMove c = true ->
  match seg with SegM _ => False | _ => True end ->
  headMove {| segs := segs c ++ [seg]; closed := closed c |} = true.
Proof.
  unfold headMove. cbn [segs]. destruct (segs c) as [| [] r];
    try discriminate. intros H Hs. cbn [app].
  rewrite forallb_app, H. destruct seg; [destruct Hs | | |]; reflexivity.
Qed.

Lemma pushSeg_wf (p : Parser) (start : Pt) (seg : Segment) :
  wellFormed p ->
  match seg with SegM _ => False | _ => True end ->
  Forall (fun sp => headMove sp = true) (fst (pushSeg p start seg))
  /\ headMove (snd (pushSeg p start seg)) = true.
Proof.
  intros [He Hc] Hs. unfold pushSeg.
  destruct (current p) as [c |] eqn:E; cbn [fst snd].
  - split; [exact He |]. apply headMove_push; [now apply Hc | exact Hs].
  - split; [exact He |]. destruct seg; [destruct Hs | | |]; reflexivity.
Qed.

Lemma newSubpath_wf (p : Parser) (start : Pt) :
  wellFormed p ->
  Forall (fun sp => headMove sp = true) (fst (newSubpath p start))
  /\ headMove (snd (newSubpath p start)) = true.
Proof.
  intros [He Hc]. unfold newSubpath, subpathsOf. cbn [fst snd].
  split; [| reflexivity]. apply Forall_app. split; [exact He |].
  destruct (current p) as [c |]; constructor; [now apply Hc | constructor].
Qed.

(** What one pass of the command dispatch does to the position, to the
    pending command and to the subpaths. *)
Lemma dispatch_facts (p : Parser) :
  le_st (st p) (st (dispatch p))
  /\ (charIs numStart (st p) = true ->
      (pos (st p) < pos (st (dispatch p)))%nat)
  /\ (noZ p -> noZ (dispatch p))
  /\ (cmd p <> None -> cmd (dispatch p) <> None)
  /\ (wellFormed p -> wellFormed (dispatch p)).
Proof.
  assert (Hfirst : forall t, le_st (snd (parseNumber (st p))) t ->
             le_st (st p) (skipSep t)
             /\ (charIs numStart (st p) = true ->
                 (pos (st p) < pos (skipSep t))%nat)).
  { intros t Ht. pose proof (parseNumber_mono (st p)) as H0.
    pose proof (skipSep_le t) as H1. split.
    - eapply le_st_trans; [exact H0 |]. eapply le_st_trans; eassumption.
    - intros Hn. apply parseNumber_strict in Hn.
      destruct Ht as [_ Ht], H1 as [_ H1]. lia. }
  assert (Hnext : forall a b, le_st (snd (parseNumber (skipSep a))) b ->
             le_st a b).
  { intros a b Hb. eapply le_st_trans; [apply skipSep_le |].
    eapply le_st_trans; [apply parseNumber_mono | exact Hb]. }
  unfold dispatch.
  destruct (cmdIs p "M" || cmdIs p "m") eqn:EM.
  { pose proof (Hnext (snd (parseNumber (st p)))) as N1.
    destruct (parseNumber (st p)) as [x s1]. cbn [snd] in *.
    destruct (parseNumber (skipSep s1)) as [y s2]. cbn [snd] in *.
    specialize (N1 s2 (le_st_refl _)).
    destruct (Hfirst s2 N1) as [A B].
    cbn [newSubpath st withSt cmd].
    split; [exact A |]. split; [exact B |].
    split; [intros _; unfold noZ; destruct (cmdIs p "M"); reflexivity |].
    split; [discriminate |].
    intros W. destruct (newSubpath_wf p
                          (rel p "M" (cx p) x, rel p "M" (cy p) y) W)
      as [We Wc].
    split; [exact We | now intros c [= <-]]. }
  destruct (cmdIs p "L" || cmdIs p "l") eqn:EL.
  { pose proof (Hnext (snd (parseNumber (st p)))) as N1.
    destruct (parseNumber (st p)) as [x s1]. cbn [snd] in *.
    destruct (parseNumber (skipSep s1)) as [y s2]. cbn [snd] in *.
    specialize (N1 s2 (le_st_refl _)).
    destruct (Hfirst s2 N1) as [A B].
    pose proof (fun W => pushSeg_wf p
                  (rel p "L" (cx p) x, rel p "L" (cy p) y)
                  (SegL (rel p "L" (cx p) x, rel p "L" (cy p) y)) W I) as Wf.
    destruct (pushSeg p _ _) as [e c]. cbn [fst snd] in Wf.
    cbn [st withSt cmd].
    split; [exact A |]. split; [exact B |].
    split; [trivial |]. split; [trivial |].
    intros W. destruct (Wf W) as [We Wc].
    split; [exact We | now intros c' [= <-]]. }
  destruct (cmdIs p "H" || cmdIs p "h") eqn:EH.
  { destruct (parseNumber (st p)) as [x s1]. cbn [snd] in *.
    destruct (Hfirst s1 (le_st_refl _)) as [A B].
    pose proof (fun W => pushSeg_wf p (rel p "H" (cx p) x, cy p)
                  (SegL (rel p "H" (cx p) x, cy p)) W I) as Wf.
    destruct (pushSeg p _ _) as [e c]. cbn [fst snd] in Wf.
    cbn [st withSt cmd].
    split; [exact A |]. split; [exact B |].
    split; [trivial |]. split; [trivial |].
    intros W. destruct (Wf W) as [We Wc].
    split; [exact We | now intros c' [= <-]]. }
  destruct (cmdIs p "V" || cmdIs p "v") eqn:EV.
  { destruct (parseNumber (st p)) as [y s1]. cbn [snd] in *.
    destruct (Hfirst s1 (le_st_refl _)) as [A B].
    pose proof (fun W => pushSeg_wf p (cx p, rel p "V" (cy p) y)
                  (SegL (cx p, rel p "V" (cy p) y)) W I) as Wf.
    destruct (pushSeg p _ _) as [e c]. cbn [fst snd] in Wf.
    cbn [st withSt cmd].
    split; [exact A |]. split; [exact B |].
    split; [trivial |]. split; [trivial |].
    intros W. destruct (Wf W) as [We Wc].
    split; [exact We | now intros c' [= <-]]. }
  destruct (cmdIs p "C" || cmdIs p "c") eqn:EC.
  { pose proof (Hnext (snd (parseNumber (st p)))) as N1.
    destruct (parseNumber (st p)) as [x1 s1]. cbn [snd] in *.
    pose proof (Hnext (snd (parseNumber (skipSep s1)))) as N2.
    destruct (parseNumber (skipSep s1)) as [y1 s2]. cbn [snd] in *.
    pose proof (Hnext (snd (parseNumber (skipSep s2)))) as N3.
    destruct (parseNumber (skipSep s2)) as [x2 s3]. cbn [snd] in *.
    pose proof (Hnext (snd (parseNumber (skipSep s3)))) as N4.
    destruct (parseNumber (skipSep s3)) as [y2 s4]. cbn [snd] in *.
    pose proof (Hnext (snd (parseNumber (skipSep s4)))) as N5.
    destruct (parseNumber (skipSep s4)) as [x s5]. cbn [snd] in *.
    destruct (parseNumber (skipSep s5)) as [y s6]. cbn [snd] in *.
    specialize (N5 s6 (le_st_refl _)).
    assert (N : le_st s1 s6).
    { eapply le_st_trans; [apply (N1 s2 (le_st_refl _)) |].
      eapply le_st_trans; [apply (N2 s3 (le_st_refl _)) |].
      eapply le_st_trans; [apply (N3 s4 (le_st_refl _)) |].
      eapply le_st_trans; [apply (N4 s5 (le_st_refl _)) | exact N5]. }
    destruct (Hfirst s6 N) as [A B].
    match goal with
    | |- context [pushSeg p ?a ?g] =>
        pose proof (fun W => pushSeg_wf p a g W I) as Wf;
        destruct (pushSeg p a g) as [e c]
    end.
    cbn [fst snd] in Wf. cbn [st withSt cmd].
    split; [exact A |]. split; [exact B |].
    split; [trivial |]. split; [trivial |].
    intros W. destruct (Wf W) as [We Wc].
    split; [exact We | now intros c' [= <-]]. }
  destruct (cmdIs p "Q" || cmdIs p "q") eqn:EQ.
  { pose proof (Hnext (snd (parseNumber (st p)))) as N1.
    destruct (parseNumber (st p)) as [x1 s1]. cbn [snd] in *.
    pose proof (Hnext (snd (parseNumber (skipSep s1)))) as N2.
    destruct (parseNumber (skipSep s1)) as [y1 s2]. cbn [snd] in *.
    pose proof (Hnext (snd (parseNumber (skipSep s2)))) as N3.
    destruct (parseNumber (skipSep s2)) as [x s3]. cbn [snd] in *.
    destruct (parseNumber (skipSep s3)) as [y s4]. cbn [snd] in *.
    specialize (N3 s4 (le_st_refl _)).
    assert (N : le_st s1 s4).
    { eapply le_st_trans; [apply (N1 s2 (le_st_refl _)) |].
      eapply le_st_trans; [apply (N2 s3 (le_st_refl _)) | exact N3]. }
    destruct (Hfirst s4 N) as [A B].
    match goal with
    | |- context [pushSeg p ?a ?g] =>
        pose proof (fun W => pushSeg_wf p a g W I) as Wf;
        destruct (pushSeg p a g) as [e c]
    end.
    cbn [fst snd] in Wf. cbn [st withSt cmd].
    split; [exact A |]. split; [exact B |].
    split; [trivial |]. split; [trivial |].
    intros W. destruct (Wf W) as [We Wc].
    split; [exact We | now intros c' [= <-]]. }
  cbn [st withSt cmd earlier current].
  split.
  { eapply le_st_trans; [apply bump_le | apply skipSep_le]. }
  split.
  { intros _. pose proof (skipSep_le (bump (st p))) as [_ H].
    change (pos (bump (st p))) with (S (pos (st p))) in H. lia. }
  split; [trivial |]. split; [trivial |]. trivial.
Qed.

End Dispatch.

(* ------------------------------------------------------------------ *)
(** * The parser's loop                                            *)
(* ------------------------------------------------------------------ *)

Section Loop.
Local Open Scope nat_scope.

Lemma allChars_get (p : ascii -> bool) (s : string) (n : nat) (c : ascii) :
  allChars p s = true -> String.get n s = Some c -> p c = true.
Proof.
  revert n. induction s as [| a r IH]; intros n; simpl; [discriminate |].
  intros H. apply andb_true_iff in H. destruct H as [Ha Hr].
  destruct n as [| n]; [now intros [= <-] | now apply IH].
Qed.

Lemma atEnd_false_char (s : ParseState) :
  atEnd s = false -> exists c, charAt s = Some c.
Proof.
  unfold atEnd, charAt. intros H. apply negb_false_iff, Nat.ltb_lt in H.
  destruct (String.get (pos s) (src s)) as [c |] eqn:E; [now exists c |].
  apply get_none_ge in E. lia.
Qed.

Lemma skipSep_strict (s : ParseState) :
  charIs isSep s = true -> (pos s < pos (skipSep s))%nat.
Proof. apply advanceWhile_lt. Qed.

Lemma skipSep_same (s : ParseState) :
  charIs isSep s = false -> skipSep s = s.
Proof. apply advanceWhile_id. Qed.

Lemma wellFormed_close (p : Parser) (s : ParseState) (k : option ascii) :
  wellFormed p ->
  wellFormed
    {| st := s; earlier := earlier p;
       current := match current p with
                  | Some c => Some {| segs := segs c; closed := true |}
                  | None => None
                  end;
       cx := cx p; cy := cy p; cmd := k |}.
Proof.
  intros [He Hc]. split; [exact He |]. cbn [current].
  destruct (current p) as [c |]; [| discriminate].
  intros c' [= <-]. exact (Hc c eq_refl).
Qed.

(** One pass of the loop: the subpaths stay well formed, no Z stays
    pending, and over known characters a pass that goes on has moved
    forward. *)
Lemma parseStep_facts (p q : Parser) (f : Flow) :
  atEnd (st p) = false -> noZ p ->
  parseStep p = (f, q) ->
  src (st q) = src (st p)
  /\ (wellFormed p -> wellFormed q)
  /\ (f = Continue -> noZ q)
  /\ (f = Continue ->
      allChars goodChar (src (st p)) = true ->
      (pos (st p) < pos (st q))%nat).
Proof.
  intros Hend HZ. destruct (atEnd_false_char _ Hend) as [c Hc].
  unfold parseStep. rewrite Hc. cbv zeta.
  assert (Hgood : allChars goodChar (src (st p)) = true -> goodChar c = true)
    by (intros G; exact (allChars_get _ _ _ _ G Hc)).
  assert (HcharIs : forall g, charIs g (st p) = g c)
    by (intros g; unfold charIs; now rewrite Hc).
  destruct (isLetter c) eqn:Hl.
  - (* a command letter is read *)
    set (p1 := {| st := skipSep (bump (st p)); earlier := earlier p;
                  current := current p; cx := cx p; cy := cy p;
                  cmd := Some c |}).
    assert (S1 : src (st p1) = src (st p)) by reflexivity.
    assert (P1 : (pos (st p) < pos (st p1))%nat).
    { pose proof (skipSep_le (bump (st p))) as [_ Hp].
      change (pos (bump (st p))) with (S (pos (st p))) in Hp.
      change (st p1) with (skipSep (bump (st p))). lia. }
    assert (W1 : wellFormed p -> wellFormed p1) by (intros [A B]; now split).
    destruct (cmdIs p1 "Z" || cmdIs p1 "z") eqn:EZ.
    + intros [= <- <-].
      pose proof (skipSep_le (st p1)) as [Hs Hp].
      split; [exact (eq_trans Hs S1) |].
      split; [intros W; apply wellFormed_close; now apply W1 |].
      split; [reflexivity |].
      intros _ _. change (pos (st p1) <= pos (skipSep (st p1)))%nat in Hp.
      change (pos (st p) < pos (skipSep (st p1)))%nat. lia.
    + pose proof (letter_not_sep c Hl) as Hns. unfold isSep in Hns.
      rewrite Hns. cbn [cmd p1 orb].
      destruct (negb (atEnd (st p1)) && charIs isLetter (st p1)).
      * intros [= <- <-]. split; [exact S1 |]. split; [exact W1 |].
        split; [intros _; exact EZ |]. intros _ _. exact P1.
      * intros [= <- <-].
        destruct (dispatch_facts p1) as ([Ds Dp] & _ & DZ & _ & DW).
        split; [exact (eq_trans Ds S1) |].
        split; [intros W; now apply DW, W1 |].
        split; [intros _; now apply DZ |]. intros _ _. lia.
  - (* no letter here *)
    unfold noZ in HZ. rewrite HZ.
    destruct (match cmd p with None => true | Some _ => false end
              || ((code c =? 32)%N || (code c =? 9)%N || (code c =? 10)%N
                  || (code c =? 13)%N || (code c =? 44)%N)) eqn:Ecase.
    + set (p2 := withSt p (skipSep (st p))).
      assert (S2 : src (st p2) = src (st p)) by reflexivity.
      assert (W2 : wellFormed p -> wellFormed p2) by (intros [A B]; now split).
      assert (Z2 : noZ p2) by exact HZ.
      assert (P2 : isSep c = true -> (pos (st p) < pos (st p2))%nat).
      { intros Hsep. apply skipSep_strict. now rewrite HcharIs. }
      assert (Q2 : isSep c = false -> st p2 = st p).
      { intros Hsep. apply skipSep_same. now rewrite HcharIs. }
      destruct (atEnd (st p2)).
      { intros [= <- <-]. split; [exact S2 |]. split; [exact W2 |].
        split; discriminate. }
      destruct (charIs isLetter (st p2)) eqn:El2.
      { intros [= <- <-]. split; [exact S2 |]. split; [exact W2 |].
        split; [intros _; exact Z2 |]. intros _ _.
        destruct (isSep c) eqn:Hsep; [now apply P2 |].
        rewrite (Q2 eq_refl), HcharIs, Hl in El2. discriminate. }
      change (cmd p2) with (cmd p).
      destruct (cmd p) as [k |] eqn:Ek.
      2: { intros [= <- <-]. split; [exact S2 |]. split; [exact W2 |].
           split; discriminate. }
      cbn [orb] in Ecase. change (isSep c = true) in Ecase.
      specialize (P2 Ecase). cbn [negb andb].
      intros [= <- <-].
      destruct (dispatch_facts p2) as ([Ds Dp] & _ & DZ & _ & DW).
      split; [exact (eq_trans Ds S2) |].
      split; [intros W; now apply DW, W2 |].
      split; [intros _; now apply DZ |]. intros _ _. lia.
    + apply orb_false_iff in Ecase. destruct Ecase as [Ek Esep].
      change (isSep c = false) in Esep.
      rewrite Hend, HcharIs, Hl. cbn [negb andb].
      intros [= <- <-].
      destruct (dispatch_facts p) as ([Ds Dp] & Dlt & DZ & _ & DW).
      split; [exact Ds |]. split; [exact DW |].
      split; [intros _; now apply DZ |].
      intros _ G. apply Dlt.
      rewrite HcharIs. specialize (Hgood G). unfold goodChar in Hgood.
      rewrite Hl, Esep in Hgood. exact Hgood.
Qed.

(** Over known characters the loop ends within as many passes as there
    are characters left. *)
Lemma parseLoop_returns (fuel : nat) :
  forall p,
    allChars goodChar (src (st p)) = true -> noZ p ->
    (String.length (src (st p)) - pos (st p) <= fuel)%nat ->
    exists q, parseLoop fuel p = Some q.
Proof.
  induction fuel as [| f IH]; intros p G HZ Hf; cbn [parseLoop];
    destruct (atEnd (st p)) eqn:E; try (now exists p).
  - unfold atEnd in E. apply negb_false_iff, Nat.ltb_lt in E. lia.
  - destruct (parseStep p) as [[] q] eqn:Es; [| now exists q].
    destruct (parseStep_facts p q Continue E HZ Es) as (Hs & _ & HZq & Hp).
    specialize (Hp eq_refl G).
    apply IH; [now rewrite Hs | now apply HZq | rewrite Hs; lia].
Qed.

Lemma parseLoop_wellFormed (fuel : nat) :
  forall p q, noZ p -> wellFormed p ->
    parseLoop fuel p = Some q -> wellFormed q.
Proof.
  induction fuel as [| f IH]; intros p q HZ W; cbn [parseLoop];
    destruct (atEnd (st p)) eqn:E; try discriminate;
    try (now intros [= <-]).
  destruct (parseStep p) as [[] r] eqn:Es.
  - destruct (parseStep_facts p r Continue E HZ Es) as (_ & Hw & HZr & _).
    intros H. exact (IH r q (HZr eq_refl) (Hw W) H).
  - destruct (parseStep_facts p r Break E HZ Es) as (_ & Hw & _).
    intros [= <-]. now apply Hw.
Qed.

End Loop.

(* ------------------------------------------------------------------ *)
(** * Passes that do not move                                      *)
(* ------------------------------------------------------------------ *)

Section Stuck.
Local Open Scope nat_scope.

Lemma bad_char_state (s : ParseState) (c : ascii) :
  charAt s = Some c -> goodChar c = false ->
  skipSep s = s /\ parseNumber s = (nan, s)
  /\ charIs isLetter s = false /\ atEnd s = false.
Proof.
  intros Hc Hb. unfold goodChar, numStart in Hb.
  apply orb_false_iff in Hb. destruct Hb as [Hb Hn].
  apply orb_false_iff in Hb. destruct Hb as [Hl Hs].
  assert (E1 : skipSep s = s).
  { apply advanceWhile_id. unfold charIs. now rewrite Hc. }
  split; [exact E1 |]. split.
  - rewrite <- E1 at 2. apply parseNumber_nothing. rewrite E1.
    unfold charIs. rewrite Hc. unfold numStart. rewrite Hn. cbn [orb].
    destruct (isExp c) eqn:He; [| reflexivity].
    apply exp_letter in He. congruence.
  - split; [unfold charIs; now rewrite Hc |].
    unfold atEnd. apply negb_false_iff, Nat.ltb_lt.
    exact (get_some_lt _ _ _ Hc).
Qed.

Lemma dispatch_stuck (p : Parser) :
  stuckAt p -> st (dispatch p) = st p /\ stuckAt (dispatch p).
Proof.
  intros (c & k & Hc & Hb & Hk & Hd).
  destruct (bad_char_state _ _ Hc Hb) as (Es & En & _ & _).
  assert (G : forall q, st q = st p -> cmd q = Some k -> stuckAt q).
  { intros q Hq Hkq. exists c, k. now rewrite Hq. }
  assert (G' : forall q k', st q = st p -> cmd q = Some k' ->
                 drawing k' = true -> stuckAt q).
  { intros q k' Hq Hkq Hd'. exists c, k'. now rewrite Hq. }
  apply drawing_cases in Hd. unfold dispatch, cmdIs. rewrite Hk.
  cbn [In] in Hd.
  repeat (destruct Hd as [<- | Hd];
          [ cbn [Ascii.eqb Bool.eqb orb andb];
            repeat (rewrite ?Es, ?En; cbv beta iota zeta);
            unfold newSubpath;
            try match goal with
                | |- context [pushSeg ?a ?b ?g] => destruct (pushSeg a b g)
                end;
            cbn [withSt st cmd]; rewrite ?Es;
            (split; [reflexivity |]);
            eapply G'; [cbn [withSt st]; exact Es || reflexivity
                       | reflexivity | reflexivity]
          | ]).
  destruct Hd.
Qed.

(** Such a state is entered again by every pass of the loop. *)
Lemma parseStep_stuck (p : Parser) :
  stuckAt p -> exists q, parseStep p = (Continue, q) /\ stuckAt q.
Proof.
  intros H. pose proof H as (c & k & Hc & Hb & Hk & Hd).
  destruct (bad_char_state _ _ Hc Hb) as (Es & En & Hl & He).
  exists (dispatch p). split; [| now apply dispatch_stuck].
  assert (Hlc : isLetter c = false)
    by (unfold charIs in Hl; now rewrite Hc in Hl).
  assert (Hsc : isSep c = false).
  { unfold goodChar in Hb. destruct (isLetter c), (isSep c); trivial;
      discriminate. }
  assert (HZ : cmdIs p "Z" || cmdIs p "z" = false).
  { unfold cmdIs. rewrite Hk. apply drawing_cases in Hd. cbn [In] in Hd.
    repeat (destruct Hd as [<- | Hd]; [reflexivity |]). destruct Hd. }
  unfold parseStep. rewrite Hc. cbv zeta. rewrite Hlc, HZ, Hk.
  unfold isSep in Hsc. rewrite Hsc. cbn [orb].
  now rewrite He, Hl.
Qed.

Lemma parseLoop_stuck (fuel : nat) :
  forall p, stuckAt p -> parseLoop fuel p = None.
Proof.
  induction fuel as [| f IH]; intros p H; cbn [parseLoop];
    pose proof H as (c & k & Hc & Hb & _);
    destruct (bad_char_state _ _ Hc Hb) as (_ & _ & _ & ->);
    [reflexivity |].
  destruct (parseStep_stuck p H) as (q & -> & Hq). now apply IH.
Qed.

End Stuck.

(* ------------------------------------------------------------------ *)
(** * What the parser returns                                      *)
(* ------------------------------------------------------------------ *)

Section ParserTheorems.
Local Open Scope nat_scope.

Lemma start_facts (pathData : string) :
  noZ (start pathData) /\ wellFormed (start pathData).
Proof.
  split; [reflexivity |]. split; [constructor | discriminate].
Qed.

Lemma subpathsOf_wellFormed (q : Parser) :
  wellFormed q -> Forall (fun sp => headMove sp = true) (subpathsOf q).
Proof.
  intros [He Hc]. unfold subpathsOf. apply Forall_app. split; [exact He |].
  destruct (current q) as [c |]; constructor; [now apply Hc | constructor].
Qed.

Lemma headMove_segs (sp : Subpath) :
  headMove sp = true ->
  exists m rest,
    segs sp = SegM m :: rest
    /\ Forall (fun g => forall t, g <> SegM t) rest.
Proof.
  unfold headMove. destruct (segs sp) as [| [m | | |] rest]; try discriminate.
  intros H. exists m, rest. split; [reflexivity |].
  rewrite forallb_forall in H. apply Forall_forall. intros g Hg t ->.
  specialize (H _ Hg). discriminate.
Qed.

(** X3: on path data made of letters, separators, digits, signs and dots
    the parser returns, within as many passes of its loop as the trimmed
    string has characters. *)
Theorem parseSvgPath_returns (fuel : nat) (pathData : string) :
  allChars goodChar (trim pathData) = true ->
  (String.length (trim pathData) <= fuel)%nat ->
  exists sps, parseSvgPath fuel pathData = Some sps.
Proof.
  intros G Hf. destruct (start_facts pathData) as [HZ _].
  destruct (parseLoop_returns fuel (start pathData) G HZ) as [q Hq].
  { cbn [start st src pos]. lia. }
  exists (subpathsOf q). unfold parseSvgPath. fold (start pathData).
  now rewrite Hq.
Qed.

(** X4: every subpath the parser returns starts with its one Move segment:
    a Move command opens a new subpath, and a drawing command met before
    any Move opens one with a Move of its own.  The flattened points of a
    subpath therefore start with the point of that Move. *)
Theorem parseSvgPath_subpaths (fuel : nat) (pathData : string)
  (sps : list Subpath) :
  parseSvgPath fuel pathData = Some sps ->
  Forall
    (fun sp =>
       exists m rest,
         segs sp = SegM m :: rest
         /\ Forall (fun g => forall t, g <> SegM t) rest
         /\ forall tol fl pts,
              flattenSegs fl tol (segs sp) (0, 0)%float [] = Some pts ->
              exists more, pts = m :: more)
    sps.
Proof.
  unfold parseSvgPath. fold (start pathData).
  destruct (parseLoop fuel (start pathData)) as [q |] eqn:Hq;
    [| discriminate].
  intros [= <-]. destruct (start_facts pathData) as [HZ W].
  pose proof (subpathsOf_wellFormed q
                (parseLoop_wellFormed fuel _ q HZ W Hq)) as H.
  eapply Forall_impl; [| exact H]. intros sp Hsp.
  destruct (headMove_segs sp Hsp) as (m & rest & E & Hr).
  exists m, rest. split; [exact E |]. split; [exact Hr |].
  intros tol fl pts. rewrite E. cbn [flattenSegs app].
  assert (G : forall sgs cur acc out,
             flattenSegs fl tol sgs cur (m :: acc) = Some out ->
             exists more, out = m :: more).
  { induction sgs as [| g sgs IH]; intros cur acc out; cbn [flattenSegs].
    - intros [= <-]. now exists acc.
    - destruct g as [t | t | c1 c2 t | ctrl t].
      + apply (IH t (acc ++ [t])).
      + apply (IH t (acc ++ [t])).
      + rewrite flattenCubic_leaves.
        destruct (cubicLeaves fl cur c1 c2 t tol) as [ps |];
          [| discriminate]. cbn [bind]. apply (IH t (acc ++ ps)).
      + unfold flattenQuadratic. rewrite flattenCubic_leaves.
        destruct (cubicLeaves fl cur _ _ t tol) as [ps |];
          [| discriminate]. cbn [bind]. apply (IH t (acc ++ ps)). }
  apply (G rest m []).
Qed.

(** X5: the inputs that give no subpath at once.  Path data that is empty
    or white space gives no subpath, whatever the fuel; so does path data
    whose first character, after trimming, is neither a letter nor a
    separator (a number before any command): the loop is left in its first
    pass. *)
Theorem parseSvgPath_no_subpath (fuel : nat) (pathData : string) :
  (trim pathData = EmptyString -> parseSvgPath fuel pathData = Some [])
  /\ (forall c rest,
        trim pathData = String c rest ->
        isLetter c = false -> isSep c = false ->
        parseSvgPath (S fuel) pathData = Some []).
Proof.
  split.
  - intros E. unfold parseSvgPath. rewrite E. now destruct fuel.
  - intros c rest E Hl Hs. unfold parseSvgPath. rewrite E.
    cbn [parseLoop atEnd st src pos String.length Nat.ltb Nat.leb negb].
    unfold parseStep, charAt. cbn [st src pos String.get]. cbv zeta.
    rewrite Hl. cbn [cmdIs cmd orb].
    assert (Ek : skipSep {| src := String c rest; pos := 0 |}
                 = {| src := String c rest; pos := 0 |}).
    { apply advanceWhile_id. unfold charIs, charAt. cbn. exact Hs. }
    cbn [withSt st]. rewrite Ek.
    cbn [atEnd src pos String.length Nat.ltb Nat.leb negb].
    unfold charIs, charAt. cbn [src pos String.get]. rewrite Hl.
    reflexivity.
Qed.

End ParserTheorems.

Section NeverReturns.
Local Open Scope nat_scope.
Variable L : Libm.

(** X6: the parser does not return, whatever the fuel, from a state with a
    drawing command (M, L, H, V, C, Q in either case) pending in front of a
    character that is no letter, no separator and starts no number: the
    pass reads NaN for every number, adds a segment and leaves the position
    where it was.  Path data that starts with such a command followed by
    such a character is one case, and [offsetSvgPath] does not return on it
    either unless the offset is below 0.001 or not finite. *)
Theorem parser_never_returns (fuel : nat) :
  (forall p, stuckAt p -> parseLoop fuel p = None)
  /\ (forall pathData k c rest,
        trim pathData = String k (String c rest) ->
        drawing k = true -> goodChar c = false ->
        parseSvgPath fuel pathData = None
        /\ forall offsetAmt joinType endType miterLimit arcTolerance
                  originX originY,
             tooSmall offsetAmt = false ->
             offsetSvgPath L fuel pathData offsetAmt joinType endType
               miterLimit arcTolerance originX originY = None).
Proof.
  split; [apply parseLoop_stuck |].
  intros pathData k c rest E Hk Hc.
  assert (Hp : parseSvgPath fuel pathData = None).
  { unfold parseSvgPath. rewrite E.
    destruct fuel as [| f]; [reflexivity |].
    cbn [parseLoop atEnd st src pos String.length Nat.ltb Nat.leb negb].
    set (p1 := {| st := {| src := String k (String c rest); pos := 1 |};
                  earlier := []; current := None;
                  cx := 0%float; cy := 0%float; cmd := Some k |}).
    assert (Hstuck : stuckAt p1) by (exists c, k; repeat split; trivial).
    assert (E1 : parseStep
                   {| st := {| src := String k (String c rest); pos := 0 |};
                      earlier := []; current := None;
                      cx := 0%float; cy := 0%float; cmd := None |}
                 = (Continue, dispatch p1)).
    { destruct (bad_char_state (st p1) c eq_refl Hc) as (Es & _ & Hl & He).
      unfold parseStep, charAt. cbn [st src pos String.get]. cbv zeta.
      rewrite (drawing_letter k Hk).
      change (skipSep (bump {| src := String k (String c rest); pos := 0 |}))
        with (skipSep (st p1)).
      rewrite Es. cbn [earlier current cx cy].
      change {| st := st p1; earlier := []; current := None;
                cx := 0%float; cy := 0%float; cmd := Some k |} with p1.
      assert (HZ : cmdIs p1 "Z" || cmdIs p1 "z" = false).
      { unfold cmdIs. cbn [cmd p1]. pose proof (drawing_cases k Hk) as Hd.
        cbn [In] in Hd.
        repeat (destruct Hd as [<- | Hd]; [reflexivity |]). destruct Hd. }
      rewrite HZ. cbn [cmd p1 orb].
      pose proof (letter_not_sep k (drawing_letter k Hk)) as Hns.
      unfold isSep in Hns. rewrite Hns. now rewrite He, Hl. }
    rewrite E1, parseLoop_stuck; [reflexivity |]. now apply dispatch_stuck. }
  split; [exact Hp |].
  intros offsetAmt joinType endType miterLimit arcTolerance originX originY
    Hguard.
  unfold offsetSvgPath, svgToPoints, flattenPath. now rewrite Hguard, Hp.
Qed.

End NeverReturns.

(* ------------------------------------------------------------------ *)
(** * Curves with a NaN                                            *)
(* ------------------------------------------------------------------ *)

Section NaN.
Local Open Scope nat_scope.
Local Open Scope float_scope.

Lemma nan_add_l (a b : float) : is_nan a = true -> is_nan (a + b) = true.
Proof.
  intros H. apply Prim2SF_is_nan. rewrite add_spec.
  now rewrite (is_nan_Prim2SF a H).
Qed.

Lemma nan_add_r (a b : float) : is_nan b = true -> is_nan (a + b) = true.
Proof.
  intros H. apply Prim2SF_is_nan. rewrite add_spec.
  rewrite (is_nan_Prim2SF b H). now destruct (Prim2SF a).
Qed.

Lemma nan_sub_l (a b : float) : is_nan a = true -> is_nan (a - b) = true.
Proof.
  intros H. apply Prim2SF_is_nan. rewrite sub_spec.
  now rewrite (is_nan_Prim2SF a H).
Qed.

Lemma nan_sub_r (a b : float) : is_nan b = true -> is_nan (a - b) = true.
Proof.
  intros H. apply Prim2SF_is_nan. rewrite sub_spec.
  rewrite (is_nan_Prim2SF b H). now destruct (Prim2SF a).
Qed.

Lemma nan_mul_l (a b : float) : is_nan a = true -> is_nan (a * b) = true.
Proof.
  intros H. apply Prim2SF_is_nan. rewrite mul_spec.
  now rewrite (is_nan_Prim2SF a H).
Qed.

Lemma nan_mul_r (a b : float) : is_nan b = true -> is_nan (a * b) = true.
Proof.
  intros H. apply Prim2SF_is_nan. rewrite mul_spec.
  rewrite (is_nan_Prim2SF b H). now destruct (Prim2SF a).
Qed.

Lemma nan_div_l (a b : float) : is_nan a = true -> is_nan (a / b) = true.
Proof.
  intros H. apply Prim2SF_is_nan. rewrite div_spec.
  now rewrite (is_nan_Prim2SF a H).
Qed.

Lemma nan_leb (a b : float) : is_nan a = true -> (a <=? b) = false.
Proof.
  intros H. rewrite leb_spec. now rewrite (is_nan_Prim2SF a H).
Qed.

Lemma nan_max (a b : float) :
  is_nan a = true \/ is_nan b = true -> is_nan (Math_max a b) = true.
Proof.
  intros H. unfold Math_max.
  replace (is_nan a || is_nan b) with true; [reflexivity |].
  destruct H as [-> | ->]; [reflexivity | now rewrite orb_true_r].
Qed.

End NaN.

Section NaNCurves.
Local Open Scope nat_scope.
Local Open Scope float_scope.

Ltac nanp :=
  first [ assumption
        | apply nan_add_l; nanp | apply nan_add_r; nanp
        | apply nan_sub_l; nanp | apply nan_sub_r; nanp
        | apply nan_mul_l; nanp | apply nan_mul_r; nanp
        | apply nan_div_l; nanp ].

Lemma nanPt_cases (p0 p1 p2 p3 : Pt) :
  nanPt p0 || nanPt p1 || nanPt p2 || nanPt p3 = true ->
  (is_nan (fst p0) = true \/ is_nan (fst p1) = true
   \/ is_nan (fst p2) = true \/ is_nan (fst p3) = true)
  \/ (is_nan (snd p0) = true \/ is_nan (snd p1) = true
      \/ is_nan (snd p2) = true \/ is_nan (snd p3) = true).
Proof.
  unfold nanPt. intros H.
  repeat (apply orb_true_iff in H; destruct H as [H | H]); tauto.
Qed.

(** A cubic with a NaN coordinate is not flat. *)
Lemma isFlat_nan (p0 p1 p2 p3 : Pt) (tol : float) :
  nanPt p0 || nanPt p1 || nanPt p2 || nanPt p3 = true ->
  isFlat p0 p1 p2 p3 tol = false.
Proof.
  intros H. unfold isFlat. cbv zeta. apply nan_leb, nan_max.
  destruct (nanPt_cases _ _ _ _ H)
    as [[H0 | [H0 | [H0 | H0]]] | [H0 | [H0 | [H0 | H0]]]];
    first [left; nanp | right; nanp].
Qed.

(** The left half of its subdivision has one too. *)
Lemma left_half_nan (p0 p1 p2 p3 : Pt) :
  nanPt p0 || nanPt p1 || nanPt p2 || nanPt p3 = true ->
  nanPt (midpoint (midpoint (midpoint p0 p1) (midpoint p1 p2))
           (midpoint (midpoint p1 p2) (midpoint p2 p3))) = true.
Proof.
  intros H. unfold nanPt, midpoint. cbn [fst snd]. apply orb_true_iff.
  destruct (nanPt_cases _ _ _ _ H)
    as [[H0 | [H0 | [H0 | H0]]] | [H0 | [H0 | [H0 | H0]]]];
    first [left; nanp | right; nanp].
Qed.

Lemma flattenCubic_nan (fuel : nat) :
  forall (p0 p1 p2 p3 : Pt) (tol : float) (out : list Pt),
    nanPt p0 || nanPt p1 || nanPt p2 || nanPt p3 = true ->
    flattenCubic fuel p0 p1 p2 p3 tol out = None.
Proof.
  induction fuel as [| f IH]; intros p0 p1 p2 p3 tol out H;
    cbn [flattenCubic]; rewrite (isFlat_nan _ _ _ _ tol H);
    [reflexivity |].
  cbv zeta. rewrite IH; [reflexivity |].
  rewrite (left_half_nan _ _ _ _ H). now rewrite orb_true_r.
Qed.

(** X7: a curve with a NaN coordinate among its points is never flat and
    neither is any part it is cut into: [flattenCubic] and
    [flattenQuadratic] do not return at any depth, and neither does the
    loop of [svgToPoints] over a subpath that reaches such a curve.  (NaN
    is what [parseNumber] reads where a number is missing, as for the last
    point of [C 10 10 20 20] at the end of the path data.) *)
Theorem curve_with_nan_never_flat (fuel : nat) (p0 p1 p2 p3 : Pt)
  (tol : float) (out : list Pt) :
  nanPt p0 || nanPt p1 || nanPt p2 || nanPt p3 = true ->
  flattenCubic fuel p0 p1 p2 p3 tol out = None
  /\ (forall r, flattenSegs fuel tol (SegC p1 p2 p3 :: r) p0 out = None)
  /\ (nanPt p0 || nanPt p1 || nanPt p2 = true ->
      flattenQuadratic fuel p0 p1 p2 tol out = None
      /\ forall r, flattenSegs fuel tol (SegQ p1 p2 :: r) p0 out = None).
Proof.
  intros H. split; [now apply flattenCubic_nan |].
  split; [intros r; cbn [flattenSegs]; now rewrite flattenCubic_nan |].
  intros Hq.
  assert (E : flattenQuadratic fuel p0 p1 p2 tol out = None).
  { unfold flattenQuadratic. cbv zeta. apply flattenCubic_nan.
    unfold nanPt in *. cbn [fst snd].
    repeat (apply orb_true_iff in Hq; destruct Hq as [Hq | Hq]);
      repeat rewrite orb_true_iff;
      first [ left; left; left; left; exact Hq
            | left; left; left; right; exact Hq
            | left; left; right; left; nanp
            | left; left; right; right; nanp
            | right; left; exact Hq
            | right; right; exact Hq ]. }
  split; [exact E |]. intros r. cbn [flattenSegs]. now rewrite E.
Qed.

End NaNCurves.

(* ------------------------------------------------------------------ *)
(** * The empty result                                                  *)
(* ------------------------------------------------------------------ *)

Section EmptyResult.
Local Open Scope nat_scope.
Local Open Scope string_scope.
Local Open Scope float_scope.

Variable L : Libm.

(** C2 (as the code has it): for a finite offset with |offset| >= 0.001,
    [offsetSvgPath] returns the empty string when [svgToPoints] gives
    [null] or fewer than 3 points, that is when the parser finds no subpath
    (the empty string is such an input) or the first subpath flattens to
    fewer than 3 points, and when the offset engine returns fewer than 3
    points.  A call that returns gives nothing but the empty string or one
    closed subpath [M ... L ... Z]. *)
Theorem offsetSvgPath_empty_sentinel
  (fuel : nat) (pathData : string) (offsetAmt : float)
  (joinType : option JoinType) (endType : option EndType)
  (miterLimit arcTolerance : float) (originX originY : option float) :
  isFinite offsetAmt = true ->
  (Math_abs offsetAmt <? 0.001) = false ->
  let run p :=
    offsetSvgPath L fuel p offsetAmt joinType endType miterLimit
      arcTolerance originX originY in
  (parseSvgPath fuel pathData = Some [] -> run pathData = Some EmptyString)
  /\ (forall sp rest floatPts,
        parseSvgPath fuel pathData = Some (sp :: rest) ->
        flattenSegs fuel FLATTEN_TOLERANCE (segs sp) (0, 0) [] = Some floatPts ->
        (List.length floatPts < 3)%nat ->
        run pathData = Some EmptyString)
  /\ (forall pts offsetPts,
        svgToPoints fuel pathData SCALE FLATTEN_TOLERANCE = Some (Some pts) ->
        offsetPolygon L fuel pts (offsetAmt * SCALE)
          match joinType with Some j => j | None => JoinRound end
          match endType with Some e => e | None => EndPolygon end
          miterLimit arcTolerance = Some offsetPts ->
        (List.length offsetPts < 3)%nat ->
        run pathData = Some EmptyString)
  /\ run EmptyString = Some EmptyString
  /\ (forall s,
        run pathData = Some s ->
        s = EmptyString
        \/ exists p0 r,
             s = "M " ++ coords p0 SCALE
                 ++ String.concat EmptyString
                      (map (fun p => " L " ++ coords p SCALE) r)
                 ++ " Z")
  /\ (svgToPoints fuel pathData SCALE FLATTEN_TOLERANCE = Some None ->
      run pathData = Some EmptyString)
  /\ (forall pts,
        svgToPoints fuel pathData SCALE FLATTEN_TOLERANCE = Some (Some pts) ->
        (List.length pts < 3)%nat ->
        run pathData = Some EmptyString).
Proof.
  intros Hfin Habs run.
  assert (Hguard : tooSmall offsetAmt = false).
  { unfold tooSmall. now rewrite Hfin, Habs. }
  unfold run, offsetSvgPath. rewrite Hguard.
  split; [| split; [| split; [| split; [| split; [| split]]]]].
  - intros Hp. unfold svgToPoints, flattenPath. now rewrite Hp.
  - intros sp rest floatPts Hp Hf Hlen.
    unfold svgToPoints, flattenPath. rewrite Hp. cbn [bind]. rewrite Hf.
    cbn [bind].
    now replace (List.length floatPts <? 3)%nat with true
      by (symmetry; apply Nat.ltb_lt; exact Hlen).
  - intros pts offsetPts Hs Ho Hlen. rewrite Hs. cbn [bind].
    destruct (List.length pts <? 3)%nat; [reflexivity |].
    rewrite Ho. cbn [bind].
    now replace (List.length offsetPts <? 3)%nat with true
      by (symmetry; apply Nat.ltb_lt; exact Hlen).
  - destruct fuel; reflexivity.
  - intros s.
    destruct (svgToPoints fuel pathData SCALE FLATTEN_TOLERANCE)
      as [[pts |] |]; try discriminate; cbn [bind].
    2: { intros [= <-]. now left. }
    destruct (List.length pts <? 3)%nat.
    { intros [= <-]. now left. }
    destruct (offsetPolygon L fuel pts _ _ _ _ _) as [offsetPts |];
      [| discriminate]. cbn [bind].
    destruct (List.length offsetPts <? 3)%nat eqn:El.
    { intros [= <-]. now left. }
    intros [= <-]. right. apply Nat.ltb_ge in El.
    pose proof (anchor_length pts offsetPts originX originY) as Hlen.
    destruct (anchor pts offsetPts originX originY) as [| p0 r].
    { simpl in Hlen. lia. }
    exists p0, r. apply pointsToSvg_shape.
  - now intros ->.
  - intros pts -> Hlen. cbn [bind].
    now replace (List.length pts <? 3)%nat with true
      by (symmetry; apply Nat.ltb_lt; exact Hlen).
Qed.

End EmptyResult.

Section EmptyResultExamples.
Local Open Scope nat_scope.
Local Open Scope string_scope.
Local Open Scope float_scope.

(** A path of two points, and the empty string. *)
Lemma offsetSvgPath_empty_sentinel_witness :
  offsetSvgPath refLibm 10 "M 0 0 L 100 0" 10 None None 2 0.25 None None
  = Some EmptyString
  /\ offsetSvgPath refLibm 10 EmptyString 10 None None 2 0.25 None None
     = Some EmptyString.
Proof.
  destruct (offsetSvgPath_empty_sentinel refLibm 10 "M 0 0 L 100 0" 10
              None None 2 0.25 None None eq_refl eq_refl)
    as (_ & H & _ & H0 & _).
  split; [| exact H0].
  eapply H; [run | run | simpl; lia].
Defined.

(** C2, the cases it gets wrong.  A path without a Move command need not
    come back empty: the first drawing command opens the subpath, and the
    square below is offset like any other.  And the empty string is not
    the only way a call can fail: on a curve that lacks its end point the
    parser reads NaN, no depth of recursion is enough for [flattenCubic],
    and the call ends in the RangeError of the stack overflow; on a
    character it cannot read the parser does not leave its loop. *)
Lemma empty_sentinel_counterexample :
  noMoveCommand "L 0 0 L 100 0 L 100 100 L 0 100 Z" = true
  /\ isFinite 10 = true /\ (Math_abs 10 <? 0.001)%float = false
  /\ svgToPoints 10 "L 0 0 L 100 0 L 100 100 L 0 100 Z" SCALE
       FLATTEN_TOLERANCE
     = Some (Some [(0, 0); (0, 0); (100000, 0); (100000, 100000);
                   (0, 100000)]%float)
  /\ offsetSvgPath refLibm 10 "L 0 0 L 100 0 L 100 100 L 0 100 Z" 10
       (Some JoinBevel) (Some EndPolygon) 2 0.25 None None
     = Some "M 10.00 0.00 L 0.00 0.00 L 100.00 10.00 L 90.00 0.00 L 90.00 100.00 L 100.00 90.00 L 0.00 90.00 L 10.00 100.00 Z"
  /\ (forall fuel,
        parseSvgPath (3 + fuel) "M 0 0 C 10 10 20 20"
        = Some [{| segs := [SegM (0, 0); SegC (10, 10) (20, 20) (nan, nan)];
                   closed := false |}])
  /\ (forall fuel,
        flattenSegs fuel FLATTEN_TOLERANCE
          [SegM (0, 0); SegC (10, 10) (20, 20) (nan, nan)] (0, 0) []
        = None)
  /\ (forall fuel,
        offsetSvgPath refLibm fuel "M 0 0 C 10 10 20 20" 10 None None 2 0.25
          None None = None)
  /\ (forall fuel,
        offsetSvgPath refLibm fuel "M 0 0 #" 10 None None 2 0.25 None None
        = None).
Proof.
  assert (Hflat : forall fuel,
             flattenSegs fuel FLATTEN_TOLERANCE
               [SegM (0, 0); SegC (10, 10) (20, 20) (nan, nan)] (0, 0) []
             = None).
  { intros fuel. cbn [flattenSegs]. now rewrite flattenCubic_nan. }
  do 5 (split; [run |]). split; [intros fuel; run |].
  split; [exact Hflat |]. split.
  - intros fuel. unfold offsetSvgPath.
    replace (tooSmall 10) with false by reflexivity.
    unfold svgToPoints, flattenPath.
    destruct fuel as [| [| [| fuel]]]; try reflexivity.
    replace (parseSvgPath (S (S (S fuel))) "M 0 0 C 10 10 20 20")
      with (Some [{| segs := [SegM (0, 0);
                              SegC (10, 10) (20, 20) (nan, nan)];
                     closed := false |}])
      by (vm_compute; reflexivity).
    cbn [bind segs]. now rewrite Hflat.
  - intros fuel. unfold offsetSvgPath.
    replace (tooSmall 10) with false by reflexivity.
    unfold svgToPoints, flattenPath.
    now rewrite parseSvgPath_may_not_return.
Qed.

End EmptyResultExamples.

(* ------------------------------------------------------------------ *)
(** * Paths without curves                                         *)
(* ------------------------------------------------------------------ *)

Section Polylines.
Local Open Scope nat_scope.
Variable L : Libm.

Lemma pushSeg_straight (p : Parser) (start : Pt) (seg : Segment) :
  straight p -> straightSeg seg = true ->
  Forall (fun sp => forallb straightSeg (segs sp) = true)
    (fst (pushSeg p start seg))
  /\ forallb straightSeg (segs (snd (pushSeg p start seg))) = true.
Proof.
  intros (He & Hc & _) Hs. unfold pushSeg.
  destruct (current p) as [c |] eqn:E; cbn [fst snd segs].
  - split; [exact He |]. rewrite forallb_app, (Hc c eq_refl).
    cbn. now rewrite Hs.
  - split; [exact He |]. cbn. now rewrite Hs.
Qed.

Lemma newSubpath_straight (p : Parser) (start : Pt) :
  straight p ->
  Forall (fun sp => forallb straightSeg (segs sp) = true)
    (fst (newSubpath p start))
  /\ forallb straightSeg (segs (snd (newSubpath p start))) = true.
Proof.
  intros (He & Hc & _). unfold newSubpath, subpathsOf. cbn [fst snd].
  split; [| reflexivity]. apply Forall_app. split; [exact He |].
  destruct (current p) as [c |]; constructor; [now apply Hc | constructor].
Qed.

Lemma cmdIs_cmd (p : Parser) (c : ascii) :
  cmdIs p c = true -> cmd p = Some c.
Proof.
  unfold cmdIs. destruct (cmd p) as [k |]; [| discriminate].
  intros H. apply Ascii.eqb_eq in H. now subst.
Qed.

Lemma dispatch_straight (p : Parser) : straight p -> straight (dispatch p).
Proof.
  intros W. pose proof W as (He & Hc & Hk). unfold dispatch.
  destruct (cmdIs p "M" || cmdIs p "m") eqn:EM.
  { destruct (parseNumber (st p)) as [x s1].
    destruct (parseNumber (skipSep s1)) as [y s2].
    destruct (newSubpath_straight p
                (rel p "M" (cx p) x, rel p "M" (cy p) y) W) as [We Wc].
    cbn [newSubpath fst snd] in *. unfold straight.
    cbn [withSt st earlier current cmd].
    split; [exact We |]. split; [now intros c [= <-] |].
    intros k [= <-]. now destruct (cmdIs p "M"). }
  destruct (cmdIs p "L" || cmdIs p "l") eqn:EL.
  { destruct (parseNumber (st p)) as [x s1].
    destruct (parseNumber (skipSep s1)) as [y s2].
    match goal with
    | |- context [pushSeg p ?a ?g] =>
        pose proof (pushSeg_straight p a g W eq_refl) as [We Wc];
        destruct (pushSeg p a g) as [e c]
    end.
    cbn [fst snd] in *. unfold straight.
    cbn [withSt st earlier current cmd].
    split; [exact We |]. split; [now intros c' [= <-] | exact Hk]. }
  destruct (cmdIs p "H" || cmdIs p "h") eqn:EH.
  { destruct (parseNumber (st p)) as [x s1].
    match goal with
    | |- context [pushSeg p ?a ?g] =>
        pose proof (pushSeg_straight p a g W eq_refl) as [We Wc];
        destruct (pushSeg p a g) as [e c]
    end.
    cbn [fst snd] in *. unfold straight.
    cbn [withSt st earlier current cmd].
    split; [exact We |]. split; [now intros c' [= <-] | exact Hk]. }
  destruct (cmdIs p "V" || cmdIs p "v") eqn:EV.
  { destruct (parseNumber (st p)) as [x s1].
    match goal with
    | |- context [pushSeg p ?a ?g] =>
        pose proof (pushSeg_straight p a g W eq_refl) as [We Wc];
        destruct (pushSeg p a g) as [e c]
    end.
    cbn [fst snd] in *. unfold straight.
    cbn [withSt st earlier current cmd].
    split; [exact We |]. split; [now intros c' [= <-] | exact Hk]. }
  destruct (cmdIs p "C" || cmdIs p "c") eqn:EC.
  { apply orb_true_iff in EC.
    destruct EC as [EC | EC]; apply cmdIs_cmd, Hk in EC; discriminate. }
  destruct (cmdIs p "Q" || cmdIs p "q") eqn:EQ.
  { apply orb_true_iff in EQ.
    destruct EQ as [EQ | EQ]; apply cmdIs_cmd, Hk in EQ; discriminate. }
  exact W.
Qed.

Lemma parseStep_straight (p q : Parser) (f : Flow) :
  atEnd (st p) = false ->
  allChars (fun c => negb (curveLetter c)) (src (st p)) = true ->
  straight p -> parseStep p = (f, q) -> straight q.
Proof.
  intros Hend G W. destruct (atEnd_false_char _ Hend) as [c Hc].
  pose proof (allChars_get _ _ _ _ G Hc) as Hcl.
  apply negb_true_iff in Hcl.
  unfold parseStep. rewrite Hc. cbv zeta.
  set (p1 := if isLetter c
             then {| st := skipSep (bump (st p)); earlier := earlier p;
                     current := current p; cx := cx p; cy := cy p;
                     cmd := Some c |}
             else p).
  assert (W1 : straight p1).
  { unfold p1. destruct (isLetter c); [| exact W].
    destruct W as (A & B & C). split; [exact A |]. split; [exact B |].
    now intros k [= <-]. }
  clearbody p1.
  assert (Wst : forall s, straight (withSt p1 s)).
  { intros s. destruct W1 as (A & B & C). now split. }
  assert (Hbody : forall r g r',
             straight r ->
             (if negb (atEnd (st r)) && charIs isLetter (st r)
              then (Continue, r) else (Continue, dispatch r)) = (g, r') ->
             straight r').
  { intros r g r' Wr.
    destruct (negb (atEnd (st r)) && charIs isLetter (st r));
      intros [= <- <-]; [exact Wr | now apply dispatch_straight]. }
  destruct (cmdIs p1 "Z" || cmdIs p1 "z").
  { intros [= <- <-]. destruct W1 as (A & B & C).
    split; [exact A |]. split; [| discriminate]. cbn [current].
    destruct (current p1) as [c1 |]; [| discriminate].
    intros c' [= <-]. exact (B c1 eq_refl). }
  destruct (match cmd p1 with None => true | Some _ => false end || _).
  - clear Hend. pose proof (Wst (skipSep (st p1))) as W2.
    set (p2 := withSt p1 (skipSep (st p1))) in *. clearbody p2.
    destruct (atEnd (st p2)); [now intros [= <- <-] |].
    destruct (charIs isLetter (st p2)); [now intros [= <- <-] |].
    destruct (cmd p2); [| now intros [= <- <-]].
    cbn [negb andb]. intros [= <- <-]. now apply dispatch_straight.
  - apply Hbody, W1.
Qed.

Lemma parseLoop_straight (fuel : nat) :
  forall p q, noZ p ->
    allChars (fun c => negb (curveLetter c)) (src (st p)) = true ->
    straight p -> parseLoop fuel p = Some q -> straight q.
Proof.
  induction fuel as [| f IH]; intros p q HZ G W; cbn [parseLoop];
    destruct (atEnd (st p)) eqn:E; try discriminate;
    try (now intros [= <-]).
  destruct (parseStep p) as [[] r] eqn:Es.
  - destruct (parseStep_facts p r Continue E HZ Es) as (Hs & _ & HZr & _).
    intros H. apply (IH r q (HZr eq_refl)); trivial.
    + now rewrite Hs.
    + exact (parseStep_straight p r _ E G W Es).
  - intros [= <-]. exact (parseStep_straight p r _ E G W Es).
Qed.

(** Straight segments need no subdivision. *)
Lemma flattenSegs_straight (fuel : nat) (tol : float) (sgs : list Segment) :
  forallb straightSeg sgs = true ->
  forall cur out, exists more,
    flattenSegs fuel tol sgs cur out = Some (out ++ more)
    /\ List.length more = List.length sgs.
Proof.
  induction sgs as [| g sgs IH]; intros H cur out; cbn [flattenSegs].
  - exists []. now rewrite app_nil_r.
  - cbn [forallb] in H. apply andb_true_iff in H. destruct H as [Hg Hr].
    destruct g as [t | t | |]; try discriminate;
      destruct (IH Hr t (out ++ [t])) as (more & -> & Hl);
      exists (t :: more); rewrite <- app_assoc;
      (split; [reflexivity | simpl; now rewrite Hl]).
Qed.

Lemma straight_path (fuel : nat) (pathData : string) :
  allChars goodChar (trim pathData) = true ->
  allChars (fun c => negb (curveLetter c)) (trim pathData) = true ->
  (String.length (trim pathData) <= fuel)%nat ->
  exists sps,
    parseSvgPath fuel pathData = Some sps
    /\ Forall (fun sp => forallb straightSeg (segs sp) = true) sps.
Proof.
  intros G C Hf. destruct (start_facts pathData) as [HZ _].
  destruct (parseLoop_returns fuel (start pathData) G HZ) as [q Hq].
  { cbn [start st src pos]. lia. }
  exists (subpathsOf q). unfold parseSvgPath. fold (start pathData).
  rewrite Hq. split; [reflexivity |].
  assert (W0 : straight (start pathData)).
  { split; [constructor |]. split; discriminate. }
  destruct (parseLoop_straight fuel _ q HZ C W0 Hq) as (A & B & _).
  unfold subpathsOf. apply Forall_app. split; [exact A |].
  destruct (current q) as [c |]; constructor; [now apply B | constructor].
Qed.

Lemma svgToPoints_straight (fuel : nat) (pathData : string) (sc tol : float) :
  allChars goodChar (trim pathData) = true ->
  allChars (fun c => negb (curveLetter c)) (trim pathData) = true ->
  (String.length (trim pathData) <= fuel)%nat ->
  exists r, svgToPoints fuel pathData sc tol = Some r.
Proof.
  intros G C Hf. destruct (straight_path fuel pathData G C Hf)
    as (sps & E & Hs).
  unfold svgToPoints, flattenPath. rewrite E. cbn [bind].
  destruct sps as [| sp sps]; [now eexists |].
  apply Forall_inv in Hs.
  destruct (flattenSegs_straight fuel tol (segs sp) Hs (0, 0)%float [])
    as (more & -> & _).
  cbn [bind]. now eexists.
Qed.

(** X14: a path without curve commands is always answered.  On path data
    made of letters other than C, c, Q, q, of separators, digits, signs and
    dots, with a join kind other than Round and an end kind other than
    Round, [offsetSvgPath] returns for every offset, within as many passes
    of the parser's loop as the trimmed string has characters. *)
Theorem polyline_always_answered (fuel : nat) (pathData : string)
  (offsetAmt : float) (joinType : JoinType) (endType : EndType)
  (miterLimit arcTolerance : float) (originX originY : option float) :
  allChars goodChar (trim pathData) = true ->
  allChars (fun c => negb (curveLetter c)) (trim pathData) = true ->
  (String.length (trim pathData) <= fuel)%nat ->
  joinType <> JoinRound -> endType <> EndRound ->
  exists s,
    offsetSvgPath L fuel pathData offsetAmt (Some joinType) (Some endType)
      miterLimit arcTolerance originX originY = Some s.
Proof.
  intros G C Hf Hj He. unfold offsetSvgPath.
  destruct (tooSmall offsetAmt); [now eexists |].
  destruct (svgToPoints_straight fuel pathData SCALE FLATTEN_TOLERANCE G C Hf)
    as ([pts |] & ->); cbn [bind]; [| now eexists].
  destruct (List.length pts <? 3)%nat eqn:E3; [now eexists |].
  apply Nat.ltb_ge in E3.
  destruct (offsetPolygon_size L fuel pts (offsetAmt * SCALE)
              joinType endType miterLimit arcTolerance E3 Hj He)
    as (r & -> & _).
  cbn [bind]. destruct (List.length r <? 3)%nat; now eexists.
Qed.

End Polylines.

(* ------------------------------------------------------------------ *)
(** * The plugin                                                   *)
(* ------------------------------------------------------------------ *)

Section PluginFacts.
Local Open Scope nat_scope.
Variable L : Libm.
Import Plugin.
Local Open Scope string_scope.



(** X16: [kill] undoes what the frames did to the path and nothing else.
    For an instance whose [init] succeeded on a target, [kill] sets [d]
    back to the value [init] read there and leaves the visibility and the
    stored offset as the last frame set them; so a target hidden by a frame
    stays hidden. *)
Theorem kill_restores_path (e0 : Element) (value : Value) (data : Data) :
  init (PathElement e0) value = Some data ->
  d e0 = Some (_originalPath data)
  /\ forall e,
       kill data e
       = {| d := d e0; visibility := visibility e;
            __gsapOffsetPath := __gsapOffsetPath e |}.
Proof.
  unfold init. destruct (d e0) as [[| c r] |] eqn:E; try discriminate.
  intros [= <-]. cbn [_originalPath]. split; reflexivity.
Qed.

End PluginFacts.

(* ------------------------------------------------------------------ *)
(** * Chained tweens                                               *)
(* ------------------------------------------------------------------ *)

Section Chaining.
Local Open Scope nat_scope.
Variable L : Libm.
Import Plugin.
Local Open Scope float_scope.

(** The interpolation at progress 0 gives the start offset back, up to
    the sign of a zero. *)
Lemma interpolate_zero (s e : float) :
  is_finite s = true -> is_finite (e - s) = true ->
  s + (e - s) * 0 = s
  \/ (Prim2SF s = S754_zero true /\ s + (e - s) * 0 = 0).
Proof.
  intros Hs He.
  assert (Hz : exists b, Prim2SF ((e - s) * 0) = S754_zero b).
  { rewrite mul_spec. change (Prim2SF 0) with (S754_zero false).
    destruct (is_finite_cases _ He) as [[b ->] | (b & m & x & ->)];
      now eexists. }
  destruct Hz as [b Hz].
  assert (Ha : Prim2SF (s + (e - s) * 0)
               = SF64add (Prim2SF s) (S754_zero b))
    by now rewrite add_spec, Hz.
  destruct (is_finite_cases _ Hs) as [[sb E] | (sb & m & x & E)].
  - rewrite E in Ha. destruct sb, b; cbn in Ha.
    + left. apply Prim2SF_inj. now rewrite Ha, E.
    + right. split; [exact E |]. apply Prim2SF_inj. now rewrite Ha.
    + left. apply Prim2SF_inj. now rewrite Ha, E.
    + left. apply Prim2SF_inj. now rewrite Ha, E.
  - left. apply Prim2SF_inj. rewrite Ha, E. reflexivity.
Qed.

(** X17: a tween started on a target that another has rendered, through
    the handler or not.  Its [init] succeeds exactly when the target has a
    non-empty [d], and it then takes the offset of the last frame as its
    start and the target's [d] as it stands, the offset path of a visible
    frame included, as the path to offset.  With a finite start and a finite difference to the end offset,
    its frame at progress 0 has the start offset again (as +0 when that is
    -0). *)
Theorem chained_tween (fuel : nat) (progress : float) (data : Data)
  (e e' : Element) (value : Value) :
  render L fuel progress data e = Some e' ->
  (forall data', init (PathElement e') value = Some data' ->
     _startOffset data' = offsetAmount data progress
     /\ d e' = Some (_originalPath data')
     /\ _originalPath data' <> EmptyString
     /\ (is_finite (_startOffset data') = true ->
         is_finite (_endOffset data' - _startOffset data') = true ->
         offsetAmount data' 0 = _startOffset data'
         \/ (Prim2SF (_startOffset data') = S754_zero true
             /\ offsetAmount data' 0 = 0)))
  /\ (init (PathElement e') value = None <->
      d e' = None \/ d e' = Some EmptyString).
Proof.
  intros Hr.
  assert (Ht : __gsapOffsetPath e' = Some (offsetAmount data progress)).
  { revert Hr. unfold render.
    destruct (Math_abs _ <? 0.001); [now intros [= <-] |].
    destruct (callOffsetSvgPath _ _ _ _) as [s | |];
      [| now intros [= <-] | discriminate].
    destruct (blank s); now intros [= <-]. }
  split.
  - intros data'. unfold init.
    destruct (d e') as [[| c r] |]; try discriminate.
    intros [= <-]. cbn [_startOffset _originalPath _endOffset].
    rewrite Ht. cbn [orElse].
    split; [reflexivity |]. split; [reflexivity |].
    split; [discriminate |]. unfold offsetAmount.
    cbn [_startOffset _endOffset]. apply interpolate_zero.
  - unfold init. destruct (d e') as [[| c r] |]; split;
      try discriminate; auto; intros [H | H]; discriminate.
Qed.

End Chaining.

(* ------------------------------------------------------------------ *)
(** * Repeated vertices                                            *)
(* ------------------------------------------------------------------ *)

Section RepeatedVertex.
Local Open Scope nat_scope.
Local Open Scope float_scope.
Variable L : Libm.

Lemma isZero_cases (x : float) :
  isZero x = true -> exists b, Prim2SF x = S754_zero b.
Proof.
  unfold isZero. destruct (Prim2SF x) as [b | | |]; try discriminate.
  now exists b.
Qed.

Lemma nan_unique (x : float) : is_nan x = true -> x = nan.
Proof.
  intros H. apply Prim2SF_inj. now rewrite (is_nan_Prim2SF x H).
Qed.

Lemma zero_not_nan (x : float) : isZero x = true -> is_nan x = false.
Proof.
  intros H. destruct (is_nan x) eqn:E; [| reflexivity].
  apply is_nan_Prim2SF in E. unfold isZero in H. now rewrite E in H.
Qed.

(** [x - x] is +0 for a finite [x]. *)
Lemma sub_self (x : float) : is_finite x = true -> x - x = 0.
Proof.
  intros H. apply Prim2SF_inj. rewrite sub_spec.
  change (Prim2SF 0) with (S754_zero false).
  pose proof (Prim2SF_valid x) as V.
  destruct (is_finite_cases x H) as [[s ->] | (s & m & e & E)].
  - now destruct s.
  - rewrite E in *. unfold SF64sub, SFsub.
    rewrite Z.min_id. unfold shl_align. rewrite Z.sub_diag. cbn [fst].
    replace (cond_Zopp s (Zpos m) + cond_Zopp (negb s) (Zpos m))%Z with 0%Z
      by (destruct s; cbn [cond_Zopp negb]; lia).
    reflexivity.
Qed.

(** A zero times a number is a zero, or NaN when the number is not
    finite. *)
Lemma zero_mul (z v : float) :
  isZero z = true ->
  (is_finite v = true -> isZero (z * v) = true)
  /\ (isZero (z * v) = true \/ is_nan (z * v) = true).
Proof.
  intros Hz. destruct (isZero_cases z Hz) as [b Eb].
  assert (E : Prim2SF (z * v) = SF64mul (S754_zero b) (Prim2SF v))
    by now rewrite mul_spec, Eb.
  split.
  - intros Hv. unfold isZero. rewrite E.
    destruct (is_finite_cases v Hv) as [[s ->] | (s & m & e & ->)];
      reflexivity.
  - destruct (Prim2SF v) as [s | s | | s m e] eqn:Ev; cbn in E.
    + left. unfold isZero. now rewrite E.
    + right. now apply Prim2SF_is_nan.
    + right. now apply Prim2SF_is_nan.
    + left. unfold isZero. now rewrite E.
Qed.

Lemma mul_zero (v z : float) :
  isZero z = true ->
  (is_finite v = true -> isZero (v * z) = true)
  /\ (isZero (v * z) = true \/ is_nan (v * z) = true).
Proof.
  intros Hz. destruct (isZero_cases z Hz) as [b Eb].
  assert (E : Prim2SF (v * z) = SF64mul (Prim2SF v) (S754_zero b))
    by now rewrite mul_spec, Eb.
  split.
  - intros Hv. unfold isZero. rewrite E.
    destruct (is_finite_cases v Hv) as [[s ->] | (s & m & e & ->)];
      reflexivity.
  - destruct (Prim2SF v) as [s | s | | s m e] eqn:Ev; cbn in E.
    + left. unfold isZero. now rewrite E.
    + right. now apply Prim2SF_is_nan.
    + right. now apply Prim2SF_is_nan.
    + left. unfold isZero. now rewrite E.
Qed.

Lemma zero_sub_zero (a b : float) :
  isZero a = true -> isZero b = true -> isZero (a - b) = true.
Proof.
  intros Ha Hb. destruct (isZero_cases a Ha) as [sa Ea].
  destruct (isZero_cases b Hb) as [sb Eb].
  unfold isZero. rewrite sub_spec, Ea, Eb. now destruct sa, sb.
Qed.

(** The cross product with the zero vector. *)
Lemma cross_zero (v : Pt) :
  isZero (cross (0, 0) v) = true \/ is_nan (cross (0, 0) v) = true.
Proof.
  unfold cross. cbn [fst snd].
  destruct (zero_mul 0 (snd v) eq_refl) as [_ [H1 | H1]];
    [| right; now apply nan_sub_l].
  destruct (zero_mul 0 (fst v) eq_refl) as [_ [H2 | H2]];
    [| right; now apply nan_sub_r].
  left. now apply zero_sub_zero.
Qed.

Lemma not_pos_zero (x : float) : isZero x = true -> (0 <? x) = false.
Proof.
  intros H. destruct (isZero_cases x H) as [b E].
  rewrite ltb_spec, E. now destruct b.
Qed.

Lemma not_pos_nan (x : float) : is_nan x = true -> (0 <? x) = false.
Proof.
  intros H. rewrite ltb_spec, (is_nan_Prim2SF x H). reflexivity.
Qed.

Lemma abs_zero_small (x : float) :
  isZero x = true -> (Math_abs x <? 1e-6) = true.
Proof.
  intros H. destruct (isZero_cases x H) as [b E].
  unfold Math_abs. rewrite ltb_spec, abs_spec, E. reflexivity.
Qed.

Lemma abs_nan_not_small (x : float) :
  is_nan x = true -> (Math_abs x <? 1e-6) = false.
Proof.
  intros H. unfold Math_abs.
  rewrite ltb_spec, abs_spec, (is_nan_Prim2SF x H). reflexivity.
Qed.

(** Adding a zero gives the same number. *)
Lemma add_any_zero (x z : float) : isZero z = true -> sameNumber x (x + z).
Proof.
  intros H. destruct (isZero_cases z H) as [b E]. unfold sameNumber.
  assert (Ea : Prim2SF (x + z) = SF64add (Prim2SF x) (S754_zero b))
    by now rewrite add_spec, E.
  destruct (Prim2SF x) as [s | s | | s m e] eqn:Ex.
  - destruct s, b; cbn in Ea.
    + left. apply Prim2SF_inj. now rewrite Ea, Ex.
    + right. split; apply Prim2SF_inj; [now rewrite Ex | now rewrite Ea].
    + left. apply Prim2SF_inj. now rewrite Ea, Ex.
    + left. apply Prim2SF_inj. now rewrite Ea, Ex.
  - left. apply Prim2SF_inj. now rewrite Ea, Ex.
  - left. apply Prim2SF_inj. now rewrite Ea, Ex.
  - left. apply Prim2SF_inj. now rewrite Ea, Ex.
Qed.

Lemma Math_round_nan (x : float) : is_nan x = true -> Math_round x = nan.
Proof.
  intros H. unfold Math_round. rewrite (is_nan_Prim2SF x H).
  now apply nan_unique.
Qed.

(** The edge from a vertex to itself has no direction. *)
Lemma edgeIn_repeated (pts : list Pt) (i : nat) :
  nthPt pts ((i + List.length pts - 1) mod List.length pts) = nthPt pts i ->
  is_finite (fst (nthPt pts i)) = true ->
  is_finite (snd (nthPt pts i)) = true ->
  edgeIn pts i = (0, 0).
Proof.
  intros E Hx Hy. unfold edgeIn. cbv zeta. rewrite E. unfold sub.
  cbn [fst snd].
  rewrite (sub_self _ Hx), (sub_self _ Hy). run.
Qed.

(** X18: a vertex that repeats the one before it (a path that comes back
    to its first point before it is closed, say) is not offset.  With
    finite coordinates and a finite offset the loop body gives one point
    there, whatever the join kind: the vertex itself, rounded, unless the
    bisector is not finite, and then the point (NaN, NaN). *)
Theorem repeated_vertex_stays (fuel : nat) (pts : list Pt)
  (offsetAmt : float) (joinType : JoinType) (miterLimit arcTolerance : float)
  (result : list Pt) (i : nat) :
  let n := List.length pts in
  let curr := nthPt pts i in
  let sinHalf :=
    cross (edgeIn pts i) (bisector (edgeIn pts i) (edgeOut pts i)) in
  nthPt pts ((i + n - 1) mod n) = curr ->
  is_finite (fst curr) = true -> is_finite (snd curr) = true ->
  is_finite offsetAmt = true ->
  exists p,
    joinAt L fuel pts offsetAmt joinType miterLimit arcTolerance result i
    = Some (result ++ [p])
    /\ (is_nan sinHalf = true -> p = (nan, nan))
    /\ (is_nan sinHalf = false ->
        exists x y,
          sameNumber (fst curr) x /\ sameNumber (snd curr) y
          /\ p = roundPt x y).
Proof.
  intros n curr sinHalf E Hx Hy Ha.
  pose proof (edgeIn_repeated pts i E Hx Hy) as E1.
  unfold joinAt. cbv zeta. fold sinHalf. fold curr.
  assert (Hcase : isZero sinHalf = true \/ is_nan sinHalf = true).
  { unfold sinHalf. rewrite E1. apply cross_zero. }
  assert (Hnc : notConvex (edgeIn pts i) (edgeOut pts i) offsetAmt = true).
  { unfold notConvex. cbv zeta. rewrite E1.
    replace (0 <? cross (0, 0) (edgeOut pts i)
                  * (if 0 <? offsetAmt then 1 else -1)) with false;
      [reflexivity |]. symmetry.
    destruct (cross_zero (edgeOut pts i)) as [Hz | Hn].
    - apply not_pos_zero. destruct (0 <? offsetAmt);
        now apply (zero_mul _ _ Hz).
    - apply not_pos_nan. now apply nan_mul_l. }
  rewrite Hnc. destruct Hcase as [Hz | Hn].
  - rewrite (abs_zero_small _ Hz). eexists. split; [reflexivity |].
    split; [intros H; rewrite (zero_not_nan _ Hz) in H; discriminate |].
    intros _. unfold alongNormal. rewrite E1. unfold leftNormal.
    cbn [fst snd]. eexists. eexists.
    split; [| split; [| reflexivity]]; apply add_any_zero.
    + now apply (zero_mul (- 0) offsetAmt eq_refl).
    + now apply (zero_mul 0 offsetAmt eq_refl).
  - rewrite (abs_nan_not_small _ Hn). eexists. split; [reflexivity |].
    split; [| intros H; rewrite Hn in H; discriminate].
    intros _. unfold bisectorPoint. cbv zeta. fold sinHalf.
    unfold roundPt. f_equal; apply Math_round_nan, nan_add_r, nan_mul_r;
      apply Prim2SF_is_nan; rewrite div_spec, (is_nan_Prim2SF _ Hn);
      now destruct (Prim2SF offsetAmt).
Qed.

End RepeatedVertex.

(* ------------------------------------------------------------------ *)
(** * The first frame                                              *)
(* ------------------------------------------------------------------ *)

Section FirstFrame.
Local Open Scope nat_scope.
Local Open Scope float_scope.
Variable L : Libm.
Import Plugin.

Lemma not_finite_cases (x : float) :
  is_finite x = false ->
  Prim2SF x = S754_nan \/ exists s, Prim2SF x = S754_infinity s.
Proof.
  unfold is_finite, is_nan, is_infinity.
  rewrite !FloatAxioms.eqb_spec, abs_spec.
  destruct (Prim2SF x) as [s | s | | s m e]; eauto.
  - now destruct s.
  - unfold SFeqb. rewrite SFcompare_refl by discriminate.
    change (Prim2SF infinity) with (S754_infinity false).
    cbn [SFabs SFcompare negb orb]. discriminate.
Qed.

Lemma nan_not_finite (x : float) : is_nan x = true -> is_finite x = false.
Proof. intros H. unfold is_finite. now rewrite H. Qed.

(** The interpolation from 0 at progress 0: 0 for a finite end offset, NaN
    for any other. *)
Lemma interpolate_from_zero (e : float) :
  0 + (e - 0) * 0 = if is_finite e then 0 else nan.
Proof.
  destruct (is_finite e) eqn:He.
  - assert (Hz : isZero ((e - 0) * 0) = true).
    { unfold isZero. rewrite mul_spec, sub_spec.
      destruct (is_finite_cases e He) as [[s ->] | (s & m & x & ->)];
        now destruct s. }
    destruct (isZero_cases _ Hz) as [b Eb].
    apply Prim2SF_inj. rewrite add_spec, Eb. now destruct b.
  - apply nan_unique, nan_add_r, Prim2SF_is_nan.
    rewrite mul_spec, sub_spec.
    destruct (not_finite_cases e He) as [-> | [[] ->]]; reflexivity.
Qed.

(** X19: the first frame of a tween on a target that has not been
    animated.  At progress 0 [render] returns, whatever the fuel and the
    path, and leaves [d] as [init] found it.  For a finite end offset the
    target is made visible and the offset stored is 0; for any other end
    offset the offset stored is NaN and the target is made visible unless
    its path is blank. *)
Theorem first_frame_keeps_path (fuel : nat) (e0 : Element) (value : Value)
  (data : Data) :
  init (PathElement e0) value = Some data ->
  __gsapOffsetPath e0 = None ->
  exists e',
    render L fuel 0 data e0 = Some e'
    /\ d e' = d e0
    /\ __gsapOffsetPath e'
       = Some (if is_finite (_endOffset data) then 0 else nan)
    /\ (is_finite (_endOffset data) = true
        \/ blank (_originalPath data) = false ->
        visibility e' = "visible"%string).
Proof.
  unfold init. destruct (d e0) as [[| c r] |] eqn:Ed; try discriminate.
  intros [= <-] Ht. unfold render, callOffsetSvgPath, offsetAmount.
  cbn [_startOffset _endOffset _originalPath _options].
  rewrite Ht. cbn [orElse]. rewrite interpolate_from_zero.
  set (o := match value with Number x => _ | Options o => o end).
  destruct (is_finite (offset o)) eqn:He.
  - replace (Math_abs 0 <? 0.001) with true by reflexivity.
    eexists. split; [reflexivity |]. cbn [shown d visibility __gsapOffsetPath].
    repeat split.
  - replace (Math_abs nan <? 0.001) with false by reflexivity.
    unfold offsetSvgPath.
    replace (tooSmall nan) with true by reflexivity. cbn [bind].
    destruct (blank (String c r)) eqn:Eb; eexists;
      (split; [reflexivity |]);
      cbn [shown hidden d visibility __gsapOffsetPath];
      (split; [now rewrite ?Ed |]); (split; [reflexivity |]).
    + intros [H | H]; discriminate.
    + reflexivity.
Qed.

End FirstFrame.

(* ------------------------------------------------------------------ *)
(** * More runs                                                         *)
(* ------------------------------------------------------------------ *)

Section MoreRuns.
Local Open Scope nat_scope.
Local Open Scope string_scope.
Local Open Scope float_scope.
Import Plugin.

(** The 33 characters of a square of side 100 are parsed within 33
    passes. *)
Lemma parseSvgPath_returns_witness :
  exists sps, parseSvgPath 33 "M 0 0 L 100 0 L 100 100 L 0 100 Z" = Some sps.
Proof.
  apply parseSvgPath_returns; [run | vm_compute; lia].
Defined.

(** A path that starts with a line command: the subpath gets a Move to
    the end point of that line. *)
Lemma parseSvgPath_subpaths_witness :
  parseSvgPath 20 "L 5 5 L 9 9"
  = Some [{| segs := [SegM (5, 5); SegL (5, 5); SegL (9, 9)];
             closed := false |}]
  /\ Forall (fun sp => exists m rest, segs sp = SegM m :: rest)
       [{| segs := [SegM (5, 5); SegL (5, 5); SegL (9, 9)];
           closed := false |}].
Proof.
  assert (E : parseSvgPath 20 "L 5 5 L 9 9"
              = Some [{| segs := [SegM (5, 5); SegL (5, 5); SegL (9, 9)];
                         closed := false |}]) by run.
  split; [exact E |].
  eapply Forall_impl; [| exact (parseSvgPath_subpaths _ _ _ E)].
  intros sp (m & rest & Hs & _). now exists m, rest.
Defined.

(** Path data that starts with a number. *)
Lemma parseSvgPath_no_subpath_witness :
  parseSvgPath 1 "10 20 L 30 40" = Some [].
Proof.
  exact (proj2 (parseSvgPath_no_subpath 0 "10 20 L 30 40")
           "1"%char "0 20 L 30 40" ltac:(run) ltac:(run) ltac:(run)).
Defined.

(** A Move command followed by [!]. *)
Lemma parser_never_returns_witness :
  parseSvgPath 1000 "M!" = None
  /\ offsetSvgPath refLibm 1000 "M!" 10 None None 2 0.25 None None = None.
Proof.
  destruct (proj2 (parser_never_returns refLibm 1000) "M!"
              "M"%char "!"%char EmptyString
              ltac:(run) ltac:(run) ltac:(run)) as [H1 H2].
  split; [exact H1 |]. apply H2. run.
Defined.

(** The curve of [M 0 0 C 10 10 20 20], whose end point was not read. *)
Lemma curve_with_nan_never_flat_witness :
  flattenCubic 1000 (0, 0) (10, 10) (20, 20) (nan, nan) 0.1 [(0, 0)] = None.
Proof.
  destruct (curve_with_nan_never_flat 1000 (0, 0) (10, 10) (20, 20)
              (nan, nan) 0.1 [(0, 0)] ltac:(run)) as [H _].
  exact H.
Defined.

(** A triangle with fractions in its coordinates. *)
Lemma svgToPoints_integer_points_witness :
  Forall (fun p => Math_round (fst p) = fst p /\ Math_round (snd p) = snd p)
    [(0, 0); (10500, 0); (10500, 7250)].
Proof.
  destruct (svgToPoints_integer_points 40 "M 0 0 L 10.5 0 L 10.5 7.25 Z"
              SCALE FLATTEN_TOLERANCE [(0, 0); (10500, 0); (10500, 7250)]
              ltac:(run)) as (_ & _ & H).
  eapply Forall_impl; [| exact H]. intros p (Hx & Hy & _). now split.
Defined.

(** Three points: the box is [-4, 7] by [-1, 9]. *)
Lemma bbox_of_integer_points_witness :
  exists x0 y0 x1 y1 : Z,
    toInteger (minX (bbox [(3, 9); (-4, 2); (7, -1)])) = Some x0
    /\ toInteger (minY (bbox [(3, 9); (-4, 2); (7, -1)])) = Some y0
    /\ toInteger (maxX (bbox [(3, 9); (-4, 2); (7, -1)])) = Some x1
    /\ toInteger (maxY (bbox [(3, 9); (-4, 2); (7, -1)])) = Some y1
    /\ Forall (fun z => (x0 <= fst z <= x1)%Z /\ (y0 <= snd z <= y1)%Z)
         [(3, 9); (-4, 2); (7, -1)]%Z.
Proof.
  destruct (bbox_of_integer_points [(3, 9); (-4, 2); (7, -1)]
              [(3, 9); (-4, 2); (7, -1)]%Z ltac:(run) ltac:(discriminate))
    as (x0 & y0 & x1 & y1 & H0 & H1 & H2 & H3 & _ & _ & _ & _ & H & _).
  exists x0, y0, x1, y1.
  split; [exact H0 |]. split; [exact H1 |]. split; [exact H2 |].
  split; [exact H3 | exact H].
Defined.

(** The square with miter joins and square caps: 3 vertices are visited
    and there are 4 cap points, so between 7 and 10 points. *)
Lemma offsetPolygon_without_round_witness :
  let pts := [(0, 0); (100000, 0); (100000, 100000); (0, 100000)] in
  exists r,
    offsetPolygon refLibm 0 pts 10000 JoinMiter EndSquare 2 0.25 = Some r
    /\ (7 <= List.length r <= 10)%nat.
Proof.
  intros pts.
  destruct (offsetPolygon_without_round refLibm 0 pts 10000 JoinMiter
              EndSquare 2 0.25 ltac:(simpl; lia) ltac:(discriminate)
              ltac:(discriminate)) as (r & E & H & _).
  exists r. split; [exact E | exact H].
Defined.

(** The triangle with butt ends, offset by -10: two vertices are visited,
    each gives one point, and the answer is the empty string. *)
Lemma offsetSvgPath_result_witness :
  let p := "M 0 0 L 100 0 L 50 80 Z" in
  exists pts offsetPts,
    svgToPoints 40 p SCALE FLATTEN_TOLERANCE = Some (Some pts)
    /\ offsetPolygon refLibm 40 pts (-10 * SCALE) JoinMiter EndButt 2 0.25
       = Some offsetPts
    /\ (List.length offsetPts < 3)%nat.
Proof.
  intros p.
  destruct (offsetSvgPath_result refLibm 40 p (-10) (Some JoinMiter)
              (Some EndButt) 2 0.25 None None EmptyString
              ltac:(run) ltac:(run))
    as [[_ [H | H]] | (pts & offsetPts & p0 & r & _ & _ & _ & _ & _ & _ & Hne)].
  - vm_compute in H. discriminate.
  - exact H.
  - now destruct Hne.
Defined.

(** The square with bevel joins, offset by -60. *)
Lemma never_empty_without_round_witness :
  let p := "M 0 0 L 100 0 L 100 100 L 0 100 Z" in
  exists s,
    offsetSvgPath refLibm 40 p (-60) (Some JoinBevel) (Some EndPolygon)
      2 0.25 None None = Some s
    /\ s <> EmptyString.
Proof.
  intros p.
  apply (never_empty_without_round refLibm 40 p (-60) JoinBevel
           EndPolygon 2 0.25 None None
           [(0, 0); (100000, 0); (100000, 100000); (0, 100000)]);
    first [run | discriminate].
Defined.

(** The square with miter joins. *)
Lemma polyline_always_answered_witness :
  exists s,
    offsetSvgPath refLibm 33 "M 0 0 L 100 0 L 100 100 L 0 100 Z" 10
      (Some JoinMiter) (Some EndPolygon) 2 0.25 None None = Some s.
Proof.
  apply polyline_always_answered;
    first [run | discriminate | vm_compute; lia].
Defined.

(** The square whose path comes back to (0, 0) before it is closed: the
    first vertex repeats the last one and stays where it is. *)
Lemma repeated_vertex_stays_witness :
  let pts :=
    [(0, 0); (100000, 0); (100000, 100000); (0, 100000); (0, 0)] in
  joinAt refLibm 0 pts (-10000) JoinMiter 2 0.25 [] 0 = Some [(0, 0)]
  /\ offsetPolygon refLibm 0 pts (-10000) JoinMiter EndPolygon 2 0.25
     = Some [(0, 0); (110000, -10000); (110000, 110000); (-10000, 110000);
             (-10000, 0)].
Proof.
  intros pts. split; [| run].
  destruct (repeated_vertex_stays refLibm 0 pts (-10000) JoinMiter 2 0.25
              [] 0 ltac:(run) ltac:(run) ltac:(run) ltac:(run))
    as (p & E & _ & H).
  destruct (H ltac:(run)) as (x & y & Hx & Hy & ->).
  rewrite E.
  assert (Ex : x = 0) by (destruct Hx as [-> | [_ ->]]; reflexivity).
  assert (Ey : y = 0) by (destruct Hy as [-> | [_ ->]]; reflexivity).
  rewrite Ex, Ey. reflexivity.
Defined.


(** After a frame that hid the target, [kill] brings the path back and
    leaves the target hidden. *)
Lemma kill_restores_path_witness :
  let fresh :=
    {| d := Some "M 0 0 L 100 0 L 100 100 L 0 100 Z";
       visibility := EmptyString; __gsapOffsetPath := None |} in
  let tween :=
    {| _originalPath := "M 0 0 L 100 0 L 100 100 L 0 100 Z";
       _options := {| joinType' := JoinRound; endType' := EndPolygon;
                      miterLimit' := 2; arcTolerance' := 0.25;
                      originX' := None; originY' := None |};
       _startOffset := 0; _endOffset := -10 |} in
  kill tween {| d := Some "M 1 1"; visibility := "hidden";
                __gsapOffsetPath := Some (-10) |}
  = {| d := Some "M 0 0 L 100 0 L 100 100 L 0 100 Z";
       visibility := "hidden"; __gsapOffsetPath := Some (-10) |}.
Proof.
  intros fresh tween.
  destruct (kill_restores_path fresh (Number (-10)) tween eq_refl)
    as [_ H].
  apply H.
Defined.

(** A second tween, back to 0, started after the last frame of the first:
    it starts at -10 and takes the offset path as the path to offset.  On
    the curve that lacks its end point the first tween ends in the handler:
    the second starts at -10 as well, on the path as it was. *)
Lemma chained_tween_witness :
  let fresh :=
    {| d := Some "M 0 0 L 100 0 L 100 100 L 0 100 Z";
       visibility := EmptyString; __gsapOffsetPath := None |} in
  let tween :=
    {| _originalPath := "M 0 0 L 100 0 L 100 100 L 0 100 Z";
       _options := {| joinType' := JoinRound; endType' := EndPolygon;
                      miterLimit' := 2; arcTolerance' := 0.25;
                      originX' := None; originY' := None |};
       _startOffset := 0; _endOffset := -10 |} in
  let curve :=
    {| d := Some "M 0 0 C 10 10 20 20";
       visibility := "visible"; __gsapOffsetPath := None |} in
  let tween' :=
    {| _originalPath := "M 0 0 C 10 10 20 20";
       _options := {| joinType' := JoinRound; endType' := EndPolygon;
                      miterLimit' := 2; arcTolerance' := 0.25;
                      originX' := None; originY' := None |};
       _startOffset := 0; _endOffset := -10 |} in
  (exists e' data',
     render refLibm 40 1 tween fresh = Some e'
     /\ init (PathElement e') (Number 0) = Some data'
     /\ _startOffset data' = -10
     /\ _originalPath data'
        = "M -10.00 -10.00 L 110.00 -10.00 L 110.00 110.00 L -10.00 110.00 Z"
     /\ offsetAmount data' 0 = -10)
  /\ (exists e' data',
        render refLibm 40 1 tween' curve = Some e'
        /\ visibility e' = "hidden"
        /\ init (PathElement e') (Number 0) = Some data'
        /\ _startOffset data' = -10
        /\ _originalPath data' = "M 0 0 C 10 10 20 20"
        /\ offsetAmount data' 0 = -10).
Proof.
  intros fresh tween curve tween'. split.
  - destruct (render refLibm 40 1 tween fresh) as [e' |] eqn:E;
      [| vm_compute in E; discriminate].
    destruct (chained_tween refLibm 40 1 tween fresh e' (Number 0) E)
      as [H _].
    vm_compute in E. injection E as <-.
    eexists. eexists. split; [reflexivity |]. split; [reflexivity |].
    destruct (H _ eq_refl) as (Hs & _ & _ & H0).
    split; [run |]. split; [reflexivity |].
    destruct (H0 ltac:(run) ltac:(run)) as [-> | [Hz _]]; [run |].
    vm_compute in Hz. discriminate.
  - destruct (render refLibm 40 1 tween' curve) as [e' |] eqn:E;
      [| vm_compute in E; discriminate].
    destruct (chained_tween refLibm 40 1 tween' curve e' (Number 0) E)
      as [H _].
    vm_compute in E. injection E as <-.
    eexists. eexists. split; [reflexivity |]. split; [reflexivity |].
    split; [reflexivity |].
    destruct (H _ eq_refl) as (Hs & _ & _ & H0).
    split; [run |]. split; [reflexivity |].
    destruct (H0 ltac:(run) ltac:(run)) as [-> | [Hz _]]; [run |].
    vm_compute in Hz. discriminate.
Defined.

(** A target whose path the parser cannot get through: the first frame of
    a tween to 25 returns all the same and shows the path. *)
Lemma first_frame_keeps_path_witness :
  let fresh :=
    {| d := Some "M#"; visibility := "hidden"; __gsapOffsetPath := None |} in
  let tween :=
    {| _originalPath := "M#";
       _options := {| joinType' := JoinRound; endType' := EndPolygon;
                      miterLimit' := 2; arcTolerance' := 0.25;
                      originX' := None; originY' := None |};
       _startOffset := 0; _endOffset := 25 |} in
  exists e',
    render refLibm 0 0 tween fresh = Some e'
    /\ d e' = Some "M#"
    /\ visibility e' = "visible".
Proof.
  intros fresh tween.
  destruct (first_frame_keeps_path refLibm 0 fresh (Number 25) tween
              eq_refl eq_refl) as (e' & E & Hd & _ & Hv).
  exists e'. split; [exact E |]. split; [exact Hd |].
  apply Hv. left. run.
Defined.

End MoreRuns.
